(* ===== verification/_CoqProject ===== *)
-Q . S2P
Prelude.v
Api.v
ByteQueue.v
RingBuffer.v
RingPipe.v
PipeThreads.v
FixedBuf.v
EventQueue.v
QuicheApi.v
QuicheReference.v
Acceptor.v
UnitTests.v
Utils.v
Connection.v
ConnFacts.v
ConnLock.v
ConnEvents.v
Group.v
GroupSafety.v
GroupMethods.v
GroupRetry.v
GroupEvents.v
UdpSocket.v
MioGroup.v
MioSafety.v
MioPoll.v
FuturesGroup.v
FuturesTasks.v
FuturesMio.v
FuturesPanics.v
Wakeups.v
