(* ===== verification/Prelude.v ===== *)
(** * Verification of 0rtt: a poll-style QUIC library over quiche

    The repository builds, on the third-party QUIC implementation [quiche], a library that
    keeps many connections in one group and reports their progress as readiness events.
    This development models its crates in Rocq and proves what makes them correct.

    ** The program and its model

    Each file models one source file (paths under src/crates/); it starts with the data and
    the operations, translated statement by statement, followed by their properties.

    - [Prelude] (this file): executions [exec], whose outcomes are a value, a panic and
      exhausted fuel; total correctness [m ⇓ P] and partial correctness
      [yields m P]; 64-bit arithmetic; slices; tactics.
    - [Api]: api/src/lib.rs.  Errors and their conversions, stream ids, tokens, events.
    - [Acceptor]: api/src/acceptor.rs.  Retry tokens ([mint_retry_token],
      [validate_address]) and the decision of [Acceptor::handshake].
    - [ByteQueue]: the specification of a bounded byte queue, [Queue.q_read] and
      [Queue.q_write], and the interface [BoundedBuffer] with its laws.
    - [RingBuffer]: ringbuff/src/ringbuf.rs, an instance of that interface.
    - [RingPipe] and [PipeThreads]: ringbuff/src/pipe.rs.  The pipe is written against the
      interface; [PipeThreads.SpinLock] interleaves its callers under the spin lock.
    - [FixedBuf]: fixedbuf/src/lib.rs.
    - [UnitTests]: the test modules of ringbuf.rs, pipe.rs, fixedbuf and acceptor.rs, translated
      and run on the models.
    - [EventQueue]: poll/src/readiness.rs, over the contract [PriorityQueueLaws] of the
      crate priority_queue.  [schedule] abstracts a queue to a map from events to deadlines.
    - [QuicheApi]: quiche as an interface ([QuicheOps], [QuicheEndpoint]) and the documented
      facts that the source relies on ([QuicheLaws], [QuicheEndpointLaws]).
    - [Utils]: poll/src/utils.rs, the timers.
    - [Connection]: poll/src/conn.rs, the lock of a connection and the handlers that its
      release runs.  [ConnFacts] specifies each handler, [unlock_spec] their composition.
      [ConnLock.Session] interleaves the holders of guards; [ConnEvents] says which events
      the release makes ready.
    - [Group]: poll/src/group.rs, the tables of connections and the methods on them.
      [GroupSafety] interleaves the sections that hold a mutex; the two sections of [deregister]
      are separate steps, between which a connection is leaving.  [GroupMethods]
      composes them to the methods that use a guard; [GroupRetry] follows a refused operation
      to the release that answers it; [GroupEvents] says which events the
      group never announces.
    - [UdpSocket]: mio/src/udp.rs, the send queue of a UDP socket ([QuicSocket]), over the
      socket of the operating system ([UdpOps], [UdpLaws]).
    - [MioGroup]: mio/src/group.rs, the event loop that moves datagrams between sockets and
      the group, and the methods that pass calls on, over mio ([MioOps]).  [MioSafety] shows
      its parts safe, [MioPoll] what they do for callers and what can stop them.
    - [FuturesGroup]: futures/src/lib.rs, wakers, queues and one poll of each future, over the
      traits of the api crate ([QuicBind]).  [FuturesTasks] interleaves tasks with the
      background thread; [FuturesMio] runs single polls and the thread, and is the instance
      of mio/src/futures.rs; [FuturesPanics] follows the events from a connection to their
      handlers in the background thread, and [Wakeups] to the tasks that wait for them.
    - [QuicheReference], [EventQueue.QueueReference], [UdpSocket.UdpReference] and
      [MioPoll.ref_mio] implement the interfaces by small
      programs; the witnesses of the theorems run on them.

    The parts call each other as in the source: [Group] calls [Connection], [EventQueue] and
    [Acceptor]; [Connection] calls [Utils], [EventQueue] and quiche; [RingPipe] calls
    [RingBuffer]; [MioGroup] calls [Group] and [UdpSocket]; [FuturesGroup] calls a [QuicBind],
    which [FuturesMio.mio_quic_bind] makes of [MioGroup].

    ** Conventions

    A method takes its object [self] and returns the updated one.  [usize] and [u64] are
    64-bit integers in [Z]; an addition or subtraction that overflows panics or wraps around
    according to [OverflowChecks], and every theorem holds for both profiles.  Calls to
    quiche replace an abstract state [Connection]; a proposition [conn_steps c c'] relates
    the states before and after any number of calls.  [Instant::now()] is an argument, or a
    clock that the [n]-th read consults.  Logging is left out.  Hash sets are iterated in an
    unspecified order ([HashIter]).  Loops carry fuel: the number of queued items in
    [Readiness::poll], the number of connections in the token search of [register], and the
    backlog of quiche's iterators in [handle_stream_state_changed]; that this suffices is
    part of each theorem, since [NoFuel] satisfies no [⇓].  The thread that polls mio shares
    the group with other threads: before its [k]-th entry they change it by [others k], and a
    parked poller is one that enters again.  Its loops over waiting datagrams and over busy
    connections carry fuel: the datagrams that wait at a socket, and the number of entries
    after which the other threads have once released all guards ([MioSafety.cooperative],
    [MioSafety.ready]).  [MioGroup.poll] may wait for ever, as the source does; its fuel
    counts rounds, and [poll_reports] says when it needs none.

    ** What is proved

    - Ring buffer: refinement of the bounded queue for every sequence of calls, first-in
      first-out delivery, the zero-copy views, exact panics of [readable_consume].
    - Pipe: first-in first-out delivery, wake-ups, behaviour after close, linearizability of
      concurrent callers, progress of the spin lock.
    - Readiness queue: refinement of a map from events to deadlines for every sequence of calls;
      [poll] hands out exactly the due events and returns the next deadline.
    - Connection: lock safety over all interleavings of guards, answers to refused
      operations, the send timer, announcements of establishment, closure and streams,
      freshness of stream ids.
    - Group: no panic and consistent tables in every interleaving of sections, no lost
      unpark, an answer to every operation that was refused with [Busy], registration under a fresh token; the server's [recv_with_acceptor] returns
      on every datagram and admits only connections that the handshake accepted.
    - Acceptor: round trip and soundness of tokens, retry followed by accept, no connection
      without address validation.
    - Sockets: the queue neither loses, duplicates nor reorders datagrams and stays within its
      limit, whatever the operating system answers.
    - Event loop: every round returns and keeps group, queues and address table consistent;
      packets leave through the socket of their source address; [poll] returns the events of
      the group that are meant for its caller, in order; [bind] creates a well-formed group.
    - Futures: no wake-up is lost in any interleaving, incoming connections and streams are
      handed out in order and once, one poll maps every answer of the group faithfully, the
      shutdown of a stream ends the waits on it; over mio, an event that is due in the group
      wakes the task that waits for it, and three of the four panics of the binding are out of
      reach.
    - Unit tests: they pass in both build profiles, the fuzz target on every input, and the
      timed test of the address validator exactly if its clock stays within a second.
    - Behaviours of the source that contradict its intent: panics of the server on tokens
      from the future and on packets without token, ambiguous tags, token lifetimes cut to
      whole seconds, unannounced streams, a packet that arrives between the two sections of
      [deregister], the release of a guard of a deregistered connection, polls with empty slices; datagrams
      that end the event loop, a loop that sleeps while a packet is ready, a datagram that
      blocks its socket; a background thread that [stop] does not stop, a connect that never
      fails, an [unwrap] that races with closure.

    ** Bounds

    The interleaving theorems bound the number of sections by 2^32 (tokens are [u32]) and
    the number of operations by about 2^62 (lock counters and stream ids are [u64]); no
    counter overflows within them.

    ** Not modelled

    The operating system's sockets, mio and quiche are interfaces.  The traffic counters of a
    socket and its registration with mio ([Source]), the spawning of the background thread and
    its sleep until a deadline are left out; a wake-up of mio by [Waker::wake] shows only as
    an event of the round it ends.  The re-exporting crates,
    [Debug] and [Display] instances and the integration tests, which need real sockets, are
    left out.  Data races that unsafe code
    could cause through aliased references are outside a model of this kind; the lock
    theorems say when two guards coexist. *)
From stdpp Require Export base tactics gmap sets list list_numbers strings countable fin_maps.
From Stdlib Require Export ZArith Lia.
From Stdlib Require Export Init.Byte.

#[global] Open Scope Z_scope.

#[global] Instance byte_inhabited : Inhabited byte := populate x00.
#[global] Instance byte_eq_dec : EqDecision byte := Byte.byte_eq_dec.
#[global] Program Instance byte_countable : Countable byte :=
  inj_countable Byte.to_N Byte.of_N _.
Next Obligation. intros x. apply Byte.of_to_N. Qed.

(** * Executions: values, panics and exhausted fuel *)

Inductive exec (A : Type) : Type :=
| Ret (a : A)
| Panic
| NoFuel.
Arguments Ret {A} _.
Arguments Panic {A}.
Arguments NoFuel {A}.

#[global] Instance exec_ret : MRet exec := @Ret.
#[global] Instance exec_bind : MBind exec := λ A B f m,
  match m with
  | Ret a => f a
  | Panic => Panic
  | NoFuel => NoFuel
  end.

Definition assert (b : bool) : exec unit := if b then Ret tt else Panic.

Definition unwrap {A} (o : option A) : exec A :=
  match o with Some a => Ret a | None => Panic end.

(** Total correctness: the execution returns a value that satisfies [P]. *)
Definition wp {A} (m : exec A) (P : A → Prop) : Prop :=
  match m with Ret a => P a | Panic => False | NoFuel => False end.

(** Rust's [Result]. *)
Inductive result (A E : Type) : Type :=
| Ok (a : A)
| Err (e : E).
Arguments Ok {A E} _.
Arguments Err {A E} _.

(** Rust's [Poll]. *)
Inductive Poll (A : Type) : Type :=
| Ready (a : A)
| Pending.
Arguments Ready {A} _.
Arguments Pending {A}.

(** [std::io::ErrorKind], as far as the source distinguishes it. *)
Inductive ErrorKind := BrokenPipe | WouldBlock | NotFoundKind | OtherKind.
#[global] Instance ErrorKind_eq_dec : EqDecision ErrorKind.
Proof. solve_decision. Defined.

(** [std::io::Result], whose errors are told apart by their kind. *)
Abbreviation io_result A := (result A ErrorKind).

Section wp_rules.
Context {A B : Type}.

Lemma wp_ret (a : A) (P : A → Prop) : P a → wp (Ret a) P.
Proof. done. Qed.

Lemma wp_bind (m : exec A) (f : A → exec B) (P : B → Prop) :
  wp m (λ a, wp (f a) P) → wp (m ≫= f) P.
Proof. by destruct m. Qed.

Lemma wp_mono (m : exec A) (P Q : A → Prop) :
  wp m P → (∀ a, P a → Q a) → wp m Q.
Proof. destruct m; simpl; auto. Qed.

Lemma wp_Ret_iff (m : exec A) (P : A → Prop) :
  wp m P ↔ ∃ a, m = Ret a ∧ P a.
Proof. destruct m; simpl; split; [eauto|intros (?&[=->]&?); done|done|by intros (?&?&_)|done|by intros (?&?&_)]. Qed.

Lemma bind_Ret_inv (m : exec A) (f : A → exec B) (b : B) :
  m ≫= f = Ret b ↔ ∃ a, m = Ret a ∧ f a = Ret b.
Proof.
  destruct m; simpl; split; [eauto|intros (?&[=->]&?); done|done|by intros (?&?&_)|done|by intros (?&?&_)].
Qed.
End wp_rules.

(** Partial correctness: whatever the execution returns satisfies [P]; it may panic. *)
Definition yields {A} (m : exec A) (P : A → Prop) : Prop :=
  match m with Ret a => P a | Panic | NoFuel => True end.

Section yields_rules.
Context {A B : Type}.

Lemma yields_bind (m : exec A) (f : A → exec B) (P : B → Prop) :
  yields m (λ a, yields (f a) P) → yields (m ≫= f) P.
Proof. by destruct m. Qed.

Lemma yields_mono (m : exec A) (P Q : A → Prop) :
  yields m P → (∀ a, P a → Q a) → yields m Q.
Proof. destruct m; simpl; auto. Qed.

Lemma yields_any (m : exec A) (P : A → Prop) : (∀ a, P a) → yields m P.
Proof. destruct m; simpl; auto. Qed.

Lemma wp_yields (m : exec A) (P : A → Prop) : wp m P → yields m P.
Proof. by destruct m. Qed.

Lemma wp_and_yields (m : exec A) (P Q : A → Prop) : wp m P → yields m Q → wp m (λ a, P a ∧ Q a).
Proof. by destruct m. Qed.

Lemma yields_Ret (m : exec A) (P : A → Prop) a : yields m P → m = Ret a → P a.
Proof. by intros HP ->. Qed.
End yields_rules.

Lemma wp_assert (b : bool) (P : unit → Prop) : b = true → P tt → wp (assert b) P.
Proof. by intros ->. Qed.

#[global] Instance wp_proper {A} (m : exec A) :
  Proper (pointwise_relation A impl ==> impl) (wp m).
Proof. intros P Q HPQ HP. by eapply wp_mono. Qed.

(** * Notations of the development *)

Declare Scope rust_scope.
Delimit Scope rust_scope with rust.
#[global] Open Scope rust_scope.

(** [m ⇓ P]: the execution [m] terminates without a panic in a value of [P]. *)
Notation "m ⇓ P" := (wp m P) (at level 70, no associativity) : rust_scope.
(** The length of a slice, as the [usize] the source computes with. *)
Abbreviation zlen l := (Z.of_nat (length l)).

(** * Machine integers (64-bit target: [usize] and [u64] have the same width) *)

(** [overflow_checks] is the build profile: arithmetic overflow panics when it is
    [true] (debug builds) and wraps around when it is [false] (release builds). *)
Class OverflowChecks := overflow_checks : bool.

Definition u64_modulus : Z := 18446744073709551616.
Definition u32_modulus : Z := 4294967296.
Definition isize_max : Z := 9223372036854775807.

Definition add_u64 `{OverflowChecks} (x y : Z) : exec Z :=
  if bool_decide (x + y < u64_modulus) then Ret (x + y)
  else if overflow_checks then Panic
  else Ret (x + y - u64_modulus).

Definition sub_u64 `{OverflowChecks} (x y : Z) : exec Z :=
  if bool_decide (y ≤ x) then Ret (x - y)
  else if overflow_checks then Panic
  else Ret (x - y + u64_modulus).

(** [%] panics on a zero divisor in every profile. *)
Definition rem_u64 (x y : Z) : exec Z :=
  if bool_decide (y = 0) then Panic else Ret (x `mod` y).

Section integers.
Context `{OverflowChecks}.

Lemma add_u64_ok (x y : Z) : x + y < u64_modulus → add_u64 x y = Ret (x + y).
Proof. intros. unfold add_u64. by rewrite bool_decide_true. Qed.

Lemma sub_u64_ok (x y : Z) : y ≤ x → sub_u64 x y = Ret (x - y).
Proof. intros. unfold sub_u64. by rewrite bool_decide_true. Qed.

Lemma rem_u64_ok (x y : Z) : y ≠ 0 → rem_u64 x y = Ret (x `mod` y).
Proof. intros. unfold rem_u64. by rewrite bool_decide_false. Qed.

Lemma wp_add_u64 (x y : Z) (P : Z → Prop) :
  x + y < u64_modulus → P (x + y) → add_u64 x y ⇓ P.
Proof. intros. by rewrite add_u64_ok. Qed.

Lemma wp_sub_u64 (x y : Z) (P : Z → Prop) :
  y ≤ x → P (x - y) → sub_u64 x y ⇓ P.
Proof. intros. by rewrite sub_u64_ok. Qed.

Lemma wp_rem_u64 (x y : Z) (P : Z → Prop) :
  y ≠ 0 → P (x `mod` y) → rem_u64 x y ⇓ P.
Proof. intros. by rewrite rem_u64_ok. Qed.
End integers.

(** * Slices and ranges *)

Record Range := MkRange { range_start : Z; range_end : Z }.

(** [ExactSizeIterator::len] of a range: an inverted range is empty. *)
Definition range_len (r : Range) : Z := Z.max 0 (range_end r - range_start r).

(** [&l[a..b]]: panics when the range is inverted or runs past the slice. *)
Definition slice {A} (l : list A) (a b : Z) : exec (list A) :=
  if bool_decide (0 ≤ a ∧ a ≤ b ∧ b ≤ zlen l)
  then Ret (take (Z.to_nat (b - a)) (drop (Z.to_nat a) l)) else Panic.

(** [l[a..b].copy_from_slice(src)]: also panics when the lengths differ. *)
Definition copy_into {A} (l : list A) (a b : Z) (src : list A) : exec (list A) :=
  if bool_decide (0 ≤ a ∧ a ≤ b ∧ b ≤ zlen l ∧ zlen src = b - a)
  then Ret (take (Z.to_nat a) l ++ src ++ drop (Z.to_nat b) l) else Panic.

(** [vec![x; n]]: the allocation panics beyond [isize::MAX] bytes. *)
Definition vec_of {A} (x : A) (n : Z) : exec (list A) :=
  if bool_decide (n ≤ isize_max) then Ret (replicate (Z.to_nat n) x) else Panic.

Section slices.
Context {A : Type}.
Implicit Types l src : list A.

Lemma wp_slice l a b (P : list A → Prop) :
  0 ≤ a → a ≤ b → b ≤ zlen l →
  P (take (Z.to_nat (b - a)) (drop (Z.to_nat a) l)) → slice l a b ⇓ P.
Proof. intros. unfold slice. by rewrite bool_decide_true. Qed.

Lemma wp_copy_into l a b src (P : list A → Prop) :
  0 ≤ a → a ≤ b → b ≤ zlen l → zlen src = b - a →
  P (take (Z.to_nat a) l ++ src ++ drop (Z.to_nat b) l) → copy_into l a b src ⇓ P.
Proof. intros. unfold copy_into. by rewrite bool_decide_true. Qed.

Lemma wp_vec_of (x : A) n (P : list A → Prop) :
  n ≤ isize_max → P (replicate (Z.to_nat n) x) → vec_of x n ⇓ P.
Proof. intros. unfold vec_of. by rewrite bool_decide_true. Qed.

Lemma slice_Ret_inv l a b l' :
  slice l a b = Ret l' →
  0 ≤ a ≤ b ∧ b ≤ zlen l ∧ l' = take (Z.to_nat (b - a)) (drop (Z.to_nat a) l).
Proof. unfold slice. case_bool_decide; [intros [= <-]; tauto|done]. Qed.

(** A slice that falls on the boundaries of a concatenation. *)
Lemma slice_app (l1 l2 l3 : list A) a b :
  a = zlen l1 → b = zlen l1 + zlen l2 → slice (l1 ++ l2 ++ l3) a b = Ret l2.
Proof.
  intros -> ->. unfold slice. rewrite bool_decide_true by (rewrite !length_app; lia).
  rewrite Nat2Z.id, drop_app_length. replace (Z.to_nat _) with (length l2) by lia.
  by rewrite take_app_length.
Qed.

Lemma take_drop_split l (n m : nat) : take n l ++ take m (drop n l) = take (n + m) l.
Proof. by rewrite take_take_drop. Qed.
End slices.

Create HintDb rust.
#[export] Hint Resolve wp_ret wp_assert : rust.

(** One step of a symbolic execution: strips a bind, then applies the rule of
    the primitive at the head of the program. *)
Ltac wp_step :=
  lazymatch goal with
  | |- wp (_ ≫= _) _ => apply wp_bind
  | |- wp (Ret _) _ => apply wp_ret
  | |- wp (mret _) _ => apply wp_ret
  | |- wp (assert _) _ => apply wp_assert
  | |- wp (add_u64 _ _) _ => apply wp_add_u64
  | |- wp (sub_u64 _ _) _ => apply wp_sub_u64
  | |- wp (rem_u64 _ _) _ => apply wp_rem_u64
  | |- wp (slice _ _ _) _ => apply wp_slice
  | |- wp (copy_into _ _ _ _) _ => apply wp_copy_into
  | |- wp (vec_of _ _) _ => apply wp_vec_of
  end.
(** Runs [wp_step] as far as the arithmetic side conditions are solved by [lia]. *)
Ltac wp_steps := repeat (wp_step; try (simpl length in *; unfold u64_modulus in *; lia)).

(** Splits the [bool_decide]s and the matches on booleans of the goal. *)
Ltac case_bools := repeat case_bool_decide.
