(* ===== verification/Api.v ===== *)
(** The shared vocabulary of the crates, [crates/api/src/lib.rs]: errors and their
    conversions, stream identifiers, tokens and readiness events. *)
From S2P Require Import Prelude.

(** * Errors *)

(** [enum Error]; [Q] is [quiche::Error]. *)
Inductive Error (Q : Type) : Type :=
| Quiche (e : Q)
| Retry
| Busy
| NotFound
| ValidateAddress
| MaxStreams.
Arguments Quiche {Q} _.
Arguments Retry {Q}.
Arguments Busy {Q}.
Arguments NotFound {Q}.
Arguments ValidateAddress {Q}.
Arguments MaxStreams {Q}.

#[global] Instance Error_eq_dec `{EqDecision Q} : EqDecision (Error Q).
Proof. solve_decision. Defined.

(** [impl From<Error> for std::io::Error]: the kind of the converted error. *)
Definition io_error_kind {Q} (value : Error Q) : ErrorKind :=
  match value with
  | Quiche _ => OtherKind
  | Retry | Busy => WouldBlock
  | NotFound => NotFoundKind
  | _ => OtherKind
  end.

(** [impl WouldBlock for Result<T, Error>]. *)
Definition would_block {A Q} (self : result A (Error Q)) : Poll (result A (Error Q)) :=
  match self with
  | Err Busy | Err Retry => Pending
  | _ => Ready self
  end.

(** [impl WouldBlock for std::io::Result<T>]. *)
Definition io_would_block {A} (self : io_result A) : Poll (io_result A) :=
  match self with
  | Err WouldBlock => Pending
  | _ => Ready self
  end.

Definition map_err {A E F} (f : E → F) (r : result A E) : result A F :=
  match r with Ok a => Ok a | Err e => Err (f e) end.
Definition map_ok {A B E} (f : A → B) (r : result A E) : result B E :=
  match r with Ok a => Ok (f a) | Err e => Err e end.
Definition poll_map {A B} (f : A → B) (p : Poll A) : Poll B :=
  match p with Ready a => Ready (f a) | Pending => Pending end.

(** * Stream identifiers *)

Definition is_local (stream_id : Z) (is_server : bool) : bool :=
  bool_decide (Z.land stream_id 1 = Z.b2z is_server).

Definition is_bidi (stream_id : Z) : bool := bool_decide (Z.land stream_id 2 = 0).

Inductive StreamKind := Uni | Bidi.
#[global] Instance StreamKind_eq_dec : EqDecision StreamKind.
Proof. solve_decision. Defined.
#[global] Program Instance StreamKind_countable : Countable StreamKind :=
  inj_countable' (λ k, match k with Uni => false | Bidi => true end)
                 (λ b : bool, if b then Bidi else Uni) _.
Next Obligation. by intros []. Qed.

(** [impl From<u64> for StreamKind]. *)
Definition stream_kind (value : Z) : StreamKind := if is_bidi value then Bidi else Uni.

(** * Tokens and events *)

Record Token := MkToken { token_id : Z }.
#[global] Instance Token_eq_dec : EqDecision Token.
Proof. solve_decision. Defined.
#[global] Program Instance Token_countable : Countable Token :=
  inj_countable' token_id MkToken _.
Next Obligation. by intros []. Qed.

(** [enum EventKind]; the constructors carry the prefix [Ev]. *)
Inductive EventKind :=
| EvSend | EvRecv | EvConnected | EvAccept | EvClosed | EvStreamOpenBidi | EvStreamOpenUni
| EvStreamAccept | EvStreamSend | EvStreamRecv | EvReadLock.
#[global] Instance EventKind_eq_dec : EqDecision EventKind.
Proof. solve_decision. Defined.

Definition EventKind_encode (k : EventKind) : nat :=
  match k with
  | EvSend => 0 | EvRecv => 1 | EvConnected => 2 | EvAccept => 3 | EvClosed => 4
  | EvStreamOpenBidi => 5 | EvStreamOpenUni => 6 | EvStreamAccept => 7 | EvStreamSend => 8
  | EvStreamRecv => 9 | EvReadLock => 10
  end.
Definition EventKind_decode (n : nat) : EventKind :=
  match n with
  | 0 => EvSend | 1 => EvRecv | 2 => EvConnected | 3 => EvAccept | 4 => EvClosed
  | 5 => EvStreamOpenBidi | 6 => EvStreamOpenUni | 7 => EvStreamAccept | 8 => EvStreamSend
  | 9 => EvStreamRecv | _ => EvReadLock
  end%nat.
#[global] Program Instance EventKind_countable : Countable EventKind :=
  inj_countable' EventKind_encode EventKind_decode _.
Next Obligation. by intros []. Qed.

Record Event := MkEvent {
  ev_token : Token;
  ev_kind : EventKind;
  ev_is_server : bool;
  ev_is_error : bool;
  ev_stream_id : Z;
}.
#[global] Instance Event_eq_dec : EqDecision Event.
Proof. solve_decision. Defined.
#[global] Program Instance Event_countable : Countable Event :=
  inj_countable' (λ e, (ev_token e, ev_kind e, ev_is_server e, ev_is_error e, ev_stream_id e))
                 (λ '(t, k, s, r, i), MkEvent t k s r i) _.
Next Obligation. by intros []. Qed.

(** * Facts *)

Lemma is_local_odd id b : is_local id b = bool_decide (Z.odd id = b).
Proof.
  unfold is_local. apply bool_decide_ext.
  replace (Z.land id 1) with (id `mod` 2) by (change 1 with (Z.ones 1); by rewrite Z.land_ones).
  rewrite Zmod_odd. destruct (Z.odd id), b; simpl; split; congruence.
Qed.

Lemma is_bidi_mod id : is_bidi id = bool_decide (id `mod` 4 < 2).
Proof.
  unfold is_bidi. apply bool_decide_ext.
  assert (Z.land id 2 = Z.land (id `mod` 4) 2) as ->.
  { replace (id `mod` 4) with (Z.land id 3) by (change 3 with (Z.ones 2); by rewrite Z.land_ones).
    by rewrite <-Z.land_assoc. }
  pose proof (Z.mod_pos_bound id 4 ltac:(lia)).
  assert (id `mod` 4 = 0 ∨ id `mod` 4 = 1 ∨ id `mod` 4 = 2 ∨ id `mod` 4 = 3)
    as [->|[->|[->| ->]]] by lia; vm_compute; split; (done || by intros).
Qed.

(** The two low bits of an identifier determine its initiator and its direction. *)
Lemma stream_id_class id (server bidi : bool) :
  id `mod` 4 = Z.b2z server + 2 * Z.b2z (negb bidi) →
  is_local id server = true ∧ is_local id (negb server) = false ∧ is_bidi id = bidi.
Proof.
  intros Hid. rewrite !is_local_odd, is_bidi_mod, Hid.
  assert (Z.odd id = server) as Hodd.
  { pose proof (Z.div_mod id 4 ltac:(lia)) as Hdm. rewrite Hid in Hdm.
    replace id with (Z.b2z server + 2 * (2 * (id `div` 4) + Z.b2z (negb bidi))) by lia.
    rewrite Z.odd_add_mul_2. by destruct server. }
  rewrite Hodd. by destruct server, bidi.
Qed.

(** Converting an [Error] to [std::io::Error] commutes with [would_block]: the
    converted result would block exactly when the original does, so that [Busy]
    and [Retry], and nothing else, become [Poll::Pending] in both vocabularies. *)
Theorem would_block_commutes {A Q} (r : result A (Error Q)) :
  io_would_block (map_err io_error_kind r) = poll_map (map_err io_error_kind) (would_block r).
Proof. by destruct r as [a|[]]. Qed.
