(* ===== verification/ByteQueue.v ===== *)
(** The abstract contract of a bounded in-memory byte buffer: a FIFO queue of
    bytes with a capacity.  [crates/ringbuff/src/ringbuf.rs] implements it (see
    RingBuffer) and [crates/ringbuff/src/pipe.rs] is verified against it (see
    RingPipe). *)
From S2P Require Import Prelude.

(** * The specification: a list of bytes and a capacity *)

Module Queue.

Definition q_read (q buf : list byte) : list byte * list byte * Z :=
  let n := Z.min (zlen q) (zlen buf) in
  (drop (Z.to_nat n) q, take (Z.to_nat n) q ++ drop (Z.to_nat n) buf, n).

Definition q_write (cap : Z) (q buf : list byte) : list byte * Z :=
  let n := Z.min (cap - zlen q) (zlen buf) in
  (q ++ take (Z.to_nat n) buf, n).

(** A call made by a client, with the slice it passes, and what it observes. *)
Inductive op := OpRead (buf : list byte) | OpWrite (buf : list byte).
Inductive obs := ObsRead (buf : list byte) (n : Z) | ObsWrite (buf : list byte) (n : Z).

Definition q_step (cap : Z) (q : list byte) (o : op) : list byte * obs :=
  match o with
  | OpRead buf => let '(q', buf', n) := q_read q buf in (q', ObsRead buf' n)
  | OpWrite buf => let '(q', n) := q_write cap q buf in (q', ObsWrite buf n)
  end.

Fixpoint q_run (cap : Z) (q : list byte) (os : list op) : list byte * list obs :=
  match os with
  | [] => (q, [])
  | o :: os =>
      let '(q', ob) := q_step cap q o in
      let '(q'', obs) := q_run cap q' os in
      (q'', ob :: obs)
  end.

(** The bytes that writes may put into the queue, the bytes that they did put
    there, and the bytes that reads took out. *)
Definition offered (os : list op) : Z :=
  foldr (λ o acc, match o with OpRead _ => acc | OpWrite buf => zlen buf + acc end) 0 os.
Definition accepted (l : list obs) : list byte :=
  ob ← l; match ob with ObsWrite buf n => take (Z.to_nat n) buf | ObsRead _ _ => [] end.
Definition delivered (l : list obs) : list byte :=
  ob ← l; match ob with ObsRead buf n => take (Z.to_nat n) buf | ObsWrite _ _ => [] end.

Lemma offered_nonneg os : 0 ≤ offered os.
Proof. induction os as [|[] os IH]; simpl; lia. Qed.

Lemma delivered_cons ob l : delivered (ob :: l) = delivered [ob] ++ delivered l.
Proof. unfold delivered. by rewrite (bind_app _ [ob] l). Qed.

Lemma accepted_cons ob l : accepted (ob :: l) = accepted [ob] ++ accepted l.
Proof. unfold accepted. by rewrite (bind_app _ [ob] l). Qed.

Lemma q_step_fifo cap q o :
  let '(q', ob) := q_step cap q o in delivered [ob] ++ q' = q ++ accepted [ob].
Proof.
  destruct o as [buf|buf]; simpl; rewrite !app_nil_r; [|done].
  set (n := Z.to_nat _). rewrite take_app_le by (rewrite length_take; lia).
  rewrite take_take, Nat.min_id. apply take_drop.
Qed.

(** First in, first out, over any sequence of calls. *)
Lemma q_run_fifo cap q os :
  let '(q', l) := q_run cap q os in delivered l ++ q' = q ++ accepted l.
Proof.
  revert q. induction os as [|o os IH]; intros q; simpl; [by rewrite app_nil_r|].
  pose proof (q_step_fifo cap q o) as Hstep. destruct (q_step cap q o) as [q1 ob].
  specialize (IH q1). destruct (q_run cap q1 os) as [q2 l].
  rewrite delivered_cons, accepted_cons, <-app_assoc, IH, !app_assoc. by rewrite Hstep.
Qed.

Lemma q_step_bounded cap q o :
  zlen q ≤ cap → zlen (q_step cap q o).1 ≤ cap.
Proof.
  intros. destruct o; simpl; [rewrite length_drop|rewrite length_app, length_take]; lia.
Qed.

End Queue.

(** * The interface *)

Class BoundedBuffer (R : Type) := {
  buf_read : R → list byte → exec (R * list byte * Z);
  buf_write : R → list byte → exec (R * Z);
}.

(** [buf_repr r cap budget q]: [r] holds the bytes [q], at most [cap] of them,
    and accepts [budget] more bytes before its counters are exhausted. *)
Class BoundedBufferLaws (R : Type) `{BoundedBuffer R} := {
  buf_repr : R → Z → Z → list byte → Prop;
  buf_repr_bounded r cap budget q :
    buf_repr r cap budget q → zlen q ≤ cap ∧ 0 < cap ∧ 0 ≤ budget;
  buf_repr_weaken r cap budget n q :
    buf_repr r cap budget q → 0 ≤ n ≤ budget → buf_repr r cap (budget - n) q;
  buf_read_ok r cap budget q buf :
    buf_repr r cap budget q →
    buf_read r buf ⇓ λ '(r', buf', n),
      ∃ q', Queue.q_read q buf = (q', buf', n) ∧ buf_repr r' cap budget q';
  buf_write_ok r cap budget q buf :
    buf_repr r cap budget q → zlen buf ≤ budget →
    buf_write r buf ⇓ λ '(r', n),
      ∃ q', Queue.q_write cap q buf = (q', n) ∧ buf_repr r' cap (budget - zlen buf) q';
}.

Section refinement.
Context {R : Type} `{BoundedBufferLaws R}.
Import Queue.

(** The implementation driven by the same calls as [q_run]. *)
Definition buf_step (r : R) (o : op) : exec (R * obs) :=
  match o with
  | OpRead buf => '(r', buf', n) ← buf_read r buf; Ret (r', ObsRead buf' n)
  | OpWrite buf => '(r', n) ← buf_write r buf; Ret (r', ObsWrite buf n)
  end.

Fixpoint buf_run (r : R) (os : list op) : exec (R * list obs) :=
  match os with
  | [] => Ret (r, [])
  | o :: os =>
      '(r', ob) ← buf_step r o;
      '(r'', l) ← buf_run r' os;
      Ret (r'', ob :: l)
  end.

Lemma buf_step_refines r cap budget q o :
  buf_repr r cap budget q → offered [o] ≤ budget →
  buf_step r o ⇓ λ '(r', ob), ∃ q',
    q_step cap q o = (q', ob) ∧ buf_repr r' cap (budget - offered [o]) q'.
Proof.
  intros Hr Hb. destruct o as [buf|buf]; simpl in *; wp_step.
  - eapply wp_mono; [by apply buf_read_ok|]. intros [[r' buf'] n] (q'&Hq&Hr'). wp_step.
    exists q'. rewrite Z.sub_0_r. injection Hq as <- <- <-. done.
  - eapply wp_mono; [apply buf_write_ok; [done|lia]|]. intros [r' n] (q'&Hq&Hr'). wp_step.
    exists q'. rewrite Z.add_0_r. injection Hq as <- <-. done.
Qed.

Lemma buf_run_refines r cap budget q os :
  buf_repr r cap budget q → offered os ≤ budget →
  buf_run r os ⇓ λ '(r', l), ∃ q',
    q_run cap q os = (q', l) ∧ buf_repr r' cap (budget - offered os) q'.
Proof.
  revert r budget q. induction os as [|o os IH]; intros r budget q Hr Hb; simpl.
  { rewrite Z.sub_0_r. eauto. }
  assert (offered (o :: os) = offered [o] + offered os) as Ho
    by (destruct o; simpl; lia).
  pose proof (offered_nonneg os). wp_step.
  eapply wp_mono; [apply buf_step_refines; [done|lia]|].
  intros [r1 ob] (q1&->&Hr1). simpl. wp_step.
  eapply wp_mono; [apply IH; [done|lia]|]. intros [r2 l] (q2&->&Hr2). simpl.
  eexists. split; [done|].
  replace (budget - _) with (budget - offered [o] - offered os); [done|].
  destruct o; simpl; lia.
Qed.
End refinement.
