(* ===== verification/RingBuffer.v ===== *)
(** The in-memory ring buffer of [crates/ringbuff/src/ringbuf.rs]. *)
From S2P Require Import Prelude ByteQueue.


Module RingBuf.

Section model.
Context `{OverflowChecks}.

(** [struct RingBuf]: the two cursors are [u64]s that only grow. *)
Record RingBuf := MkRingBuf {
  memory_block : list byte;
  read_pos : Z;
  write_pos : Z;
}.

Definition set_read_pos (rb : RingBuf) (p : Z) : RingBuf :=
  MkRingBuf (memory_block rb) p (write_pos rb).
Definition set_write_pos (rb : RingBuf) (p : Z) : RingBuf :=
  MkRingBuf (memory_block rb) (read_pos rb) p.
Definition set_memory (rb : RingBuf) (m : list byte) : RingBuf :=
  MkRingBuf m (read_pos rb) (write_pos rb).

Definition with_capacity (len : Z) : exec RingBuf :=
  assert (bool_decide (0 < len));;
  block ← vec_of x00 len;
  Ret (MkRingBuf block 0 0).

Definition readable (rb : RingBuf) : exec Z :=
  sub_u64 (write_pos rb) (read_pos rb).

Definition writable (rb : RingBuf) : exec Z :=
  limit ← add_u64 (read_pos rb) (zlen (memory_block rb));
  sub_u64 limit (write_pos rb).

(** [Option<RangeTo<usize>>] is the optional end of the second part. *)
Definition writable_ranges (rb : RingBuf) (write_size : Z) : exec (Range * option Z) :=
  write_end_pos ← add_u64 (write_pos rb) write_size;
  limit ← add_u64 (read_pos rb) (zlen (memory_block rb));
  assert (negb (bool_decide (limit < write_end_pos)));;
  start ← rem_u64 (write_pos rb) (zlen (memory_block rb));
  end_ ← rem_u64 write_end_pos (zlen (memory_block rb));
  if bool_decide (write_size = 0) then Ret (MkRange start end_, None)
  else if bool_decide (start < end_) then Ret (MkRange start end_, None)
  else Ret (MkRange start (zlen (memory_block rb)), Some end_).

Definition readable_ranges (rb : RingBuf) (read_size : Z) : exec (Range * option Z) :=
  read_end_pos ← add_u64 (read_pos rb) read_size;
  assert (negb (bool_decide (write_pos rb < read_end_pos)));;
  start ← rem_u64 (read_pos rb) (zlen (memory_block rb));
  end_ ← rem_u64 read_end_pos (zlen (memory_block rb));
  if bool_decide (read_size = 0) then Ret (MkRange start end_, None)
  else if bool_decide (start < end_) then Ret (MkRange start end_, None)
  else Ret (MkRange start (zlen (memory_block rb)), Some end_).

(** [read] fills a prefix of [buf]; the result is the new ring, the new [buf]
    and the number of bytes read. Its [io::Result] is always [Ok]. *)
Definition read (rb : RingBuf) (buf : list byte) : exec (RingBuf * list byte * Z) :=
  n ← readable rb;
  let read_size := Z.min n (zlen buf) in
  if bool_decide (read_size = 0) then Ret (rb, buf, 0) else
  ranges ← readable_ranges rb read_size;
  buf' ← match ranges with
    | (first, Some second) =>
        first_part ← slice (memory_block rb) (range_start first) (range_end first);
        second_part ← slice (memory_block rb) 0 second;
        buf1 ← copy_into buf 0 (zlen first_part) first_part;
        copy_into buf1 (zlen first_part) (zlen first_part + zlen second_part) second_part
    | (first, None) =>
        first_part ← slice (memory_block rb) (range_start first) (range_end first);
        copy_into buf 0 (zlen first_part) first_part
    end;
  pos ← add_u64 (read_pos rb) read_size;
  Ret (set_read_pos rb pos, buf', read_size).

Definition write (rb : RingBuf) (buf : list byte) : exec (RingBuf * Z) :=
  n ← writable rb;
  let write_size := Z.min n (zlen buf) in
  if bool_decide (write_size = 0) then Ret (rb, 0) else
  ranges ← writable_ranges rb write_size;
  block ← match ranges with
    | (first, Some second) =>
        first_source ← slice buf 0 (range_len first);
        block1 ← copy_into (memory_block rb) (range_start first) (range_end first) first_source;
        second_part ← slice block1 0 second;
        second_source ← slice buf (zlen first_source) (zlen first_source + zlen second_part);
        copy_into block1 0 second second_source
    | (first, None) =>
        first_source ← slice buf 0 (range_len first);
        copy_into (memory_block rb) (range_start first) (range_end first) first_source
    end;
  pos ← add_u64 (write_pos rb) write_size;
  Ret (set_write_pos (set_memory rb block) pos, write_size).

(** [writable_buf] hands out the memory [range] for the caller to fill. *)
Definition writable_buf (rb : RingBuf) : exec Range :=
  n ← writable rb;
  ranges ← writable_ranges rb n;
  _ ← slice (memory_block rb) (range_start ranges.1) (range_end ranges.1);
  Ret ranges.1.

Definition readable_buf (rb : RingBuf) : exec (list byte) :=
  n ← readable rb;
  ranges ← readable_ranges rb n;
  slice (memory_block rb) (range_start ranges.1) (range_end ranges.1).

Definition readable_consume (rb : RingBuf) (amt : Z) : exec RingBuf :=
  pos ← add_u64 (read_pos rb) amt;
  assert (negb (bool_decide (write_pos rb < pos)));;
  Ret (set_read_pos rb pos).

Definition writable_consume (rb : RingBuf) (amt : Z) : exec RingBuf :=
  pos ← add_u64 (write_pos rb) amt;
  limit ← add_u64 (read_pos rb) (zlen (memory_block rb));
  assert (negb (bool_decide (limit < pos)));;
  Ret (set_write_pos rb pos).

(** What the caller of [writable_buf] does with the borrowed slice: storing
    [data] at its start. *)
Definition fill_writable (rb : RingBuf) (data : list byte) : exec RingBuf :=
  r ← writable_buf rb;
  block ← copy_into (memory_block rb) (range_start r) (range_start r + zlen data) data;
  Ret (set_memory rb block).

(** [impl std::io::Read] and [std::io::Write] for [RingBuf]; the ring writes through. *)
Definition io_read (rb : RingBuf) (buf : list byte) : exec (RingBuf * list byte * io_result Z) :=
  '(rb', buf', n) ← read rb buf;
  Ret (rb', buf', Ok n).
Definition io_write (rb : RingBuf) (buf : list byte) : exec (RingBuf * io_result Z) :=
  '(rb', n) ← write rb buf;
  Ret (rb', Ok n).
Definition io_flush (rb : RingBuf) : io_result unit := Ok ().

(** [impl AsyncRead], [AsyncBufRead] and [AsyncWrite] for [RingBuf]. *)
Definition poll_read (rb : RingBuf) (buf : list byte) : exec (RingBuf * list byte * Poll Z) :=
  '(rb', buf', n) ← read rb buf;
  Ret (rb', buf', Ready n).
Definition poll_write (rb : RingBuf) (buf : list byte) : exec (RingBuf * Poll Z) :=
  '(rb', n) ← write rb buf;
  Ret (rb', Ready n).
Definition poll_flush (rb : RingBuf) : Poll (io_result unit) := Ready (Ok ()).
Definition poll_close (rb : RingBuf) : Poll (io_result unit) := Ready (Ok ()).
Definition poll_fill_buf (rb : RingBuf) : exec (Poll (list byte)) :=
  b ← readable_buf rb;
  Ret (Ready b).
Definition consume (rb : RingBuf) (amt : Z) : exec RingBuf := readable_consume rb amt.

End model.

(** * Abstraction: the queue of bytes between the cursors *)

Definition capacity (rb : RingBuf) : Z := zlen (memory_block rb).

(** The index of the memory block that holds the absolute stream position [p]. *)
Definition cell_index (mem : list byte) (p : Z) : nat := Z.to_nat (p `mod` zlen mem).

Definition content (rb : RingBuf) : list byte :=
  (λ p, memory_block rb !!! cell_index (memory_block rb) p)
    <$> seqZ (read_pos rb) (write_pos rb - read_pos rb).

(** The invariant. [budget] is how many more bytes may ever be written before
    the 64-bit cursors reach their limit. *)
Definition ring_inv (rb : RingBuf) (budget : Z) : Prop :=
  0 < capacity rb ≤ isize_max ∧
  0 ≤ read_pos rb ≤ write_pos rb ∧ write_pos rb ≤ read_pos rb + capacity rb ∧
  0 ≤ budget ∧ write_pos rb + budget + capacity rb < u64_modulus.

(** * Circular storage *)

(** [stored mem mem' w data]: [mem'] is [mem] with [data] laid out from position [w] on. *)
Definition stored (mem mem' : list byte) (w : Z) (data : list byte) : Prop :=
  length mem' = length mem ∧
  ∀ i, 0 ≤ i < zlen mem →
    mem' !! cell_index mem (w + i) =
    if decide (i < zlen data) then data !! Z.to_nat i else mem !! cell_index mem (w + i).

(** [loaded mem r l]: [l] is what [mem] holds from position [r] on. *)
Definition loaded (mem : list byte) (r : Z) (l : list byte) : Prop :=
  ∀ i, 0 ≤ i < zlen l → l !! Z.to_nat i = mem !! cell_index mem (r + i).

Lemma mod_shift (c p i : Z) :
  0 < c → 0 ≤ i ≤ c →
  (p + i) `mod` c = if decide (p `mod` c + i < c) then p `mod` c + i else p `mod` c + i - c.
Proof.
  intros Hc Hi. pose proof (Z.mod_pos_bound p c Hc) as Hb.
  rewrite <-(Z.add_mod_idemp_l p i c) by lia. case_decide.
  - by rewrite Z.mod_small by lia.
  - symmetry. apply (Z.mod_unique_pos _ _ 1); lia.
Qed.

Lemma cell_index_shift mem p s i :
  0 < zlen mem → 0 ≤ i ≤ zlen mem → s = p `mod` zlen mem →
  Z.of_nat (cell_index mem (p + i)) = if decide (s + i < zlen mem) then s + i else s + i - zlen mem.
Proof.
  intros Hc Hi Hs. unfold cell_index. rewrite mod_shift, <-Hs by done.
  pose proof (Z.mod_pos_bound p (zlen mem) Hc). case_decide; lia.
Qed.

(** Moving the reference point by a full turn does not change the cell. *)
Lemma cell_index_turn mem p : cell_index mem (p + zlen mem) = cell_index mem p.
Proof.
  unfold cell_index. f_equal. destruct (decide (zlen mem = 0)) as [->|].
  - by rewrite Z.add_0_r.
  - rewrite <-(Z.mul_1_l (zlen mem)) at 1. by rewrite Z.mod_add.
Qed.

Lemma stored_one mem w s data :
  0 < zlen mem → s = w `mod` zlen mem → s + zlen data ≤ zlen mem →
  stored mem (take (Z.to_nat s) mem ++ data ++ drop (Z.to_nat (s + zlen data)) mem) w data.
Proof.
  intros Hc Hs Hfit. pose proof (Z.mod_pos_bound w (zlen mem) Hc). rewrite <-Hs in *.
  split. { rewrite !length_app, length_take, length_drop. lia. }
  intros i Hi. pose proof (cell_index_shift mem w s i Hc ltac:(lia) Hs) as Hk.
  assert (length (take (Z.to_nat s) mem) = Z.to_nat s) as Hlen by (rewrite length_take; lia).
  destruct (decide (s + i < zlen mem)); destruct (decide (i < zlen data)).
  - rewrite lookup_app_r by lia. rewrite lookup_app_l by lia. f_equal. lia.
  - rewrite lookup_app_r by lia. rewrite lookup_app_r by lia. rewrite lookup_drop. f_equal. lia.
  - lia.
  - rewrite lookup_app_l by lia. by rewrite lookup_take_lt by lia.
Qed.

Lemma stored_app mem m1 m2 w d1 d2 :
  0 < zlen mem → zlen d1 + zlen d2 ≤ zlen mem →
  stored mem m1 w d1 → stored m1 m2 (w + zlen d1) d2 → stored mem m2 w (d1 ++ d2).
Proof.
  intros Hc Hfit [Hl1 H1] [Hl2 H2]. split; [lia|]. intros i Hi.
  assert (Hidx : ∀ p, cell_index m1 p = cell_index mem p) by (intros; unfold cell_index; by rewrite Hl1).
  rewrite length_app. destruct (decide (i < zlen d1)).
  - specialize (H2 (i - zlen d1 + zlen mem) ltac:(lia)).
    replace (w + zlen d1 + (i - zlen d1 + zlen mem)) with (w + i + zlen mem) in H2 by lia.
    rewrite !Hidx, !cell_index_turn in H2. rewrite H2, decide_False by lia.
    rewrite H1 by lia. rewrite decide_True by lia. rewrite decide_True by lia.
    by rewrite lookup_app_l by lia.
  - specialize (H2 (i - zlen d1) ltac:(lia)).
    replace (w + zlen d1 + (i - zlen d1)) with (w + i) in H2 by lia.
    rewrite !Hidx in H2. rewrite H2. case_decide.
    + rewrite decide_True by lia. rewrite lookup_app_r by lia. f_equal. lia.
    + rewrite H1 by lia. rewrite decide_False by lia. by rewrite decide_False by lia.
Qed.

Lemma loaded_one mem r s n :
  0 < zlen mem → s = r `mod` zlen mem → 0 ≤ n → s + n ≤ zlen mem →
  loaded mem r (take (Z.to_nat n) (drop (Z.to_nat s) mem)).
Proof.
  intros Hc Hs Hn Hfit i. rewrite length_take, length_drop. intros Hi.
  pose proof (Z.mod_pos_bound r (zlen mem) Hc).
  pose proof (cell_index_shift mem r s i Hc ltac:(lia) Hs) as Hk.
  rewrite decide_True in Hk by lia.
  rewrite lookup_take_lt by lia. rewrite lookup_drop. f_equal. lia.
Qed.

Lemma loaded_app mem r l1 l2 :
  loaded mem r l1 → loaded mem (r + zlen l1) l2 → loaded mem r (l1 ++ l2).
Proof.
  intros H1 H2 i. rewrite length_app. intros Hi. destruct (decide (i < zlen l1)).
  - rewrite lookup_app_l by lia. apply H1. lia.
  - rewrite lookup_app_r by lia. specialize (H2 (i - zlen l1) ltac:(lia)).
    replace (r + zlen l1 + (i - zlen l1)) with (r + i) in H2 by lia.
    rewrite <-H2. f_equal. lia.
Qed.

Lemma length_content rb : read_pos rb ≤ write_pos rb → zlen (content rb) = write_pos rb - read_pos rb.
Proof. intros. unfold content. rewrite length_fmap, length_seqZ. lia. Qed.

Lemma content_loaded rb :
  0 < capacity rb → loaded (memory_block rb) (read_pos rb) (content rb).
Proof.
  intros Hc i Hi. assert (read_pos rb ≤ write_pos rb).
  { unfold content in Hi. rewrite length_fmap, length_seqZ in Hi. lia. }
  rewrite length_content in Hi by done.
  unfold content. rewrite list_lookup_fmap, lookup_seqZ_lt by lia. simpl.
  rewrite Z2Nat.id by lia. symmetry. apply list_lookup_lookup_total_lt.
  pose proof (Z.mod_pos_bound (read_pos rb + i) (capacity rb) Hc).
  unfold cell_index, capacity in *. lia.
Qed.

(** The content is the only list of the right length that the memory holds. *)
Lemma loaded_content rb l :
  0 < capacity rb → loaded (memory_block rb) (read_pos rb) l →
  zlen l = write_pos rb - read_pos rb → content rb = l.
Proof.
  intros Hc Hl Hlen. assert (zlen (content rb) = zlen l) as Hlen' by (rewrite length_content; lia).
  apply list_eq_same_length with (length l); [done|lia|].
  intros i x y Hi Hx Hy.
  pose proof (content_loaded rb Hc (Z.of_nat i) ltac:(lia)) as H1.
  pose proof (Hl (Z.of_nat i) ltac:(lia)) as H2.
  rewrite Nat2Z.id in *. congruence.
Qed.

(** * The operations *)

(** Where [n] bytes from position [p] live in a block of [c] bytes. *)
Definition split_ranges (c p n : Z) : Range * option Z :=
  let s := p `mod` c in
  if decide (s + n < c) then (MkRange s (s + n), None) else (MkRange s c, Some (s + n - c)).

Section operations.
Context `{OverflowChecks}.
Implicit Types (rb : RingBuf) (buf data : list byte).

Lemma readable_eq rb b : ring_inv rb b → readable rb = Ret (write_pos rb - read_pos rb).
Proof. intros (?&?&?&?&?). unfold readable. by rewrite sub_u64_ok by lia. Qed.

Lemma writable_eq rb b :
  ring_inv rb b → writable rb = Ret (read_pos rb + capacity rb - write_pos rb).
Proof.
  intros (?&?&?&?&?). unfold writable, capacity in *.
  rewrite add_u64_ok by lia. simpl. by rewrite sub_u64_ok by lia.
Qed.

Lemma readable_ranges_eq rb b n :
  ring_inv rb b → 0 ≤ n ≤ write_pos rb - read_pos rb →
  readable_ranges rb n = Ret (split_ranges (capacity rb) (read_pos rb) n).
Proof.
  intros (?&?&?&?&?) Hn. unfold readable_ranges, split_ranges, capacity in *.
  pose proof (Z.mod_pos_bound (read_pos rb) (zlen (memory_block rb)) ltac:(lia)).
  rewrite add_u64_ok by lia. simpl. rewrite (bool_decide_false (_ < _)) by lia. simpl.
  rewrite !rem_u64_ok by lia. simpl. rewrite mod_shift by lia.
  repeat (case_decide || case_bool_decide); try lia; repeat f_equal; lia.
Qed.

Lemma writable_ranges_eq rb b n :
  ring_inv rb b → 0 ≤ n ≤ read_pos rb + capacity rb - write_pos rb → n ≤ capacity rb →
  writable_ranges rb n = Ret (split_ranges (capacity rb) (write_pos rb) n).
Proof.
  intros (?&?&?&?&?) Hn Hc. unfold writable_ranges, split_ranges, capacity in *.
  pose proof (Z.mod_pos_bound (write_pos rb) (zlen (memory_block rb)) ltac:(lia)).
  do 2 (rewrite add_u64_ok by lia; simpl). rewrite (bool_decide_false (_ < _)) by lia. simpl.
  rewrite !rem_u64_ok by lia. simpl. rewrite mod_shift by lia.
  repeat (case_decide || case_bool_decide); try lia; repeat f_equal; lia.
Qed.

Lemma content_drop rb n :
  0 ≤ n ≤ write_pos rb - read_pos rb →
  content (set_read_pos rb (read_pos rb + n)) = drop (Z.to_nat n) (content rb).
Proof.
  intros Hn. unfold content; simpl. rewrite <-fmap_drop. f_equal.
  apply list_eq. intros i. rewrite lookup_drop.
  destruct (decide (Z.of_nat i < write_pos rb - (read_pos rb + n))).
  - rewrite !lookup_seqZ_lt by lia. f_equal. lia.
  - by rewrite !lookup_seqZ_ge by lia.
Qed.

Lemma ring_inv_advance_read rb b n :
  ring_inv rb b → 0 ≤ n ≤ write_pos rb - read_pos rb →
  ring_inv (set_read_pos rb (read_pos rb + n)) b.
Proof. unfold ring_inv, capacity. simpl. lia. Qed.

(** A list loaded from the read cursor is a prefix of the content. *)
Lemma loaded_prefix rb n l :
  0 < capacity rb → 0 ≤ n ≤ write_pos rb - read_pos rb → zlen l = n →
  loaded (memory_block rb) (read_pos rb) l → take (Z.to_nat n) (content rb) = l.
Proof.
  intros Hc Hn Hl Hload. pose proof (length_content rb ltac:(lia)).
  apply list_eq_same_length with (length l); [done|rewrite length_take; lia|].
  intros i x y Hi. rewrite lookup_take_lt by lia. intros Hx Hy.
  pose proof (content_loaded rb Hc (Z.of_nat i) ltac:(lia)) as H1.
  pose proof (Hload (Z.of_nat i) ltac:(lia)) as H2.
  rewrite Nat2Z.id in *. congruence.
Qed.

(** Storing [data] at the write cursor and publishing it appends it to the content. *)
Lemma stored_content rb b m data :
  ring_inv rb b → zlen data ≤ b → zlen data ≤ read_pos rb + capacity rb - write_pos rb →
  stored (memory_block rb) m (write_pos rb) data →
  let rb' := set_write_pos (set_memory rb m) (write_pos rb + zlen data) in
  content rb' = content rb ++ data ∧ ring_inv rb' (b - zlen data) ∧ capacity rb' = capacity rb.
Proof.
  intros (Hcap&Hr&Hw&Hb&Hlim) Hbud Hfit [Hlen Hst] rb'.
  assert (capacity rb' = capacity rb) as Hcap' by (unfold capacity, rb'; simpl; lia).
  pose proof (length_content rb ltac:(lia)) as Hlc.
  split_and!; [|unfold ring_inv; rewrite Hcap'; simpl; lia|done].
  apply loaded_content; [lia| |rewrite length_app; simpl; lia].
  assert (Hidx : ∀ p, cell_index m p = cell_index (memory_block rb) p)
    by (intros; unfold cell_index; by rewrite Hlen).
  intros i. rewrite length_app. simpl. intros Hi. unfold capacity in *.
  destruct (decide (i < zlen (content rb))).
  - rewrite lookup_app_l by lia. rewrite content_loaded by (unfold capacity; lia).
    specialize (Hst (read_pos rb + i + zlen (memory_block rb) - write_pos rb) ltac:(lia)).
    rewrite decide_False in Hst by lia.
    replace (write_pos rb + (read_pos rb + i + zlen (memory_block rb) - write_pos rb))
      with (read_pos rb + i + zlen (memory_block rb)) in Hst by lia.
    by rewrite Hidx, cell_index_turn in *.
  - rewrite lookup_app_r by lia. specialize (Hst (i - zlen (content rb)) ltac:(lia)).
    rewrite decide_True in Hst by lia.
    replace (write_pos rb + (i - zlen (content rb))) with (read_pos rb + i) in Hst by lia.
    rewrite Hidx. rewrite Hst. f_equal. lia.
Qed.

(** The two copies of [read]: [buf] receives the content's prefix. *)
Lemma read_copies rb n buf :
  0 < capacity rb → 0 ≤ n ≤ write_pos rb - read_pos rb → n ≤ capacity rb → n ≤ zlen buf →
  (match split_ranges (capacity rb) (read_pos rb) n with
   | (first, Some second) =>
       first_part ← slice (memory_block rb) (range_start first) (range_end first);
       second_part ← slice (memory_block rb) 0 second;
       buf1 ← copy_into buf 0 (zlen first_part) first_part;
       copy_into buf1 (zlen first_part) (zlen first_part + zlen second_part) second_part
   | (first, None) =>
       first_part ← slice (memory_block rb) (range_start first) (range_end first);
       copy_into buf 0 (zlen first_part) first_part
   end) = Ret (take (Z.to_nat n) (content rb) ++ drop (Z.to_nat n) buf).
Proof.
  intros Hc Hn Hncap Hbuf. unfold split_ranges, capacity in *.
  set (s := read_pos rb `mod` zlen (memory_block rb)).
  pose proof (Z.mod_pos_bound (read_pos rb) (zlen (memory_block rb)) Hc) as Hs. fold s in Hs.
  case_decide; simpl; unfold slice.
  - rewrite bool_decide_true by lia. simpl. unfold copy_into.
    rewrite bool_decide_true by (rewrite length_take, length_drop; lia). f_equal.
    rewrite (loaded_prefix rb n (take (Z.to_nat (s + n - s)) (drop (Z.to_nat s) (memory_block rb))));
      [|done..|rewrite length_take, length_drop; lia|apply loaded_one; [done|done|lia|lia]].
    simpl. do 2 f_equal. rewrite length_take, length_drop. lia.
  - rewrite bool_decide_true by lia. simpl. rewrite bool_decide_true by lia. simpl.
    set (l1 := take _ _). set (l2 := take (Z.to_nat (s + n - _ - 0)) _).
    assert (zlen l1 = zlen (memory_block rb) - s) as Hl1
      by (subst l1; rewrite length_take, length_drop; lia).
    assert (zlen l2 = s + n - zlen (memory_block rb)) as Hl2
      by (subst l2; rewrite length_take, length_drop; lia).
    unfold copy_into. rewrite bool_decide_true by lia. simpl.
    rewrite bool_decide_true by (rewrite !length_app, !length_drop; simpl; lia). f_equal.
    rewrite (loaded_prefix rb n (l1 ++ l2)); [|done..|rewrite length_app; lia|].
    + rewrite take_app_length' by lia. rewrite <-app_assoc. do 2 f_equal.
      rewrite drop_app_ge, drop_drop by lia. f_equal. lia.
    + apply loaded_app; [apply loaded_one; [done|done|lia|lia]|].
      apply loaded_one; [done| |lia|lia].
      symmetry. rewrite mod_shift by lia. fold s. rewrite decide_False by lia. lia.
Qed.

(** The two copies of [write] lay the prefix of [buf] out at the write cursor. *)
Lemma write_copies rb n buf :
  0 < capacity rb → 0 ≤ n ≤ capacity rb → n ≤ zlen buf →
  (match split_ranges (capacity rb) (write_pos rb) n with
   | (first, Some second) =>
       first_source ← slice buf 0 (range_len first);
       block1 ← copy_into (memory_block rb) (range_start first) (range_end first) first_source;
       second_part ← slice block1 0 second;
       second_source ← slice buf (zlen first_source) (zlen first_source + zlen second_part);
       copy_into block1 0 second second_source
   | (first, None) =>
       first_source ← slice buf 0 (range_len first);
       copy_into (memory_block rb) (range_start first) (range_end first) first_source
   end) ⇓ λ m, stored (memory_block rb) m (write_pos rb) (take (Z.to_nat n) buf).
Proof.
  intros Hc Hn Hbuf. unfold split_ranges, capacity in *.
  set (s := write_pos rb `mod` zlen (memory_block rb)).
  pose proof (Z.mod_pos_bound (write_pos rb) (zlen (memory_block rb)) Hc) as Hs. fold s in Hs.
  case_decide; unfold range_len; simpl.
  - wp_step. wp_step; [lia..|]. set (src := take _ _).
    assert (src = take (Z.to_nat n) buf) as Hsrc by (subst src; simpl; f_equal; lia).
    assert (zlen src = n) as Hlen by (rewrite Hsrc, length_take; lia).
    wp_step; [lia..|]. rewrite <-Hsrc. replace (s + n) with (s + zlen src) by lia.
    apply stored_one; [done|done|lia].
  - wp_step. wp_step; [lia..|]. set (src1 := take _ _).
    assert (src1 = take (Z.to_nat (zlen (memory_block rb) - s)) buf) as Hsrc1
      by (subst src1; simpl; f_equal; lia).
    assert (zlen src1 = zlen (memory_block rb) - s) as Hl1
      by (rewrite Hsrc1, length_take; lia).
    clearbody src1.
    wp_step. wp_step; [lia..|]. set (m1 := take _ (memory_block rb) ++ _).
    assert (stored (memory_block rb) m1 (write_pos rb) src1) as Hst1.
    { subst m1. replace (zlen (memory_block rb)) with (s + zlen src1) by lia.
      apply stored_one; [done|done|lia]. }
    pose proof (proj1 Hst1) as Hlen1.
    wp_step. wp_step; [lia..|]. wp_step.
    rewrite !length_take, !length_drop.
    wp_step; [lia..|]. set (src2 := take _ (drop _ buf)).
    assert (zlen src2 = s + n - zlen (memory_block rb)) as Hl2
      by (subst src2; rewrite length_take, length_drop; lia).
    assert (src1 ++ src2 = take (Z.to_nat n) buf) as Happ.
    { subst src1 src2. rewrite Hl1, take_drop_split. f_equal. lia. }
    clearbody src2.
    wp_step; [lia..|].
    rewrite <-Happ. eapply stored_app; [done|lia|done|].
    replace (s + n - zlen (memory_block rb)) with (0 + zlen src2) by lia.
    apply stored_one; [lia| |lia]. rewrite Hlen1.
    symmetry. rewrite mod_shift by lia. fold s. rewrite decide_False by lia. lia.
Qed.

Lemma read_spec rb b buf :
  ring_inv rb b →
  read rb buf ⇓ λ '(rb', buf', n),
    Queue.q_read (content rb) buf = (content rb', buf', n) ∧
    ring_inv rb' b ∧ capacity rb' = capacity rb.
Proof.
  intros Hinv. pose proof Hinv as (Hcap&Hr&Hw&Hb&Hlim).
  unfold read, Queue.q_read. rewrite (readable_eq rb b) by done. simpl.
  rewrite length_content by lia. set (n := Z.min _ _).
  case_bool_decide as Hn; [rewrite Hn; simpl; by rewrite !drop_0|].
  rewrite (readable_ranges_eq rb b) by (done || lia). simpl.
  rewrite read_copies by lia. simpl. rewrite add_u64_ok by lia. simpl.
  rewrite content_drop by lia. split_and!; [done| |done].
  apply ring_inv_advance_read; [done|lia].
Qed.

Lemma write_spec rb b buf :
  ring_inv rb b → zlen buf ≤ b →
  write rb buf ⇓ λ '(rb', n),
    Queue.q_write (capacity rb) (content rb) buf = (content rb', n) ∧
    ring_inv rb' (b - zlen buf) ∧ capacity rb' = capacity rb.
Proof.
  intros Hinv Hbuf. pose proof Hinv as (Hcap&Hr&Hw&Hb&Hlim).
  unfold write, Queue.q_write. rewrite (writable_eq rb b) by done. simpl.
  rewrite length_content by lia.
  replace (capacity rb - _) with (read_pos rb + capacity rb - write_pos rb) by lia.
  set (n := Z.min _ _).
  case_bool_decide as Hn.
  { rewrite Hn. simpl. rewrite app_nil_r. split_and!; [done|unfold ring_inv in *; lia|done]. }
  rewrite (writable_ranges_eq rb b) by (done || lia). simpl. wp_step.
  eapply wp_mono; [apply write_copies; lia|]. intros m Hst. simpl.
  rewrite add_u64_ok by lia. simpl.
  assert (zlen (take (Z.to_nat n) buf) = n) as Hlen by (rewrite length_take; lia).
  destruct (stored_content rb b m (take (Z.to_nat n) buf)) as (Hc&Hi&Hcap'); [done|lia|lia|done|].
  rewrite Hlen in *. rewrite Hc. split_and!; [done|unfold ring_inv in *; lia|done].
Qed.

Lemma with_capacity_spec len b :
  0 < len ≤ isize_max → 0 ≤ b → b + len < u64_modulus →
  with_capacity len ⇓ λ rb, content rb = [] ∧ ring_inv rb b ∧ capacity rb = len.
Proof.
  intros Hl Hb Hlim. unfold with_capacity. wp_step. wp_step; [by rewrite bool_decide_true by lia|].
  wp_step. wp_step; [lia|]. wp_step. unfold ring_inv, capacity. simpl.
  rewrite length_replicate. split_and!; [done|lia..].
Qed.

Lemma readable_buf_spec rb b :
  ring_inv rb b →
  readable_buf rb ⇓ λ l, l `prefix_of` content rb ∧ (content rb ≠ [] → l ≠ []).
Proof.
  intros Hinv. pose proof Hinv as (Hcap&Hr&Hw&Hb&Hlim). pose proof (length_content rb ltac:(lia)).
  unfold readable_buf. rewrite (readable_eq rb b) by done. simpl.
  rewrite (readable_ranges_eq rb b) by (done || lia). simpl. unfold split_ranges.
  set (s := read_pos rb `mod` capacity rb).
  pose proof (Z.mod_pos_bound (read_pos rb) (capacity rb) ltac:(lia)) as Hs. fold s in Hs.
  set (n := write_pos rb - read_pos rb). unfold capacity in *.
  set (k := Z.min n (zlen (memory_block rb) - s)).
  assert (take (Z.to_nat k) (content rb) = take (Z.to_nat k) (drop (Z.to_nat s) (memory_block rb))) as Hpre.
  { apply loaded_prefix; [unfold capacity; lia|lia|rewrite length_take, length_drop; lia|].
    apply loaded_one; [lia|done|lia|lia]. }
  assert (take (Z.to_nat k) (content rb) `prefix_of` content rb ∧
          (content rb ≠ [] → take (Z.to_nat k) (content rb) ≠ [])) as Hgoal.
  { split; [apply prefix_take|]. intros Hne. rewrite <-length_zero_iff_nil, length_take in *. lia. }
  rewrite Hpre in Hgoal. case_decide; simpl; (wp_step; [lia..|]);
    (replace (Z.to_nat (_ - s)) with (Z.to_nat k) by lia); done.
Qed.

Lemma writable_buf_spec rb b :
  ring_inv rb b →
  writable_buf rb ⇓ λ r,
    range_start r = write_pos rb `mod` capacity rb ∧ range_end r ≤ capacity rb ∧
    0 ≤ range_len r ≤ read_pos rb + capacity rb - write_pos rb ∧
    (read_pos rb + capacity rb ≠ write_pos rb → 0 < range_len r).
Proof.
  intros Hinv. pose proof Hinv as (Hcap&Hr&Hw&Hb&Hlim).
  unfold writable_buf. rewrite (writable_eq rb b) by done. simpl.
  rewrite (writable_ranges_eq rb b) by (done || lia). simpl. unfold split_ranges, range_len.
  pose proof (Z.mod_pos_bound (write_pos rb) (capacity rb) ltac:(lia)).
  case_decide; simpl; wp_step; unfold capacity in *; (wp_step; [lia..|]); wp_step; simpl;
    split_and!; lia || done.
Qed.

Lemma readable_consume_eq rb b amt :
  ring_inv rb b → 0 ≤ amt → read_pos rb + amt < u64_modulus →
  readable_consume rb amt =
  if bool_decide (amt ≤ zlen (content rb)) then Ret (set_read_pos rb (read_pos rb + amt)) else Panic.
Proof.
  intros Hinv Ha Hov. pose proof Hinv as (Hcap&Hr&Hw&Hb&Hlim).
  unfold readable_consume. rewrite add_u64_ok by done. simpl. rewrite length_content by lia.
  repeat case_bool_decide; simpl; first [done|lia].
Qed.

Lemma writable_consume_eq rb b amt :
  ring_inv rb b → 0 ≤ amt → write_pos rb + amt < u64_modulus →
  writable_consume rb amt =
  if bool_decide (amt ≤ capacity rb - zlen (content rb))
  then Ret (set_write_pos rb (write_pos rb + amt)) else Panic.
Proof.
  intros Hinv Ha Hov. pose proof Hinv as (Hcap&Hr&Hw&Hb&Hlim).
  unfold writable_consume. rewrite (add_u64_ok (write_pos rb)) by done. simpl. unfold capacity in *.
  rewrite add_u64_ok by lia. simpl. rewrite length_content by lia.
  repeat case_bool_decide; simpl; first [done|lia].
Qed.
End operations.

(** [RingBuf] implements the bounded buffer interface. *)
#[global] Instance ring_buffer `{OverflowChecks} : BoundedBuffer RingBuf :=
  {| buf_read := read; buf_write := write |}.

#[global] Program Instance ring_buffer_laws `{OverflowChecks} : BoundedBufferLaws RingBuf :=
  {| buf_repr rb cap b q := ring_inv rb b ∧ capacity rb = cap ∧ content rb = q |}.
Next Obligation.
  intros ? rb cap b q (Hinv&<-&<-). pose proof Hinv as (?&?&?&?&?).
  rewrite length_content by lia. lia.
Qed.
Next Obligation.
  intros ? rb cap b n q (Hinv&?&?) Hn. split_and!; [unfold ring_inv in *; lia|done|done].
Qed.
Next Obligation.
  intros ? rb cap b q buf (Hinv&<-&<-). simpl.
  eapply wp_mono; [by apply read_spec|]. intros [[rb' buf'] n] (?&?&?); eauto 10.
Qed.
Next Obligation.
  intros ? rb cap b q buf (Hinv&<-&<-) Hb. simpl.
  eapply wp_mono; [by apply write_spec|]. intros [rb' n] (?&?&?); eauto 10.
Qed.

(** * Properties *)

Section properties.
Context `{OverflowChecks}.
Import Queue.

(** C17.  The ring buffer refines the bounded FIFO queue: driven by any sequence
    of [read] and [write] calls it never panics, every call observes (bytes
    copied, count returned) what the queue of the same capacity observes, and the
    bytes between the cursors are the queue's, as long as the writes of the
    sequence fit the budget of the 64-bit cursors. *)
Theorem ring_run_refines (rb : RingBuf) (b : Z) (os : list op) :
  ring_inv rb b → offered os ≤ b →
  ∃ rb' l, buf_run rb os = Ret (rb', l) ∧
    q_run (capacity rb) (content rb) os = (content rb', l) ∧
    ring_inv rb' (b - offered os) ∧ capacity rb' = capacity rb.
Proof.
  intros Hinv Hb.
  pose proof (buf_run_refines rb (capacity rb) b (content rb) os
    (conj Hinv (conj eq_refl eq_refl)) Hb) as Hrun.
  apply wp_Ret_iff in Hrun as ([rb' l]&->&q'&Hq&Hinv'&Hcap&<-). eauto 10.
Qed.

(** First in, first out: a ring created by [with_capacity] and driven by any
    calls holds at any time exactly the bytes that writes accepted and reads did
    not deliver yet, in order, and never more than its capacity. *)
Theorem ring_fifo (len : Z) (os : list op) :
  0 < len ≤ isize_max → offered os + len < u64_modulus →
  ∃ rb rb' l, with_capacity len = Ret rb ∧ buf_run rb os = Ret (rb', l) ∧
    accepted l = delivered l ++ content rb' ∧ zlen (content rb') ≤ len.
Proof.
  intros Hlen Hoff. pose proof (offered_nonneg os).
  pose proof (with_capacity_spec len (offered os) Hlen ltac:(lia) ltac:(lia)) as Hnew.
  apply wp_Ret_iff in Hnew as (rb&Hnew&Hc&Hinv&Hcap).
  pose proof (buf_run_refines rb len (offered os) [] os
    (conj Hinv (conj Hcap Hc)) ltac:(lia)) as Hrun.
  apply wp_Ret_iff in Hrun as ([rb' l]&Hrun&q'&Hq&Hinv'&Hcap'&<-).
  pose proof (q_run_fifo len [] os) as Hfifo. rewrite Hq in Hfifo. simpl in Hfifo.
  exists rb, rb', l. split_and!; [done|done|done|].
  destruct Hinv' as (?&?&?&?&?). rewrite length_content by lia. lia.
Qed.

(** The block of memory that a store produces is determined by [stored]. *)
Lemma stored_unique mem m1 m2 w data :
  0 < zlen mem → stored mem m1 w data → stored mem m2 w data → m1 = m2.
Proof.
  intros Hc [Hl1 H1] [Hl2 H2]. apply list_eq_same_length with (length mem); [done..|].
  intros k x y Hk Hx Hy. set (i := (Z.of_nat k - w) `mod` zlen mem).
  pose proof (Z.mod_pos_bound (Z.of_nat k - w) (zlen mem) Hc) as Hi. fold i in Hi.
  assert (cell_index mem (w + i) = k) as Hcell.
  { unfold cell_index, i. rewrite Z.add_mod_idemp_r by lia.
    replace (w + (Z.of_nat k - w)) with (Z.of_nat k) by lia. rewrite Z.mod_small; lia. }
  specialize (H1 i Hi). specialize (H2 i Hi). rewrite Hcell in *. congruence.
Qed.

(** C31.  The zero-copy write path is [write]: filling the slice that
    [writable_buf] hands out and publishing it with [writable_consume] leaves the
    ring in exactly the state that [write] of the same bytes leaves it in, and
    the slice is empty only when the ring is full. *)
Theorem ring_zero_copy_write (rb : RingBuf) (b : Z) (data : list byte) :
  ring_inv rb b → zlen data ≤ b →
  ∃ r, writable_buf rb = Ret r ∧
    (zlen (content rb) < capacity rb → 0 < range_len r) ∧
    (zlen data ≤ range_len r →
     (rb1 ← fill_writable rb data; writable_consume rb1 (zlen data)) =
     ('(rb1, n) ← write rb data; Ret rb1)).
Proof.
  intros Hinv Hdata. pose proof Hinv as (Hcap&Hr&Hw&Hb&Hlim).
  pose proof (writable_buf_spec rb b Hinv) as Hbuf.
  apply wp_Ret_iff in Hbuf as (r&Hbuf&Hs&He&Hl&Hne). exists r.
  rewrite length_content by lia. split_and!; [done|intros; apply Hne; lia|intros Hfit].
  unfold fill_writable, write. rewrite Hbuf. simpl. unfold range_len, capacity in *.
  pose proof (Z.mod_pos_bound (write_pos rb) (zlen (memory_block rb)) ltac:(lia)).
  unfold copy_into at 1. rewrite bool_decide_true by lia. simpl.
  rewrite (writable_eq rb b) by done. simpl. unfold capacity.
  replace (Z.min _ (zlen data)) with (zlen data) by lia.
  set (m := _ ++ data ++ _).
  assert (stored (memory_block rb) m (write_pos rb) data) as Hst.
  { subst m. apply stored_one; [lia|done|lia]. }
  unfold writable_consume. simpl. rewrite (add_u64_ok (write_pos rb)) by lia. simpl.
  rewrite (proj1 Hst), (add_u64_ok (read_pos rb)) by lia. simpl.
  rewrite (bool_decide_false (_ < _)) by lia. simpl.
  case_bool_decide as Hz.
  - simpl. assert (data = []) as -> by (by destruct data). destruct rb as [mb rp wp0]; simpl in *.
    unfold set_write_pos, set_memory; simpl. subst m. simpl. rewrite Z.add_0_r, Z.add_0_r, take_drop. done.
  - rewrite (writable_ranges_eq rb b) by (unfold capacity; done || lia). simpl.
    pose proof (write_copies rb (zlen data) data ltac:(unfold capacity; lia)
      ltac:(unfold capacity; lia) ltac:(lia)) as Hcopies.
    apply wp_Ret_iff in Hcopies as (m'&Hm&Hst').
    unfold range_len, capacity in *. rewrite Hm. simpl.
    rewrite Nat2Z.id, firstn_all in Hst'.
    by rewrite (stored_unique (memory_block rb) m m' (write_pos rb) data ltac:(lia) Hst Hst').
Qed.

(** The zero-copy read path is [read]: [readable_buf] lends a prefix of the
    content, empty only when the ring is, and consuming it leaves the ring in the
    state that [read] into a slice of that length leaves it in, with the same bytes. *)
Theorem ring_zero_copy_read (rb : RingBuf) (b : Z) (buf : list byte) :
  ring_inv rb b →
  ∃ l, readable_buf rb = Ret l ∧ l `prefix_of` content rb ∧ (content rb ≠ [] → l ≠ []) ∧
    (length buf = length l →
     read rb buf = (rb1 ← readable_consume rb (zlen l); Ret (rb1, l, zlen l))).
Proof.
  intros Hinv. pose proof Hinv as (Hcap&Hr&Hw&Hb&Hlim).
  pose proof (readable_buf_spec rb b Hinv) as Hbuf.
  apply wp_Ret_iff in Hbuf as (l&Hbuf&Hpre&Hne). exists l. split_and!; [done..|]. intros Hlen.
  pose proof (prefix_length _ _ Hpre) as Hle. pose proof (length_content rb ltac:(lia)) as Hlc.
  assert (take (length l) (content rb) = l) as Htake.
  { destruct Hpre as [k ->]. by rewrite take_app_length. }
  unfold read. rewrite (readable_eq rb b) by done. simpl.
  replace (Z.min _ (zlen buf)) with (zlen l) by lia.
  rewrite (readable_consume_eq rb b) by (done || lia). rewrite (bool_decide_true (_ ≤ _)) by lia. simpl.
  case_bool_decide as Hz.
  - assert (l = []) as -> by (by destruct l). assert (buf = []) as -> by (by destruct buf).
    simpl. rewrite Z.add_0_r. by destruct rb.
  - rewrite (readable_ranges_eq rb b) by (done || lia). simpl.
    rewrite read_copies by lia. simpl. rewrite add_u64_ok by lia. simpl.
    rewrite Nat2Z.id, Htake, drop_ge, app_nil_r by lia. done.
Qed.

End properties.

(** * Witnesses: a full, wrapped ring of four bytes *)

Definition demo_ring : RingBuf := MkRingBuf [x05; x06; x03; x04] 2 6.
Definition demo_ops : list Queue.op :=
  [Queue.OpRead [x00; x00; x00]; Queue.OpWrite [x07; x08; x09; x0a]; Queue.OpRead [x00]].

Lemma demo_ring_inv : ring_inv demo_ring 100.
Proof. unfold ring_inv, capacity, isize_max, u64_modulus; simpl. lia. Qed.

Example ring_run_refines_witness :
  ∃ rb' l, @buf_run _ (@ring_buffer true) demo_ring demo_ops = Ret (rb', l) ∧
    Queue.q_run 4 [x03; x04; x05; x06] demo_ops = (content rb', l).
Proof.
  destruct (@ring_run_refines true demo_ring 100 demo_ops demo_ring_inv) as (rb'&l&H1&H2&_).
  - vm_compute. discriminate.
  - exists rb', l. split; [exact H1|exact H2].
Defined.

Example ring_fifo_witness :
  ∃ rb rb' l, @with_capacity 4 = Ret rb ∧ @buf_run _ (@ring_buffer true) rb demo_ops = Ret (rb', l) ∧
    Queue.accepted l = Queue.delivered l ++ content rb' ∧ zlen (content rb') ≤ 4.
Proof.
  apply (@ring_fifo true 4 demo_ops).
  - unfold isize_max. lia.
  - vm_compute. reflexivity.
Defined.

Definition demo_half : RingBuf := MkRingBuf [x05; x06; x03; x04] 3 5.

Example ring_zero_copy_write_witness :
  ∃ r, @writable_buf true demo_half = Ret r ∧
    (zlen (content demo_half) < capacity demo_half → 0 < range_len r) ∧
    (2 ≤ range_len r →
     (rb1 ← @fill_writable true demo_half [x0a; x0b]; @writable_consume true rb1 2) =
     ('(rb1, n) ← @write true demo_half [x0a; x0b]; Ret rb1)).
Proof.
  apply (@ring_zero_copy_write true demo_half 100 [x0a; x0b]).
  - unfold ring_inv, capacity, isize_max, u64_modulus; simpl. lia.
  - vm_compute. discriminate.
Defined.

Example ring_zero_copy_read_witness :
  ∃ l, @readable_buf true demo_ring = Ret l ∧ l `prefix_of` content demo_ring ∧
    (content demo_ring ≠ [] → l ≠ []) ∧
    (2%nat = length l →
     @read true demo_ring [x00; x00] =
     (rb1 ← @readable_consume true demo_ring (zlen l); Ret (rb1, l, zlen l))).
Proof. apply (@ring_zero_copy_read true demo_ring 100 [x00; x00] demo_ring_inv). Defined.

End RingBuf.
