(* ===== verification/RingPipe.v ===== *)
(** The in-memory pipe of [crates/ringbuff/src/pipe.rs]: the operations that run
    under the pipe's lock, and the task wake-ups they perform.  The pipe is
    verified against the bounded buffer interface of ByteQueue. *)
From S2P Require Import Prelude ByteQueue RingBuffer.

Module RingBufPipe.

Section model.
Context {R : Type} `{BoundedBuffer R}.
(** [std::task::Waker]s are told apart by the task they wake. *)
Context {Waker : Type}.

Record RawRingBufPipe := MkRawPipe {
  ring_buf : R;
  reader : option Waker;
  writer : option Waker;
  closed : bool;
}.

(** Every operation returns the new state, its result, and the wakers it woke,
    in order.  [waker.take()] followed by [wake()] is [option_list]. *)
Definition close (this : RawRingBufPipe) : exec (RawRingBufPipe * unit * list Waker) :=
  Ret (MkRawPipe (ring_buf this) None None true, tt,
       option_list (writer this) ++ option_list (reader this)).

Definition read (this : RawRingBufPipe) (buf : list byte) :
    exec (RawRingBufPipe * (list byte * io_result Z) * list Waker) :=
  '(rb, buf', read_size) ← buf_read (ring_buf this) buf;
  let this' := MkRawPipe rb (reader this) None (closed this) in
  let woken := option_list (writer this) in
  if bool_decide (read_size = 0) then
    if closed this then Ret (this', (buf', Err BrokenPipe), woken)
    else Ret (this', (buf', Ok 0), woken)
  else Ret (this', (buf', Ok read_size), woken).

Definition write (this : RawRingBufPipe) (buf : list byte) :
    exec (RawRingBufPipe * io_result Z * list Waker) :=
  if closed this then Ret (this, Err BrokenPipe, []) else
  '(rb, write_size) ← buf_write (ring_buf this) buf;
  let this' := MkRawPipe rb None (writer this) (closed this) in
  let woken := option_list (reader this) in
  if bool_decide (write_size = 0) then Ret (this', Ok 0, woken)
  else Ret (this', Ok write_size, woken).

Definition poll_read (this : RawRingBufPipe) (cx : Waker) (buf : list byte) :
    exec (RawRingBufPipe * (list byte * Poll (io_result Z)) * list Waker) :=
  '(rb, buf', read_size) ← buf_read (ring_buf this) buf;
  let woken := option_list (writer this) in
  if bool_decide (read_size = 0) then
    if closed this
    then Ret (MkRawPipe rb (reader this) None (closed this), (buf', Ready (Ok 0)), woken)
    else Ret (MkRawPipe rb (Some cx) None (closed this), (buf', Pending), woken)
  else Ret (MkRawPipe rb (reader this) None (closed this), (buf', Ready (Ok read_size)), woken).

Definition poll_write (this : RawRingBufPipe) (cx : Waker) (buf : list byte) :
    exec (RawRingBufPipe * Poll (io_result Z) * list Waker) :=
  if closed this then Ret (this, Ready (Ok 0), []) else
  '(rb, write_size) ← buf_write (ring_buf this) buf;
  let woken := option_list (reader this) in
  if bool_decide (write_size = 0)
  then Ret (MkRawPipe rb None (Some cx) (closed this), Pending, woken)
  else Ret (MkRawPipe rb None (writer this) (closed this), Ready (Ok write_size), woken).

(** The calls that the two handles [PipeReader] and [PipeWriter] make on the
    shared pipe; dropping a handle and [poll_close] are [Close]. *)
Inductive call :=
| Read (buf : list byte)
| Write (buf : list byte)
| PollRead (cx : Waker) (buf : list byte)
| PollWrite (cx : Waker) (buf : list byte)
| Close.

Inductive reply :=
| RRead (buf : list byte) (r : io_result Z)
| RWrite (r : io_result Z)
| RPollRead (buf : list byte) (r : Poll (io_result Z))
| RPollWrite (r : Poll (io_result Z))
| RClose.

Definition perform (this : RawRingBufPipe) (c : call) :
    exec (RawRingBufPipe * reply * list Waker) :=
  match c with
  | Read buf => '(p, (b, r), w) ← read this buf; Ret (p, RRead b r, w)
  | Write buf => '(p, r, w) ← write this buf; Ret (p, RWrite r, w)
  | PollRead cx buf => '(p, (b, r), w) ← poll_read this cx buf; Ret (p, RPollRead b r, w)
  | PollWrite cx buf => '(p, r, w) ← poll_write this cx buf; Ret (p, RPollWrite r, w)
  | Close => '(p, _, w) ← close this; Ret (p, RClose, w)
  end.

(** A sequence of calls, each with the reply it got and the tasks it woke. *)
Fixpoint perform_all (this : RawRingBufPipe) (cs : list call) :
    exec (RawRingBufPipe * list (call * reply * list Waker)) :=
  match cs with
  | [] => Ret (this, [])
  | c :: cs =>
      '(p1, r, w) ← perform this c;
      '(p2, l) ← perform_all p1 cs;
      Ret (p2, (c, r, w) :: l)
  end.

End model.
Arguments RawRingBufPipe : clear implicits.
Arguments call : clear implicits.

(** [pipe(buffered)]: both handles share this state. *)
Definition pipe `{OverflowChecks} {Waker} (buffered : Z) : exec (RawRingBufPipe RingBuf.RingBuf Waker) :=
  rb ← RingBuf.with_capacity buffered;
  Ret (MkRawPipe rb None None false).

(** * What a call offers, puts into the pipe and takes out of it *)

Section spec.
Context {Waker : Type}.

Definition offered (c : call Waker) : Z :=
  match c with Write buf | PollWrite _ buf => zlen buf | _ => 0 end.
Definition offered_all (cs : list (call Waker)) : Z := foldr (λ c acc, offered c + acc) 0 cs.

Definition put (c : call Waker) (r : reply) : list byte :=
  match c, r with
  | Write buf, RWrite (Ok n) => take (Z.to_nat n) buf
  | PollWrite _ buf, RPollWrite (Ready (Ok n)) => take (Z.to_nat n) buf
  | _, _ => []
  end.
Definition taken (r : reply) : list byte :=
  match r with
  | RRead buf (Ok n) => take (Z.to_nat n) buf
  | RPollRead buf (Ready (Ok n)) => take (Z.to_nat n) buf
  | _ => []
  end.

Definition put_all (l : list (call Waker * reply * list Waker)) : list byte :=
  e ← l; put e.1.1 e.1.2.
Definition taken_all (l : list (call Waker * reply * list Waker)) : list byte :=
  e ← l; taken e.1.2.

(** A poll with an empty slice has nothing to wait for. *)
Definition proper (c : call Waker) : bool :=
  match c with
  | PollRead _ [] | PollWrite _ [] => false
  | _ => true
  end.

Lemma call_offered_nonneg c : 0 ≤ offered c.
Proof. destruct c; simpl; lia. Qed.
Lemma offered_all_nonneg cs : 0 ≤ offered_all cs.
Proof. induction cs as [|c cs IH]; simpl; [lia|]. pose proof (call_offered_nonneg c). lia. Qed.
End spec.

Section pipe_facts.
Context {R : Type} `{BoundedBufferLaws R} {Waker : Type}.
Implicit Types (p : RawRingBufPipe R Waker) (c : call Waker) (q : list byte) (w : Waker).

(** A parked reader waits for data in an open pipe; a parked writer for room. *)
Definition parked_inv p (cap : Z) q : Prop :=
  (∀ w, reader p = Some w → q = [] ∧ closed p = false) ∧
  (∀ w, writer p = Some w → zlen q = cap ∧ closed p = false).

(** What happens to the reading side and to the writing side in one call. *)
Definition reader_served p c p' q' (woken : list Waker) : Prop :=
  ∀ w, reader p = Some w → w ∈ woken ∨
    (q' = [] ∧ closed p' = false ∧
     (reader p' = Some w ∨ ∃ cx buf, c = PollRead cx buf ∧ reader p' = Some cx)).
Definition writer_served (cap : Z) p c p' q' (woken : list Waker) : Prop :=
  ∀ w, writer p = Some w → w ∈ woken ∨
    (zlen q' = cap ∧ closed p' = false ∧
     (writer p' = Some w ∨ ∃ cx buf, c = PollWrite cx buf ∧ writer p' = Some cx)).

(** The effect of one call on the bytes of the pipe. *)
Definition data_spec p c p' r q q' : Prop :=
  taken r ++ q' = q ++ put c r ∧
  (closed p = true → closed p' = true ∧ put c r = []) ∧
  (c = Close → closed p' = true).

Lemma q_read_split q buf :
  let '(q', buf', n) := Queue.q_read q buf in
  take (Z.to_nat n) buf' ++ q' = q ∧ n = Z.min (zlen q) (zlen buf).
Proof.
  simpl. split; [|done]. rewrite take_app_le by (rewrite length_take; lia).
  rewrite take_take, Nat.min_id. apply take_drop.
Qed.

(** ** The six ways in which a call treats the parked tasks *)

Definition served (cap : Z) p c p' q' woken : Prop :=
  parked_inv p' cap q' ∧ reader_served p c p' q' woken ∧ writer_served cap p c p' q' woken.

Lemma woken_take (o : option Waker) w : o = Some w → w ∈ option_list o.
Proof. intros ->. simpl. apply list_elem_of_singleton. done. Qed.
Hint Resolve woken_take : core.

Lemma served_read cap p c q q' l rb :
  l ++ q' = q → parked_inv p cap q →
  served cap p c (MkRawPipe rb (reader p) None (closed p)) q' (option_list (writer p)).
Proof.
  intros Hs [HR HW]. assert (q = [] → q' = []) as Hnil by (intros ->; by apply app_eq_nil in Hs as [_ ->]).
  split_and!; [split; simpl; [naive_solver|done]| |]; intros w Hw; simpl; [right; naive_solver|auto].
Qed.

Lemma served_park_read cap p cx buf q rb :
  closed p = false → q = [] → parked_inv p cap q →
  served cap p (PollRead cx buf) (MkRawPipe rb (Some cx) None (closed p)) q (option_list (writer p)).
Proof.
  intros Hc -> [HR HW]. split_and!; [split; simpl; [done|done]| |]; intros w Hw; simpl; [|auto].
  right. split_and!; [done|done|]. right. eauto.
Qed.

Lemma served_write cap p c q q' rb :
  (zlen q = cap → q' = q) → parked_inv p cap q →
  served cap p c (MkRawPipe rb None (writer p) (closed p)) q' (option_list (reader p)).
Proof.
  intros Hs [HR HW]. split_and!; [split; simpl; [done|]| |]; intros w Hw; simpl; [|auto|];
    destruct (HW w Hw) as [Hq Hc]; rewrite (Hs Hq); auto.
Qed.

Lemma served_park_write cap p cx buf q rb :
  closed p = false → zlen q = cap → parked_inv p cap q →
  served cap p (PollWrite cx buf) (MkRawPipe rb None (Some cx) (closed p)) q (option_list (reader p)).
Proof.
  intros Hc Hq [HR HW]. split_and!; [split; simpl; [done|done]| |]; intros w Hw; simpl; [auto|].
  right. split_and!; [done|done|]. right. eauto.
Qed.

Lemma served_closed cap p c q woken : closed p = true → parked_inv p cap q → served cap p c p q woken.
Proof.
  intros Hc [HR HW]. split_and!; [done| |]; intros w Hw;
    [destruct (HR w Hw)|destruct (HW w Hw)]; congruence.
Qed.

Lemma served_close cap p c q rb :
  parked_inv p cap q →
  served cap p c (MkRawPipe rb None None true) q (option_list (writer p) ++ option_list (reader p)).
Proof.
  intros _. split_and!; [done| |]; intros w Hw; left; apply elem_of_app; auto.
Qed.

(** The full effect of a call on a pipe that holds [q]. *)
Definition call_post (cap b : Z) p q c (out : RawRingBufPipe R Waker * reply * list Waker) : Prop :=
  let '(p', r, woken) := out in
  ∃ q', buf_repr (ring_buf p') cap (b - offered c) q' ∧ zlen q' ≤ cap ∧
    data_spec p c p' r q q' ∧
    (proper c = true → parked_inv p cap q → served cap p c p' q' woken).

Lemma buf_read_cases (rb : R) cap b q buf :
  buf_repr rb cap b q →
  buf_read rb buf ⇓ λ '(rb', buf', n), ∃ q',
    buf_repr rb' cap (b - 0) q' ∧ zlen q' ≤ cap ∧ take (Z.to_nat n) buf' ++ q' = q ∧
    n = Z.min (zlen q) (zlen buf) ∧ (n = 0 → q' = q).
Proof.
  intros Hr. eapply wp_mono; [by apply buf_read_ok|]. intros [[rb' buf'] n] (q'&Hq&Hr').
  pose proof (q_read_split q buf) as Hs. rewrite Hq in Hs. destruct Hs as [Hs Hn].
  exists q'. rewrite Z.sub_0_r. split_and!; [done|by eapply buf_repr_bounded|done|done|].
  intros Hz. by rewrite Hz in Hs.
Qed.

Lemma buf_write_cases (rb : R) cap b q buf :
  buf_repr rb cap b q → zlen buf ≤ b →
  buf_write rb buf ⇓ λ '(rb', n), ∃ q',
    buf_repr rb' cap (b - zlen buf) q' ∧ zlen q' ≤ cap ∧ q' = q ++ take (Z.to_nat n) buf ∧
    n = Z.min (cap - zlen q) (zlen buf) ∧ (n = 0 → q' = q).
Proof.
  intros Hr Hb. eapply wp_mono; [by apply buf_write_ok|]. intros [rb' n] (q'&Hq&Hr').
  exists q'. injection Hq as <- <-.
  split_and!; [done|by eapply buf_repr_bounded|done|done|].
  intros Hz. rewrite Hz. simpl. apply app_nil_r.
Qed.

Lemma read_post cap b p q buf :
  buf_repr (ring_buf p) cap b q → perform p (Read buf) ⇓ call_post cap b p q (Read buf).
Proof.
  intros Hr. simpl. unfold read. do 2 wp_step.
  eapply wp_mono; [by apply buf_read_cases|]. intros [[rb buf'] n] (q'&Hr'&Hlen&Hs&Hn&Hz).
  assert (∀ r, taken r = take (Z.to_nat n) buf' →
    call_post cap b p q (Read buf)
      (MkRawPipe rb (reader p) None (closed p), r, option_list (writer p))) as Hpost.
  { intros r Htk. exists q'. split_and!; [done|done| |].
    - unfold data_spec. rewrite Htk, app_nil_r. naive_solver.
    - intros _. by eapply served_read. }
  case_bool_decide as Hn0; [destruct (closed p) eqn:Ec|]; simpl in *; apply Hpost; simpl; by rewrite ?Hn0.
Qed.

Lemma write_post cap b p q buf :
  buf_repr (ring_buf p) cap b q → zlen buf ≤ b →
  perform p (Write buf) ⇓ call_post cap b p q (Write buf).
Proof.
  intros Hr Hb. simpl. unfold write. destruct (closed p) eqn:Ec.
  { simpl. exists q. split_and!; [apply buf_repr_weaken; [done|simpl; lia]|by eapply buf_repr_bounded| |].
    - unfold data_spec. simpl. rewrite app_nil_r. naive_solver.
    - intros _. by apply served_closed. }
  do 2 wp_step. eapply wp_mono; [by apply buf_write_cases|]. intros [rb n] (q'&Hr'&Hlen&Hs&Hn&Hz).
  assert (∀ r, put (Write (Waker:=Waker) buf) r = take (Z.to_nat n) buf → taken r = [] →
    call_post cap b p q (Write buf)
      (MkRawPipe rb None (writer p) (closed p), r, option_list (reader p))) as Hpost.
  { intros r Hput Htk. exists q'. split_and!; [done|done| |].
    - unfold data_spec. rewrite Hput, Htk, Hs. naive_solver congruence.
    - intros _. apply served_write. intros. apply Hz. lia. }
  rewrite Ec in Hpost. case_bool_decide as Hn0; simpl; apply Hpost; simpl; by rewrite ?Hn0.
Qed.

Lemma poll_read_post cap b p q cx buf :
  buf_repr (ring_buf p) cap b q → perform p (PollRead cx buf) ⇓ call_post cap b p q (PollRead cx buf).
Proof.
  intros Hr. simpl. unfold poll_read. do 2 wp_step.
  eapply wp_mono; [by apply buf_read_cases|]. intros [[rb buf'] n] (q'&Hr'&Hlen&Hs&Hn&Hz).
  assert (∀ r, taken r = take (Z.to_nat n) buf' →
    call_post cap b p q (PollRead cx buf)
      (MkRawPipe rb (reader p) None (closed p), r, option_list (writer p))) as Hpost.
  { intros r Htk. exists q'. split_and!; [done|done| |].
    - unfold data_spec. rewrite Htk, app_nil_r. naive_solver.
    - intros _. by eapply served_read. }
  case_bool_decide as Hn0; [|simpl; apply Hpost; done].
  destruct (closed p) eqn:Ec; [simpl; apply Hpost; simpl; by rewrite Hn0|].
  simpl. exists q'. split_and!; [done|done| |].
  - unfold data_spec. simpl. rewrite app_nil_r. rewrite Hn0 in Hs. naive_solver congruence.
  - intros Hproper Hp. rewrite <-Ec. rewrite Hz in * by done. apply served_park_read; [done| |done].
    destruct buf; [done|]. destruct q; [done|]. simpl in *. lia.
Qed.

Lemma poll_write_post cap b p q cx buf :
  buf_repr (ring_buf p) cap b q → zlen buf ≤ b →
  perform p (PollWrite cx buf) ⇓ call_post cap b p q (PollWrite cx buf).
Proof.
  intros Hr Hb. simpl. unfold poll_write. destruct (closed p) eqn:Ec.
  { simpl. exists q. split_and!; [apply buf_repr_weaken; [done|simpl; lia]|by eapply buf_repr_bounded| |].
    - unfold data_spec. simpl. rewrite app_nil_r. naive_solver.
    - intros _. by apply served_closed. }
  do 2 wp_step. eapply wp_mono; [by apply buf_write_cases|]. intros [rb n] (q'&Hr'&Hlen&Hs&Hn&Hz).
  case_bool_decide as Hn0; simpl; exists q'; (split_and!; [done|done| |]).
  - unfold data_spec. simpl. rewrite Hz by done. rewrite app_nil_r. naive_solver congruence.
  - intros Hproper Hp. rewrite <-Ec. rewrite Hz in * by done. apply served_park_write; [done| |done].
    destruct buf; [done|]. apply buf_repr_bounded in Hr. simpl in *. lia.
  - unfold data_spec. simpl. rewrite Hs. naive_solver congruence.
  - intros _. rewrite <-Ec. apply served_write. intros. apply Hz. lia.
Qed.

(** Every call terminates without a panic and has the effect [call_post]. *)
Lemma perform_post cap b p q c :
  buf_repr (ring_buf p) cap b q → offered c ≤ b → perform p c ⇓ call_post cap b p q c.
Proof.
  intros Hr Hb. destruct c; simpl in Hb.
  - by apply read_post.
  - by apply write_post.
  - by apply poll_read_post.
  - by apply poll_write_post.
  - simpl. exists q. split_and!; [by rewrite Z.sub_0_r|by eapply buf_repr_bounded| |].
    + unfold data_spec. simpl. rewrite app_nil_r. naive_solver.
    + intros _. apply served_close.
Qed.

Lemma perform_all_post cap b p q (cs : list (call Waker)) :
  buf_repr (ring_buf p) cap b q → offered_all cs ≤ b →
  perform_all p cs ⇓ λ '(p', l), ∃ q',
    buf_repr (ring_buf p') cap (b - offered_all cs) q' ∧ zlen q' ≤ cap ∧
    taken_all l ++ q' = q ++ put_all l ∧
    (forallb proper cs = true → parked_inv p cap q → parked_inv p' cap q').
Proof.
  revert p b q. induction cs as [|c cs IH]; intros p b q Hr Hb; simpl in *.
  { exists q. rewrite Z.sub_0_r, app_nil_r.
    split_and!; [done|by eapply buf_repr_bounded|done|done]. }
  pose proof (call_offered_nonneg c). pose proof (offered_all_nonneg cs).
  wp_step. eapply wp_mono; [apply perform_post; [done|lia]|].
  intros [[p1 r] woken] (q1&Hr1&Hlen1&(Hd1&_)&Hp1). wp_step.
  eapply wp_mono; [apply IH; [done|lia]|]. intros [p2 l] (q2&Hr2&Hlen2&Hd2&Hp2). simpl.
  exists q2. split_and!; [by rewrite Z.sub_add_distr|done| |].
  - unfold taken_all, put_all in *. simpl. rewrite <-app_assoc, Hd2, !app_assoc. by rewrite Hd1.
  - intros [Hc Hcs]%andb_prop Hp. apply Hp2; [done|]. by destruct (Hp1 Hc Hp).
Qed.
End pipe_facts.

(** * Properties *)

Section properties.
Context `{OverflowChecks} {Waker : Type}.
Abbreviation Pipe := (RawRingBufPipe RingBuf.RingBuf Waker).
Implicit Types (cs : list (call Waker)) (c : call Waker).

Lemma pipe_new_spec buffered b :
  0 < buffered ≤ isize_max → 0 ≤ b → b + buffered < u64_modulus →
  pipe buffered ⇓ λ p : Pipe,
    buf_repr (ring_buf p) buffered b [] ∧ parked_inv p buffered [] ∧ closed p = false.
Proof.
  intros Hbuf Hb Hlim. unfold pipe. wp_step.
  eapply wp_mono; [by apply RingBuf.with_capacity_spec|]. intros rb (Hc&Hinv&Hcap).
  simpl. split_and!; [done|done|done|done|done].
Qed.

(** The pipe transports bytes first in, first out: for every sequence of
    calls of both handles (blocking or polling, closes included) on a fresh pipe,
    no call panics, and the bytes that the writing calls reported as written are
    exactly the bytes that the reading calls returned, in order, followed by the
    bytes still buffered. *)
Theorem pipe_fifo buffered cs :
  0 < buffered ≤ isize_max → offered_all cs + buffered < u64_modulus →
  ∃ (p p' : Pipe) l, pipe buffered = Ret p ∧ perform_all p cs = Ret (p', l) ∧
    put_all l = taken_all l ++ RingBuf.content (ring_buf p') ∧
    zlen (RingBuf.content (ring_buf p')) ≤ buffered.
Proof.
  intros Hbuf Hoff. pose proof (offered_all_nonneg cs).
  pose proof (pipe_new_spec buffered (offered_all cs) Hbuf ltac:(lia) ltac:(lia)) as Hnew.
  apply wp_Ret_iff in Hnew as (p&Hp&Hr&_).
  pose proof (perform_all_post _ _ p _ cs Hr ltac:(lia)) as Hall.
  apply wp_Ret_iff in Hall as ([p' l]&Hl&q&(Hinv&Hcap&<-)&Hlen&Hd&_). eauto 10.
Qed.

(** C19.  No wake-up is lost: after any calls (none of them a poll with an empty
    slice) on a fresh pipe, the next call wakes a parked reader, or leaves the
    pipe open and empty with a reader still parked; and it wakes a parked writer,
    or leaves the pipe open and full with a writer still parked. *)
Theorem pipe_no_lost_wakeup buffered cs c :
  0 < buffered ≤ isize_max → offered_all (cs ++ [c]) + buffered < u64_modulus →
  forallb proper (cs ++ [c]) = true →
  ∃ (p p1 p2 : Pipe) l r woken,
    pipe buffered = Ret p ∧ perform_all p cs = Ret (p1, l) ∧
    perform p1 c = Ret (p2, r, woken) ∧
    reader_served p1 c p2 (RingBuf.content (ring_buf p2)) woken ∧
    writer_served buffered p1 c p2 (RingBuf.content (ring_buf p2)) woken.
Proof.
  intros Hbuf Hoff Hproper. pose proof (call_offered_nonneg c). pose proof (offered_all_nonneg cs).
  rewrite forallb_app in Hproper. apply andb_prop in Hproper as [Hcs Hc]. simpl in Hc.
  rewrite andb_true_r in Hc.
  assert (offered_all (cs ++ [c]) = offered_all cs + offered c) as Hsum
    by (clear; induction cs; simpl; lia).
  pose proof (pipe_new_spec buffered (offered_all cs + offered c) Hbuf ltac:(lia) ltac:(lia)) as Hnew.
  apply wp_Ret_iff in Hnew as (p&Hp&Hr&Hpk&_).
  pose proof (perform_all_post _ _ p _ cs Hr ltac:(lia)) as Hall.
  apply wp_Ret_iff in Hall as ([p1 l]&Hl&q&Hr1&Hlen&Hd&Hpk1).
  pose proof (perform_post _ _ p1 q c Hr1 ltac:(lia)) as Hstep.
  apply wp_Ret_iff in Hstep as ([[p2 r] woken]&Hst&q2&(Hinv2&Hcap2&<-)&_&_&Hserved).
  destruct (Hserved Hc (Hpk1 Hcs Hpk)) as (_&HR&HW).
  exists p, p1, p2, l, r, woken. auto.
Qed.

(** A closed pipe drains: writes are rejected without effect, and a
    non-empty read returns the remaining bytes in order and only then reports the
    end, as [BrokenPipe] to the blocking reader and as end of file (0 bytes) to
    the polling one, which is never parked. *)
Theorem pipe_closed_drains (p : Pipe) cx b buf :
  RingBuf.ring_inv (ring_buf p) b → closed p = true → buf ≠ [] →
  write p buf = Ret (p, Err BrokenPipe, []) ∧
  poll_write p cx buf = Ret (p, Ready (Ok 0), []) ∧
  ∃ p' p'' buf' n w,
    n = Z.min (zlen (RingBuf.content (ring_buf p))) (zlen buf) ∧
    read p buf = Ret (p', (buf', if bool_decide (n = 0) then Err BrokenPipe else Ok n), w) ∧
    poll_read p cx buf = Ret (p'', (buf', Ready (Ok n)), w) ∧
    closed p' = true ∧ closed p'' = true ∧
    RingBuf.content (ring_buf p) = take (Z.to_nat n) buf' ++ RingBuf.content (ring_buf p').
Proof.
  intros Hinv Hc Hbuf. split_and!; [by unfold write; rewrite Hc|by unfold poll_write; rewrite Hc|].
  pose proof (RingBuf.read_spec (ring_buf p) b buf Hinv) as Hrd.
  apply wp_Ret_iff in Hrd as ([[rb' buf'] n]&Hrd&Hq&_).
  pose proof (q_read_split (RingBuf.content (ring_buf p)) buf) as Hs. rewrite Hq in Hs.
  destruct Hs as [Hs Hn].
  unfold read, poll_read. simpl. rewrite Hrd. simpl. rewrite Hc.
  case_bool_decide as Hz; (do 2 eexists; exists buf', n, (option_list (writer p)));
    rewrite ?bool_decide_true, ?bool_decide_false by done; rewrite ?Hz in *;
    (split_and!; [done|done|done|done|done|symmetry; exact Hs]).
Qed.

(** A poll with an empty slice parks the task although the pipe is ready:
    [poll_write] of no bytes to an open pipe returns [Pending] and registers the
    waker whatever room there is, so that only a later read or close resumes the
    task; [poll_read] of no bytes does the same whatever data there is. *)
Theorem pipe_empty_poll_parks (p : Pipe) cx b :
  RingBuf.ring_inv (ring_buf p) b → closed p = false →
  ∃ p' p'' w w', poll_write p cx [] = Ret (p', Pending, w) ∧ writer p' = Some cx ∧
    poll_read p cx [] = Ret (p'', ([], Pending), w') ∧ reader p'' = Some cx ∧
    RingBuf.content (ring_buf p') = RingBuf.content (ring_buf p).
Proof.
  intros Hinv Hc. pose proof Hinv as (?&?&?&Hb&?).
  pose proof (RingBuf.write_spec (ring_buf p) b [] Hinv Hb) as Hw.
  apply wp_Ret_iff in Hw as ([rbw nw]&Hw&Hqw&_). injection Hqw as Hqw Hnw.
  pose proof (RingBuf.length_content (ring_buf p) ltac:(lia)).
  assert (nw = 0) as -> by (simpl in *; lia).
  pose proof (RingBuf.read_spec (ring_buf p) b [] Hinv) as Hr.
  apply wp_Ret_iff in Hr as ([[rbr br] nr]&Hr&Hqr&_). injection Hqr as _ Hbr Hnr.
  assert (nr = 0) as -> by (simpl in *; lia).
  unfold poll_write, poll_read. simpl. rewrite Hw, Hr, Hc. simpl.
  assert (br = []) as ->.
  { rewrite <-Hbr. replace (Z.min _ _) with 0 by (simpl; lia). done. }
  do 4 eexists. split_and!; [done|done|done|done|]. simpl. rewrite <-Hqw.
  rewrite take_nil. apply app_nil_r.
Qed.
End properties.

(** * Witnesses: tasks are numbered *)

Definition demo_calls : list (call nat) :=
  [PollRead 1%nat [x00; x00]; Write [x0a; x0b; x0c]; PollWrite 2%nat [x0d]; PollRead 1%nat [x00; x00]; Close].

Example pipe_fifo_witness :
  ∃ p p' l, @pipe true nat 3 = Ret p ∧ perform_all (H:=@RingBuf.ring_buffer true) p demo_calls = Ret (p', l) ∧
    put_all l = taken_all l ++ RingBuf.content (ring_buf p') ∧
    zlen (RingBuf.content (ring_buf p')) ≤ 3.
Proof.
  apply (@pipe_fifo true nat 3 demo_calls).
  - unfold isize_max. lia.
  - vm_compute. reflexivity.
Defined.

Example pipe_no_lost_wakeup_witness :
  ∃ p p1 p2 l r woken,
    @pipe true nat 3 = Ret p ∧
    perform_all (H:=@RingBuf.ring_buffer true) p [PollRead 1%nat [x00]] = Ret (p1, l) ∧
    perform (H:=@RingBuf.ring_buffer true) p1 (Write [x0a]) = Ret (p2, r, woken) ∧
    reader_served p1 (Write [x0a]) p2 (RingBuf.content (ring_buf p2)) woken ∧
    writer_served 3 p1 (Write [x0a]) p2 (RingBuf.content (ring_buf p2)) woken.
Proof.
  apply (@pipe_no_lost_wakeup true nat 3 [PollRead 1%nat [x00]] (Write [x0a])).
  - unfold isize_max. lia.
  - vm_compute. reflexivity.
  - reflexivity.
Defined.

Definition demo_pipe (c : bool) : RawRingBufPipe RingBuf.RingBuf nat :=
  MkRawPipe RingBuf.demo_ring None None c.

Example pipe_closed_drains_witness :
  write (H:=@RingBuf.ring_buffer true) (demo_pipe true) [x00; x00; x00; x00; x00] =
    Ret (demo_pipe true, Err BrokenPipe, []).
Proof.
  apply (@pipe_closed_drains true nat (demo_pipe true) 1%nat 100 [x00; x00; x00; x00; x00]).
  - exact RingBuf.demo_ring_inv.
  - reflexivity.
  - discriminate.
Defined.

Example pipe_empty_poll_parks_witness :
  ∃ p' p'' w w',
    poll_write (H:=@RingBuf.ring_buffer true) (demo_pipe false) 1%nat [] = Ret (p', Pending, w) ∧
    writer p' = Some 1%nat ∧
    poll_read (H:=@RingBuf.ring_buffer true) (demo_pipe false) 1%nat [] = Ret (p'', ([], Pending), w') ∧
    reader p'' = Some 1%nat ∧
    RingBuf.content (ring_buf p') = RingBuf.content (ring_buf (demo_pipe false)).
Proof.
  apply (@pipe_empty_poll_parks true nat (demo_pipe false) 1%nat 100).
  - exact RingBuf.demo_ring_inv.
  - reflexivity.
Defined.
End RingBufPipe.
