(* ===== verification/PipeThreads.v ===== *)
(** The spin lock of [RingBufPipe::lock] and the threads that contend for it
    ([crates/ringbuff/src/pipe.rs]).  Threads interleave at the granularity of the
    atomic operations on [locker]; the closure that runs under the lock borrows
    the inner state when it starts and gives it back when it ends, so that a
    second closure running in between would lose an update. *)
From S2P Require Import Prelude ByteQueue RingBuffer RingPipe.

Module SpinLock.
Import RingBufPipe.

Section model.
Context {R : Type} `{BoundedBuffer R} {Waker : Type}.
Abbreviation Raw := (RawRingBufPipe R Waker).

(** Where a thread is in [lock]. *)
Inductive thread :=
| Idle
| Spin (c : call Waker)                       (* before [compare_exchange_weak] *)
| Locked (c : call Waker)                     (* the exchange succeeded *)
| Running (c : call Waker) (borrowed : Raw)   (* inside the closure *)
| Unlocking (r : reply).                      (* before [locker.store(false)] *)

Record shared := MkShared {
  locker : bool;
  inner : Raw;
  threads : list thread;
  history : list (call Waker * reply * list Waker);  (* ghost: completed closures *)
}.

Definition set_thread (s : shared) (t : nat) (th : thread) : list thread := <[t := th]> (threads s).

Inductive step (s : shared) : shared → Prop :=
| step_call t c :
    threads s !! t = Some Idle →
    step s (MkShared (locker s) (inner s) (set_thread s t (Spin c)) (history s))
| step_cas_ok t c :
    threads s !! t = Some (Spin c) → locker s = false →
    step s (MkShared true (inner s) (set_thread s t (Locked c)) (history s))
| step_cas_fail t c :
    (* held by another thread, or a spurious failure of the weak exchange *)
    threads s !! t = Some (Spin c) → step s s
| step_enter t c :
    threads s !! t = Some (Locked c) →
    step s (MkShared (locker s) (inner s) (set_thread s t (Running c (inner s))) (history s))
| step_exit t c p p' r woken :
    threads s !! t = Some (Running c p) → perform p c = Ret (p', r, woken) →
    step s (MkShared (locker s) p' (set_thread s t (Unlocking r)) (history s ++ [(c, r, woken)]))
| step_unlock t r :
    threads s !! t = Some (Unlocking r) →
    step s (MkShared false (inner s) (set_thread s t Idle) (history s)).

Definition init (p : Raw) (n : nat) : shared := MkShared false p (replicate n Idle) [].

(** The thread is between the successful exchange and the releasing store. *)
Definition holds (th : thread) : bool :=
  match th with Locked _ | Running _ _ | Unlocking _ => true | Idle | Spin _ => false end.

(** The number of steps the thread still needs when nothing is in its way. *)
Definition remaining (th : thread) : nat :=
  match th with
  | Idle => 0 | Spin _ => 4 | Locked _ => 3 | Running _ _ => 2 | Unlocking _ => 1
  end.
Definition measure (s : shared) : nat := sum_list_with remaining (threads s).

Definition pending (th : thread) : Z :=
  match th with Spin c | Locked c | Running c _ => offered c | Idle | Unlocking _ => 0 end.
Definition pending_all (s : shared) : Z := foldr (λ th acc, pending th + acc) 0 (threads s).
Definition performed (s : shared) : Z := offered_all ((λ e, e.1.1) <$> history s).

Lemma perform_all_snoc (p p1 p2 : Raw) cs l c r woken :
  perform_all p cs = Ret (p1, l) → perform p1 c = Ret (p2, r, woken) →
  perform_all p (cs ++ [c]) = Ret (p2, l ++ [(c, r, woken)]).
Proof.
  revert p l. induction cs as [|c0 cs IH]; intros p l Hall Hc; simpl in *.
  - injection Hall as -> <-. by rewrite Hc.
  - apply bind_Ret_inv in Hall as ([[p0 r0] w0]&Hp0&Hall). rewrite Hp0. simpl.
    apply bind_Ret_inv in Hall as ([p3 l3]&Hall&[= -> <-]).
    by rewrite (IH _ _ Hall Hc).
Qed.

Lemma offered_all_app (cs1 cs2 : list (call Waker)) :
  offered_all (cs1 ++ cs2) = offered_all cs1 + offered_all cs2.
Proof. induction cs1; simpl; lia. Qed.

(** Replacing one thread's state changes the sums by the difference. *)
Lemma measure_insert (l : list thread) t th th' :
  l !! t = Some th →
  (sum_list_with remaining (<[t := th']> l) + remaining th =
   sum_list_with remaining l + remaining th')%nat.
Proof. revert t. induction l as [|x l IH]; intros [|t] Ht; simplify_eq/=; [lia|]. specialize (IH t Ht). lia. Qed.

Lemma pending_insert (l : list thread) t th th' :
  l !! t = Some th →
  foldr (λ th acc, pending th + acc) 0 (<[t := th']> l) + pending th =
  foldr (λ th acc, pending th + acc) 0 l + pending th'.
Proof. revert t. induction l as [|x l IH]; intros [|t] Ht; simplify_eq/=; [lia|]. specialize (IH t Ht). lia. Qed.

Lemma pending_nonneg (l : list thread) t th :
  l !! t = Some th → pending th ≤ foldr (λ th acc, pending th + acc) 0 l.
Proof.
  assert (∀ th, 0 ≤ pending th) as Hnn by (intros []; simpl; try lia; apply call_offered_nonneg).
  assert (∀ l, 0 ≤ foldr (λ th acc, pending th + acc) 0 l) as Hnn'.
  { clear l t th. induction l as [|x l IH]; simpl; [lia|]. specialize (Hnn x). lia. }
  revert t. induction l as [|x l IH]; intros [|t] Ht; simplify_eq/=.
  - specialize (Hnn' l). lia.
  - specialize (IH t Ht). specialize (Hnn x). lia.
Qed.

(** * Mutual exclusion *)

(** A set lock has exactly one holder, a clear lock has none. *)
Definition exclusive (lk : bool) (ths : list thread) : Prop :=
  if lk then ∃ t0 th0, ths !! t0 = Some th0 ∧ holds th0 = true ∧
    ∀ t th, ths !! t = Some th → holds th = true → t = t0
  else ∀ t th, ths !! t = Some th → holds th = false.

Lemma lookup_set (ths : list thread) t t' th th' :
  <[t := th]> ths !! t' = Some th' → (t = t' ∧ th' = th) ∨ (t ≠ t' ∧ ths !! t' = Some th').
Proof. rewrite list_lookup_insert_Some. intros [(->&->&_)|[? ?]]; auto. Qed.

Lemma lookup_set_same (ths : list thread) t th0 th :
  ths !! t = Some th0 → <[t := th]> ths !! t = Some th.
Proof. intros Ht. apply list_lookup_insert_eq. by eapply lookup_lt_Some. Qed.

Lemma exclusive_unique lk ths t1 t2 th1 th2 :
  exclusive lk ths → ths !! t1 = Some th1 → ths !! t2 = Some th2 →
  holds th1 = true → holds th2 = true → t1 = t2 ∧ lk = true.
Proof.
  destruct lk; simpl.
  - intros (t0&th0&_&_&Hu) H1 H2 Hh1 Hh2. by rewrite (Hu _ _ H1 Hh1), (Hu _ _ H2 Hh2).
  - intros Hno H1 _ Hh1. by rewrite (Hno _ _ H1) in Hh1.
Qed.

Lemma exclusive_same lk ths t th0 th :
  ths !! t = Some th0 → holds th = holds th0 → exclusive lk ths → exclusive lk (<[t := th]> ths).
Proof.
  intros Ht Hh. destruct lk; simpl.
  - intros (t0&th1&Ht0&Hh0&Hu). destruct (decide (t = t0)) as [->|Hne].
    + exists t0, th. split_and!; [by eapply lookup_set_same|congruence|].
      intros t' th' [[-> ->]|[? ?]]%lookup_set ?; [done|by eapply Hu].
    + exists t0, th1. split_and!; [by rewrite list_lookup_insert_ne|done|].
      intros t' th' [[-> ->]|[? ?]]%lookup_set ?; [|by eapply Hu].
      apply (Hu _ th0); congruence.
  - intros Hno t' th' [[-> ->]|[? ?]]%lookup_set; [rewrite Hh|]; by eapply Hno.
Qed.

Lemma exclusive_acquire ths t th0 th :
  ths !! t = Some th0 → holds th = true → exclusive false ths → exclusive true (<[t := th]> ths).
Proof.
  intros Ht Hh Hno. exists t, th. split_and!; [by eapply lookup_set_same|done|].
  intros t' th' [[-> ->]|[? Ht']]%lookup_set Hh'; [done|]. by rewrite (Hno _ _ Ht') in Hh'.
Qed.

Lemma exclusive_release lk ths t th0 th :
  ths !! t = Some th0 → holds th0 = true → holds th = false →
  exclusive lk ths → exclusive false (<[t := th]> ths).
Proof.
  intros Ht Hh0 Hh He t' th' [[-> ->]|[Hne Ht']]%lookup_set; [done|].
  destruct (holds th') eqn:Hh'; [|done].
  by destruct (exclusive_unique _ _ _ _ _ _ He Ht Ht').
Qed.

Definition lock_inv (p0 : Raw) (s : shared) : Prop :=
  exclusive (locker s) (threads s) ∧
  (∀ t c p, threads s !! t = Some (Running c p) → p = inner s) ∧
  perform_all p0 ((λ e, e.1.1) <$> history s) = Ret (inner s, history s).

(** A step that moves one thread without touching the inner state or the history. *)
Lemma lock_inv_move p0 s t th lk :
  lock_inv p0 s → exclusive lk (set_thread s t th) →
  (∀ c p, th = Running c p → p = inner s) →
  lock_inv p0 (MkShared lk (inner s) (set_thread s t th) (history s)).
Proof.
  intros (He&Hb&Hh) He' Hth. split_and!; simpl; [done| |done].
  intros t' c p [[-> Heq]|[? ?]]%lookup_set; [by eapply Hth|by eapply Hb].
Qed.

Lemma step_lock_inv p0 s s' : lock_inv p0 s → step s s' → lock_inv p0 s'.
Proof.
  intros Hinv Hs. pose proof Hinv as (He&Hb&Hh).
  destruct Hs as [t c Ht|t c Ht Hl|t c Ht|t c Ht|t c p p' r woken Ht Hp|t r Ht].
  - apply lock_inv_move; [done| |done]. by eapply exclusive_same.
  - apply lock_inv_move; [done| |done]. rewrite Hl in He. by eapply exclusive_acquire.
  - done.
  - apply lock_inv_move; [done| |by intros ?? [= _ <-]]. by eapply exclusive_same.
  - pose proof (Hb _ _ _ Ht) as ->. split_and!; simpl.
    + by eapply exclusive_same.
    + intros t' c' p'' [[-> ?]|[Hne Ht']]%lookup_set; [done|].
      by destruct (exclusive_unique _ _ _ _ _ _ He Ht Ht').
    + rewrite fmap_app. simpl. by eapply perform_all_snoc.
  - apply lock_inv_move; [done| |done]. by eapply exclusive_release.
Qed.

Lemma init_lock_inv p0 n : lock_inv p0 (init p0 n).
Proof.
  split_and!; simpl; [|by intros ??? [? ?]%lookup_replicate|done].
  intros t th [-> _]%lookup_replicate. done.
Qed.

Lemma reachable_lock_inv p0 n s : rtc step (init p0 n) s → lock_inv p0 s.
Proof.
  intros Hr. eapply (rtc_ind_r (lock_inv p0)); [apply init_lock_inv| |exact Hr].
  intros s1 s2 _ Hs Hi. by eapply step_lock_inv.
Qed.

End model.

Section progress.
Context {R : Type} `{BoundedBufferLaws R} {Waker : Type}.
Abbreviation shared := (shared (R:=R) (Waker:=Waker)).

(** While a call is in progress, some thread can take a step that completes part of it. *)
Lemma step_progress p0 n cap b q (s : shared) t th :
  rtc step (init p0 n) s → buf_repr (ring_buf p0) cap b q → performed s + pending_all s ≤ b →
  threads s !! t = Some th → th ≠ Idle →
  ∃ s', step s s' ∧ (measure s' < measure s)%nat ∧
    performed s' + pending_all s' = performed s + pending_all s.
Proof.
  intros Hreach Hrep Hbud Ht Hth. pose proof (reachable_lock_inv _ _ _ Hreach) as (He&Hb&Hh).
  assert (∃ t th, threads s !! t = Some th ∧ th ≠ Idle ∧ (locker s = true → holds th = true))
    as (t1&th1&Ht1&Hne&Hl).
  { destruct (locker s) eqn:El; [|by exists t, th]. destruct He as (t0&th0&?&Hh0&_).
    exists t0, th0. split_and!; [done|by intros ->|by intros _]. }
  clear t th Ht Hth. pose proof (measure_insert (threads s) t1 th1) as Hm.
  pose proof (pending_insert (threads s) t1 th1) as Hpd.
  unfold measure, pending_all, performed in *.
  destruct th1 as [|c|c|c p|r]; simpl in *; [done|..].
  - destruct (locker s) eqn:El; [by discriminate Hl|].
    eexists. split; [by eapply step_cas_ok|]. simpl. specialize (Hm (Locked c) Ht1).
    specialize (Hpd (Locked c) Ht1). simpl in *. unfold set_thread. lia.
  - eexists. split; [by eapply step_enter|]. simpl. specialize (Hm (Running c (inner s)) Ht1).
    specialize (Hpd (Running c (inner s)) Ht1). simpl in *. unfold set_thread. lia.
  - pose proof (Hb _ _ _ Ht1) as ->. pose proof (pending_nonneg _ _ _ Ht1) as Hle. simpl in Hle.
    set (done := offered_all _) in *. pose proof (call_offered_nonneg c).
    assert (0 ≤ done) by apply offered_all_nonneg.
    pose proof (perform_all_post cap b p0 q ((λ e, e.1.1) <$> history s) Hrep) as Hall.
    fold done in Hall. rewrite Hh in Hall. destruct Hall as (q'&Hrep'&_); [lia|].
    pose proof (perform_post _ _ (inner s) q' c Hrep' ltac:(lia)) as Hc.
    apply wp_Ret_iff in Hc as ([[p' r] woken]&Hc&_).
    eexists. split; [by eapply step_exit|]. simpl. specialize (Hm (Unlocking r) Ht1).
    specialize (Hpd (Unlocking r) Ht1). rewrite fmap_app, offered_all_app. fold done.
    simpl in *. unfold set_thread. lia.
  - eexists. split; [by eapply step_unlock|]. simpl. specialize (Hm Idle Ht1).
    specialize (Hpd Idle Ht1). simpl in *. unfold set_thread. lia.
Qed.
End progress.

(** * Properties *)

Section properties.
Context `{OverflowChecks} {Waker : Type}.
Abbreviation shared := (shared (R:=RingBuf.RingBuf) (Waker:=Waker)).

(** C18.  The spin lock makes the pipe linearizable: in every interleaving of any
    number of threads, at most one thread is between its successful
    [compare_exchange_weak] and its releasing store, and the shared state and all
    the replies (and woken tasks) are those of running the completed closures one
    after the other, in the order in which they ended. *)
Theorem pipe_linearizable (p0 : RawRingBufPipe RingBuf.RingBuf Waker) (n : nat) (s : shared) :
  rtc step (init p0 n) s →
  (∀ t1 t2 th1 th2, threads s !! t1 = Some th1 → threads s !! t2 = Some th2 →
     holds th1 = true → holds th2 = true → t1 = t2) ∧
  perform_all p0 ((λ e, e.1.1) <$> history s) = Ret (inner s, history s).
Proof.
  intros Hreach. destruct (reachable_lock_inv _ _ _ Hreach) as (He&_&Hh). split; [|done].
  intros t1 t2 th1 th2 H1 H2 Hh1 Hh2. by destruct (exclusive_unique _ _ _ _ _ _ He H1 H2 Hh1 Hh2).
Qed.

(** C30.  The spin lock cannot deadlock: from every reachable state of threads
    that share a fresh pipe, as long as the bytes offered so far fit the cursors,
    some schedule completes every call in progress, without a panic, and leaves
    the lock free. *)
Theorem pipe_lock_quiesces (buffered : Z) (n : nat) (p0 : RawRingBufPipe RingBuf.RingBuf Waker) (s : shared) :
  pipe buffered = Ret p0 → rtc step (init p0 n) s →
  0 < buffered ≤ isize_max → performed s + pending_all s + buffered < u64_modulus →
  ∃ s', rtc step s s' ∧ locker s' = false ∧
    ∀ t th, threads s' !! t = Some th → th = Idle.
Proof.
  intros Hp Hreach Hbuf Hlim.
  assert (0 ≤ performed s + pending_all s) as Hnn.
  { unfold performed, pending_all. pose proof (offered_all_nonneg ((λ e, e.1.1) <$> history s)).
    assert (0 ≤ foldr (λ th acc, pending th + acc) 0 (threads s)); [|lia].
    induction (threads s) as [|th l IH]; simpl; [lia|].
    assert (0 ≤ pending th) by (destruct th; simpl; try lia; apply call_offered_nonneg). lia. }
  pose proof (pipe_new_spec (Waker:=Waker) buffered (performed s + pending_all s) Hbuf Hnn Hlim) as Hnew.
  rewrite Hp in Hnew. destruct Hnew as (Hrep&_). clear Hlim Hnn.
  set (b := performed s + pending_all s) in Hrep. assert (performed s + pending_all s ≤ b) as Hle by done.
  clearbody b. remember (measure s) as m eqn:Hm. revert s Hm Hreach Hle.
  induction (lt_wf m) as [m _ IH]. intros s -> Hreach Hle.
  destruct (decide (Forall (λ th, holds th = false ∧ remaining th = 0%nat) (threads s))) as [Hidle|Hbusy].
  - exists s. destruct (reachable_lock_inv _ _ _ Hreach) as (He&_&_).
    rewrite Forall_lookup in Hidle. split_and!; [done| |].
    + destruct (locker s); [|done]. destruct He as (t0&th0&Ht0&Hh0&_).
      destruct (Hidle _ _ Ht0). congruence.
    + intros t th Ht. destruct (Hidle _ _ Ht) as [_ Hr]. by destruct th.
  - apply not_Forall_Exists in Hbusy; [|intros th; solve_decision].
    apply Exists_exists in Hbusy as (th&Hin&Hth). apply list_elem_of_lookup in Hin as [t Ht].
    destruct (step_progress p0 n _ _ _ s t th Hreach Hrep Hle Ht) as (s1&Hs1&Hlt&Heq).
    { intros ->. by apply Hth. }
    destruct (IH (measure s1) Hlt s1 eq_refl) as (s'&Hs'&Hl'&Hidle').
    + eapply rtc_r; [exact Hreach|exact Hs1].
    + lia.
    + exists s'. split_and!; [by eapply rtc_l|done|done].
Qed.
End properties.

(** * Witnesses: two threads, one of them inside the lock *)

Section witnesses.
#[local] Instance checks : OverflowChecks := true.

Definition demo_p0 : RawRingBufPipe RingBuf.RingBuf nat :=
  MkRawPipe (RingBuf.MkRingBuf [x00; x00; x00] 0 0) None None false.
Definition demo_state : shared :=
  MkShared true demo_p0 [Locked (Write [x0a]); Spin (PollRead 1%nat [x00])] [].

Lemma demo_threads_reachable : rtc step (init demo_p0 2) demo_state.
Proof.
  eapply rtc_l; [apply (step_call _ 0 (Write [x0a])); done|].
  eapply rtc_l; [apply (step_call _ 1 (PollRead 1%nat [x00])); done|].
  eapply rtc_l; [apply (step_cas_ok _ 0 (Write [x0a])); done|].
  apply rtc_refl.
Qed.

Example pipe_linearizable_witness :
  perform_all demo_p0 ((λ e, e.1.1) <$> history demo_state) =
    Ret (inner demo_state, history demo_state).
Proof. apply (pipe_linearizable demo_p0 2 demo_state demo_threads_reachable). Defined.

Example pipe_lock_quiesces_witness :
  ∃ s', rtc step demo_state s' ∧ locker s' = false ∧
    ∀ t th, threads s' !! t = Some th → th = Idle.
Proof.
  apply (pipe_lock_quiesces 3 2 demo_p0 demo_state).
  - reflexivity.
  - exact demo_threads_reachable.
  - unfold isize_max. lia.
  - vm_compute. reflexivity.
Defined.
End witnesses.
End SpinLock.
