(* ===== verification/FixedBuf.v ===== *)
(** The fixed-capacity buffer of [crates/fixedbuf/src/lib.rs]; the capacity [LEN] is
    the crate's const generic. *)
From S2P Require Import Prelude.

Module ArrayBuf.

Section model.
Context (LEN : Z).

Record ArrayBuf := MkArrayBuf {
  buf : list byte;   (* always [LEN] bytes *)
  len : Z;
}.

Definition new : ArrayBuf := MkArrayBuf (replicate (Z.to_nat LEN) x00) 0.

Definition readable (self : ArrayBuf) : Z := len self.

Definition writable (self : ArrayBuf) : Z := LEN.

(** [writable_buf] lends the whole array; [set_writable_buf] gives it back. *)
Definition writable_buf (self : ArrayBuf) : list byte := buf self.
Definition set_writable_buf (self : ArrayBuf) (b : list byte) : ArrayBuf := MkArrayBuf b (len self).

Definition writable_consume (self : ArrayBuf) (n : Z) : exec ArrayBuf :=
  assert (negb (bool_decide (LEN < n)));;
  Ret (MkArrayBuf (buf self) n).

Definition readable_buf (self : ArrayBuf) : exec (list byte) := slice (buf self) 0 (len self).

(** [readable_buf_mut] lends the same bytes; [set_readable_buf] gives them back. *)
Definition readable_buf_mut (self : ArrayBuf) : exec (list byte) := slice (buf self) 0 (len self).
Definition set_readable_buf (self : ArrayBuf) (b : list byte) : exec ArrayBuf :=
  buf' ← copy_into (buf self) 0 (len self) b;
  Ret (MkArrayBuf buf' (len self)).

Definition from_slice (src : list byte) : exec (option ArrayBuf) :=
  if bool_decide (LEN < zlen src) then Ret None else
  b ← copy_into (writable_buf new) 0 (zlen src) src;
  self ← writable_consume (set_writable_buf new b) (zlen src);
  Ret (Some self).

(** * Facts *)

Definition wf (self : ArrayBuf) : Prop := zlen (buf self) = LEN ∧ 0 ≤ len self ≤ LEN.

Lemma new_wf : 0 ≤ LEN → wf new.
Proof. intros. unfold wf; simpl. rewrite length_replicate. lia. Qed.

Lemma writable_consume_wf self n : wf self → 0 ≤ n ≤ LEN → writable_consume self n ⇓ wf.
Proof.
  intros [Hb Hl] Hn. unfold writable_consume. wp_step.
  wp_step; [by rewrite bool_decide_false by lia|]. by split.
Qed.

Lemma copy_prefix (b d : list byte) :
  zlen d ≤ zlen b → copy_into b 0 (zlen d) d = Ret (d ++ drop (length d) b).
Proof. intros. unfold copy_into. rewrite bool_decide_true by lia. by rewrite Nat2Z.id. Qed.

Lemma readable_buf_prefix (d rest : list byte) :
  readable_buf (MkArrayBuf (d ++ rest) (zlen d)) = Ret d.
Proof.
  unfold readable_buf, slice. simpl. rewrite bool_decide_true by (rewrite length_app; lia).
  rewrite drop_0, Z.sub_0_r, Nat2Z.id. by rewrite take_app_length.
Qed.

Lemma writable_consume_ok self n : n ≤ LEN → writable_consume self n = Ret (MkArrayBuf (buf self) n).
Proof. intros. unfold writable_consume. by rewrite bool_decide_false by lia. Qed.

Lemma from_slice_ok src :
  zlen src ≤ LEN →
  from_slice src = Ret (Some (MkArrayBuf (src ++ drop (length src) (buf new)) (zlen src))).
Proof.
  intros Hfit. unfold from_slice. rewrite bool_decide_false by lia.
  unfold writable_buf. rewrite copy_prefix by (simpl; rewrite length_replicate; lia). simpl.
  by rewrite writable_consume_ok.
Qed.

(** The readable part can be lent out and given back. *)
Lemma lend_readable self :
  wf self → ∃ d, readable_buf_mut self = Ret d ∧ zlen d = len self ∧
    ∀ d', length d' = length d → ∃ self',
      set_readable_buf self d' = Ret self' ∧ wf self' ∧ len self' = len self.
Proof.
  intros [Hb Hl]. exists (take (Z.to_nat (len self)) (buf self)). split_and!.
  - unfold readable_buf_mut, slice. rewrite bool_decide_true by lia. by rewrite drop_0, Z.sub_0_r.
  - rewrite length_take. lia.
  - intros d' Hd'. rewrite length_take in Hd'.
    exists (MkArrayBuf (d' ++ drop (Z.to_nat (len self)) (buf self)) (len self)).
    unfold set_readable_buf, copy_into. rewrite bool_decide_true by lia. split_and!; [done| |done].
    unfold wf; simpl. rewrite length_app, length_drop. lia.
Qed.

(** [from_slice] rejects exactly the slices longer than the capacity; of the
    others it builds a well-formed buffer whose readable part is the slice, and
    a write through the readable part is read back unchanged. *)
Theorem array_buf_roundtrip (src data : list byte) :
  0 ≤ LEN → length data = length src →
  (from_slice src = Ret None ↔ LEN < zlen src) ∧
  (zlen src ≤ LEN → ∃ self self',
     from_slice src = Ret (Some self) ∧ wf self ∧ readable self = zlen src ∧
     readable_buf self = Ret src ∧
     set_readable_buf self data = Ret self' ∧ wf self' ∧ readable_buf self' = Ret data).
Proof.
  intros HL Hd. split.
  { destruct (decide (LEN < zlen src)); [|rewrite from_slice_ok by lia; split; [done|lia]].
    unfold from_slice. by rewrite bool_decide_true. }
  intros Hfit. exists (MkArrayBuf (src ++ drop (length src) (buf new)) (zlen src)).
  exists (MkArrayBuf (data ++ drop (length src) (buf new)) (zlen src)).
  assert (zlen (buf new) = LEN) as Hnew by (simpl; rewrite length_replicate; lia).
  assert (∀ d : list byte, length d = length src →
    wf (MkArrayBuf (d ++ drop (length src) (buf new)) (zlen src))) as Hwf.
  { intros d Hlen. unfold wf; simpl. simpl in Hnew. rewrite length_app, length_drop. lia. }
  split_and!; [by apply from_slice_ok|by apply Hwf|done|apply readable_buf_prefix| |by apply Hwf|].
  - unfold set_readable_buf; simpl. rewrite <-Hd, copy_prefix by (rewrite length_app; lia). simpl.
    by rewrite drop_app_length' by done.
  - rewrite <-Hd. apply readable_buf_prefix.
Qed.
End model.

(** [writable_consume] accepts exactly the lengths up to the capacity. *)
Lemma writable_consume_panics LEN self n : writable_consume LEN self n = Panic ↔ LEN < n.
Proof. unfold writable_consume. case_bool_decide; simpl; split; done || lia. Qed.

Example array_buf_roundtrip_witness :
  (from_slice 4 [x01; x02; x03] = Ret None ↔ 4 < 3) ∧
  (3 ≤ 4 → ∃ self self',
     from_slice 4 [x01; x02; x03] = Ret (Some self) ∧ wf 4 self ∧ readable self = 3 ∧
     readable_buf self = Ret [x01; x02; x03] ∧
     set_readable_buf self [x07; x08; x09] = Ret self' ∧ wf 4 self' ∧
     readable_buf self' = Ret [x07; x08; x09]).
Proof. apply (array_buf_roundtrip 4 [x01; x02; x03] [x07; x08; x09]); [lia|reflexivity]. Defined.
End ArrayBuf.
