(* ===== verification/EventQueue.v ===== *)
(** The readiness queue of [crates/poll/src/readiness.rs], over the contract of the
    third-party crate [priority_queue]. *)
From S2P Require Import Prelude Api.

(** [std::time::Instant] and [Duration], in nanoseconds. *)
Abbreviation Instant := Z (only parsing).
Abbreviation Duration := Z (only parsing).

(** [checked_duration_since(now).unwrap_or_default()]. *)
Definition duration_since (deadline now : Instant) : Duration := Z.max 0 (deadline - now).

(** * Hash sets are iterated in an unspecified order *)

Class HashIter := {
  hash_iter : ∀ {A} `{Countable A}, gset A → list A;
  hash_iter_perm : ∀ {A} `{Countable A} (s : gset A), hash_iter s ≡ₚ elements s;
}.

Section hash_iter.
Context `{HashIter} {A : Type} `{Countable A}.
Implicit Type s : gset A.

Lemma elem_of_hash_iter s x : x ∈ hash_iter s ↔ x ∈ s.
Proof. by rewrite hash_iter_perm, elem_of_elements. Qed.

Lemma NoDup_hash_iter s : NoDup (hash_iter s).
Proof. rewrite hash_iter_perm. apply NoDup_elements. Qed.
End hash_iter.

(** * The contract of [PriorityQueue<K, Reverse<Instant>>] *)

(** [std::cmp::Reverse]: the greatest priority is the earliest instant. *)
Record Reverse := MkReverse { reverse_0 : Instant }.
Definition reverse_le (a b : Reverse) : Prop := reverse_0 b ≤ reverse_0 a.

Class PriorityQueue (K : Type) `{Countable K} := {
  PQ : Type;
  pq_empty : PQ;
  pq_len : PQ → nat;
  pq_is_empty : PQ → bool;
  pq_push : PQ → K → Reverse → PQ;
  pq_remove : PQ → K → PQ;
  pq_peek : PQ → option (K * Reverse);
  pq_pop : PQ → PQ * option (K * Reverse);
}.

(** The documented behaviour: a queue is a map from items to priorities; [push]
    updates the priority of an item that is already queued; [peek] and [pop]
    designate an item of greatest priority. *)
Class PriorityQueueLaws (K : Type) `{PriorityQueue K} := {
  pq_map : PQ → gmap K Reverse;
  pq_map_empty : pq_map pq_empty = ∅;
  pq_map_len q : pq_len q = size (pq_map q);
  pq_map_is_empty q : pq_is_empty q = bool_decide (pq_map q = ∅);
  pq_map_push q k p : pq_map (pq_push q k p) = <[k := p]> (pq_map q);
  pq_map_remove q k : pq_map (pq_remove q k) = delete k (pq_map q);
  pq_peek_none q : pq_peek q = None → pq_map q = ∅;
  pq_peek_some q k p : pq_peek q = Some (k, p) →
    pq_map q !! k = Some p ∧ ∀ k' p', pq_map q !! k' = Some p' → reverse_le p' p;
  pq_pop_peek q : (pq_pop q).2 = pq_peek q;
  pq_map_pop q k p : pq_peek q = Some (k, p) → pq_map (pq_pop q).1 = delete k (pq_map q);
}.

Module Readiness.

Section model.
Context `{!PriorityQueue Event} `{HashIter}.

Record Readiness := MkReadiness {
  delayed : PQ;
  events : gset Event;
}.

Definition default : Readiness := MkReadiness pq_empty ∅.

Definition insert (self : Readiness) (event : Event) (delay_to : option Instant) : Readiness :=
  match delay_to with
  | Some delay_to =>
      MkReadiness (pq_push (delayed self) event (MkReverse delay_to)) (events self ∖ {[event]})
  | None =>
      MkReadiness (pq_remove (delayed self) event) ({[event]} ∪ events self)
  end.

Definition remove (self : Readiness) (event : Event) : Readiness :=
  MkReadiness (pq_remove (delayed self) event) (events self ∖ {[event]}).

(** The [while let] loop of [poll]; every iteration that continues pops an item. *)
Fixpoint poll_delayed (fuel : nat) (q : PQ) (readiness : list Event)
    (threshold : Duration) (now : Instant) : exec (PQ * list Event * option Instant) :=
  match pq_peek q with
  | None => Ret (q, readiness, None)
  | Some (_, instant) =>
      let deadline := reverse_0 instant in
      if negb (bool_decide (threshold < duration_since deadline now)) then
        match fuel with
        | O => NoFuel
        | S fuel =>
            let '(q', top) := pq_pop q in
            '(event, _) ← unwrap top;
            poll_delayed fuel q' (readiness ++ [event]) threshold now
        end
      else Ret (q, readiness, Some deadline)
  end.

(** [now] is the value of the [Instant::now()] that [poll] reads. *)
Definition poll (self : Readiness) (readiness : list Event) (threshold : Duration)
    (now : Instant) : exec (Readiness * list Event * option Instant) :=
  assert (bool_decide (readiness = []));;
  let ready := readiness ++ hash_iter (events self) in
  if pq_is_empty (delayed self) then Ret (MkReadiness (delayed self) ∅, ready, None) else
  '(q, out, next) ← poll_delayed (pq_len (delayed self)) (delayed self) ready threshold now;
  Ret (MkReadiness q ∅, out, next).

End model.

(** * The specification: a map from pending events to their deadlines *)

Section spec.
Context `{!PriorityQueue Event} `{!PriorityQueueLaws Event} `{HashIter}.
Implicit Types (self : Readiness) (e : Event) (o : option Instant).

(** [None] as a deadline means "ready now". *)
Definition schedule self : gmap Event (option Instant) :=
  gset_to_gmap None (events self) ∪ ((λ r, Some (reverse_0 r)) <$> pq_map (delayed self)).

(** No event is both ready and delayed. *)
Definition rd_inv self : Prop := ∀ e, e ∈ events self → pq_map (delayed self) !! e = None.

Definition due (threshold : Duration) (now : Instant) (o : option Instant) : Prop :=
  match o with None => True | Some d => duration_since d now ≤ threshold end.
#[global] Instance due_dec threshold now o : Decision (due threshold now o).
Proof. destruct o; simpl; apply _. Defined.

Lemma lookup_schedule self e :
  schedule self !! e =
  if decide (e ∈ events self) then Some None
  else (λ r, Some (reverse_0 r)) <$> pq_map (delayed self) !! e.
Proof.
  unfold schedule. case_decide.
  - apply lookup_union_Some_l. by apply lookup_gset_to_gmap_Some.
  - rewrite lookup_union_r by (by apply lookup_gset_to_gmap_None). apply lookup_fmap.
Qed.

Lemma default_schedule : schedule default = ∅ ∧ rd_inv default.
Proof.
  split; [|done]. apply map_eq. intros e. rewrite lookup_schedule. simpl.
  rewrite decide_False by set_solver. by rewrite pq_map_empty, lookup_empty, lookup_empty.
Qed.

Lemma insert_schedule self e o : schedule (insert self e o) = <[e := o]> (schedule self).
Proof.
  apply map_eq. intros e'. rewrite lookup_insert, !lookup_schedule.
  destruct o as [d|]; simpl; rewrite ?pq_map_push, ?pq_map_remove;
    destruct (decide (e = e')) as [->|Hne].
  - rewrite decide_False by set_solver. by rewrite lookup_insert_eq.
  - rewrite lookup_insert_ne by done.
    destruct (decide (e' ∈ events self)); [rewrite decide_True by set_solver|rewrite decide_False by set_solver]; done.
  - by rewrite decide_True by set_solver.
  - rewrite lookup_delete_ne by done.
    destruct (decide (e' ∈ events self)); [rewrite decide_True by set_solver|rewrite decide_False by set_solver]; done.
Qed.

Lemma insert_rd_inv self e o : rd_inv self → rd_inv (insert self e o).
Proof.
  intros Hinv e' He'. destruct o as [d|]; simpl in *; rewrite ?pq_map_push, ?pq_map_remove.
  - rewrite lookup_insert_ne by set_solver. apply Hinv. set_solver.
  - destruct (decide (e = e')) as [->|]; [apply lookup_delete_eq|].
    rewrite lookup_delete_ne by done. apply Hinv. set_solver.
Qed.

Lemma remove_schedule self e : schedule (remove self e) = delete e (schedule self).
Proof.
  apply map_eq. intros e'. rewrite lookup_delete, !lookup_schedule. simpl. rewrite pq_map_remove.
  destruct (decide (e = e')) as [->|Hne].
  - rewrite decide_False by set_solver. by rewrite lookup_delete_eq.
  - rewrite lookup_delete_ne by done.
    destruct (decide (e' ∈ events self)); [rewrite decide_True by set_solver|rewrite decide_False by set_solver]; done.
Qed.

Lemma remove_rd_inv self e : rd_inv self → rd_inv (remove self e).
Proof.
  intros Hinv e' He'. simpl in *. rewrite pq_map_remove.
  rewrite lookup_delete_ne by set_solver. apply Hinv. set_solver.
Qed.

(** What [poll] reports as the next wake-up: the earliest remaining deadline. *)
Definition next_deadline (m : gmap Event Reverse) (next : option Instant) : Prop :=
  match next with
  | None => m = ∅
  | Some d => (∃ e, m !! e = Some (MkReverse d)) ∧ ∀ e r, m !! e = Some r → d ≤ reverse_0 r
  end.

Lemma poll_delayed_spec fuel q acc threshold now :
  (size (pq_map q) ≤ fuel)%nat →
  poll_delayed fuel q acc threshold now ⇓ λ '(q', out, next), ∃ late,
    out = acc ++ late ∧ NoDup late ∧
    (∀ e, e ∈ late ↔ ∃ r, pq_map q !! e = Some r ∧ due threshold now (Some (reverse_0 r))) ∧
    pq_map q' = filter (λ '(_, r), ¬ due threshold now (Some (reverse_0 r))) (pq_map q) ∧
    next_deadline (pq_map q') next.
Proof.
  revert q acc. induction fuel as [|fuel IH]; intros q acc Hsize; simpl;
    destruct (pq_peek q) as [[k p]|] eqn:Hpeek.
  1: { apply pq_peek_some in Hpeek as [Hk _].
       assert (pq_map q = ∅) as Hemp by (apply map_size_empty_iff; lia).
       by rewrite Hemp, lookup_empty in Hk. }
  1, 3: apply pq_peek_none in Hpeek; simpl; exists []; rewrite app_nil_r, Hpeek;
    (split_and!; [done|by constructor|intros e; rewrite lookup_empty; set_solver|
       by rewrite map_filter_empty|done]).
  pose proof (pq_peek_some q k p Hpeek) as [Hk Hmax].
  case_bool_decide as Hlate; simpl.
  - assert (∀ e r, pq_map q !! e = Some r → ¬ duration_since (reverse_0 r) now ≤ threshold) as Hnone.
    { intros e r Hr. pose proof (Hmax e r Hr) as Hle. unfold reverse_le, duration_since in *. lia. }
    exists []. rewrite app_nil_r.
    assert (filter (λ '(_, r), ¬ duration_since (reverse_0 r) now ≤ threshold) (pq_map q) = pq_map q) as Hid.
    { apply map_filter_id. naive_solver. }
    split_and!; [done|by constructor|intros e; split; [set_solver|naive_solver]|done| |].
    + exists k. by destruct p.
    + intros e r Hr. by apply (Hmax e r).
  - rewrite (surjective_pairing (pq_pop q)), pq_pop_peek, Hpeek. simpl.
    pose proof (pq_map_pop q k p Hpeek) as Hpop.
    eapply wp_mono; [apply IH; rewrite Hpop, map_size_delete, Hk; lia|].
    intros [[q' out] next] (late&->&Hnd&Hlate'&Hq'&Hnext). rewrite Hpop in Hlate', Hq'.
    assert (k ∉ late) as Hnk.
    { rewrite Hlate'. intros (r&Hr&_). by rewrite lookup_delete_eq in Hr. }
    exists (k :: late). split_and!; [by rewrite <-app_assoc|by apply NoDup_cons| | |done].
    + intros e. rewrite elem_of_cons, Hlate'. split.
      * intros [->|(r&Hr&?)]; [exists p; split; [done|lia]|].
        apply lookup_delete_Some in Hr as [_ Hr]. eauto.
      * intros (r&Hr&?). destruct (decide (e = k)) as [->|Hne]; [by left|].
        right. exists r. by rewrite lookup_delete_ne.
    + rewrite Hq'. apply map_eq. intros e. apply option_eq. intros r.
      rewrite !map_lookup_filter_Some, lookup_delete_Some. split; [naive_solver|].
      intros [Hr Hnd']. split_and!; [|done|done]. intros <-. simplify_eq. apply Hnd'. simpl. lia.
Qed.

(** The two branches of [poll] on an empty output vector. *)
Lemma poll_late self threshold now :
  poll self [] threshold now ⇓ λ '(self', out, next), ∃ late,
    out = hash_iter (events self) ++ late ∧ NoDup late ∧ events self' = ∅ ∧
    (∀ e, e ∈ late ↔
       ∃ r, pq_map (delayed self) !! e = Some r ∧ due threshold now (Some (reverse_0 r))) ∧
    pq_map (delayed self') =
      filter (λ '(_, r), ¬ due threshold now (Some (reverse_0 r))) (pq_map (delayed self)) ∧
    next_deadline (pq_map (delayed self')) next.
Proof.
  unfold poll. wp_step. wp_step; [done|]. rewrite pq_map_is_empty. case_bool_decide as Hemp.
  - simpl. exists []. rewrite app_nil_r, Hemp.
    split_and!; [done|by constructor|done|intros e; rewrite lookup_empty; set_solver
      |by rewrite map_filter_empty|done].
  - wp_step. eapply wp_mono; [apply poll_delayed_spec; by rewrite pq_map_len|].
    intros [[q out] next] (late&->&?&?&?&?). simpl. exists late. by split_and!.
Qed.

Lemma schedule_late self m :
  events self = ∅ → pq_map (delayed self) = m →
  schedule self = (λ r, Some (reverse_0 r)) <$> m ∧ rd_inv self.
Proof.
  intros He <-. split; [|intros e; rewrite He; set_solver].
  apply map_eq. intros e. rewrite lookup_schedule, lookup_fmap, He. by rewrite decide_False by set_solver.
Qed.

(** [poll] hands out each pending event that is due exactly once (an event is
    due when it is ready, or when its deadline is at most [threshold] away), keeps
    exactly the others, and returns the earliest deadline that it kept; its loop
    terminates, and it panics on a non-empty output vector only. *)
Theorem readiness_poll_spec self readiness threshold now :
  rd_inv self →
  (poll self readiness threshold now = Panic ↔ readiness ≠ []) ∧
  (readiness = [] → ∃ self' out next,
     poll self readiness threshold now = Ret (self', out, next) ∧ NoDup out ∧ rd_inv self' ∧
     (∀ e, e ∈ out ↔ ∃ o, schedule self !! e = Some o ∧ due threshold now o) ∧
     schedule self' = filter (λ '(_, o), ¬ due threshold now o) (schedule self) ∧
     match next with
     | None => schedule self' = ∅
     | Some d => (∃ e, schedule self' !! e = Some (Some d)) ∧
                 ∀ e o, schedule self' !! e = Some o → ∃ d', o = Some d' ∧ d ≤ d'
     end).
Proof.
  intros Hinv. pose proof (poll_late self threshold now) as Hlate.
  apply wp_Ret_iff in Hlate as ([[self' out] next]&Hpoll&late&->&Hnd&Hev&Hin&Hm&Hnext).
  destruct (schedule_late self' _ Hev Hm) as [Hsch Hinv'].
  split.
  { destruct readiness; [rewrite Hpoll|unfold poll; simpl]; done. }
  intros ->. exists self', (hash_iter (events self) ++ late), next. split_and!; [done| |done| | |].
  - apply NoDup_app. split_and!; [apply NoDup_hash_iter| |done].
    intros e He%elem_of_hash_iter Hl. apply Hin in Hl as (r&Hr&_). by rewrite (Hinv e He) in Hr.
  - intros e. rewrite elem_of_app, elem_of_hash_iter, Hin, lookup_schedule. case_decide as He.
    + split; [intros _; by exists None|by left].
    + split; [intros [?|(r&Hr&?)]; [done|rewrite Hr; eauto]|].
      intros (o&Ho&?). apply fmap_Some in Ho as (r&Hr&->). eauto.
  - rewrite Hsch. apply map_eq. intros e. apply option_eq. intros o.
    rewrite lookup_fmap, map_lookup_filter_Some, lookup_schedule, fmap_Some.
    setoid_rewrite map_lookup_filter_Some. case_decide as He.
    + rewrite (Hinv e He). split; [naive_solver|]. intros [[= <-] Hd]. by destruct Hd.
    + rewrite fmap_Some. naive_solver.
  - rewrite Hsch. rewrite <-Hm. unfold next_deadline in Hnext. destruct next as [d|].
    + destruct Hnext as [[e He] Hmin]. split.
      * exists e. by rewrite lookup_fmap, He.
      * intros e' o Ho. rewrite lookup_fmap in Ho. apply fmap_Some in Ho as (r&Hr&->). eauto.
    + by rewrite Hnext, fmap_empty.
Qed.

(** ** Sequences of calls *)

Inductive call :=
| Insert (e : Event) (delay_to : option Instant)
| Remove (e : Event)
| Poll (threshold : Duration) (now : Instant).

(** What a call shows its caller: the events and the next deadline of a [poll]. *)
Definition reply : Type := list Event * option Instant.

Definition perform self (c : call) : exec (Readiness * reply) :=
  match c with
  | Insert e o => Ret (insert self e o, ([], None))
  | Remove e => Ret (remove self e, ([], None))
  | Poll threshold now => '(self, out, next) ← poll self [] threshold now; Ret (self, (out, next))
  end.

Fixpoint perform_all self (cs : list call) : exec (Readiness * list reply) :=
  match cs with
  | [] => Ret (self, [])
  | c :: cs =>
      '(self, r) ← perform self c;
      '(self, rs) ← perform_all self cs;
      Ret (self, r :: rs)
  end.

(** The abstract queue: a map from the pending events to their deadlines. *)
Abbreviation pending_map := (gmap Event (option Instant)).
Implicit Types m : pending_map.

(** The events that a [poll] hands out, and those that it keeps. *)
Definition due_map threshold now m : pending_map := filter (λ '(_, o), due threshold now o) m.
Definition late_map threshold now m : pending_map := filter (λ '(_, o), ¬ due threshold now o) m.

(** [d] is the earliest of the deadlines in [m]. *)
Definition earliest m (next : option Instant) : Prop :=
  match next with
  | None => m = ∅
  | Some d => (∃ e, m !! e = Some (Some d)) ∧ ∀ e o, m !! e = Some o → ∃ d', o = Some d' ∧ d ≤ d'
  end.

Inductive spec_step : pending_map → call → reply → pending_map → Prop :=
| spec_insert m e o : spec_step m (Insert e o) ([], None) (<[e := o]> m)
| spec_remove m e : spec_step m (Remove e) ([], None) (delete e m)
| spec_poll m threshold now out next :
    out ≡ₚ (map_to_list (due_map threshold now m)).*1 →
    earliest (late_map threshold now m) next →
    spec_step m (Poll threshold now) (out, next) (late_map threshold now m).

Inductive spec_run : pending_map → list call → list reply → pending_map → Prop :=
| spec_nil m : spec_run m [] [] m
| spec_cons m c r m1 cs rs m2 : spec_step m c r m1 → spec_run m1 cs rs m2 → spec_run m (c :: cs) (r :: rs) m2.

Lemma perform_refines self c :
  rd_inv self → perform self c ⇓ λ '(self', r), rd_inv self' ∧ spec_step (schedule self) c r (schedule self').
Proof.
  intros Hinv. destruct c as [e o|e|threshold now]; simpl.
  - split; [by apply insert_rd_inv|]. rewrite insert_schedule. constructor.
  - split; [by apply remove_rd_inv|]. rewrite remove_schedule. constructor.
  - destruct (proj2 (readiness_poll_spec self [] threshold now Hinv) eq_refl)
      as (self'&out&next&->&Hnd&Hinv'&Hout&Hsch&Hnext). simpl. split; [done|].
    rewrite Hsch in *. constructor; [|by destruct next].
    apply NoDup_Permutation; [done|apply NoDup_fst_map_to_list|]. intros e. rewrite Hout, list_elem_of_fmap.
    split.
    + intros (o&Ho&Hd). exists (e, o). split; [done|]. by apply elem_of_map_to_list, map_lookup_filter_Some.
    + intros ([e' o]&->&He). apply elem_of_map_to_list, map_lookup_filter_Some in He as [? ?]. by exists o.
Qed.

(** C20.  The queue refines a map from events to deadlines.  Every sequence of [insert], [remove] and
    [poll] from the empty queue on returns, and shows its callers what the map does: an insertion
    replaces the deadline of its event, a removal forgets it, and a [poll] hands out exactly the events that are
    ready or due, once each and in some order, forgets them, and returns the earliest deadline
    of the others.  So no event is lost, duplicated, or delayed beyond its deadline. *)
Theorem readiness_refines (cs : list call) :
  perform_all default cs ⇓ λ '(self, rs), rd_inv self ∧ spec_run ∅ cs rs (schedule self).
Proof.
  destruct default_schedule as [<- Hinv]. revert Hinv. generalize default.
  induction cs as [|c cs IH]; intros self Hinv; simpl; [split; [done|constructor]|].
  wp_step. eapply wp_mono; [by apply perform_refines|]. intros [self1 r] [Hinv1 Hstep]. wp_step.
  eapply wp_mono; [by apply IH|]. intros [self2 rs] [Hinv2 Hrun]. simpl. split; [done|by econstructor].
Qed.
End spec.
End Readiness.

(** * An implementation of the contract: a finite map searched for its minimum *)

Module QueueReference.

Section map_queue.
Context {K : Type} `{Countable K}.

Definition map_peek (m : gmap K Reverse) : option (K * Reverse) :=
  map_fold (λ k p acc,
    match acc with
    | Some (k', p') => if bool_decide (reverse_0 p < reverse_0 p') then Some (k, p) else acc
    | None => Some (k, p)
    end) None m.

#[export] Instance map_queue : PriorityQueue K := {|
  PQ := gmap K Reverse;
  pq_empty := ∅;
  pq_len := size;
  pq_is_empty m := bool_decide (m = ∅);
  pq_push m k p := <[k := p]> m;
  pq_remove m k := delete k m;
  pq_peek := map_peek;
  pq_pop m := match map_peek m with
              | Some (k, p) => (delete k m, Some (k, p))
              | None => (m, None)
              end;
|}.

Lemma map_peek_spec m :
  match map_peek m with
  | None => m = ∅
  | Some (k, p) => m !! k = Some p ∧ ∀ k' p', m !! k' = Some p' → reverse_le p' p
  end.
Proof.
  unfold map_peek. apply (map_fold_weak_ind (λ acc m,
    match acc with
    | None => m = ∅
    | Some (k, p) => m !! k = Some p ∧ ∀ k' p', m !! k' = Some p' → reverse_le p' p
    end)); [done|]. unfold reverse_le.
  intros k p m' [[k1 p1]|] Hk IH.
  - destruct IH as [Hk1 Hmin]. case_bool_decide.
    + rewrite lookup_insert_eq. split; [done|]. intros k' p' Hp'.
      apply lookup_insert_Some in Hp' as [[<- <-]|[_ Hp']]; [lia|]. specialize (Hmin _ _ Hp'). lia.
    + rewrite lookup_insert_ne by congruence. split; [done|]. intros k' p' Hp'.
      apply lookup_insert_Some in Hp' as [[<- <-]|[_ Hp']]; [lia|]. by eapply Hmin.
  - subst m'. rewrite lookup_insert_eq. split; [done|]. intros k' p' Hp'.
    apply lookup_insert_Some in Hp' as [[<- <-]|[_ Hp']]; [lia|done].
Qed.

#[export] Program Instance map_queue_laws : PriorityQueueLaws K := {| pq_map m := m |}.
Next Obligation. done. Qed.
Next Obligation. done. Qed.
Next Obligation. done. Qed.
Next Obligation. done. Qed.
Next Obligation. done. Qed.
Next Obligation. intros q Hq. pose proof (map_peek_spec q) as Hs. simpl in Hq. by rewrite Hq in Hs. Qed.
Next Obligation. intros q k p Hq. pose proof (map_peek_spec q) as Hs. simpl in Hq. by rewrite Hq in Hs. Qed.
Next Obligation. intros q. simpl. by destruct (map_peek q) as [[]|]. Qed.
Next Obligation. intros q k p Hq. simpl in *. by rewrite Hq. Qed.
End map_queue.

(** Hash sets iterated in the order of their encoding. *)
#[export] Program Instance elements_iter : HashIter := {| hash_iter := λ A _ _ s, elements s |}.
Next Obligation. done. Qed.

(** ** Witness *)

Section witness.
Definition demo_event (k : EventKind) : Event := MkEvent (MkToken 7) k true false 0.
Definition demo_queue : Readiness.Readiness :=
  Readiness.insert (Readiness.insert (Readiness.insert Readiness.default
    (demo_event EvSend) (Some 1000)) (demo_event EvAccept) None) (demo_event EvRecv) (Some 9000).

Lemma demo_queue_inv : Readiness.rd_inv demo_queue.
Proof. do 3 apply Readiness.insert_rd_inv. apply Readiness.default_schedule. Qed.

Example readiness_poll_spec_witness :
  ∃ self' out next, Readiness.poll demo_queue [] 250 800 = Ret (self', out, next) ∧ NoDup out.
Proof.
  destruct (proj2 (Readiness.readiness_poll_spec demo_queue [] 250 800 demo_queue_inv) eq_refl)
    as (self'&out&next&H1&H2&_).
  exists self', out, next. split; [exact H1|exact H2].
Defined.

(** Two events are scheduled; one is moved forward, the other is due later. *)
Definition demo_calls : list Readiness.call :=
  [Readiness.Insert (demo_event EvSend) (Some 5000); Readiness.Insert (demo_event EvRecv) (Some 9000);
   Readiness.Insert (demo_event EvSend) None; Readiness.Poll 250 800; Readiness.Poll 250 8800].

Example readiness_refines_witness :
  Readiness.perform_all Readiness.default demo_calls ⇓ λ '(self, rs),
    Readiness.rd_inv self ∧ Readiness.spec_run ∅ demo_calls rs (Readiness.schedule self).
Proof. exact (Readiness.readiness_refines demo_calls). Defined.

Example demo_replies :
  ('(_, rs) ← Readiness.perform_all Readiness.default demo_calls; Ret rs) =
  Ret [([], None); ([], None); ([], None); ([demo_event EvSend], Some 9000); ([demo_event EvRecv], None)].
Proof. vm_compute. reflexivity. Qed.
End witness.
End QueueReference.
