(* ===== verification/QuicheApi.v ===== *)
(** The parts of the third-party crate [quiche] that the source calls, as an
    interface: one operation per function, [quiche::Connection] being an abstract
    state that the mutating functions replace.  Nothing here is translated from
    the repository. *)
From S2P Require Import Prelude Api EventQueue.

(** [std::net]: addresses are told apart by their octets and port. *)
Inductive IpAddr := V4 (octets : list byte) | V6 (octets : list byte).
Record SocketAddr := MkSocketAddr { sock_ip : IpAddr; sock_port : Z }.
#[global] Instance IpAddr_eq_dec : EqDecision IpAddr.
Proof. solve_decision. Defined.
#[global] Instance SocketAddr_eq_dec : EqDecision SocketAddr.
Proof. solve_decision. Defined.
#[global] Program Instance SocketAddr_countable : Countable SocketAddr :=
  inj_countable'
    (λ a, (match sock_ip a with V4 o => inl o | V6 o => inr o end, sock_port a))
    (λ '(i, p), MkSocketAddr (match i with inl o => V4 o | inr o => V6 o end) p) _.
Next Obligation. by intros [[] ?]. Qed.

Abbreviation ConnectionId := (list byte) (only parsing).

Record RecvInfo := MkRecvInfo { recv_from : SocketAddr; recv_to : SocketAddr }.
Record SendInfo := MkSendInfo { send_from : SocketAddr; send_to : SocketAddr; send_at : Instant }.

Inductive Shutdown := ShutdownRead | ShutdownWrite.

Class QuicheOps := {
  Connection : Type;
  QError : Type;
  QError_eq_dec :: EqDecision QError;
  QDone : QError;                            (* [quiche::Error::Done] *)
  ReleaseDecision : Type;

  (* queries *)
  is_server : Connection → bool;
  is_established : Connection → bool;
  is_closed : Connection → bool;
  source_id : Connection → ConnectionId;
  peer_streams_left_uni : Connection → Z;
  peer_streams_left_bidi : Connection → Z;
  stream_finished : Connection → Z → bool;
  timeout_instant : Connection → option Instant;
  get_next_release_time : Connection → option ReleaseDecision;
  release_decision_time : ReleaseDecision → Instant → option Instant;

  (* operations on a connection *)
  q_close : Connection → bool → Z → list byte → Connection * result unit QError;
  q_stream_shutdown : Connection → Z → Shutdown → Z → Connection * result unit QError;
  q_stream_send : Connection → Z → list byte → bool → Connection * result Z QError;
  q_stream_recv : Connection → Z → list byte → Connection * list byte * result (Z * bool) QError;
  q_stream_priority : Connection → Z → Z → bool → Connection * result unit QError;
  q_stream_writable : Connection → Z → Z → Connection * result bool QError;
  q_stream_writable_next : Connection → Connection * option Z;
  q_stream_readable_next : Connection → Connection * option Z;
  q_recv : Connection → list byte → RecvInfo → Connection * list byte * result Z QError;
  q_send : Connection → list byte → Connection * list byte * result (Z * SendInfo) QError;
  q_on_timeout : Connection → Connection;

  (* bounds on how many streams the two [_next] iterators can still yield; they
     stand for the lengths of quiche's internal queues and only measure loops *)
  writable_backlog : Connection → nat;
  readable_backlog : Connection → nat;
}.

(** One call of any of the operations. *)
Inductive conn_step `{QuicheOps} (c : Connection) : Connection → Prop :=
| cs_close app err reason : conn_step c (q_close c app err reason).1
| cs_shutdown id dir err : conn_step c (q_stream_shutdown c id dir err).1
| cs_stream_send id buf fin : conn_step c (q_stream_send c id buf fin).1
| cs_stream_recv id buf : conn_step c (q_stream_recv c id buf).1.1
| cs_priority id u i : conn_step c (q_stream_priority c id u i).1
| cs_writable id len : conn_step c (q_stream_writable c id len).1
| cs_writable_next : conn_step c (q_stream_writable_next c).1
| cs_readable_next : conn_step c (q_stream_readable_next c).1
| cs_recv buf info : conn_step c (q_recv c buf info).1.1
| cs_send buf : conn_step c (q_send c buf).1.1
| cs_on_timeout : conn_step c (q_on_timeout c).

(** The documented behaviour that the source relies on: the role of a connection
    and its source id are fixed, establishment and closure are permanent, and a
    stream that a [_next] iterator returned has left its queue. *)
Class QuicheLaws `{QuicheOps} := {
  step_is_server c c' : conn_step c c' → is_server c' = is_server c;
  step_source_id c c' : conn_step c c' → source_id c' = source_id c;
  step_is_established c c' : conn_step c c' → is_established c = true → is_established c' = true;
  step_is_closed c c' : conn_step c c' → is_closed c = true → is_closed c' = true;
  writable_next_backlog c c' id :
    q_stream_writable_next c = (c', Some id) → (writable_backlog c' < writable_backlog c)%nat;
  readable_next_backlog c c' id :
    q_stream_readable_next c = (c', Some id) → (readable_backlog c' < readable_backlog c)%nat;
}.

(** Any number of calls. *)
Abbreviation conn_steps := (rtc conn_step).

Section steps.
Context `{QuicheLaws}.

Lemma steps_is_server c c' : conn_steps c c' → is_server c' = is_server c.
Proof. induction 1 as [|c1 c2 c3 Hs _ IH]; [done|]. rewrite IH. by apply step_is_server. Qed.

Lemma steps_source_id c c' : conn_steps c c' → source_id c' = source_id c.
Proof. induction 1 as [|c1 c2 c3 Hs _ IH]; [done|]. rewrite IH. by apply step_source_id. Qed.

Lemma steps_is_established c c' :
  conn_steps c c' → is_established c = true → is_established c' = true.
Proof. induction 1 as [|c1 c2 c3 Hs _ IH]; [done|]. intros. by eapply IH, step_is_established. Qed.

Lemma steps_is_closed c c' : conn_steps c c' → is_closed c = true → is_closed c' = true.
Proof. induction 1 as [|c1 c2 c3 Hs _ IH]; [done|]. intros. by eapply IH, step_is_closed. Qed.
End steps.

(** A call whose result was destructed is a step. *)
#[export] Hint Constructors conn_step : quiche.

(** * Packets and the creation of connections *)

(** The fields of [quiche::Header] that the source reads. *)
Record Header := MkHeader {
  hdr_version : Z;
  hdr_dcid : ConnectionId;
  hdr_scid : ConnectionId;
  hdr_token : option (list byte);
}.

(** [Header::from_slice] takes a mutable slice; [accept] and [connect] borrow the
    configuration mutably; [retry] and [negotiate_version] write a packet to a buffer. *)
Class QuicheEndpoint `{QuicheOps} := {
  Config : Type;
  version_is_supported : Z → bool;
  header_from_slice : list byte → list byte * result Header QError;
  q_accept : Config → ConnectionId → option ConnectionId → SocketAddr → SocketAddr →
    Config * result Connection QError;
  q_connect : Config → option string → ConnectionId → SocketAddr → SocketAddr →
    Config * result Connection QError;
  q_retry : ConnectionId → ConnectionId → ConnectionId → list byte → Z → list byte →
    list byte * result Z QError;
  q_negotiate_version : ConnectionId → ConnectionId → list byte → list byte * result Z QError;
}.

(** A new connection has the role of its constructor and the source id it was given;
    the functions that write into a slice keep its length. *)
Class QuicheEndpointLaws `{QuicheEndpoint} := {
  accept_conn cfg scid odcid local peer cfg' c :
    q_accept cfg scid odcid local peer = (cfg', Ok c) → is_server c = true ∧ source_id c = scid;
  connect_conn cfg name scid local peer cfg' c :
    q_connect cfg name scid local peer = (cfg', Ok c) → is_server c = false ∧ source_id c = scid;
  header_length buf : length (header_from_slice buf).1 = length buf;
  retry_length scid dcid new_scid token version buf :
    length (q_retry scid dcid new_scid token version buf).1 = length buf;
  negotiate_length scid dcid buf : length (q_negotiate_version scid dcid buf).1 = length buf;
}.

(** What the functions that fill or read a packet buffer promise about its length, and about
    the number of bytes that they report. *)
Class QuicheIoLaws `{QuicheEndpoint} := {
  recv_length c buf info : length (q_recv c buf info).1.2 = length buf;
  send_length c buf : length (q_send c buf).1.2 = length buf;
  send_bound c buf c' buf' n info :
    q_send c buf = (c', buf', Ok (n, info)) → 0 < n ≤ zlen buf;
  retry_bound scid dcid new_scid token version buf buf' n :
    q_retry scid dcid new_scid token version buf = (buf', Ok n) → 0 ≤ n ≤ zlen buf;
  negotiate_bound scid dcid buf buf' n :
    q_negotiate_version scid dcid buf = (buf', Ok n) → 0 ≤ n ≤ zlen buf;
}.
