(* ===== verification/QuicheReference.v ===== *)
(** A concrete implementation of the interface of [QuicheApi], small enough to run: the
    theorems that assume quiche's documented behaviour are applied to it. *)
From S2P Require Import Prelude Api EventQueue QuicheApi.

Module QuicheReference.

Inductive toy_error := ToyDone | ToyFailure.
#[global] Instance toy_error_eq_dec : EqDecision toy_error.
Proof. solve_decision. Defined.

(** A connection: its role and source id, the progress of its handshake and closure, its
    stream credit, its timers, the streams its two iterators still have to report, and the number
    of packets it has to send. *)
Record toy := MkToy {
  toy_server : bool;
  toy_scid : ConnectionId;
  toy_established : bool;
  toy_closed : bool;
  toy_uni : Z;
  toy_bidi : Z;
  toy_timeout : option Instant;
  toy_release : option Instant;
  toy_writable : list Z;
  toy_readable : list Z;
  toy_packets : nat;
}.

Definition set_closed (c : toy) : toy :=
  let '(MkToy s i e _ u b t r w d n) := c in MkToy s i e true u b t r w d n.
Definition set_established (c : toy) : toy :=
  let '(MkToy s i _ k u b t r w d n) := c in MkToy s i true k u b t r w d n.
Definition set_writable (c : toy) (w : list Z) : toy :=
  let '(MkToy s i e k u b t r _ d n) := c in MkToy s i e k u b t r w d n.
Definition set_readable (c : toy) (d : list Z) : toy :=
  let '(MkToy s i e k u b t r w _ n) := c in MkToy s i e k u b t r w d n.

Definition set_packets (c : toy) (n : nat) : toy :=
  let '(MkToy s i e k u b t r w d _) := c in MkToy s i e k u b t r w d n.

(** Every packet goes from one address to one other. *)
Definition toy_local : SocketAddr := MkSocketAddr (V4 [x7f; x00; x00; x01]) 1.
Definition toy_peer : SocketAddr := MkSocketAddr (V4 [x7f; x00; x00; x01]) 7.

Definition pop (l : list Z) : list Z * option Z :=
  match l with [] => ([], None) | x :: l => (l, Some x) end.

#[export] Instance toy_ops : QuicheOps := {|
  Connection := toy;
  QError := toy_error;
  QDone := ToyDone;
  ReleaseDecision := Instant;
  is_server := toy_server;
  is_established := toy_established;
  is_closed := toy_closed;
  source_id := toy_scid;
  peer_streams_left_uni := toy_uni;
  peer_streams_left_bidi := toy_bidi;
  stream_finished _ _ := false;
  timeout_instant := toy_timeout;
  get_next_release_time := toy_release;
  release_decision_time t _ := Some t;
  q_close c _ _ _ := if toy_closed c then (c, Err ToyDone) else (set_closed c, Ok ());
  q_stream_shutdown c _ _ _ := (c, Ok ());
  q_stream_send c _ buf _ := (c, Ok (zlen buf));
  q_stream_recv c _ buf := (c, buf, Err ToyDone);
  q_stream_priority c _ _ _ := (c, Ok ());
  q_stream_writable c id _ := (c, Ok (bool_decide (id ∈ toy_writable c)));
  q_stream_writable_next c :=
    let '(w, o) := pop (toy_writable c) in (set_writable c w, o);
  q_stream_readable_next c :=
    let '(d, o) := pop (toy_readable c) in (set_readable c d, o);
  q_recv c buf _ :=
    match buf with [] => (c, buf, Err ToyFailure) | _ => (set_established c, buf, Ok (zlen buf)) end;
  q_send c buf :=
    match toy_packets c, buf with
    | S n, _ :: buf => (set_packets c n, x2a :: buf, Ok (1, MkSendInfo toy_local toy_peer 0))
    | _, _ => (c, buf, Err ToyDone)
    end;
  q_on_timeout c := c;
  writable_backlog c := length (toy_writable c);
  readable_backlog c := length (toy_readable c);
|}.

Lemma toy_step (c c' : toy) :
  conn_step c c' →
  toy_server c' = toy_server c ∧ toy_scid c' = toy_scid c ∧
  (toy_established c = true → toy_established c' = true) ∧
  (toy_closed c = true → toy_closed c' = true).
Proof.
  destruct c as [srv scid est clo uni bidi tmo rel wr rd out]. destruct 1; simpl; try done.
  - by destruct clo.
  - by destruct wr.
  - by destruct rd.
  - by destruct buf.
  - by destruct out, buf.
Qed.

#[export] Program Instance toy_laws : QuicheLaws.
Next Obligation. intros. by apply toy_step. Qed.
Next Obligation. intros. by apply toy_step. Qed.
Next Obligation. intros c c' ?. by apply toy_step. Qed.
Next Obligation. intros c c' ?. by apply toy_step. Qed.
Next Obligation. intros [s i e k u b t r w d n] c' id. destruct w; simpl; intros [= <- _]. simpl. lia. Qed.
Next Obligation. intros [s i e k u b t r w d n] c' id. destruct d; simpl; intros [= <- _]. simpl. lia. Qed.

(** A server connection in mid-handshake, with two streams of the peer to report. *)
Definition toy_server_conn : Connection :=
  MkToy true [x01; x02] true false 2 2 (Some 5000) None [1] [4; 0; 2] 0.
(** A client connection without stream credit. *)
Definition toy_client_conn : Connection :=
  MkToy false [x03] false false 0 0 None (Some 900) [] [] 0.

(** Version 1 is the supported one; the first byte of a packet is its destination id and
    the rest its token. *)
#[export] Instance toy_endpoint : QuicheEndpoint := {|
  Config := Z;
  version_is_supported v := bool_decide (v = 1);
  header_from_slice buf :=
    (buf, match buf with
          | [] => Err ToyFailure
          | b :: token => Ok (MkHeader 1 [b] [] (Some token))
          end);
  q_accept cfg scid _ _ _ := (cfg + 1, Ok (MkToy true scid false false 2 2 None None [] [] 0));
  q_connect cfg _ scid _ _ := (cfg + 1, Ok (MkToy false scid false false 2 2 None None [] [] 0));
  q_retry _ _ _ token _ buf := (buf, Ok (Z.min (zlen token) (zlen buf)));
  q_negotiate_version _ _ buf := (buf, Ok (Z.min 7 (zlen buf)));
|}.

#[export] Program Instance toy_endpoint_laws : QuicheEndpointLaws.
Next Obligation. intros. simplify_eq/=. done. Qed.
Next Obligation. intros. simplify_eq/=. done. Qed.
Next Obligation. done. Qed.
Next Obligation. done. Qed.
Next Obligation. done. Qed.

#[export] Program Instance toy_io_laws : QuicheIoLaws.
Next Obligation. by intros c [] info. Qed.
Next Obligation. intros c buf. simpl. by destruct (toy_packets c), buf. Qed.
Next Obligation.
  intros c buf c' buf' n info. simpl. destruct (toy_packets c), buf; intros; simplify_eq/=; lia.
Qed.
Next Obligation. simpl. intros. simplify_eq. lia. Qed.
Next Obligation. simpl. intros. simplify_eq. lia. Qed.
End QuicheReference.
