(* ===== verification/Acceptor.v ===== *)
(** The server's handshake, [crates/api/src/acceptor.rs]: stateless retry tokens and
    the decision to negotiate a version, to ask for a retry or to accept. *)
From S2P Require Import Prelude Api EventQueue QuicheApi QuicheReference.

(** * Big-endian integers *)

Definition byte_of_Z (z : Z) : byte := default x00 (Byte.of_N (Z.to_N (z `mod` 256))).
Definition byte_to_Z (b : byte) : Z := Z.of_N (Byte.to_N b).

(** The [k] low bytes of [n], most significant first. *)
Fixpoint to_be (k : nat) (n : Z) : list byte :=
  match k with
  | O => []
  | S k => byte_of_Z (n `div` 256 ^ Z.of_nat k) :: to_be k n
  end.
Definition from_be (l : list byte) : Z := foldl (λ acc b, acc * 256 + byte_to_Z b) 0 l.

Definition to_be_bytes (n : Z) : list byte := to_be 8 n.
Definition from_be_bytes (l : list byte) : Z := from_be l.

Lemma byte_to_of_Z z : byte_to_Z (byte_of_Z z) = z `mod` 256.
Proof.
  unfold byte_to_Z, byte_of_Z. pose proof (Z.mod_pos_bound z 256 ltac:(lia)) as Hz.
  destruct (Byte.of_N (Z.to_N (z `mod` 256))) as [b|] eqn:Hb.
  - simpl. apply Byte.to_of_N in Hb. rewrite Hb. lia.
  - exfalso. apply Byte.of_N_None_iff in Hb. lia.
Qed.

Lemma length_to_be k n : length (to_be k n) = k.
Proof. induction k; simpl; congruence. Qed.

Lemma from_be_to_be k n : 0 ≤ n → from_be (to_be k n) = n `mod` 256 ^ Z.of_nat k.
Proof.
  intros Hn. unfold from_be.
  assert (∀ acc, foldl (λ acc b, acc * 256 + byte_to_Z b) acc (to_be k n) =
                 acc * 256 ^ Z.of_nat k + n `mod` 256 ^ Z.of_nat k) as ->; [|lia].
  induction k as [|k IH]; intros acc; [simpl; rewrite Z.mod_1_r; lia|].
  cbn [to_be foldl]. rewrite IH, byte_to_of_Z, Nat2Z.inj_succ, Z.pow_succ_r by lia.
  rewrite (Z.mul_comm 256), Z.rem_mul_r by lia. lia.
Qed.

(** * The address validator *)

(** SHA-256 of the concatenation of what was passed to [update]. *)
Class Sha256 := sha256 : list byte → list byte.
Class Sha256Laws `{Sha256} := sha256_length l : length (sha256 l) = 32%nat.

(** [Duration]s are counted in nanoseconds. *)
Definition nanos_per_sec : Z := 1000000000.

Definition octets (ip : IpAddr) : list byte := match ip with V4 o | V6 o => o end.

(** [SystemTime::now().duration_since(UNIX_EPOCH).unwrap()], for a clock at [now]. *)
Definition since_epoch (now : Z) : exec Duration :=
  assert (bool_decide (0 ≤ now));; Ret now.

(** [Duration - Duration] panics on underflow in every profile. *)
Definition duration_sub (a b : Duration) : exec Duration :=
  if bool_decide (b ≤ a) then Ret (a - b) else Panic.

Module Acceptor.

Section validator.
Context `{Sha256}.

Record SimpleAddressValidator := MkValidator { seed : list byte; expiration : Duration }.

(** [SimpleAddressValidator::new]; [rand_bytes] fills a buffer with random bytes. *)
Definition new_validator (rand_bytes : nat → list byte) (expiration_interval : Duration) :
    SimpleAddressValidator := MkValidator (rand_bytes 20%nat) expiration_interval.

Definition mint_retry_token (self : SimpleAddressValidator) (dcid new_scid : ConnectionId)
    (src : SocketAddr) (now : Z) : exec (list byte) :=
  let token := octets (sock_ip src) in
  elapsed ← since_epoch now;
  let timestamp := elapsed `div` nanos_per_sec in
  let token := token ++ to_be_bytes timestamp in
  let token := token ++ dcid in
  let hash := sha256 (seed self ++ token ++ new_scid) in
  Ret (token ++ hash).

Definition validate_address (self : SimpleAddressValidator) (dcid : ConnectionId)
    (src : SocketAddr) (token : list byte) (now : Z) : exec (option ConnectionId) :=
  let addr := octets (sock_ip src) in
  if bool_decide (zlen token < zlen addr + 40) then Ret None else
  prefix ← slice token 0 (zlen addr);
  if bool_decide (addr ≠ prefix) then Ret None else
  stamp ← slice token (zlen addr) (zlen addr + 8);
  let timestamp := from_be_bytes stamp * nanos_per_sec in
  elapsed ← since_epoch now;
  age ← duration_sub elapsed timestamp;
  if bool_decide (expiration self < age) then Ret None else
  hash ← slice token (zlen token - 32) (zlen token);
  body ← slice token 0 (zlen token - 32);
  if bool_decide (hash ≠ sha256 (seed self ++ body ++ dcid)) then Ret None else
  odcid ← slice token (zlen addr + 8) (zlen token - 32);
  Ret (Some odcid).
End validator.

Section handshake.
Context `{QuicheEndpoint}.

(** [dyn AddressValidator]: the trait's two methods, which may read the clock. *)
Record AddressValidator := MkAddressValidator {
  av_mint : ConnectionId → ConnectionId → ConnectionId → SocketAddr → Z →
    exec (result (list byte) (Error QError));
  av_validate : ConnectionId → ConnectionId → SocketAddr → list byte → Z →
    exec (option ConnectionId);
}.

Record Acceptor := MkAcceptor { config : Config; address_validator : AddressValidator }.

(** [Acceptor::new]; the validator is boxed. *)
Definition new_acceptor (config : Config) (address_validator : AddressValidator) : Acceptor :=
  MkAcceptor config address_validator.

Inductive Handshake := HandshakeReply (send_size : Z) | HandshakeAccept (conn : Connection).

(** [impl AddressValidator for SimpleAddressValidator]. *)
Definition simple_validator `{Sha256} (v : SimpleAddressValidator) : AddressValidator := {|
  av_mint _ dcid new_scid src now := token ← mint_retry_token v dcid new_scid src now; Ret (Ok token);
  av_validate _ dcid src token now := validate_address v dcid src token now;
|}.

(** [random_conn_id]. *)
Definition random_conn_id (rand_bytes : nat → list byte) : ConnectionId := rand_bytes 20%nat.

Definition negotiate_version (header : Header) (buf : list byte) :
    list byte * result Handshake (Error QError) :=
  match q_negotiate_version (hdr_scid header) (hdr_dcid header) buf with
  | (buf, Ok send_size) => (buf, Ok (HandshakeReply send_size))
  | (buf, Err err) => (buf, Err (Quiche err))
  end.

Definition retry (self : Acceptor) (header : Header) (buf : list byte) (recv_info : RecvInfo)
    (rand_bytes : nat → list byte) (now : Z) : exec (list byte * result Handshake (Error QError)) :=
  let new_scid := random_conn_id rand_bytes in
  minted ← av_mint (address_validator self) (hdr_scid header) (hdr_dcid header) new_scid
             (recv_from recv_info) now;
  match minted with
  | Err e => Ret (buf, Err e)
  | Ok token =>
      match q_retry (hdr_scid header) (hdr_dcid header) new_scid token (hdr_version header) buf with
      | (buf, Ok send_size) => Ret (buf, Ok (HandshakeReply send_size))
      | (buf, Err err) => Ret (buf, Err (Quiche err))
      end
  end.

(** The buffer is threaded because the replies are written to it. *)
Definition handshake (self : Acceptor) (header : Header) (buf : list byte) (recv_info : RecvInfo)
    (rand_bytes : nat → list byte) (now : Z) :
    exec (Acceptor * list byte * result Handshake (Error QError)) :=
  if negb (version_is_supported (hdr_version header)) then
    let '(buf, r) := negotiate_version header buf in Ret (self, buf, r)
  else
  token ← unwrap (hdr_token header);
  if bool_decide (token = []) then
    '(buf, r) ← retry self header buf recv_info rand_bytes now; Ret (self, buf, r)
  else
  validated ← av_validate (address_validator self) (hdr_scid header) (hdr_dcid header)
                (recv_from recv_info) token now;
  match validated with
  | None => Ret (self, buf, Err ValidateAddress)
  | Some odcid =>
      let '(cfg, r) := q_accept (config self) (hdr_dcid header) (Some odcid)
                         (recv_to recv_info) (recv_from recv_info) in
      let self := MkAcceptor cfg (address_validator self) in
      Ret (self, buf, match r with
                      | Ok conn => Ok (HandshakeAccept conn)
                      | Err err => Err (Quiche err)
                      end)
  end.
End handshake.

(** * Properties *)

Section tokens.
Context `{Sha256Laws}.
Implicit Types (self : SimpleAddressValidator) (src : SocketAddr) (odcid dcid : ConnectionId).

(** The issue time that a token carries. *)
Definition issued (stamp : list byte) : Duration := from_be_bytes stamp * nanos_per_sec.

(** The token of the parts [stamp], [odcid] and [mac] for the address of [src]. *)
Definition token_of src (stamp odcid mac : list byte) : list byte :=
  octets (sock_ip src) ++ stamp ++ odcid ++ mac.

(** The tag that binds the parts to the connection id [dcid] that the client must use. *)
Definition tag self src (stamp odcid dcid : list byte) : list byte :=
  sha256 (seed self ++ (octets (sock_ip src) ++ stamp ++ odcid) ++ dcid).

Lemma validate_parts self dcid src stamp odcid mac now :
  length stamp = 8%nat → length mac = 32%nat → 0 ≤ now →
  validate_address self dcid src (token_of src stamp odcid mac) now =
  if decide (now < issued stamp) then Panic
  else if decide (expiration self < now - issued stamp) then Ret None
  else if decide (mac = tag self src stamp odcid dcid) then Ret (Some odcid) else Ret None.
Proof.
  intros Hst Hmac Hnow. unfold validate_address, token_of. set (addr := octets (sock_ip src)).
  set (token := addr ++ stamp ++ odcid ++ mac).
  assert (zlen token = zlen addr + 8 + zlen odcid + 32) as Hlen
    by (subst token; rewrite !length_app; lia).
  rewrite (bool_decide_false (_ < _)) by lia.
  assert (slice token 0 (zlen addr) = Ret addr) as -> by (apply (slice_app [] addr); done).
  cbn [mbind exec_bind]. rewrite (bool_decide_false (_ ≠ _)) by auto.
  assert (slice token (zlen addr) (zlen addr + 8) = Ret stamp) as -> by (apply slice_app; lia).
  cbn [mbind exec_bind]. unfold since_epoch. rewrite (bool_decide_true (0 ≤ now)) by done.
  cbn [mbind exec_bind assert]. change (from_be_bytes stamp * nanos_per_sec) with (issued stamp).
  unfold duration_sub. case_decide; [by rewrite bool_decide_false by lia|].
  rewrite (bool_decide_true (issued stamp ≤ now)) by lia. cbn [mbind exec_bind].
  case_decide; [by rewrite bool_decide_true|]. rewrite (bool_decide_false (_ < _)) by done.
  assert (slice token (zlen token - 32) (zlen token) = Ret mac) as ->.
  { subst token. replace (addr ++ stamp ++ odcid ++ mac)
      with ((addr ++ stamp ++ odcid) ++ mac ++ []) in * by (by rewrite app_nil_r, <-!app_assoc).
    apply slice_app; rewrite !length_app in *; simpl in *; lia. }
  assert (slice token 0 (zlen token - 32) = Ret (addr ++ stamp ++ odcid)) as ->.
  { subst token. replace (addr ++ stamp ++ odcid ++ mac)
      with ([] ++ (addr ++ stamp ++ odcid) ++ mac) in * by (by rewrite <-!app_assoc).
    apply slice_app; simpl in *; rewrite !length_app in *; simpl in *; lia. }
  assert (slice token (zlen addr + 8) (zlen token - 32) = Ret odcid) as ->.
  { subst token. replace (addr ++ stamp ++ odcid ++ mac)
      with ((addr ++ stamp) ++ odcid ++ mac) in * by (by rewrite <-!app_assoc).
    apply slice_app; rewrite !length_app in *; lia. }
  cbn [mbind exec_bind]. change (sha256 _) with (tag self src stamp odcid dcid).
  case_decide; [by rewrite bool_decide_false by auto|by rewrite bool_decide_true by auto].
Qed.

(** Every other token is refused. *)
Lemma validate_shape self dcid src token now :
  0 ≤ now →
  validate_address self dcid src token now = Ret None ∨
  ∃ stamp odcid mac, length stamp = 8%nat ∧ length mac = 32%nat ∧
    token = token_of src stamp odcid mac.
Proof.
  intros Hnow. unfold validate_address. set (addr := octets (sock_ip src)).
  case_bool_decide as Hlen; [by left|].
  destruct (decide (take (length addr) token = addr)) as [Heq|Hne].
  - right. set (rest := drop (length addr) token).
    assert (length rest = (length token - length addr)%nat) as Hrest by apply length_drop.
    exists (take 8 rest), (take (length rest - 40) (drop 8 rest)), (drop (length rest - 32) rest).
    split_and!; [rewrite length_take; lia|rewrite length_drop; lia|].
    unfold token_of. fold addr. rewrite <-(take_drop (length addr) token), Heq at 1. f_equal.
    fold rest. rewrite <-(take_drop 8 rest) at 1. f_equal.
    rewrite <-(take_drop (length rest - 40) (drop 8 rest)) at 1. f_equal.
    rewrite drop_drop. f_equal. lia.
  - left. assert (slice token 0 (zlen addr) = Ret (take (length addr) token)) as ->.
    { unfold slice. rewrite bool_decide_true by lia. by rewrite Z.sub_0_r, Nat2Z.id. }
    cbn [mbind exec_bind]. by rewrite (bool_decide_true (_ ≠ take _ _)) by auto.
Qed.

(** A minted token carries the whole seconds of its issue time. *)
Lemma mint_parts self dcid new_scid src t :
  0 ≤ t →
  let stamp := to_be_bytes (t `div` nanos_per_sec) in
  mint_retry_token self dcid new_scid src t =
    Ret (token_of src stamp dcid (tag self src stamp dcid new_scid)).
Proof.
  intros Ht. unfold mint_retry_token, since_epoch. rewrite (bool_decide_true (0 ≤ t)) by done.
  cbn [mbind exec_bind assert]. unfold token_of, tag. by rewrite <-!app_assoc.
Qed.

Lemma issued_stamp t :
  0 ≤ t → t `div` nanos_per_sec < u64_modulus →
  issued (to_be_bytes (t `div` nanos_per_sec)) = t `div` nanos_per_sec * nanos_per_sec ∧
  0 ≤ t - t `div` nanos_per_sec * nanos_per_sec < nanos_per_sec.
Proof.
  intros Ht Hu64. assert (0 ≤ t `div` nanos_per_sec) by by apply Z.div_pos.
  pose proof (Z.div_mod t nanos_per_sec ltac:(done)).
  pose proof (Z.mod_pos_bound t nanos_per_sec ltac:(done)). split; [|lia].
  unfold issued, from_be_bytes, to_be_bytes. rewrite from_be_to_be by done.
  rewrite Z.mod_small; [done|]. split; [done|exact Hu64].
Qed.

Lemma minted_accepted self dcid new_scid src t1 t2 :
  0 ≤ t1 → t1 ≤ t2 → t1 `div` nanos_per_sec < u64_modulus →
  t2 - (t1 `div` nanos_per_sec) * nanos_per_sec ≤ expiration self →
  ∃ token, mint_retry_token self dcid new_scid src t1 = Ret token ∧
    validate_address self new_scid src token t2 = Ret (Some dcid).
Proof.
  intros H1 H2 Hu64 Hexp. eexists. split; [by apply mint_parts|].
  destruct (issued_stamp t1 H1 Hu64) as [Hiss ?].
  rewrite validate_parts by (apply length_to_be || apply sha256_length || lia).
  rewrite Hiss. rewrite !decide_False by lia. by rewrite decide_True.
Qed.

Lemma validate_accepts self dcid src token now odcid :
  0 ≤ now →
  validate_address self dcid src token now = Ret (Some odcid) ↔
  ∃ stamp, length stamp = 8%nat ∧
    token = token_of src stamp odcid (tag self src stamp odcid dcid) ∧
    issued stamp ≤ now ∧ now ≤ issued stamp + expiration self.
Proof.
  intros Hnow. split.
  - intros Hv. destruct (validate_shape self dcid src token now Hnow)
      as [Hno|(stamp&odcid'&mac&Hst&Hmac&->)]; [congruence|].
    rewrite validate_parts in Hv by done. repeat case_decide; simplify_eq.
    exists stamp. split_and!; [done|done|lia|lia].
  - intros (stamp&Hst&->&Hi1&Hi2). rewrite validate_parts by (done || apply sha256_length).
    rewrite !decide_False by lia. by rewrite decide_True.
Qed.

Lemma validate_future self dcid src token now :
  0 ≤ now →
  validate_address self dcid src token now = Panic ↔
  ∃ stamp rest mac, length stamp = 8%nat ∧ length mac = 32%nat ∧
    token = token_of src stamp rest mac ∧ now < issued stamp.
Proof.
  intros Hnow. split.
  - intros Hv. destruct (validate_shape self dcid src token now Hnow)
      as [Hno|(stamp&odcid'&mac&Hst&Hmac&->)]; [congruence|].
    rewrite validate_parts in Hv by done. repeat case_decide; simplify_eq.
    by exists stamp, odcid', mac.
  - intros (stamp&rest&mac&Hst&Hmac&->&Hlt). rewrite validate_parts by done. by rewrite decide_True.
Qed.

(** Token round trip.  A token that was minted for a client's address at time [t1] is
    accepted from that address, for the connection id chosen in the retry, at any time up
    to the expiry of the token, and yields the original connection id. *)
Theorem token_roundtrip self dcid new_scid src t1 t2 :
  0 ≤ t1 → t1 ≤ t2 → t1 `div` nanos_per_sec < u64_modulus →
  t2 - (t1 `div` nanos_per_sec) * nanos_per_sec ≤ expiration self →
  ∃ token, mint_retry_token self dcid new_scid src t1 = Ret token ∧
    validate_address self new_scid src token t2 = Ret (Some dcid).
Proof. apply minted_accepted. Qed.

(** Token soundness.  A token is accepted only if it has the layout of a minted one for
    the very address it came from, was issued within the expiration interval, and carries the
    tag that the seed gives to its parts and to the connection id in use; conversely each
    such token is accepted. *)
Theorem validate_sound self dcid src token now odcid :
  0 ≤ now →
  validate_address self dcid src token now = Ret (Some odcid) ↔
  ∃ stamp, length stamp = 8%nat ∧
    token = token_of src stamp odcid (tag self src stamp odcid dcid) ∧
    issued stamp ≤ now ∧ now ≤ issued stamp + expiration self.
Proof. apply validate_accepts. Qed.

(** A token from the future panics.  Validation panics exactly on the tokens that carry
    the sender's own address and an issue time later than the server's clock; the tag is
    not looked at, so the sender needs no secret to make one. *)
Theorem validate_panics self dcid src token now :
  0 ≤ now →
  validate_address self dcid src token now = Panic ↔
  ∃ stamp rest mac, length stamp = 8%nat ∧ length mac = 32%nat ∧
    token = token_of src stamp rest mac ∧ now < issued stamp.
Proof. apply validate_future. Qed.

(** The tag does not delimit the two connection ids.  A token that is valid for the
    original id [a ++ b] and the new id [dcid] gives, by moving [b] to the front of the id in
    use, a token that is valid too and for which the server reports the original id [a]. *)
Theorem tag_ambiguous self src stamp a b dcid now :
  0 ≤ now → length stamp = 8%nat →
  let mac := tag self src stamp (a ++ b) dcid in
  validate_address self dcid src (token_of src stamp (a ++ b) mac) now = Ret (Some (a ++ b)) →
  validate_address self (b ++ dcid) src (token_of src stamp a mac) now = Ret (Some a).
Proof.
  intros Hnow Hst mac. rewrite !validate_parts by (done || apply sha256_length).
  replace (tag self src stamp a (b ++ dcid)) with mac; [by repeat case_decide|].
  unfold mac, tag. by rewrite <-!app_assoc.
Qed.

Lemma token_of_ne src stamp odcid mac : length mac = 32%nat → token_of src stamp odcid mac ≠ [].
Proof. intros Hm Heq. apply (f_equal length) in Heq. unfold token_of in Heq. rewrite !length_app in Heq. simpl in Heq. lia. Qed.

(** The address enters the validation by its octets only. *)
Lemma validate_ip self dcid src src' token now :
  sock_ip src = sock_ip src' →
  validate_address self dcid src token now = validate_address self dcid src' token now.
Proof. intros Hip. unfold validate_address. by rewrite Hip. Qed.
End tokens.

Section handshakes.
Context `{QuicheEndpoint} `{Sha256Laws}.
Implicit Types (v : SimpleAddressValidator) (header : Header) (info : RecvInfo).

Definition acceptor (cfg : Config) v : Acceptor := MkAcceptor cfg (simple_validator v).

Lemma handshake_validated cfg v header buf info rand_bytes now token :
  version_is_supported (hdr_version header) = true → hdr_token header = Some token → token ≠ [] →
  handshake (acceptor cfg v) header buf info rand_bytes now =
  validated ← validate_address v (hdr_dcid header) (recv_from info) token now;
  match validated with
  | None => Ret (acceptor cfg v, buf, Err ValidateAddress)
  | Some odcid =>
      let '(cfg', r) := q_accept cfg (hdr_dcid header) (Some odcid) (recv_to info) (recv_from info) in
      Ret (acceptor cfg' v, buf,
           match r with Ok conn => Ok (HandshakeAccept conn) | Err err => Err (Quiche err) end)
  end.
Proof. intros Hv Ht Hne. unfold handshake. rewrite Hv, Ht. simpl. by rewrite bool_decide_false. Qed.

(** C12.  No connection without address validation.  [handshake] creates a connection only
    for a supported version and a token that the validator's seed tags for the sender's
    address and the connection id in use, within its lifetime; the connection is the one
    that quiche accepts for the original id of the token, and no packet is written. *)
Theorem handshake_accept_sound cfg v header buf info rand_bytes now self' buf' conn :
  0 ≤ now →
  handshake (acceptor cfg v) header buf info rand_bytes now =
    Ret (self', buf', Ok (HandshakeAccept conn)) →
  version_is_supported (hdr_version header) = true ∧ buf' = buf ∧
  ∃ stamp odcid cfg', length stamp = 8%nat ∧
    hdr_token header = Some (token_of (recv_from info) stamp odcid
      (tag v (recv_from info) stamp odcid (hdr_dcid header))) ∧
    issued stamp ≤ now ∧ now ≤ issued stamp + expiration v ∧
    q_accept cfg (hdr_dcid header) (Some odcid) (recv_to info) (recv_from info) = (cfg', Ok conn) ∧
    self' = acceptor cfg' v.
Proof.
  intros Hnow Hh.
  destruct (version_is_supported (hdr_version header)) eqn:Hver.
  2: { unfold handshake, negotiate_version in Hh. rewrite Hver in Hh.
       destruct (q_negotiate_version _ _ _) as [? []]; simplify_eq/=. }
  destruct (hdr_token header) as [token|] eqn:Htok;
    [|unfold handshake in Hh; rewrite Hver, Htok in Hh; done].
  destruct (decide (token = [])) as [->|Hne].
  { unfold handshake, retry in Hh. rewrite Hver, Htok in Hh. simpl in Hh.
    destruct (mint_retry_token _ _ _ _ _); simplify_eq/=.
    destruct (q_retry _ _ _ _ _ _) as [? []]; simplify_eq/=. }
  rewrite (handshake_validated cfg v header buf info rand_bytes now token) in Hh by done.
  apply bind_Ret_inv in Hh as (o&Hval&Hh). destruct o as [odcid|]; [|done].
  apply validate_accepts in Hval as (stamp&Hst&->&?&?); [|done].
  destruct (q_accept _ _ _ _ _) as [cfg' [c|e]] eqn:Hacc; simplify_eq/=.
  split_and!; [done..|]. exists stamp, odcid, cfg'. by split_and!.
Qed.

(** C13.  Retry, then accept.  An Initial packet without a token is answered by a retry packet
    that carries a fresh token; when the client repeats its Initial packet from the same
    address with that token and the connection id of the retry, before the token expires, the
    server has quiche accept the connection, with the original id of the first packet. *)
Theorem handshake_retry_accept cfg v header buf info rand_bytes t1 t2 :
  version_is_supported (hdr_version header) = true → hdr_token header = Some [] →
  0 ≤ t1 → t1 ≤ t2 → t1 `div` nanos_per_sec < u64_modulus →
  t2 - (t1 `div` nanos_per_sec) * nanos_per_sec ≤ expiration v →
  ∃ token,
    (let '(buf', r) := q_retry (hdr_scid header) (hdr_dcid header) (random_conn_id rand_bytes)
                         token (hdr_version header) buf in
     handshake (acceptor cfg v) header buf info rand_bytes t1 =
     Ret (acceptor cfg v, buf',
          match r with Ok n => Ok (HandshakeReply n) | Err e => Err (Quiche e) end)) ∧
    ∀ cfg2 header2 buf2 info2 rand2,
      version_is_supported (hdr_version header2) = true → hdr_token header2 = Some token →
      hdr_dcid header2 = random_conn_id rand_bytes →
      sock_ip (recv_from info2) = sock_ip (recv_from info) →
      let '(cfg', r) := q_accept cfg2 (hdr_dcid header2) (Some (hdr_dcid header))
                          (recv_to info2) (recv_from info2) in
      handshake (acceptor cfg2 v) header2 buf2 info2 rand2 t2 =
      Ret (acceptor cfg' v, buf2,
           match r with Ok c => Ok (HandshakeAccept c) | Err e => Err (Quiche e) end).
Proof.
  intros Hver Htok Ht1 Ht2 Hu64 Hexp.
  destruct (minted_accepted v (hdr_dcid header) (random_conn_id rand_bytes) (recv_from info) t1 t2)
    as (token&Hmint&Hval); [done..|].
  exists token. split.
  - destruct (q_retry _ _ _ _ _ _) as [buf' r] eqn:Hq. unfold handshake, retry.
    rewrite Hver, Htok. simpl. rewrite Hmint. simpl. rewrite Hq. by destruct r.
  - intros cfg2 header2 buf2 info2 rand2 Hver2 Htok2 Hdcid Hip.
    rewrite <-(validate_ip v _ (recv_from info2)), <-Hdcid in Hval by done.
    assert (token ≠ []) as Hne.
    { apply validate_accepts in Hval as (stamp&_&->&_); [|lia]. apply token_of_ne, sha256_length. }
    destruct (q_accept _ _ _ _ _) as [cfg' r] eqn:Hacc.
    rewrite (handshake_validated _ _ _ _ _ _ _ token) by done. rewrite Hval. simpl. by rewrite Hacc.
Qed.

(** C34.  When the server panics.  On a supported version [handshake] panics exactly if the
    header has no token field, which only Initial packets have, or if its token carries the
    sender's address and an issue time in the future. *)
Theorem handshake_panics cfg v header buf info rand_bytes now :
  0 ≤ now →
  handshake (acceptor cfg v) header buf info rand_bytes now = Panic ↔
  version_is_supported (hdr_version header) = true ∧
  (hdr_token header = None ∨
   ∃ stamp rest mac, length stamp = 8%nat ∧ length mac = 32%nat ∧
     hdr_token header = Some (token_of (recv_from info) stamp rest mac) ∧ now < issued stamp).
Proof.
  intros Hnow. destruct (version_is_supported (hdr_version header)) eqn:Hver.
  2: { unfold handshake, negotiate_version. rewrite Hver. simpl.
       destruct (q_negotiate_version _ _ _) as [? []]; naive_solver. }
  destruct (hdr_token header) as [token|] eqn:Htok.
  2: { unfold handshake. rewrite Hver, Htok. simpl. naive_solver. }
  destruct (decide (token = [])) as [->|Hne].
  { unfold handshake, retry. rewrite Hver, Htok. simpl.
    unfold mint_retry_token, since_epoch. rewrite bool_decide_true by done. simpl.
    destruct (q_retry _ _ _ _ _ _) as [? []]; (split; [done|]);
      intros [_ [[=]|(?&?&?&_&Hm&[= Heq]&_)]]; by destruct (token_of_ne _ _ _ _ Hm (eq_sym Heq)). }
  rewrite (handshake_validated _ _ _ _ _ _ _ token) by done. split.
  - destruct (validate_address _ _ _ _ _) as [[odcid|]| |] eqn:Hval; simpl; try done.
    + by destruct (q_accept _ _ _ _ _).
    + apply validate_future in Hval as (stamp&rest&mac&?&?&->&?); [|done].
      intros _. split; [done|]. right. by exists stamp, rest, mac.
  - intros [_ [[=]|(stamp&rest&mac&?&?&[= ->]&?)]].
    assert (validate_address v (hdr_dcid header) (recv_from info)
      (token_of (recv_from info) stamp rest mac) now = Panic) as ->; [|done].
    apply validate_future; [done|]. by exists stamp, rest, mac.
Qed.
End handshakes.

(** * Witnesses, with a stand-in for the hash function *)

Section witnesses.
Import QuicheReference.

#[local] Instance toy_sha256 : Sha256 := λ l, take 32 (reverse l ++ replicate 32 x00).
#[local] Instance toy_sha256_laws : Sha256Laws.
Proof. intros l. unfold sha256, toy_sha256. rewrite length_take, length_app, length_replicate. lia. Qed.

Definition demo_validator : SimpleAddressValidator := MkValidator (replicate 20 x2a) 60000000000.
Definition demo_src : SocketAddr := MkSocketAddr (V4 [x7f; x00; x00; x01]) 1234.
Definition demo_info : RecvInfo := MkRecvInfo demo_src (MkSocketAddr (V4 [x0a; x00; x00; x01]) 443).
Definition demo_header (token : option (list byte)) : Header := MkHeader 1 [x0b; x0c] [x0d] token.
Definition demo_config (n : Z) : Config := n.
Definition demo_accepted : Connection := MkToy true [x0b; x0c] false false 2 2 None None [] [] 0.
Definition demo_rand (n : nat) : list byte := replicate n x05.
Definition demo_stamp : list byte := to_be_bytes 1700000000.
Definition demo_now : Z := 1700000030500000000.
Definition demo_token (odcid dcid : ConnectionId) : list byte :=
  token_of demo_src demo_stamp odcid (tag demo_validator demo_src demo_stamp odcid dcid).

Example token_roundtrip_witness :
  ∃ token, mint_retry_token demo_validator [x0b; x0c] (demo_rand 20) demo_src 1700000000900000000 = Ret token ∧
    validate_address demo_validator (demo_rand 20) demo_src token demo_now = Ret (Some [x0b; x0c]).
Proof.
  apply (token_roundtrip demo_validator [x0b; x0c] (demo_rand 20) demo_src 1700000000900000000 demo_now);
    vm_compute; (discriminate || reflexivity).
Defined.

Example validate_sound_witness :
  validate_address demo_validator [x05] demo_src (demo_token [x0b; x0c] [x05]) demo_now = Ret (Some [x0b; x0c]).
Proof.
  apply (validate_sound demo_validator [x05] demo_src (demo_token [x0b; x0c] [x05]) demo_now [x0b; x0c]).
  - vm_compute. discriminate.
  - exists demo_stamp. split; [reflexivity|]. split; [reflexivity|].
    split; vm_compute; discriminate.
Defined.

Example validate_panics_witness :
  validate_address demo_validator [x05] demo_src
    (token_of demo_src (replicate 8 xff) [] (replicate 32 x00)) demo_now = Panic.
Proof.
  apply (validate_panics demo_validator [x05] demo_src
    (token_of demo_src (replicate 8 xff) [] (replicate 32 x00)) demo_now).
  - vm_compute. discriminate.
  - exists (replicate 8 xff), [], (replicate 32 x00).
    split; [reflexivity|]. split; [reflexivity|]. split; [reflexivity|]. vm_compute. reflexivity.
Defined.

Example tag_ambiguous_witness :
  validate_address demo_validator [x0c; x05] demo_src
    (token_of demo_src demo_stamp [x0b]
       (tag demo_validator demo_src demo_stamp ([x0b] ++ [x0c]) [x05])) demo_now = Ret (Some [x0b]).
Proof.
  apply (tag_ambiguous demo_validator demo_src demo_stamp [x0b] [x0c] [x05] demo_now).
  - vm_compute. discriminate.
  - reflexivity.
  - vm_compute. reflexivity.
Defined.

Lemma demo_accepts :
  handshake (acceptor (demo_config 0) demo_validator)
    (demo_header (Some (demo_token [x07] [x0b; x0c]))) [] demo_info demo_rand demo_now =
  Ret (acceptor (demo_config 1) demo_validator, [], Ok (HandshakeAccept demo_accepted)).
Proof.
  rewrite (handshake_validated _ _ _ _ _ _ _ (demo_token [x07] [x0b; x0c])) by done.
  assert (validate_address demo_validator [x0b; x0c] demo_src (demo_token [x07] [x0b; x0c]) demo_now
          = Ret (Some [x07])) as Hval by (vm_compute; reflexivity).
  change (hdr_dcid _) with [x0b; x0c]. change (recv_from demo_info) with demo_src.
  rewrite Hval. reflexivity.
Qed.

Example handshake_accept_sound_witness :
  ∃ stamp odcid,
    hdr_token (demo_header (Some (demo_token [x07] [x0b; x0c]))) =
      Some (token_of demo_src stamp odcid (tag demo_validator demo_src stamp odcid [x0b; x0c])) ∧
    issued stamp ≤ demo_now.
Proof.
  destruct (handshake_accept_sound (demo_config 0) demo_validator
    (demo_header (Some (demo_token [x07] [x0b; x0c]))) [] demo_info demo_rand demo_now
    (acceptor (demo_config 1) demo_validator) [] demo_accepted)
    as (_&_&stamp&odcid&cfg'&_&Htok&Hi&_).
  - vm_compute. discriminate.
  - exact demo_accepts.
  - exists stamp, odcid. split; [exact Htok|exact Hi].
Defined.

Example handshake_retry_accept_witness :
  ∃ token : list byte, handshake (acceptor (demo_config 0) demo_validator) (demo_header (Some [])) [x00; x00] demo_info demo_rand
             1700000000900000000 =
           Ret (acceptor (demo_config 0) demo_validator, [x00; x00], Ok (HandshakeReply (Z.min (zlen token) 2))).
Proof.
  destruct (handshake_retry_accept (demo_config 0) demo_validator (demo_header (Some [])) [x00; x00] demo_info demo_rand
    1700000000900000000 demo_now) as (token&Hreply&_);
    [reflexivity|reflexivity|vm_compute; discriminate|vm_compute; discriminate|vm_compute; reflexivity
    |vm_compute; discriminate|].
  exists token. exact Hreply.
Defined.

Example handshake_panics_witness :
  handshake (acceptor (demo_config 0) demo_validator) (demo_header None) [] demo_info demo_rand demo_now = Panic.
Proof.
  apply (handshake_panics (demo_config 0) demo_validator (demo_header None) [] demo_info demo_rand demo_now).
  - vm_compute. discriminate.
  - split; [reflexivity|]. left. reflexivity.
Defined.
End witnesses.
End Acceptor.
