(* ===== verification/UnitTests.v ===== *)
(** The unit tests that the crates carry: the modules [tests] of ringbuff/src/ringbuf.rs,
    ringbuff/src/pipe.rs, fixedbuf/src/lib.rs and api/src/acceptor.rs under src/crates/.  They
    are translated statement by statement and run on the models, and those that depend on a
    fuzzed, random or timed input are settled for every input. *)
From S2P Require Import Prelude Api ByteQueue RingBuffer RingPipe FixedBuf EventQueue QuicheApi Acceptor.

(** [assert_eq!], and byte string literals. *)
Definition assert_eq `{EqDecision A} (x y : A) : exec unit := assert (bool_decide (x = y)).
Definition bytes (s : string) : list byte := String.list_byte_of_string s.

Lemma assert_eq_ok `{EqDecision A} (x y : A) : x = y → assert_eq x y = Ret tt.
Proof. intros. unfold assert_eq. by rewrite bool_decide_true. Qed.

Lemma assert_eq_ne `{EqDecision A} (x y : A) : x ≠ y → assert_eq x y = Panic.
Proof. intros. unfold assert_eq. by rewrite bool_decide_false. Qed.

(** [Result::unwrap] and [expect_err]. *)
Definition unwrap_ok {A E} (r : result A E) : exec A := match r with Ok a => Ret a | Err _ => Panic end.
Definition expect_err {A E} (r : result A E) : exec E := match r with Ok _ => Panic | Err e => Ret e end.

Module RingBufTests.
Import RingBuf.

Section tests.
Context `{OverflowChecks}.

(** The slice that [writable_buf] lends, to look at or to fill as a whole. *)
Definition lent (rb : RingBuf) : exec (list byte) :=
  r ← writable_buf rb; slice (memory_block rb) (range_start r) (range_end r).
Definition writable_buf_copy_from_slice (rb : RingBuf) (src : list byte) : exec RingBuf :=
  r ← writable_buf rb;
  block ← copy_into (memory_block rb) (range_start r) (range_end r) src;
  Ret (set_memory rb block).

Definition writable_buf_len (rb : RingBuf) : exec Z := b ← lent rb; Ret (zlen b).
Definition readable_buf_len (rb : RingBuf) : exec Z := b ← readable_buf rb; Ret (zlen b).

Definition fuzz_test_unsafe_fn (offset : Z) : exec unit :=
  offset ← rem_u64 offset 11;
  ringbuf ← with_capacity 11;
  n ← writable_buf_len ringbuf; assert_eq n 11;;
  ringbuf ← writable_consume ringbuf offset;
  n ← writable_buf_len ringbuf; assert_eq n (11 - offset);;
  n ← readable_buf_len ringbuf; assert_eq n offset.

Definition test_unsafe_fns : exec unit :=
  ringbuf ← with_capacity 11;
  n ← writable_buf_len ringbuf; assert_eq n 11;;
  ringbuf ← writable_buf_copy_from_slice ringbuf (bytes "12345678901");
  ringbuf ← writable_consume ringbuf 5;
  n ← writable_buf_len ringbuf; assert_eq n 6;;
  n ← readable_buf_len ringbuf; assert_eq n 5;;
  ringbuf ← writable_consume ringbuf 6;
  n ← writable ringbuf; assert_eq n 0;;
  n ← writable_buf_len ringbuf; assert_eq n 0;;
  n ← readable_buf_len ringbuf; assert_eq n 11;;
  ringbuf ← readable_consume ringbuf 3;
  b ← readable_buf ringbuf; assert_eq b (bytes "45678901");;
  b ← lent ringbuf; assert_eq b (bytes "123").

Definition test_pos : exec unit :=
  ringbuf ← with_capacity 11;
  ringbuf ← writable_consume ringbuf 11;
  n ← readable ringbuf; assert_eq n 11;;
  n ← writable ringbuf; assert_eq n 0;;
  ringbuf ← readable_consume ringbuf 11;
  n ← readable ringbuf; assert_eq n 0;;
  n ← writable ringbuf; assert_eq n 11;;
  ringbuf ← writable_consume ringbuf 10;
  ringbuf ← readable_consume ringbuf 9;
  n ← readable ringbuf; assert_eq n 1;;
  n ← writable ringbuf; assert_eq n 10.

Definition test_io : exec unit :=
  ringbuf ← with_capacity 11;
  '(ringbuf, n) ← write ringbuf (bytes "12345678901234"); assert_eq n 11;;
  n ← writable ringbuf; assert_eq n 0;;
  n ← readable ringbuf; assert_eq n 11;;
  buf ← vec_of x00 12;
  '(ringbuf, buf, n) ← read ringbuf buf; assert_eq n 11;;
  b ← slice buf 0 11; assert_eq b (bytes "12345678901");;
  n ← writable ringbuf; assert_eq n 11;;
  n ← readable ringbuf; assert_eq n 0;;
  ringbuf ← writable_consume ringbuf 5;
  ringbuf ← readable_consume ringbuf 5;
  n ← writable ringbuf; assert_eq n 11;;
  n ← readable ringbuf; assert_eq n 0;;
  '(ringbuf, n) ← write ringbuf (bytes "67890123412345"); assert_eq n 11;;
  buf ← vec_of x00 7;
  '(ringbuf, buf, n) ← read ringbuf buf; assert_eq n 7;;
  assert_eq buf (bytes "6789012");;
  n ← writable ringbuf; assert_eq n 7;;
  n ← readable ringbuf; assert_eq n 4.

Definition test_boundary_condition : exec unit :=
  ringbuf ← with_capacity (1024 * 3);
  ringbuf ← writable_consume ringbuf (1024 * 3);
  n ← readable ringbuf; assert_eq n (1024 * 3);;
  n ← writable ringbuf; assert_eq n 0;;
  ringbuf ← readable_consume ringbuf 3;
  n ← writable ringbuf; assert_eq n 3;;
  ringbuf ← with_capacity (1024 * 3);
  ringbuf ← writable_consume ringbuf (1024 * 3 - 1);
  n ← readable ringbuf; assert_eq n (1024 * 3 - 1);;
  n ← writable ringbuf; assert_eq n 1.
End tests.

(** The tests pass in both build profiles. *)
Example unit_tests_pass (checks : OverflowChecks) :
  test_unsafe_fns = Ret tt ∧ test_pos = Ret tt ∧ test_io = Ret tt ∧ test_boundary_condition = Ret tt.
Proof. destruct checks; split_and!; vm_compute; reflexivity. Qed.

(** No input of the fuzzer fails the fuzz test. *)
Theorem fuzz_test_passes (checks : OverflowChecks) (offset : Z) : fuzz_test_unsafe_fn offset = Ret tt.
Proof.
  unfold fuzz_test_unsafe_fn. rewrite rem_u64_ok by done. cbn [mbind exec_bind].
  assert (offset `mod` 11 ∈ seqZ 0 11) as Hin
    by (apply elem_of_seqZ; pose proof (Z.mod_pos_bound offset 11); lia).
  generalize dependent (offset `mod` 11). clear offset. intros offset Hin.
  change (seqZ 0 11) with [0; 1; 2; 3; 4; 5; 6; 7; 8; 9; 10] in Hin.
  set_unfold in Hin.
  destruct checks; repeat (destruct Hin as [->|Hin]; [vm_compute; reflexivity|]); done.
Qed.
End RingBufTests.

Module PipeTests.
Import RingBufPipe.

Section tests.
Context `{OverflowChecks}.
(** [noop_context]: wakers that nobody looks at. *)
Local Abbreviation Pipe := (RawRingBufPipe RingBuf.RingBuf unit).

Definition io_write (p : Pipe) (buf : list byte) : exec (Pipe * io_result Z) :=
  '(p, r, _) ← write p buf; Ret (p, r).
Definition io_read (p : Pipe) (buf : list byte) : exec (Pipe * list byte * io_result Z) :=
  '(p, (buf, r), _) ← read p buf; Ret (p, buf, r).

(** [.poll_unpin(&mut noop_context()).is_pending()]. *)
Definition write_is_pending (p : Pipe) (buf : list byte) : exec (Pipe * bool) :=
  '(p, r, _) ← poll_write p tt buf; Ret (p, match r with Pending => true | _ => false end).
Definition read_is_pending (p : Pipe) (buf : list byte) : exec (Pipe * list byte * bool) :=
  '(p, (buf, r), _) ← poll_read p tt buf;
  Ret (p, buf, match r with Pending => true | _ => false end).

(** [.await]: a pending operation would wait for ever, since the test has no other thread. *)
Definition await_write (p : Pipe) (buf : list byte) : exec (Pipe * io_result Z) :=
  '(p, r, _) ← poll_write p tt buf;
  match r with Ready r => Ret (p, r) | Pending => NoFuel end.
Definition await_read (p : Pipe) (buf : list byte) : exec (Pipe * list byte * io_result Z) :=
  '(p, (buf, r), _) ← poll_read p tt buf;
  match r with Ready r => Ret (p, buf, r) | Pending => NoFuel end.

Definition test_pipe : exec unit :=
  pipe ← pipe 10;
  '(pipe, r) ← io_write pipe (bytes "hello world~~~~~~~~"); n ← unwrap_ok r; assert_eq n 10;;
  buf ← vec_of x00 5;
  '(pipe, buf, r) ← await_read pipe buf; n ← unwrap_ok r; assert_eq n 5;;
  assert_eq buf (bytes "hello");;
  '(pipe, buf, r) ← await_read pipe buf; n ← unwrap_ok r; assert_eq n 5;;
  assert_eq buf (bytes " worl");;
  '(pipe, _, pending) ← read_is_pending pipe buf; assert pending;;
  '(pipe, r) ← await_write pipe (bytes "12345678900987654321"); n ← unwrap_ok r; assert_eq n 10;;
  '(pipe, pending) ← write_is_pending pipe (bytes "hello"); assert pending;;
  buf ← vec_of x00 11;
  '(pipe, buf, r) ← io_read pipe buf; n ← unwrap_ok r; assert_eq n 10;;
  b ← slice buf 0 10; assert_eq b (bytes "1234567890");;
  '(pipe, _, r) ← io_read pipe buf; n ← unwrap_ok r; assert_eq n 0;;
  '(pipe, r) ← await_write pipe (bytes "12345678900987654321"); n ← unwrap_ok r; assert_eq n 10;;
  '(pipe, _, _) ← close pipe;
  '(pipe, r) ← io_write pipe (bytes "12345678900987654321"); e ← expect_err r; assert_eq e BrokenPipe;;
  '(pipe, r) ← await_write pipe (bytes "12345678900987654321"); n ← unwrap_ok r; assert_eq n 0;;
  buf ← vec_of x00 5;
  '(pipe, _, r) ← io_read pipe buf; n ← unwrap_ok r; assert_eq n 5;;
  buf ← vec_of x00 5;
  '(pipe, _, r) ← await_read pipe buf; n ← unwrap_ok r; assert_eq n 5;;
  buf ← vec_of x00 5;
  '(pipe, _, r) ← io_read pipe buf; e ← expect_err r; assert_eq e BrokenPipe;;
  buf ← vec_of x00 5;
  '(pipe, _, r) ← await_read pipe buf; n ← unwrap_ok r; assert_eq n 0.
End tests.

Example test_pipe_passes (checks : OverflowChecks) : test_pipe = Ret tt.
Proof. destruct checks; vm_compute; reflexivity. Qed.
End PipeTests.

Module ArrayBufTests.
Import ArrayBuf.

Definition test_array_buf : exec unit :=
  let LEN := 1330 in
  let buf := new LEN in
  b ← readable_buf buf; assert_eq b [];;
  b ← readable_buf_mut buf; assert_eq b [];;
  assert_eq (readable buf) 0;;
  assert_eq (writable LEN buf) 1330;;
  buf ← writable_consume LEN buf 1000;
  b ← readable_buf buf; assert_eq b (replicate 1000 x00);;
  b ← readable_buf buf; assert_eq (zlen b) 1000.

Example test_array_buf_passes : test_array_buf = Ret tt.
Proof. vm_compute. reflexivity. Qed.
End ArrayBufTests.

Module AcceptorTests.
Import Acceptor.

Section tests.
Context `{Sha256Laws}.

(** The [n]-th call for random bytes, and the [n]-th reading of the clock. *)
Context (rand_bytes : nat → nat → list byte) (clock : nat → Z).

Definition from_secs (n : Z) : Duration := n * nanos_per_sec.
Definition localhost : SocketAddr := MkSocketAddr (V4 [x7f; x00; x00; x01]) 1234.
Definition unspecified : SocketAddr := MkSocketAddr (V4 [x00; x00; x00; x00]) 1234.

(** Between the readings 6 and 7 the test sleeps for two seconds. *)
Definition test_default_address_validator : exec unit :=
  let validator := new_validator (rand_bytes 0%nat) (from_secs 100) in
  let dcid := random_conn_id (rand_bytes 2%nat) in
  let new_scid := random_conn_id (rand_bytes 3%nat) in
  let src := localhost in
  token ← mint_retry_token validator dcid new_scid src (clock 0%nat);
  r ← validate_address validator new_scid src token (clock 1%nat); assert_eq r (Some dcid);;
  r ← validate_address validator dcid src token (clock 2%nat); assert_eq r None;;
  r ← validate_address validator new_scid src token (clock 3%nat); assert_eq r (Some dcid);;
  let src := unspecified in
  r ← validate_address validator new_scid src token (clock 4%nat); assert_eq r None;;
  let validator := new_validator (rand_bytes 4%nat) (from_secs 1) in
  token ← mint_retry_token validator dcid new_scid src (clock 5%nat);
  r ← validate_address validator new_scid src token (clock 6%nat); assert_eq r (Some dcid);;
  r ← validate_address validator new_scid src token (clock 7%nat); assert_eq r None.

(** The start of the second in which [t] falls. *)
Definition whole_secs (t : Z) : Z := t `div` nanos_per_sec * nanos_per_sec.

(** A token is refused from any address other than its own. *)
Lemma validate_elsewhere self dcid src src' stamp odcid mac now :
  0 ≤ now → length (octets (sock_ip src)) = length (octets (sock_ip src')) →
  octets (sock_ip src) ≠ octets (sock_ip src') →
  validate_address self dcid src (token_of src' stamp odcid mac) now = Ret None.
Proof.
  intros Hnow Hlen Hne.
  destruct (validate_shape self dcid src (token_of src' stamp odcid mac) now Hnow)
    as [?|(stamp'&odcid'&mac'&_&_&Heq)]; [done|].
  unfold token_of in Heq. apply app_inj_1 in Heq as [? _]; [congruence|done].
Qed.

(** The second that the stamp of a token rounds away is taken from its lifetime. *)
Lemma validate_minted self dcid dcid' new_scid src t1 t2 :
  0 ≤ t1 → t1 ≤ t2 → t1 `div` nanos_per_sec < u64_modulus →
  let stamp := to_be_bytes (t1 `div` nanos_per_sec) in
  validate_address self dcid' src (token_of src stamp dcid (tag self src stamp dcid new_scid)) t2 =
  Ret (if decide (t2 ≤ whole_secs t1 + expiration self ∧
                  tag self src stamp dcid new_scid = tag self src stamp dcid dcid')
       then Some dcid else None).
Proof.
  intros H1 H2 Hu64. simpl. destruct (issued_stamp t1 H1 Hu64) as [Hiss ?].
  rewrite validate_parts by (apply length_to_be || apply sha256_length || lia).
  rewrite Hiss. unfold whole_secs. rewrite decide_False by lia.
  case_decide; [rewrite decide_False by lia; done|].
  case_decide; [rewrite decide_True by (split; [lia|done])|rewrite decide_False by tauto]; done.
Qed.

(** C29.  The unit test of the address validator is a race against the clock.  Whatever the
    random bytes are, if the tags of the two ids do not collide, the first half of the test takes
    less than 99 seconds and the test sleeps as it should, then it passes exactly if the token
    of the second half is validated within the same second as it was minted, or at the very start
    of the next: the issue time is rounded down to whole seconds, which shortens the lifetime of
    every token by up to a second. *)
Theorem address_validator_test :
  let seed := rand_bytes 0%nat 20%nat in
  let dcid := rand_bytes 2%nat 20%nat in
  let new_scid := rand_bytes 3%nat 20%nat in
  let body := octets (sock_ip localhost) ++ to_be_bytes (clock 0%nat `div` nanos_per_sec) ++ dcid in
  0 ≤ clock 0%nat → (∀ n, clock n ≤ clock (S n)) → clock 7%nat `div` nanos_per_sec < u64_modulus →
  sha256 (seed ++ body ++ new_scid) ≠ sha256 (seed ++ body ++ dcid) →
  clock 3%nat ≤ clock 0%nat + from_secs 99 →
  clock 6%nat + from_secs 2 ≤ clock 7%nat →
  test_default_address_validator =
    if decide (clock 6%nat ≤ whole_secs (clock 5%nat) + from_secs 1) then Ret tt else Panic.
Proof.
  intros seed dcid new_scid body Hc0 Hmono Hu64 Hcoll H99 Hsleep.
  pose proof (Hmono 0%nat). pose proof (Hmono 1%nat). pose proof (Hmono 2%nat). pose proof (Hmono 3%nat).
  pose proof (Hmono 4%nat). pose proof (Hmono 5%nat). pose proof (Hmono 6%nat).
  assert (∀ t, t ≤ clock 7%nat → t `div` nanos_per_sec < u64_modulus) as Hsecs.
  { intros t Ht. apply (Z.div_le_mono _ _ nanos_per_sec) in Ht; [lia|done]. }
  unfold test_default_address_validator, random_conn_id. fold dcid new_scid.
  rewrite !mint_parts by lia. cbn [mbind exec_bind].
  rewrite !validate_minted by (apply Hsecs || idtac; lia). cbn [mbind exec_bind expiration new_validator].
  destruct (issued_stamp (clock 0%nat)) as [_ ?]; [lia|apply Hsecs; lia|].
  destruct (issued_stamp (clock 5%nat)) as [_ ?]; [lia|apply Hsecs; lia|].
  unfold from_secs, whole_secs in *.
  rewrite (decide_True (P := clock 1%nat ≤ _ ∧ _)) by (split; [lia|done]).
  rewrite (decide_False (P := clock 2%nat ≤ _ ∧ _)) by (intros [_ ?]; done).
  rewrite (decide_True (P := clock 3%nat ≤ _ ∧ _)) by (split; [lia|done]).
  rewrite validate_elsewhere by (done || lia).
  rewrite (decide_False (P := clock 7%nat ≤ _ ∧ _)) by (intros [? _]; lia).
  rewrite !(assert_eq_ok (Some dcid) (Some dcid)), (assert_eq_ok None None) by done.
  cbn [mbind exec_bind].
  case_decide as Hrace; [rewrite decide_True by tauto|rewrite decide_False by by intros ?; apply Hrace].
  - by rewrite assert_eq_ok.
  - by rewrite assert_eq_ne.
Qed.
End tests.

(** A hash that tells the two ids apart, and a clock whose readings lie half a second before the
    end of a second, or at the start of the test's second half right before it. *)
#[local] Instance last_bytes : Sha256 := λ l, take 32 (reverse l ++ replicate 32 x00).
#[local] Instance last_bytes_laws : Sha256Laws.
Proof. intros l. unfold sha256, last_bytes. rewrite length_take, length_app, length_replicate. lia. Qed.

Definition demo_ids (call n : nat) : list byte := replicate n (byte_of_Z (Z.of_nat call)).
(** Readings in nanoseconds: the second token is minted a nanosecond before a full second, and
    validated two nanoseconds after it. *)
Definition slow_clock (n : nat) : Z :=
  nth n [5; 6; 7; 8; 9; 999999999; 2000000001; 4000000001] (4000000001 + Z.of_nat n).

Lemma slow_clock_mono n : slow_clock n ≤ slow_clock (S n).
Proof. do 8 (destruct n as [|n]; [vm_compute; discriminate|]). unfold slow_clock. simpl. destruct n; lia. Qed.

(** The test fails although its two calls are barely more than a second apart. *)
Example address_validator_test_witness :
  test_default_address_validator demo_ids slow_clock = Panic.
Proof.
  apply (address_validator_test demo_ids slow_clock);
    [vm_compute; discriminate|apply slow_clock_mono|reflexivity|vm_compute; discriminate
    |vm_compute; discriminate|vm_compute; discriminate].
Defined.
End AcceptorTests.
