(* ===== verification/Utils.v ===== *)
(** The timer helpers of [crates/poll/src/utils.rs]. *)
From S2P Require Import Prelude Api EventQueue QuicheApi.

(** [Ord::min] on instants. *)
Definition min_of_some (v1 v2 : option Instant) : option Instant :=
  match v1, v2 with
  | Some a, Some b => Some (Z.min a b)
  | Some v, _ | _, Some v => Some v
  | None, None => None
  end.

Section timers.
Context `{QuicheOps}.

(** The instant at which quiche wants the next packet to leave, if it paces. *)
Definition paced (conn : Connection) (now : Instant) : option Instant :=
  get_next_release_time conn ≫= λ release, release_decision_time release now.

Definition delay_send (conn : Connection) (now : Instant) (send_done : bool) : option Instant :=
  let release_time := paced conn now in
  if send_done then min_of_some (timeout_instant conn) release_time
  else if bool_decide (is_Some release_time)
       then min_of_some (timeout_instant conn) release_time
       else None.

Definition release_time (conn : Connection) (now : Instant)
    (release_timer_threshold : Duration) : option Instant :=
  match paced conn now with
  | Some time =>
      if bool_decide (release_timer_threshold < duration_since time now) then Some time else None
  | None => None
  end.

(** ** Facts *)

Lemma min_of_some_spec v1 v2 d :
  min_of_some v1 v2 = Some d ↔
  (v1 = Some d ∨ v2 = Some d) ∧ ∀ d', v1 = Some d' ∨ v2 = Some d' → d ≤ d'.
Proof.
  destruct v1 as [a|], v2 as [b|]; simpl; split.
  - intros [= <-]. split; [|intros d' [[= <-]|[= <-]]; lia].
    destruct (Z.min_spec a b) as [[_ ->]|[_ ->]]; auto.
  - intros [Heq Hmin]. pose proof (Hmin a ltac:(auto)). pose proof (Hmin b ltac:(auto)).
    f_equal. destruct Heq; simplify_eq; lia.
  - intros [= <-]. naive_solver lia.
  - naive_solver.
  - intros [= <-]. naive_solver lia.
  - naive_solver.
  - done.
  - naive_solver.
Qed.

Lemma min_of_some_none v1 v2 : min_of_some v1 v2 = None ↔ v1 = None ∧ v2 = None.
Proof. destruct v1, v2; naive_solver. Qed.

(** A connection is not held back beyond the threshold exactly when [release_time]
    is silent: then every paced release is within the threshold. *)
Lemma release_time_none conn now threshold :
  release_time conn now threshold = None ↔
  ∀ t, paced conn now = Some t → duration_since t now ≤ threshold.
Proof.
  unfold release_time. destruct (paced conn now) as [t|]; [|naive_solver].
  case_bool_decide; split; try done; [|naive_solver lia].
  intros Hall. specialize (Hall t eq_refl). lia.
Qed.
End timers.
