(* ===== verification/Connection.v ===== *)
(** The connection wrapper of [crates/poll/src/conn.rs]: its data, its operations and
    the facts about single operations that the other files build on.

    In the source every method receives [conn], a mutable reference obtained from
    [self.wrapped]; both name the same object, here the field [wrapped]. *)
From S2P Require Import Prelude Api EventQueue QuicheApi Utils.

(** * Lock kinds *)

(** [enum LocKind]. *)
Inductive LocKind :=
| LocNone
| LocSend
| LocRecv
| LocClose (app : bool) (err : Z) (reason : list byte)
| LocStreamOpen (kind : StreamKind)
| LocStreamSend (id len : Z)
| LocStreamRecv (id : Z)
| LocStreamClose (id err : Z)
| LocReadLock.
#[global] Instance LocKind_eq_dec : EqDecision LocKind.
Proof. solve_decision. Defined.

Definition LocKind_encode (k : LocKind) :
    unit + unit + unit + bool * Z * list byte + StreamKind + Z * Z + Z + Z * Z + unit :=
  match k with
  | LocNone => inl (inl (inl (inl (inl (inl (inl (inl ())))))))
  | LocSend => inl (inl (inl (inl (inl (inl (inl (inr ())))))))
  | LocRecv => inl (inl (inl (inl (inl (inl (inr ()))))))
  | LocClose app err reason => inl (inl (inl (inl (inl (inr (app, err, reason))))))
  | LocStreamOpen kind => inl (inl (inl (inl (inr kind))))
  | LocStreamSend id len => inl (inl (inl (inr (id, len))))
  | LocStreamRecv id => inl (inl (inr id))
  | LocStreamClose id err => inl (inr (id, err))
  | LocReadLock => inr ()
  end.
Definition LocKind_decode
    (x : unit + unit + unit + bool * Z * list byte + StreamKind + Z * Z + Z + Z * Z + unit) :
    LocKind :=
  match x with
  | inl (inl (inl (inl (inl (inl (inl (inl _))))))) => LocNone
  | inl (inl (inl (inl (inl (inl (inl (inr _))))))) => LocSend
  | inl (inl (inl (inl (inl (inl (inr _)))))) => LocRecv
  | inl (inl (inl (inl (inl (inr (app, err, reason)))))) => LocClose app err reason
  | inl (inl (inl (inl (inr kind)))) => LocStreamOpen kind
  | inl (inl (inl (inr (id, len)))) => LocStreamSend id len
  | inl (inl (inr id)) => LocStreamRecv id
  | inl (inr (id, err)) => LocStreamClose id err
  | inr _ => LocReadLock
  end.
#[global] Program Instance LocKind_countable : Countable LocKind :=
  inj_countable' LocKind_encode LocKind_decode _.
Next Obligation. by intros []. Qed.

(** [LocKind::default]. *)
Definition LocKind_default : LocKind := LocNone.

Definition need_retry (self : LocKind) : bool :=
  match self with LocSend | LocNone => false | _ => true end.

(** [struct LockContext]. *)
Record LockContext := MkLockContext {
  lc_token : Token;
  lc_lock_count : Z;
  lc_send_done : bool;
}.

Module QuicConn.

Section model.
Context `{QuicheOps} `{!PriorityQueue Event} `{HashIter} `{OverflowChecks}.
Abbreviation Readiness := Readiness.Readiness.

Record QuicConn := MkQuicConn {
  token : Token;
  local_stream_bidi_next : Z;
  remote_stream_bidi_seen : option Z;
  local_stream_uni_next : Z;
  remote_stream_uni_seen : option Z;
  locker : LocKind;
  reties : gset LocKind;
  lock_count : Z;
  read_lock_count : Z;
  established : bool;
  wrapped : Connection;
}.

Definition new (token : Token) (wrapped : Connection) : QuicConn :=
  MkQuicConn token
    (if is_server wrapped then 1 else 0) None
    (if is_server wrapped then 3 else 2) None
    LocKind_default ∅ 0 0 (is_established wrapped) wrapped.

(** [From<QuicConn> for quiche::Connection]. *)
Definition into_connection (self : QuicConn) : Connection := wrapped self.

(** ** Assignments to fields *)

Definition set_wrapped (self : QuicConn) (c : Connection) : QuicConn :=
  let '(MkQuicConn t lb rb lu ru l r n m e _) := self in MkQuicConn t lb rb lu ru l r n m e c.
Definition set_reties (self : QuicConn) (r : gset LocKind) : QuicConn :=
  let '(MkQuicConn t lb rb lu ru l _ n m e c) := self in MkQuicConn t lb rb lu ru l r n m e c.
Definition set_lock (self : QuicConn) (l : LocKind) (lock_count read_lock_count : Z) : QuicConn :=
  let '(MkQuicConn t lb rb lu ru _ r _ _ e c) := self in
  MkQuicConn t lb rb lu ru l r lock_count read_lock_count e c.
Definition set_next (self : QuicConn) (kind : StreamKind) (id : Z) : QuicConn :=
  let '(MkQuicConn t lb rb lu ru l r n m e c) := self in
  match kind with
  | Uni => MkQuicConn t lb rb id ru l r n m e c
  | Bidi => MkQuicConn t id rb lu ru l r n m e c
  end.
Definition set_seen (self : QuicConn) (kind : StreamKind) (id : Z) : QuicConn :=
  let '(MkQuicConn t lb rb lu ru l r n m e c) := self in
  match kind with
  | Uni => MkQuicConn t lb rb lu (Some id) l r n m e c
  | Bidi => MkQuicConn t lb (Some id) lu ru l r n m e c
  end.
Definition set_established (self : QuicConn) : QuicConn :=
  let '(MkQuicConn t lb rb lu ru l r n m _ c) := self in MkQuicConn t lb rb lu ru l r n m true c.

(** The two generators and the two watermarks, selected by the direction. *)
Definition local_next (self : QuicConn) (kind : StreamKind) : Z :=
  match kind with Uni => local_stream_uni_next self | Bidi => local_stream_bidi_next self end.
Definition remote_seen (self : QuicConn) (kind : StreamKind) : option Z :=
  match kind with Uni => remote_stream_uni_seen self | Bidi => remote_stream_bidi_seen self end.
Definition peer_streams_left (c : Connection) (kind : StreamKind) : Z :=
  match kind with Uni => peer_streams_left_uni c | Bidi => peer_streams_left_bidi c end.

(** An event of this connection. *)
Definition event (self : QuicConn) (kind : EventKind) (is_error : bool) (stream_id : Z) : Event :=
  MkEvent (token self) kind (is_server (wrapped self)) is_error stream_id.

(** [readiness.insert(Event { .. }, None)]. *)
Definition notify (readiness : Readiness) (e : Event) : Readiness :=
  Readiness.insert readiness e None.

(** ** Locking *)

Definition try_lock_prv (self : QuicConn) (kind : LocKind) :
    exec (QuicConn * result LockContext (Error QError)) :=
  let locked self := Ret (self, Ok (MkLockContext (token self) (lock_count self) false)) in
  match locker self with
  | LocNone =>
      if bool_decide (kind = LocReadLock) then
        assert (bool_decide (read_lock_count self = 0));;
        n ← add_u64 (read_lock_count self) 1;
        locked (set_lock self kind (lock_count self) n)
      else locked (set_lock self kind (lock_count self) (read_lock_count self))
  | l =>
      if bool_decide (l = LocReadLock ∧ kind = LocReadLock) then
        assert (bool_decide (0 < read_lock_count self));;
        n ← add_u64 (read_lock_count self) 1;
        locked (set_lock self l (lock_count self) n)
      else
        let self := if need_retry kind then set_reties self ({[kind]} ∪ reties self) else self in
        Ret (self, Err Busy)
  end.

(** The guard that [try_lock] builds owns the [LockContext]; dropping it calls [unlock]. *)
Definition try_lock := try_lock_prv.

(** ** Streams *)

(** A quiche result whose [Done] is not an error to the caller. *)
Definition done_ok {A} (r : result A QError) : result unit (Error QError) :=
  match r with
  | Ok _ => Ok ()
  | Err err => if bool_decide (err = QDone) then Ok () else Err (Quiche err)
  end.

Definition stream_close_prv (conn : Connection) (stream_id err : Z) :
    Connection * result unit (Error QError) :=
  let stop_receive (conn : Connection) :=
    if stream_finished conn stream_id then (conn, Ok ())
    else let '(conn, r) := q_stream_shutdown conn stream_id ShutdownRead err in (conn, done_ok r) in
  let shutdown_send (conn : Connection) :=
    let '(conn, r) := q_stream_send conn stream_id [] true in (conn, done_ok r) in
  if is_bidi stream_id then
    match stop_receive conn with
    | (conn, Ok _) => shutdown_send conn
    | (conn, Err e) => (conn, Err e)
    end
  else if is_local stream_id (is_server conn) then shutdown_send conn
  else stop_receive conn.

Definition stream_open_prv (self : QuicConn) (kind : StreamKind) :
    exec (QuicConn * result Z (Error QError)) :=
  if bool_decide (peer_streams_left (wrapped self) kind = 0) then Ret (self, Err Retry)
  else
    let stream_id := local_next self kind in
    next ← add_u64 stream_id 4;
    let self := set_next self kind next in
    let '(conn, r) := q_stream_priority (wrapped self) stream_id 255 true in
    Ret (set_wrapped self conn,
         match r with Ok _ => Ok stream_id | Err err => Err (Quiche err) end).

(** ** The handlers that [unlock] runs *)

(** One iteration of [handle_retry_events]. *)
Definition retry_event (self : QuicConn) (readiness : Readiness) (ev : LocKind) :
    exec (QuicConn * Readiness) :=
  match ev with
  | LocSend => Ret (self, readiness)
  | LocRecv => Ret (self, notify readiness (event self EvRecv false 0))
  | LocClose app err reason =>
      let '(conn, r) := q_close (wrapped self) app err reason in
      let self := set_wrapped self conn in
      match done_ok r with
      | Ok _ => Ret (self, readiness)
      | Err _ => Ret (self, notify readiness (event self EvClosed true 0))
      end
  | LocStreamOpen stream_kind =>
      if bool_decide (0 < peer_streams_left (wrapped self) stream_kind) then
        let k := match stream_kind with Uni => EvStreamOpenUni | Bidi => EvStreamOpenBidi end in
        Ret (self, notify readiness (event self k false 0))
      else Ret (set_reties self ({[LocStreamOpen stream_kind]} ∪ reties self), readiness)
  | LocStreamSend id len =>
      let '(conn, r) := q_stream_writable (wrapped self) id len in
      let self := set_wrapped self conn in
      match r with
      | Ok true => Ret (self, notify readiness (event self EvStreamSend false id))
      | Ok false => Ret (self, readiness)
      | Err _ => Ret (self, notify readiness (event self EvStreamSend true id))
      end
  | LocStreamRecv id => Ret (self, notify readiness (event self EvStreamRecv false id))
  | LocStreamClose id err =>
      let '(conn, _) := stream_close_prv (wrapped self) id err in
      Ret (set_wrapped self conn, readiness)
  | LocReadLock => Ret (self, notify readiness (event self EvReadLock false 0))
  | LocNone => Panic
  end.

Fixpoint retry_all (self : QuicConn) (readiness : Readiness) (l : list LocKind) :
    exec (QuicConn * Readiness) :=
  match l with
  | [] => Ret (self, readiness)
  | ev :: l => '(self, readiness) ← retry_event self readiness ev; retry_all self readiness l
  end.

(** [drain] empties the set before the first event is handled. *)
Definition handle_retry_events (self : QuicConn) (readiness : Readiness) :
    exec (QuicConn * Readiness) :=
  retry_all (set_reties self ∅) readiness (hash_iter (reties self)).

Definition handle_accept (self : QuicConn) (new : Z) (readiness : Readiness) :
    QuicConn * Readiness :=
  let remote_stream_seen := if is_bidi new then remote_stream_bidi_seen self
                            else remote_stream_uni_seen self in
  match remote_stream_seen with
  | Some seen =>
      if bool_decide (seen < new) then
        (set_seen self (if is_bidi new then Bidi else Uni) new,
         notify readiness (event self EvStreamAccept false new))
      else (self, notify readiness (event self EvStreamRecv false new))
  | None =>
      (set_seen self (if is_bidi new then Bidi else Uni) new,
       notify readiness (event self EvStreamAccept false new))
  end.

(** The two loops of [handle_stream_state_changed]. *)
Fixpoint writable_loop (fuel : nat) (self : QuicConn) (readiness : Readiness) :
    exec (QuicConn * Readiness) :=
  match q_stream_writable_next (wrapped self) with
  | (conn, None) => Ret (set_wrapped self conn, readiness)
  | (conn, Some stream_id) =>
      match fuel with
      | O => NoFuel
      | S fuel =>
          let self := set_wrapped self conn in
          writable_loop fuel self (notify readiness (event self EvStreamSend false stream_id))
      end
  end.

Fixpoint readable_loop (fuel : nat) (self : QuicConn) (readiness : Readiness) :
    exec (QuicConn * Readiness) :=
  match q_stream_readable_next (wrapped self) with
  | (conn, None) => Ret (set_wrapped self conn, readiness)
  | (conn, Some stream_id) =>
      match fuel with
      | O => NoFuel
      | S fuel =>
          let self := set_wrapped self conn in
          if negb (is_local stream_id (is_server conn)) then
            let '(self, readiness) := handle_accept self stream_id readiness in
            readable_loop fuel self readiness
          else readable_loop fuel self (notify readiness (event self EvStreamRecv false stream_id))
      end
  end.

Definition handle_stream_state_changed (self : QuicConn) (readiness : Readiness) :
    exec (QuicConn * Readiness) :=
  '(self, readiness) ← writable_loop (writable_backlog (wrapped self)) self readiness;
  readable_loop (readable_backlog (wrapped self)) self readiness.

(** [now] is the value of the [Instant::now()] that the handler reads. *)
Definition handle_send (self : QuicConn) (send_done : bool) (now : Instant)
    (readiness : Readiness) : Readiness :=
  let delay_to := delay_send (wrapped self) now send_done in
  let send_event := event self EvSend false 0 in
  if send_done && bool_decide (delay_to = None)
  then Readiness.remove readiness send_event
  else Readiness.insert readiness send_event delay_to.

Definition handle_state_changed (self : QuicConn) (readiness : Readiness) :
    QuicConn * Readiness * bool :=
  let '(self, readiness) :=
    if negb (established self) && is_established (wrapped self) then
      let self := set_established self in
      if is_server (wrapped self) then (self, notify readiness (event self EvAccept false 0))
      else (self, notify readiness (event self EvConnected false 0))
    else (self, readiness) in
  if is_closed (wrapped self)
  then (self, notify readiness (event self EvClosed false 0), true)
  else (self, readiness, false).

(** The release of the lock proper, before the handlers run. *)
Definition release (self : QuicConn) (lock_count_arg : Z) : exec QuicConn :=
  assert (negb (bool_decide (locker self = LocNone)));;
  assert (bool_decide (lock_count self = lock_count_arg));;
  if bool_decide (locker self = LocReadLock) then
    n ← sub_u64 (read_lock_count self) 1;
    if bool_decide (n = 0) then
      c ← add_u64 (lock_count self) 1; Ret (set_lock self LocNone c n)
    else Ret (set_lock self (locker self) (lock_count self) n)
  else
    c ← add_u64 (lock_count self) 1; Ret (set_lock self LocNone c (read_lock_count self)).

Definition unlock (self : QuicConn) (lock_count_arg : Z) (send_done : bool) (now : Instant)
    (readiness : Readiness) : exec (QuicConn * Readiness * bool) :=
  self ← release self lock_count_arg;
  '(self, readiness) ← handle_retry_events self readiness;
  '(self, readiness) ← handle_stream_state_changed self readiness;
  let readiness := handle_send self send_done now readiness in
  Ret (handle_state_changed self readiness).

(** ** The operations that lock, act and unlock at once *)

Definition close (self : QuicConn) (app : bool) (err : Z) (reason : list byte) (now : Instant)
    (readiness : Readiness) : exec (QuicConn * Readiness * result unit (Error QError)) :=
  '(self, locked) ← try_lock_prv self (LocClose app err reason);
  match would_block locked with
  | Ready (Err e) => Ret (self, readiness, Err e)
  | Pending => Ret (self, readiness, Ok ())
  | Ready (Ok guard) =>
      let '(conn, r) := q_close (wrapped self) app err reason in
      '(self, readiness, _) ← unlock (set_wrapped self conn) (lc_lock_count guard) false now readiness;
      Ret (self, readiness, done_ok r)
  end.

Definition stream_open (self : QuicConn) (kind : StreamKind) (non_blocking : bool) (now : Instant)
    (readiness : Readiness) : exec (QuicConn * Readiness * result (option Z) (Error QError)) :=
  '(self, locked) ← try_lock_prv self (LocStreamOpen kind);
  match locked with
  | Err e => Ret (self, readiness, Err e)
  | Ok guard =>
      '(self, r) ← stream_open_prv self kind;
      match r with
      | Err Retry =>
          let self := set_reties self ({[LocStreamOpen kind]} ∪ reties self) in
          '(self, readiness, _) ← unlock self (lc_lock_count guard) false now readiness;
          Ret (self, readiness, if non_blocking then Ok None else Err Retry)
      | r =>
          '(self, readiness, _) ← unlock self (lc_lock_count guard) false now readiness;
          Ret (self, readiness, map_ok Some r)
      end
  end.

Definition stream_close (self : QuicConn) (stream_id err : Z) (now : Instant)
    (readiness : Readiness) : exec (QuicConn * Readiness * result unit (Error QError)) :=
  '(self, locked) ← try_lock_prv self (LocStreamClose stream_id err);
  match would_block locked with
  | Ready (Err e) => Ret (self, readiness, Err e)
  | Pending => Ret (self, readiness, Ok ())
  | Ready (Ok guard) =>
      let '(conn, r) := stream_close_prv (wrapped self) stream_id err in
      '(self, readiness, _) ← unlock (set_wrapped self conn) (lc_lock_count guard) false now readiness;
      Ret (self, readiness, r)
  end.

End model.
End QuicConn.
