(* ===== verification/ConnFacts.v ===== *)
(** What the handlers of [Connection] do to the connection and to the readiness queue:
    the lemmas that the lock protocol and the event properties share. *)
From S2P Require Import Prelude Api EventQueue QuicheApi Utils Connection.
Import QuicConn.

Section facts.
Context `{QuicheLaws} `{!PriorityQueue Event} `{!PriorityQueueLaws Event} `{HashIter} `{OverflowChecks}.
Abbreviation Readiness := Readiness.Readiness.
Abbreviation schedule := Readiness.schedule.
Abbreviation rd_inv := Readiness.rd_inv.
Implicit Types (self : QuicConn) (r : Readiness) (S : gset Event).

(** ** Frames: what a handler leaves alone *)

Record frame self self' : Prop := Frame {
  fr_token : token self' = token self;
  fr_locker : locker self' = locker self;
  fr_lock_count : lock_count self' = lock_count self;
  fr_readers : read_lock_count self' = read_lock_count self;
  fr_next k : local_next self' k = local_next self k;
  fr_conn : conn_steps (wrapped self) (wrapped self');
}.

#[global] Instance frame_preorder : PreOrder frame.
Proof.
  split; [by intros self; split|].
  intros s1 s2 s3 [] []. split; try congruence; by etrans.
Qed.

(** The same connection, at a later time: its events have the same names. *)
Record tracks self self' : Prop := Tracks {
  tr_token : token self' = token self;
  tr_conn : conn_steps (wrapped self) (wrapped self');
}.

#[global] Instance tracks_preorder : PreOrder tracks.
Proof. split; [by intros self; split|]. intros s1 s2 s3 [] []. split; [congruence|by etrans]. Qed.

Lemma frame_tracks self self' : frame self self' → tracks self self'.
Proof. by intros []. Qed.

Lemma tracks_event self self' k b i : tracks self self' → event self' k b i = event self k b i.
Proof. intros [Ht Hc]. unfold event. by rewrite Ht, (steps_is_server _ _ Hc). Qed.

Lemma frame_event self self' k b i : frame self self' → event self' k b i = event self k b i.
Proof. intros. by apply tracks_event, frame_tracks. Qed.

Lemma frame_wrapped self c : conn_steps (wrapped self) c → frame self (set_wrapped self c).
Proof. destruct self. by split. Qed.
Lemma frame_reties self rs : frame self (set_reties self rs).
Proof. by destruct self. Qed.
Lemma frame_seen self k i : frame self (set_seen self k i).
Proof. by destruct self, k. Qed.
Lemma frame_established self : frame self (set_established self).
Proof. by destruct self. Qed.

(** ** Notifications: the events a handler makes ready *)

Definition notified r S r' : Prop :=
  schedule r' = gset_to_gmap None S ∪ schedule r ∧ (rd_inv r → rd_inv r').

Lemma notified_refl r : notified r ∅ r.
Proof. split; [|done]. rewrite gset_to_gmap_empty. symmetry. apply map_empty_union. Qed.

Lemma notified_trans r1 r2 r3 S1 S2 :
  notified r1 S1 r2 → notified r2 S2 r3 → notified r1 (S1 ∪ S2) r3.
Proof.
  intros [H12 ?] [H23 ?]. split; [|auto]. rewrite H23, H12, (assoc_L (∪)). f_equal.
  apply map_eq. intros e. apply option_eq. intros o.
  rewrite lookup_union_Some_raw, !lookup_gset_to_gmap_Some, lookup_gset_to_gmap_None.
  destruct (decide (e ∈ S2)); rewrite elem_of_union; tauto.
Qed.

Lemma notified_notify r e : notified r {[e]} (notify r e).
Proof.
  split; [|apply Readiness.insert_rd_inv]. unfold notify.
  rewrite Readiness.insert_schedule. rewrite gset_to_gmap_singleton.
  by rewrite insert_union_singleton_l.
Qed.

Lemma notified_lookup r S r' e :
  notified r S r' → schedule r' !! e = if decide (e ∈ S) then Some None else schedule r !! e.
Proof.
  intros [-> _]. case_decide.
  - apply lookup_union_Some_l. by apply lookup_gset_to_gmap_Some.
  - apply lookup_union_r. by apply lookup_gset_to_gmap_None.
Qed.

Lemma notified_ready r S r' e :
  notified r S r' → schedule r !! e = Some None → schedule r' !! e = Some None.
Proof. intros Hn He. rewrite (notified_lookup _ _ _ _ Hn). by case_decide. Qed.

(** A handler announces events of its own connection, of the kinds [K]. *)
Definition own_events self (K : EventKind → Prop) S : Prop :=
  ∀ e, e ∈ S → e = event self (ev_kind e) (ev_is_error e) (ev_stream_id e) ∧ K (ev_kind e).

Lemma own_events_empty self K : own_events self K ∅.
Proof. by intros e. Qed.
Lemma own_events_singleton self (K : EventKind → Prop) k b i :
  K k → own_events self K {[event self k b i]}.
Proof. intros HK e ->%elem_of_singleton. done. Qed.
Lemma own_events_union self K S1 S2 :
  own_events self K S1 → own_events self K S2 → own_events self K (S1 ∪ S2).
Proof. intros H1' H2' e [?|?]%elem_of_union; auto. Qed.
Lemma own_events_tracks self self' K S :
  tracks self self' → own_events self' K S → own_events self K S.
Proof. intros Hf HS e He. rewrite <-(tracks_event self self') by done. auto. Qed.
Lemma own_events_mono self (K K' : EventKind → Prop) S :
  own_events self K S → (∀ k, K k → K' k) → own_events self K' S.
Proof. intros HS HK e He. destruct (HS e He). auto. Qed.

(** ** One retried operation *)

(** What handling [ev] does to the connection. *)
Definition retry_effect (ev : LocKind) (c : Connection) : Connection :=
  match ev with
  | LocClose app err reason => (q_close c app err reason).1
  | LocStreamSend id len => (q_stream_writable c id len).1
  | LocStreamClose id err => (stream_close_prv c id err).1
  | _ => c
  end.

Definition open_event (k : StreamKind) : EventKind :=
  match k with Uni => EvStreamOpenUni | Bidi => EvStreamOpenBidi end.

(** How a queued operation is answered when the connection is [c]: by an event that
    [ready] holds, by its execution (see [retry_effect]), by quiche's promise to report
    the stream once it is writable, or, without stream credit, by staying queued. *)
Definition answered self (ev : LocKind) (c : Connection) (ready : Event → Prop)
    (queued : gset LocKind) : Prop :=
  match ev with
  | LocNone => False
  | LocSend => True
  | LocRecv => ready (event self EvRecv false 0)
  | LocClose app err reason =>
      ∀ e, done_ok (q_close c app err reason).2 = Err e → ready (event self EvClosed true 0)
  | LocStreamOpen k =>
      if bool_decide (0 < peer_streams_left c k) then ready (event self (open_event k) false 0)
      else LocStreamOpen k ∈ queued
  | LocStreamSend id len =>
      match (q_stream_writable c id len).2 with
      | Ok true => ready (event self EvStreamSend false id)
      | Ok false => True
      | Err _ => ready (event self EvStreamSend true id)
      end
  | LocStreamRecv id => ready (event self EvStreamRecv false id)
  | LocStreamClose id err => True
  | LocReadLock => ready (event self EvReadLock false 0)
  end.

Lemma answered_mono self self' ev c (P Q : Event → Prop) (X Y : gset LocKind) :
  tracks self self' → answered self' ev c P X → (∀ e, P e → Q e) → X ⊆ Y → answered self ev c Q Y.
Proof.
  intros Hf Ha HPQ HXY.
  assert (∀ k b i, P (event self' k b i) → Q (event self k b i)) as Hev.
  { intros k b i HP. rewrite <-(tracks_event self self') by done. auto. }
  destruct ev as [| | |app err reason|k|id len|id|id err|]; simpl in *; auto.
  - intros e He. eauto.
  - case_bool_decide; auto.
  - destruct (q_stream_writable c id len).2 as [[]|]; auto.
Qed.

(** The kinds that answer retried operations, and those that report streams. *)
Definition retry_kind (k : EventKind) : Prop :=
  k ≠ EvSend ∧ k ≠ EvAccept ∧ k ≠ EvConnected ∧ k ≠ EvStreamAccept.
Definition stream_event_kind (k : EventKind) : Prop :=
  k = EvStreamSend ∨ k = EvStreamRecv ∨ k = EvStreamAccept.

Lemma stream_close_prv_steps (c : Connection) id err :
  conn_steps c (stream_close_prv c id err).1.
Proof.
  assert (∀ c c' res, q_stream_send c id [] true = (c', res) → conn_steps c c') as Hsend.
  { intros c1 c2 r Heq. apply rtc_once. pose proof (cs_stream_send c1 id [] true) as Hs.
    by rewrite Heq in Hs. }
  assert (∀ c c' res, q_stream_shutdown c id ShutdownRead err = (c', res) → conn_steps c c') as Hshut.
  { intros c1 c2 r Heq. apply rtc_once. pose proof (cs_shutdown c1 id ShutdownRead err) as Hs.
    by rewrite Heq in Hs. }
  unfold stream_close_prv. repeat case_match; simplify_eq/=; eauto using rtc_trans, rtc_refl.
Qed.

Lemma retry_effect_steps ev (c : Connection) : conn_steps c (retry_effect ev c).
Proof.
  destruct ev; simpl; try done; try (apply rtc_once; constructor). apply stream_close_prv_steps.
Qed.

(** Closes the conjuncts of [retry_event_spec] that hold by computation on sets. *)
Ltac retry_done :=
  split_and!; try done; first [apply notified_refl | by intros [] | set_solver | naive_solver].

Lemma retry_event_spec self r ev :
  ev ≠ LocNone →
  retry_event self r ev ⇓ λ '(self', r'), ∃ S,
    notified r S r' ∧ own_events self retry_kind S ∧
    frame self self' ∧ wrapped self' = retry_effect ev (wrapped self) ∧
    (∀ k, remote_seen self' k = remote_seen self k) ∧ established self' = established self ∧
    reties self ⊆ reties self' ∧
    (∀ x, x ∈ reties self' → x ∈ reties self ∨ x = ev ∧ ∃ k, ev = LocStreamOpen k) ∧
    answered self ev (wrapped self) (λ e, e ∈ S) (reties self').
Proof.
  intros Hnone.
  assert (∀ k, retry_kind (open_event k)) as Hopen by by intros [].
  assert (∀ k b i, retry_kind k → notified r {[event self k b i]} (notify r (event self k b i)) ∧
            own_events self retry_kind {[event self k b i]}) as Hnotify.
  { intros k b i Hk. split; [apply notified_notify|by apply own_events_singleton]. }
  destruct ev as [| | |app err reason|k|id len|id|id err|]; simpl; try done.
  - exists ∅. retry_done.
  - exists {[event self EvRecv false 0]}. destruct (Hnotify EvRecv false 0); [done|].
    retry_done.
  - pose proof (cs_close (wrapped self) app err reason) as Hstep.
    destruct (q_close (wrapped self) app err reason) as [c' res] eqn:Hclose. simpl in *.
    assert (frame self (set_wrapped self c')) as Hf by (by apply frame_wrapped, rtc_once).
    destruct (done_ok res) as [u|e] eqn:Hdone; simpl.
    + exists ∅. destruct self; simpl in *. rewrite ?Hclose. simpl.
      retry_done.
    + rewrite (frame_event _ _ _ _ _ Hf). exists {[event self EvClosed true 0]}.
      destruct (Hnotify EvClosed true 0); [done|]. rewrite ?Hclose. simpl.
      destruct self; simpl in *. retry_done.
  - case_bool_decide as Hleft; simpl.
    + exists {[event self (open_event k) false 0]}.
      destruct (Hnotify (open_event k) false 0); [done|].
      retry_done.
    + exists ∅. destruct self; simpl. retry_done.
  - pose proof (cs_writable (wrapped self) id len) as Hstep.
    destruct (q_stream_writable (wrapped self) id len) as [c' res] eqn:Hw. simpl in *.
    assert (frame self (set_wrapped self c')) as Hf by (by apply frame_wrapped, rtc_once).
    destruct res as [[]|e]; simpl; rewrite ?(frame_event _ _ _ _ _ Hf).
    + exists {[event self EvStreamSend false id]}. destruct (Hnotify EvStreamSend false id); [done|].
      destruct self; simpl in *. rewrite ?Hw. simpl. retry_done.
    + exists ∅. destruct self; simpl in *. rewrite ?Hw. simpl.
      retry_done.
    + exists {[event self EvStreamSend true id]}. destruct (Hnotify EvStreamSend true id); [done|].
      destruct self; simpl in *. rewrite ?Hw. simpl. retry_done.
  - exists {[event self EvStreamRecv false id]}. destruct (Hnotify EvStreamRecv false id); [done|].
    retry_done.
  - pose proof (stream_close_prv_steps (wrapped self) id err) as Hsteps.
    destruct (stream_close_prv (wrapped self) id err) as [c' res] eqn:Hc. simpl in *.
    exists ∅. assert (frame self (set_wrapped self c')) as Hf by (by apply frame_wrapped).
    destruct self; simpl in *. retry_done.
  - exists {[event self EvReadLock false 0]}. destruct (Hnotify EvReadLock false 0); [done|].
    retry_done.
Qed.

(** ** The retry queue *)

Record retry_post self r (l : list LocKind) self' r' (S : gset Event) : Prop := RetryPost {
  rp_notified : notified r S r';
  rp_own : own_events self retry_kind S;
  rp_frame : frame self self';
  rp_seen k : remote_seen self' k = remote_seen self k;
  rp_established : established self' = established self;
  rp_keep : reties self ⊆ reties self';
  rp_bound x : x ∈ reties self' → x ∈ reties self ∨ x ∈ l ∧ ∃ k, x = LocStreamOpen k;
  rp_answered ev : ev ∈ l → ∃ c, conn_steps (wrapped self) c ∧
    conn_steps (retry_effect ev c) (wrapped self') ∧
    answered self ev c (λ e, e ∈ S) (reties self');
}.

Lemma retry_all_spec self r l :
  LocNone ∉ l → retry_all self r l ⇓ λ '(self', r'), ∃ S, retry_post self r l self' r' S.
Proof.
  revert self r. induction l as [|ev l IH]; intros self r Hnone; simpl.
  { exists ∅. split; try done; [apply notified_refl|set_solver..]. }
  apply not_elem_of_cons in Hnone as [Hev Hnone].
  wp_step. eapply wp_mono; [apply retry_event_spec; congruence|].
  intros [self1 r1] (S1&Hn1&Ho1&Hf1&Hw1&Hs1&He1&Hk1&Hb1&Ha1).
  eapply wp_mono; [by apply IH|].
  intros [self2 r2] (S2&[Hn2 Ho2 Hf2 Hs2 He2 Hk2 Hb2 Ha2]). exists (S1 ∪ S2). split.
  - by eapply notified_trans.
  - apply own_events_union; [done|by eapply own_events_tracks; [apply frame_tracks|]].
  - by etrans.
  - intros k. by rewrite Hs2.
  - congruence.
  - set_solver.
  - intros x [Hx|[Hx ?]]%Hb2; [|set_solver]. apply Hb1 in Hx as [?|[-> ?]]; set_solver.
  - intros ev' [->|Hin]%elem_of_cons.
    + exists (wrapped self). split_and!; [done|rewrite <-Hw1; apply Hf2|].
      eapply answered_mono; [reflexivity|exact Ha1|set_solver|done].
    + destruct (Ha2 ev' Hin) as (c&Hc1&Hc2&Hc3). exists c. split_and!; [|done|].
      * eapply rtc_trans; [apply Hf1|done].
      * eapply answered_mono; [by apply frame_tracks|exact Hc3|set_solver|done].
Qed.

Lemma handle_retry_events_spec self r :
  LocNone ∉ reties self → handle_retry_events self r ⇓ λ '(self', r'), ∃ S,
    notified r S r' ∧ own_events self retry_kind S ∧ frame self self' ∧
    (∀ k, remote_seen self' k = remote_seen self k) ∧ established self' = established self ∧
    (∀ x, x ∈ reties self' → x ∈ reties self ∧ ∃ k, x = LocStreamOpen k) ∧
    ∀ ev, ev ∈ reties self → ∃ c, conn_steps (wrapped self) c ∧
      conn_steps (retry_effect ev c) (wrapped self') ∧
      answered self ev c (λ e, e ∈ S) (reties self').
Proof.
  intros Hnone. unfold handle_retry_events.
  eapply wp_mono; [apply retry_all_spec; by rewrite elem_of_hash_iter|].
  intros [self' r'] (S&[Hn Ho Hf Hs He _ Hb Ha]). exists S.
  assert (frame self (set_reties self ∅)) as Hf0 by apply frame_reties.
  split_and!; [done|by eapply own_events_tracks; [apply frame_tracks|]|by etrans| | | |].
  - intros k. rewrite Hs. by destruct self, k.
  - rewrite He. by destruct self.
  - intros x [Hx|[Hx ?]]%Hb; [by destruct self|]. by rewrite elem_of_hash_iter in Hx.
  - intros ev Hev. destruct (Ha ev) as (c&Hc1&Hc2&Hc3); [by rewrite elem_of_hash_iter|].
    exists c. split_and!; [by destruct self|done|].
    eapply answered_mono; [by apply frame_tracks|exact Hc3|done|done].
Qed.

(** ** Streams that quiche reports *)

(** Repeated calls of a [_next] iterator yield [ids] and then nothing. *)
Inductive drained (next : Connection → Connection * option Z) :
    Connection → list Z → Connection → Prop :=
| drained_nil c c' : next c = (c', None) → drained next c [] c'
| drained_cons c c1 id ids c' :
    next c = (c1, Some id) → drained next c1 ids c' → drained next c (id :: ids) c'.

Lemma drained_steps (next : Connection → Connection * option Z) (c c' : Connection) ids :
  (∀ c, conn_step c (next c).1) → drained next c ids c' → conn_steps c c'.
Proof.
  intros Hnext. induction 1 as [c1 c2 Heq|c1 c2 id ids c3 Heq _ IH].
  - apply rtc_once. pose proof (Hnext c1) as Hs. by rewrite Heq in Hs.
  - eapply rtc_l; [|done]. pose proof (Hnext c1) as Hs. by rewrite Heq in Hs.
Qed.

Lemma writable_loop_spec fuel self r :
  (writable_backlog (wrapped self) ≤ fuel)%nat →
  writable_loop fuel self r ⇓ λ '(self', r'), ∃ ids c,
    drained q_stream_writable_next (wrapped self) ids c ∧ self' = set_wrapped self c ∧
    notified r (list_to_set ((λ id, event self EvStreamSend false id) <$> ids)) r'.
Proof.
  revert self r. induction fuel as [|fuel IH]; intros self r Hfuel; simpl;
    destruct (q_stream_writable_next (wrapped self)) as [c [id|]] eqn:Hnext; simpl.
  2, 4: exists [], c; split_and!; [by constructor|done|apply notified_refl].
  { apply writable_next_backlog in Hnext. lia. }
  pose proof (writable_next_backlog _ _ _ Hnext) as Hlt.
  pose proof (cs_writable_next (wrapped self)) as Hstep. rewrite Hnext in Hstep.
  assert (frame self (set_wrapped self c)) as Hf by (by apply frame_wrapped, rtc_once).
  eapply wp_mono; [apply IH; destruct self; simpl in *; lia|].
  intros [self' r'] (ids&c'&Hdr&->&Hn). exists (id :: ids), c'. split_and!.
  - econstructor; [done|]. by destruct self.
  - by destruct self.
  - rewrite fmap_cons, list_to_set_cons. rewrite (frame_event _ _ _ _ _ Hf) in Hn.
    eapply notified_trans; [apply notified_notify|].
    erewrite (list_fmap_ext _ _ ids) in Hn; [exact Hn|]. intros i x _. by apply frame_event.
Qed.

(** ** Watermarks *)

(** [id] lies above the watermark [o]. *)
Definition newer (o : option Z) (id : Z) : Prop := ∀ x, o = Some x → x < id.
#[global] Instance newer_dec o id : Decision (newer o id).
Proof.
  refine (match o with
          | Some x => cast_if (decide (x < id))
          | None => left _
          end); unfold newer; naive_solver lia.
Defined.

Definition bump (o : option Z) (id : Z) : option Z :=
  match o with Some x => Some (Z.max x id) | None => Some id end.

Lemma newer_bumps o ids id : newer (foldl bump o ids) id ↔ newer o id ∧ ∀ x, x ∈ ids → x < id.
Proof.
  revert o. induction ids as [|y ids IH]; intros o; simpl.
  - set_solver.
  - rewrite IH. setoid_rewrite elem_of_cons. unfold newer, bump.
    destruct o as [x|]; split; intros [Ho Hids].
    + pose proof (Ho _ eq_refl). split; [naive_solver lia|]. intros z [->|?]; [lia|auto].
    + pose proof (Ho _ eq_refl). pose proof (Hids y ltac:(auto)). naive_solver lia.
    + pose proof (Ho _ eq_refl). split; [naive_solver|]. intros z [->|?]; [lia|auto].
    + naive_solver.
Qed.

Lemma bumps_mono o ids x : o = Some x → ∃ y, foldl bump o ids = Some y ∧ x ≤ y.
Proof.
  revert o x. induction ids as [|z ids IH]; intros o x ->; simpl; [by exists x|].
  destruct (IH (Some (Z.max x z)) _ eq_refl) as (y&->&?). exists y. split; [done|lia].
Qed.

(** The streams of direction [k] that the peer opened, in the order of [ids]. *)
Definition remote_ids (server : bool) (k : StreamKind) (ids : list Z) : list Z :=
  filter (λ id, is_local id server = false ∧ stream_kind id = k) ids.

Lemma bump_remote_ids o server k id :
  foldl bump o (remote_ids server k [id]) =
  if decide (is_local id server = false ∧ stream_kind id = k) then bump o id else o.
Proof.
  unfold remote_ids. case_decide; [by rewrite filter_cons_True|by rewrite filter_cons_False].
Qed.

Lemma handle_accept_spec self id r :
  let '(self', r') := handle_accept self id r in
  frame self self' ∧ reties self' = reties self ∧ established self' = established self ∧
  wrapped self' = wrapped self ∧
  (∀ k, remote_seen self' k =
    if decide (stream_kind id = k) then bump (remote_seen self k) id else remote_seen self k) ∧
  notified r {[event self (if decide (newer (remote_seen self (stream_kind id)) id)
                           then EvStreamAccept else EvStreamRecv) false id]} r'.
Proof.
  assert ((if is_bidi id then remote_stream_bidi_seen self else remote_stream_uni_seen self)
          = remote_seen self (stream_kind id)) as Hseen.
  { unfold stream_kind. by destruct (is_bidi id). }
  assert ((if is_bidi id then Bidi else Uni) = stream_kind id) as Hkind by done.
  unfold handle_accept. rewrite Hseen, Hkind.
  assert (∀ o, (∀ x, o = Some x → x < id) → remote_seen self (stream_kind id) = o →
    ∀ k, remote_seen (set_seen self (stream_kind id) id) k =
    if decide (stream_kind id = k) then bump (remote_seen self k) id else remote_seen self k) as Hset.
  { intros o Hlt Ho k. destruct self, (stream_kind id), k; simpl in *; try done;
      rewrite Ho; destruct o as [x|]; simpl; try done;
      rewrite Z.max_r by (specialize (Hlt _ eq_refl); lia); done. }
  destruct (remote_seen self (stream_kind id)) as [x|] eqn:Ho; [case_bool_decide as Hlt|].
  - rewrite decide_True by (intros ? [= <-]; done).
    split_and!; try (by destruct self, (stream_kind id)); [|apply notified_notify].
    apply (Hset (Some x)); [by intros ? [= <-]|done].
  - rewrite decide_False by (intros Hnew; specialize (Hnew _ eq_refl); lia).
    split_and!; try done; [|apply notified_notify].
    intros k. destruct (decide (stream_kind id = k)) as [<-|]; [|done].
    rewrite Ho. simpl. f_equal. lia.
  - rewrite decide_True by done.
    split_and!; try (by destruct self, (stream_kind id)); [|apply notified_notify].
    by apply (Hset None).
Qed.

(** [id] is reported as a new stream: at some position of [ids] it is a stream of the
    peer above the watermark of its direction and above every earlier such stream. *)
Definition announced (seen : StreamKind → option Z) (server : bool) (ids : list Z) (id : Z) : Prop :=
  ∃ pre post, ids = pre ++ id :: post ∧ is_local id server = false ∧
    newer (foldl bump (seen (stream_kind id)) (remote_ids server (stream_kind id) pre)) id.

Lemma announced_cons seen seen' server x ids id :
  (∀ k, seen' k = foldl bump (seen k) (remote_ids server k [x])) →
  announced seen server (x :: ids) id ↔
  (x = id ∧ is_local id server = false ∧ newer (seen (stream_kind id)) id) ∨
  announced seen' server ids id.
Proof.
  intros Hseen. unfold announced. split.
  - intros (pre&post&Heq&Hl&Hnew). destruct pre as [|y pre]; simplify_eq/=; [by left|].
    right. exists pre, post. split_and!; [done..|]. rewrite Hseen, <-foldl_app.
    unfold remote_ids in *. by rewrite <-filter_app.
  - intros [(->&Hl&Hnew)|(pre&post&->&Hl&Hnew)]; [by exists [], ids|].
    exists (x :: pre), post. split_and!; [done..|]. rewrite Hseen, <-foldl_app in Hnew.
    unfold remote_ids in *. by rewrite <-filter_app in Hnew.
Qed.

Lemma announced_ext seen seen' server ids id :
  (∀ k, seen' k = seen k) → announced seen' server ids id ↔ announced seen server ids id.
Proof. intros Heq. unfold announced. by setoid_rewrite Heq. Qed.

Record stream_post self r self' r' (ids : list Z) (S : gset Event) : Prop := StreamPost {
  sp_drained : drained q_stream_readable_next (wrapped self) ids (wrapped self');
  sp_frame : frame self self';
  sp_reties : reties self' = reties self;
  sp_established : established self' = established self;
  sp_seen k : remote_seen self' k =
    foldl bump (remote_seen self k) (remote_ids (is_server (wrapped self)) k ids);
  sp_notified : notified r S r';
  sp_own : own_events self (λ k, k = EvStreamRecv ∨ k = EvStreamAccept) S;
  sp_reported id : id ∈ ids →
    event self EvStreamAccept false id ∈ S ∨ event self EvStreamRecv false id ∈ S;
  sp_accept id : event self EvStreamAccept false id ∈ S ↔
    announced (remote_seen self) (is_server (wrapped self)) ids id;
}.

Lemma stream_post_nil self r (c : Connection) :
  q_stream_readable_next (wrapped self) = (c, None) →
  stream_post self r (set_wrapped self c) r [] ∅.
Proof.
  intros Hnext. pose proof (cs_readable_next (wrapped self)) as Hstep. rewrite Hnext in Hstep.
  assert (frame self (set_wrapped self c)) as Hf by (by apply frame_wrapped, rtc_once).
  destruct self; split; try done; [by constructor|apply notified_refl|set_solver|].
  intros id. split; [set_solver|]. intros (pre&post&Heq&_). by destruct pre.
Qed.

(** One more stream at the front of the loop: the step from [self] to [self1] that
    reports [id] by the event kind [k], followed by the rest of the loop. *)
Lemma stream_post_cons self r (c : Connection) id k self1 r1 self' r' ids S :
  q_stream_readable_next (wrapped self) = (c, Some id) →
  frame self self1 → wrapped self1 = c →
  reties self1 = reties self → established self1 = established self →
  (∀ k, remote_seen self1 k =
    foldl bump (remote_seen self k) (remote_ids (is_server (wrapped self)) k [id])) →
  k = EvStreamRecv ∨ k = EvStreamAccept →
  (k = EvStreamAccept ↔ is_local id (is_server (wrapped self)) = false ∧
                        newer (remote_seen self (stream_kind id)) id) →
  notified r {[event self k false id]} r1 →
  stream_post self1 r1 self' r' ids S →
  stream_post self r self' r' (id :: ids) ({[event self k false id]} ∪ S).
Proof.
  intros Hnext Hf Hw Hre Hes Hseen Hk Hacc Hn [Hd Hf' Hre' Hes' Hseen' Hn' Ho' Hrep' Hacc'].
  assert (is_server (wrapped self1) = is_server (wrapped self)) as Hsrv
    by apply (steps_is_server _ _ (fr_conn _ _ Hf)).
  assert (∀ k i, event self1 k false i = event self k false i) as Hev by (intros; by apply frame_event).
  split.
  - econstructor; [done|]. by rewrite <-Hw.
  - by etrans.
  - congruence.
  - congruence.
  - intros k'. rewrite Hseen', Hseen, Hsrv, <-foldl_app. unfold remote_ids. by rewrite <-filter_app.
  - by eapply notified_trans.
  - apply own_events_union; [by apply own_events_singleton|by eapply own_events_tracks; [apply frame_tracks|]].
  - intros i [->|Hi]%elem_of_cons; [destruct Hk as [-> | ->]; set_solver|].
    specialize (Hrep' i Hi). rewrite !Hev in Hrep'. set_solver.
  - intros i. rewrite (announced_cons _ (remote_seen self1)) by exact Hseen.
    specialize (Hacc' i). rewrite Hev, Hsrv in Hacc'.
    rewrite elem_of_union, elem_of_singleton, Hacc'. split; [|].
    + intros [Heq|?]; [left|by right]. injection Heq as Hkk ->. destruct Hacc as [Hacc _].
      destruct (Hacc (eq_sym Hkk)). by split_and!.
    + intros [(<-&?&?)|?]; [left|by right]. f_equal. symmetry. by apply Hacc.
Qed.

Lemma readable_loop_spec fuel self r :
  (readable_backlog (wrapped self) ≤ fuel)%nat →
  readable_loop fuel self r ⇓ λ '(self', r'), ∃ ids S, stream_post self r self' r' ids S.
Proof.
  revert self r. induction fuel as [|fuel IH]; intros self r Hfuel; simpl;
    destruct (q_stream_readable_next (wrapped self)) as [c [id|]] eqn:Hnext; simpl.
  1: { apply readable_next_backlog in Hnext. lia. }
  1, 3: exists [], ∅; apply stream_post_nil, Hnext.
  pose proof (readable_next_backlog _ _ _ Hnext) as Hlt.
  pose proof (cs_readable_next (wrapped self)) as Hstep. rewrite Hnext in Hstep. simpl in Hstep.
  rewrite (step_is_server _ _ Hstep).
  assert (frame self (set_wrapped self c)) as Hf by (by apply frame_wrapped, rtc_once).
  assert (∀ k, remote_seen (set_wrapped self c) k = remote_seen self k) as Hsw
    by (by destruct self; intros []).
  destruct (is_local id (is_server (wrapped self))) eqn:Hlocal; simpl.
  - eapply wp_mono; [apply IH; destruct self; simpl in *; lia|].
    intros [self' r'] (ids&S&Hpost). eexists (id :: ids), _.
    eapply (stream_post_cons self r c id EvStreamRecv (set_wrapped self c));
      [done|done|by destruct self..| |by left
      |split; [done|intros [? _]; congruence]| |exact Hpost].
    + intros k. rewrite Hsw, bump_remote_ids. by rewrite decide_False by (intros [? _]; congruence).
    + rewrite (frame_event _ _ _ _ _ Hf). apply notified_notify.
  - pose proof (handle_accept_spec (set_wrapped self c) id r) as Hacc.
    destruct (handle_accept (set_wrapped self c) id r) as [self1 r1].
    destruct Hacc as (Hf1&Hre1&Hes1&Hw1&Hs1&Hn1).
    rewrite Hsw, (frame_event _ _ _ _ _ Hf) in Hn1.
    eapply wp_mono; [apply IH; rewrite Hw1; destruct self; simpl in *; lia|].
    intros [self' r'] (ids&S&Hpost). eexists (id :: ids), _.
    eapply (stream_post_cons self r c id _ self1);
      [done|by etrans|rewrite Hw1; by destruct self|rewrite Hre1; by destruct self
      |rewrite Hes1; by destruct self| | | |exact Hn1|exact Hpost].
    + intros k. rewrite Hs1, Hsw, bump_remote_ids, Hlocal. repeat case_decide; naive_solver.
    + case_decide; auto.
    + case_decide; naive_solver.
Qed.

Lemma handle_stream_state_changed_spec self r :
  handle_stream_state_changed self r ⇓ λ '(self', r'), ∃ ids S c,
    notified r S r' ∧ own_events self stream_event_kind S ∧ frame self self' ∧
    reties self' = reties self ∧ established self' = established self ∧
    (∀ k, remote_seen self' k =
      foldl bump (remote_seen self k) (remote_ids (is_server (wrapped self)) k ids)) ∧
    conn_steps (wrapped self) c ∧ drained q_stream_readable_next c ids (wrapped self') ∧
    (∀ id, id ∈ ids →
      event self EvStreamAccept false id ∈ S ∨ event self EvStreamRecv false id ∈ S) ∧
    (∀ id, event self EvStreamAccept false id ∈ S ↔
      announced (remote_seen self) (is_server (wrapped self)) ids id).
Proof.
  unfold handle_stream_state_changed. wp_step. eapply wp_mono; [by apply writable_loop_spec|].
  intros [self1 r1] (ws&c&Hdr&->&Hn). eapply wp_mono; [by apply readable_loop_spec|].
  intros [self' r'] (ids&S&[Hd Hf Hr He Hs Hn' Ho Hrep Hacc]).
  assert (conn_steps (wrapped self) c) as Hc by (by eapply drained_steps; [apply cs_writable_next|]).
  assert (frame self (set_wrapped self c)) as Hf0 by (by apply frame_wrapped).
  assert (∀ k b i, event (set_wrapped self c) k b i = event self k b i) as Hev
    by (intros; by apply frame_event).
  assert (∀ k, remote_seen (set_wrapped self c) k = remote_seen self k) as Hsw
    by (by destruct self; intros []).
  assert (is_server (wrapped (set_wrapped self c)) = is_server (wrapped self)) as Hsrv
    by apply steps_is_server, Hf0.
  rewrite Hsrv in *. setoid_rewrite Hev in Hrep. setoid_rewrite Hev in Hacc.
  setoid_rewrite Hsw in Hs.
  set (W := list_to_set ((λ id, event self EvStreamSend false id) <$> ws) : gset Event) in *.
  assert (∀ e, e ∈ W → ∃ id, e = event self EvStreamSend false id) as HW.
  { intros e. unfold W. rewrite elem_of_list_to_set, list_elem_of_fmap. naive_solver. }
  exists ids, (W ∪ S), c. split_and!; [by eapply notified_trans| |by etrans
    |rewrite Hr; by destruct self|rewrite He; by destruct self|done|done|by destruct self| |].
  - apply own_events_union; [intros e He'; destruct (HW e He') as [id ->]; by split; [|left]|].
    eapply own_events_tracks; [by apply frame_tracks|].
    eapply own_events_mono; [exact Ho|]. unfold stream_event_kind. tauto.
  - intros id Hid. specialize (Hrep id Hid). set_solver.
  - intros id. rewrite elem_of_union, Hacc, (announced_ext (remote_seen self)) by done. split; [|by right].
    intros [Hw|?]; [|done]. by destruct (HW _ Hw) as [? [=]].
Qed.

(** ** The send timer and the state of the handshake *)

Abbreviation send_event self := (event self EvSend false 0).

Lemma handle_send_spec self send_done now r e :
  schedule (handle_send self send_done now r) !! e =
  if decide (e = send_event self) then
    (if send_done && bool_decide (delay_send (wrapped self) now send_done = None) then None
     else Some (delay_send (wrapped self) now send_done))
  else schedule r !! e.
Proof.
  unfold handle_send. case_match;
    rewrite ?Readiness.remove_schedule, ?Readiness.insert_schedule.
  - case_decide; simplify_eq; [apply lookup_delete_eq|by apply lookup_delete_ne].
  - case_decide; simplify_eq; [apply lookup_insert_eq|by apply lookup_insert_ne].
Qed.

Lemma handle_send_inv self send_done now r : rd_inv r → rd_inv (handle_send self send_done now r).
Proof.
  intros. unfold handle_send. case_match;
    [by apply Readiness.remove_rd_inv|by apply Readiness.insert_rd_inv].
Qed.

Definition hello_event self : Event :=
  event self (if is_server (wrapped self) then EvAccept else EvConnected) false 0.

(** The events of [handle_state_changed]. *)
Definition state_events self (c : Connection) : gset Event :=
  (if negb (established self) && is_established c then {[hello_event self]} else ∅) ∪
  (if is_closed c then {[event self EvClosed false 0]} else ∅).

Lemma state_events_tracks self self' (c : Connection) :
  tracks self self' → established self' = established self →
  state_events self' c = state_events self c.
Proof.
  intros Ht He. unfold state_events, hello_event.
  by rewrite !(tracks_event _ _ _ _ _ Ht), He, (steps_is_server _ _ (tr_conn _ _ Ht)).
Qed.

Lemma handle_state_changed_spec self r :
  let '(self', r', closed) := handle_state_changed self r in
  frame self self' ∧ wrapped self' = wrapped self ∧ reties self' = reties self ∧
  (∀ k, remote_seen self' k = remote_seen self k) ∧
  established self' = established self || is_established (wrapped self) ∧
  closed = is_closed (wrapped self) ∧ notified r (state_events self (wrapped self)) r'.
Proof.
  assert (∀ self1 r1 (S1 : gset Event), notified r S1 r1 → frame self self1 →
    wrapped self1 = wrapped self → ∀ b : bool,
    notified r (S1 ∪ (if b then {[event self EvClosed false 0]} else ∅))
      (if b then notify r1 (event self1 EvClosed false 0) else r1)) as Hclosed.
  { intros self1 r1 S1 Hn Hf Hw b. rewrite (frame_event self self1) by done.
    destruct b; eapply notified_trans; eauto using notified_notify, notified_refl. }
  unfold handle_state_changed, state_events, hello_event.
  destruct (established self) eqn:He, (is_established (wrapped self)) eqn:Hc; simpl.
  1, 2, 4: specialize (Hclosed self r ∅ (notified_refl _) ltac:(done) eq_refl);
    destruct (is_closed (wrapped self)) eqn:Hcl; simpl; split_and!; try done;
    [apply (Hclosed true)|apply (Hclosed false)].
  pose proof (frame_established self) as Hf.
  assert (wrapped (set_established self) = wrapped self) as Hw by by destruct self.
  assert ((if is_server (wrapped (set_established self))
     then (set_established self, notify r (event (set_established self) EvAccept false 0))
     else (set_established self, notify r (event (set_established self) EvConnected false 0)))
    = (set_established self, notify r (hello_event self))) as ->.
  { unfold hello_event. rewrite Hw, !(frame_event _ _ _ _ _ Hf). by destruct (is_server _). }
  specialize (Hclosed _ _ _ (notified_notify r (hello_event self)) Hf Hw). rewrite Hw.
  destruct (is_closed (wrapped self)); split_and!; try done; try (by destruct self);
    [apply (Hclosed true)|apply (Hclosed false)].
Qed.

(** ** Releasing the lock *)

Definition releasable self (n : Z) : Prop :=
  locker self ≠ LocNone ∧ lock_count self = n ∧ lock_count self + 1 < u64_modulus ∧
  (locker self = LocReadLock → 0 < read_lock_count self).

(** The lock is free after the release, unless other readers remain. *)
Definition last_holder self : Prop := locker self = LocReadLock → read_lock_count self = 1.
#[global] Instance last_holder_dec self : Decision (last_holder self) := _.

Definition released self : QuicConn :=
  let readers := if decide (locker self = LocReadLock) then read_lock_count self - 1
                 else read_lock_count self in
  if decide (last_holder self) then set_lock self LocNone (lock_count self + 1) readers
  else set_lock self (locker self) (lock_count self) readers.

Lemma release_spec self n : releasable self n → release self n = Ret (released self).
Proof.
  intros (Hl&<-&Hc&Hr). unfold release, released, last_holder.
  rewrite (bool_decide_false (locker self = LocNone)) by done. simpl.
  rewrite (bool_decide_true (lock_count self = lock_count self)) by done. simpl.
  destruct (bool_decide_reflect (locker self = LocReadLock)) as [Hread|Hread].
  - rewrite sub_u64_ok by (specialize (Hr Hread); lia). simpl.
    rewrite (decide_True (P := locker self = LocReadLock)) by done.
    destruct (bool_decide_reflect (read_lock_count self - 1 = 0)) as [Hz|Hz].
    + rewrite decide_True by (intros; lia). by rewrite add_u64_ok.
    + rewrite decide_False; [done|]. intros Hlast. specialize (Hlast Hread). lia.
  - rewrite (decide_False (P := locker self = LocReadLock)) by done.
    rewrite decide_True by done. by rewrite add_u64_ok.
Qed.

Lemma released_fields self :
  token (released self) = token self ∧ reties (released self) = reties self ∧
  wrapped (released self) = wrapped self ∧ established (released self) = established self ∧
  (∀ k, local_next (released self) k = local_next self k) ∧
  (∀ k, remote_seen (released self) k = remote_seen self k).
Proof. unfold released. case_decide; destruct self; split_and!; (done || by intros []). Qed.

(** ** [unlock] as a whole: [S1] answers the queued operations, [S2] reports the streams
    [ids] that became readable and those that became writable. *)
Record unlock_post self (send_done : bool) (now : Instant) r self' r' (closed : bool)
    (S1 S2 : gset Event) (ids : list Z) : Prop := UnlockPost {
  up_frame : frame (released self) self';
  up_reties x : x ∈ reties self' → x ∈ reties self ∧ ∃ k, x = LocStreamOpen k;
  up_established : established self' = established self || is_established (wrapped self');
  up_closed : closed = is_closed (wrapped self');
  up_seen k : remote_seen self' k =
    foldl bump (remote_seen self k) (remote_ids (is_server (wrapped self)) k ids);
  up_answered ev : ev ∈ reties self → ∃ c, conn_steps (wrapped self) c ∧
    conn_steps (retry_effect ev c) (wrapped self') ∧
    answered self ev c (λ e, e ∈ S1) (reties self');
  up_retry_own : own_events self retry_kind S1;
  up_stream_own : own_events self stream_event_kind S2;
  up_drained : ∃ c, conn_steps (wrapped self) c ∧
    drained q_stream_readable_next c ids (wrapped self');
  up_reported id : id ∈ ids →
    event self EvStreamAccept false id ∈ S2 ∨ event self EvStreamRecv false id ∈ S2;
  up_accept id : event self EvStreamAccept false id ∈ S2 ↔
    announced (remote_seen self) (is_server (wrapped self)) ids id;
  up_schedule e : schedule r' !! e =
    if decide (e ∈ state_events self (wrapped self')) then Some None
    else if decide (e = send_event self) then
      (if send_done && bool_decide (delay_send (wrapped self') now send_done = None) then None
       else Some (delay_send (wrapped self') now send_done))
    else if decide (e ∈ S1 ∪ S2) then Some None
    else schedule r !! e;
  up_inv : rd_inv r → rd_inv r';
}.

Lemma unlock_spec self n send_done now r :
  releasable self n → LocNone ∉ reties self →
  unlock self n send_done now r ⇓ λ '(self', r', closed), ∃ S1 S2 ids,
    unlock_post self send_done now r self' r' closed S1 S2 ids.
Proof.
  intros Hrel Hnone. unfold unlock. rewrite release_spec by done. simpl.
  destruct (released_fields self) as (Htok&Hre&Hw&Hes&Hnext&Hseen).
  assert (∀ k b i, event (set_reties (released self) ∅) k b i = event self k b i) as Hev0.
  { intros. unfold event. rewrite <-Htok, <-Hw. by destruct (released self). }
  assert (tracks self (released self)) as Htr by (split; [done|by rewrite Hw]).
  wp_step. eapply wp_mono; [apply handle_retry_events_spec; by rewrite Hre|].
  intros [self1 r1] (S1&Hn1&Ho1&Hf1&Hs1&He1&Hb1&Ha1). rewrite Hre in Ha1, Hb1.
  wp_step. eapply wp_mono; [apply handle_stream_state_changed_spec|].
  intros [self2 r2] (ids&S2&c&Hn2&Ho2&Hf2&Hr2&He2&Hs2&Hc&Hd&Hrep&Hacc). simpl.
  pose proof (handle_state_changed_spec self2 (handle_send self2 send_done now r2)) as Hst.
  destruct (handle_state_changed self2 _) as [[self3 r3] closed].
  destruct Hst as (Hf3&Hw3&Hr3&Hs3&He3&Hc3&Hn3).
  assert (frame (released self) self2) as Hf02 by by etrans.
  assert (tracks self self1) as Ht1 by (etrans; [done|by apply frame_tracks]).
  assert (tracks self self2) as Ht2 by (etrans; [done|by apply frame_tracks]).
  assert (∀ k, remote_seen self1 k = remote_seen self k) as Hs1' by (intros; by rewrite Hs1).
  assert (is_server (wrapped self1) = is_server (wrapped self)) as Hsrv
    by apply steps_is_server, Ht1.
  setoid_rewrite (tracks_event _ _ _ _ _ Ht1) in Hrep.
  setoid_rewrite (tracks_event _ _ _ _ _ Ht1) in Hacc.
  setoid_rewrite (announced_ext (remote_seen self)) in Hacc; [|exact Hs1'].
  rewrite Hsrv in *. exists S1, S2, ids. split.
  - by etrans.
  - by rewrite Hr3, Hr2.
  - by rewrite He3, Hw3, He2, He1, Hes.
  - by rewrite Hw3.
  - intros k. by rewrite Hs3, Hs2, Hs1'.
  - intros ev Hev. destruct (Ha1 ev Hev) as (c0&Hc1&Hc2&Ha). exists c0. split_and!.
    + by rewrite <-Hw.
    + rewrite Hw3. by eapply rtc_trans, Hf2.
    + rewrite Hr3, Hr2. by eapply answered_mono; [exact Htr|exact Ha|..].
  - by eapply own_events_tracks; [exact Htr|].
  - by eapply own_events_tracks; [exact Ht1|].
  - exists c. split; [|by rewrite Hw3]. by eapply rtc_trans; [apply Ht1|].
  - done.
  - done.
  - intros e. rewrite (notified_lookup _ _ _ _ Hn3), handle_send_spec,
      (tracks_event _ _ _ _ _ Ht2), (notified_lookup _ _ _ _ Hn2), (notified_lookup _ _ _ _ Hn1), Hw3.
    rewrite (state_events_tracks self) by (done || congruence).
    repeat case_decide; try done; set_solver.
  - intros Hinv. apply Hn3, handle_send_inv, Hn2, Hn1, Hinv.
Qed.

(** The events of [S1] and [S2] are ready once the lock is released. *)
Lemma unlock_ready self sd now r self' r' closed S1 S2 ids e :
  unlock_post self sd now r self' r' closed S1 S2 ids → e ∈ S1 ∪ S2 →
  schedule r' !! e = Some None.
Proof.
  intros Hpost He. rewrite (up_schedule _ _ _ _ _ _ _ _ _ _ Hpost).
  assert (e ≠ send_event self).
  { apply elem_of_union in He as [He|He].
    - apply (up_retry_own _ _ _ _ _ _ _ _ _ _ Hpost) in He as [_ [? _]]. by intros ->.
    - apply (up_stream_own _ _ _ _ _ _ _ _ _ _ Hpost) in He as [_ Hk].
      intros ->. by destruct Hk as [|[|]]. }
  by repeat case_decide.
Qed.
End facts.
