(* ===== verification/ConnLock.v ===== *)
(** The lock protocol of a connection: clients that take guards with [try_lock], use and
    drop them in any order, interleaved with the operations that lock and unlock at once. *)
From stdpp Require Import sorting.
From S2P Require Import Prelude Api EventQueue QuicheApi Utils Connection ConnFacts.
From S2P Require Import QuicheReference.
Import QuicConn.

Module Session.

Section model.
Context `{QuicheOps} `{!PriorityQueue Event} `{HashIter} `{OverflowChecks}.
Abbreviation Readiness := Readiness.Readiness.

(** [QuicConnGuard]: the kind it was asked for and the context that its drop hands to
    [unlock]. *)
Record guard := MkGuard { g_kind : LocKind; g_lock : LockContext }.

(** [QuicConnGuard::send_done]. *)
Definition send_done (g : guard) : guard :=
  MkGuard (g_kind g) (MkLockContext (lc_token (g_lock g)) (lc_lock_count (g_lock g)) true).

(** [DerefMut] for [QuicConnGuard]: the holder calls quiche on the connection of the guard. *)
Definition deref_mut (self : QuicConn) (f : Connection → Connection) : QuicConn :=
  set_wrapped self (f (wrapped self)).

(** [Drop] for [QuicConnGuard]: the stored closure, [QuicConn::unlock], gets the context. *)
Definition drop_guard (g : guard) (self : QuicConn) (now : Instant) (r : Readiness) :
    exec (QuicConn * Readiness * bool) :=
  unlock self (lc_lock_count (g_lock g)) (lc_send_done (g_lock g)) now r.

(** A connection, the readiness queue it shares, the guards that are alive, and the
    history of the streams that [stream_open] returned. *)
Record session := MkSession {
  se_conn : QuicConn;
  se_readiness : Readiness;
  se_guards : list guard;
  se_opened : list (StreamKind * Z);
}.

Inductive op :=
| OpLock (kind : LocKind)                              (* [try_lock] *)
| OpUse (i : nat) (f : Connection → Connection)        (* a call through guard [i] *)
| OpSendDone (i : nat)
| OpDrop (i : nat) (now : Instant)
| OpClose (app : bool) (err : Z) (reason : list byte) (now : Instant)
| OpOpen (kind : StreamKind) (non_blocking : bool) (now : Instant)
| OpStreamClose (id err : Z) (now : Instant)
| OpShared (f : Readiness → Readiness).                (* [poll] and other connections *)

Definition perform (s : session) (o : op) : exec session :=
  let '(MkSession self r gs opened) := s in
  match o with
  | OpLock kind =>
      '(self, res) ← try_lock self kind;
      Ret (MkSession self r
        (match res with Ok ctx => gs ++ [MkGuard kind ctx] | Err _ => gs end) opened)
  | OpUse i f =>
      Ret (match gs !! i with
           | Some _ => MkSession (deref_mut self f) r gs opened
           | None => s
           end)
  | OpSendDone i => Ret (MkSession self r (alter send_done i gs) opened)
  | OpDrop i now =>
      match gs !! i with
      | Some g =>
          '(self, r, _) ← drop_guard g self now r;
          Ret (MkSession self r (delete i gs) opened)
      | None => Ret s
      end
  | OpClose app err reason now =>
      '(self, r, _) ← close self app err reason now r;
      Ret (MkSession self r gs opened)
  | OpOpen kind non_blocking now =>
      '(self, r, res) ← stream_open self kind non_blocking now r;
      Ret (MkSession self r gs
        (match res with Ok (Some id) => opened ++ [(kind, id)] | _ => opened end))
  | OpStreamClose id err now =>
      '(self, r, _) ← stream_close self id err now r;
      Ret (MkSession self r gs opened)
  | OpShared f => Ret (MkSession self (f r) gs opened)
  end.

Fixpoint perform_all (s : session) (ops : list op) : exec session :=
  match ops with
  | [] => Ret s
  | o :: ops => s ← perform s o; perform_all s ops
  end.

Definition start (token : Token) (c : Connection) (r : Readiness) : session :=
  MkSession (new token c) r [] [].

(** Guards are requested with a lock kind other than [LocKind::None], and used to call
    quiche. *)
Definition op_ok (o : op) : Prop :=
  match o with
  | OpLock kind => kind ≠ LocNone
  | OpUse _ f => ∀ c, conn_step c (f c)
  | _ => True
  end.
End model.

Section protocol.
Context `{QuicheLaws} `{!PriorityQueue Event} `{!PriorityQueueLaws Event} `{HashIter} `{OverflowChecks}.
Abbreviation Readiness := Readiness.Readiness.
Implicit Types (self : QuicConn) (r : Readiness) (gs : list guard).

(** ** The lock *)

Definition lock_inv self gs : Prop :=
  LocNone ∉ reties self ∧
  (∀ g, g ∈ gs → g_kind g = locker self ∧ lc_token (g_lock g) = token self ∧
                 lc_lock_count (g_lock g) = lock_count self) ∧
  (locker self = LocNone ↔ gs = []) ∧
  (locker self ≠ LocReadLock → (length gs ≤ 1)%nat) ∧
  read_lock_count self = (if decide (locker self = LocReadLock) then zlen gs else 0).

(** Neither counter has wrapped around. *)
Definition counters_ok self gs (n : Z) : Prop :=
  0 ≤ lock_count self ∧ lock_count self ≤ n ∧ zlen gs ≤ n.

Lemma lock_inv_first self kind :
  lock_inv self [] → kind ≠ LocNone →
  lock_inv (set_lock self kind (lock_count self) (if decide (kind = LocReadLock) then 1 else 0))
    [MkGuard kind (MkLockContext (token self) (lock_count self) false)].
Proof.
  intros (Hnone&_) Hkind. destruct self; simpl in *. split_and!; try done.
  intros g ->%list_elem_of_singleton. done.
Qed.

Lemma lock_inv_reader self gs :
  lock_inv self gs → locker self = LocReadLock →
  lock_inv (set_lock self LocReadLock (lock_count self) (read_lock_count self + 1))
    (gs ++ [MkGuard LocReadLock (MkLockContext (token self) (lock_count self) false)]).
Proof.
  intros (Hnone&Hgs&Hfree&_&Hread) Hl. destruct self; simpl in *; subst. split_and!; try done.
  - intros g [Hg| ->%list_elem_of_singleton]%elem_of_app; [|done]. by apply Hgs.
  - split; [done|]. by intros [_ [=]]%app_eq_nil.
  - rewrite length_app. simpl. lia.
Qed.

Lemma lock_inv_refused self gs kind :
  lock_inv self gs → kind ≠ LocNone →
  lock_inv (if need_retry kind then set_reties self ({[kind]} ∪ reties self) else self) gs.
Proof.
  intros (Hnone&Hgs&Hfree&Hexcl&Hread) Hkind.
  destruct (need_retry kind), self; simpl in *; split_and!; try done; try apply Hfree; set_solver.
Qed.

Lemma try_lock_refused self kind :
  locker self ≠ LocNone → ¬ (locker self = LocReadLock ∧ kind = LocReadLock) →
  try_lock_prv self kind =
    Ret (if need_retry kind then set_reties self ({[kind]} ∪ reties self) else self, Err Busy).
Proof.
  intros Hl Hne. unfold try_lock_prv.
  destruct (locker self) eqn:Heq; try done; case_bool_decide; naive_solver.
Qed.

Lemma try_lock_spec self gs kind n :
  lock_inv self gs → counters_ok self gs n → n + 1 < u64_modulus → kind ≠ LocNone →
  try_lock self kind ⇓ λ '(self', res),
    tracks self self' ∧ lock_count self' = lock_count self ∧ wrapped self' = wrapped self ∧
    (∀ k, local_next self' k = local_next self k) ∧
    match res with
    | Ok ctx => (locker self = LocNone ∨ locker self = LocReadLock ∧ kind = LocReadLock) ∧
        locker self' = kind ∧ reties self' = reties self ∧
        ctx = MkLockContext (token self) (lock_count self) false ∧
        lock_inv self' (gs ++ [MkGuard kind ctx])
    | Err e => e = Busy ∧ locker self ≠ LocNone ∧ locker self' = locker self ∧
        reties self' = (if need_retry kind then {[kind]} ∪ reties self else reties self) ∧
        lock_inv self' gs
    end.
Proof.
  intros Hinv (Hc0&Hc&Hlen) Hn Hkind. unfold try_lock.
  destruct (decide (locker self = LocNone)) as [Hl|Hl];
    [|destruct (decide (locker self = LocReadLock ∧ kind = LocReadLock)) as [[Hl' ->]|Hne]].
  - unfold try_lock_prv. pose proof Hinv as (_&_&Hfree&_&Hread). rewrite (proj1 Hfree Hl) in *. rewrite Hl in *.
    rewrite decide_False in Hread by done.
    pose proof (lock_inv_first self kind Hinv Hkind) as Hinv'.
    destruct (decide (kind = LocReadLock)) as [->|Hk].
    + rewrite (bool_decide_true (LocReadLock = LocReadLock)) by done.
      rewrite (bool_decide_true (_ = 0)) by done. rewrite Hread. simpl.
      destruct self; simpl in *; split_and!; eauto; by split.
    + rewrite bool_decide_false, Hread by done.
      destruct self; simpl in *; split_and!; eauto; by split.
  - unfold try_lock_prv. pose proof (lock_inv_reader self gs Hinv Hl') as Hinv'.
    destruct Hinv as (_&_&Hfree&_&Hread). rewrite Hl' in *. rewrite decide_True in Hread by done.
    simpl. rewrite bool_decide_true by (destruct gs; [tauto|simpl in *; lia]). simpl.
    rewrite add_u64_ok by lia. simpl.
    destruct self; simpl in *; split_and!; eauto; by split.
  - pose proof (lock_inv_refused self gs kind Hinv Hkind) as Hinv'.
    rewrite try_lock_refused by done.
    simpl. destruct self, (need_retry kind); simpl in *; split_and!; eauto; by split.
Qed.

(** The lock fields and the retry queue are all that the invariant reads. *)
Lemma lock_inv_frame self self' gs :
  token self' = token self → locker self' = locker self → lock_count self' = lock_count self →
  read_lock_count self' = read_lock_count self → LocNone ∉ reties self' →
  lock_inv self gs → lock_inv self' gs.
Proof. unfold lock_inv. intros -> -> -> -> ? (_&?). done. Qed.

Lemma lock_inv_idle self :
  LocNone ∉ reties self → locker self = LocNone → read_lock_count self = 0 → lock_inv self [].
Proof.
  intros Hnone Hl Hr. unfold lock_inv. rewrite Hl, Hr. split_and!; try done.
  - by intros g ?%elem_of_nil.
  - intros _. simpl. lia.
Qed.

Lemma lock_inv_release self gs i g :
  lock_inv self gs → gs !! i = Some g → lock_inv (released self) (delete i gs).
Proof.
  intros (Hnone&Hgs&Hfree&Hexcl&Hread) Hi.
  pose proof (lookup_lt_Some _ _ _ Hi) as Hlt. pose proof (length_delete gs i ltac:(eauto)) as Hdel.
  unfold released, last_holder. destruct (decide (locker self = LocReadLock)) as [Hl|Hl].
  - rewrite Hl in *. destruct (decide (_ → _)) as [Hlast|Hmore].
    + assert (delete i gs = []) as -> by (apply nil_length_inv; specialize (Hlast Hl); lia).
      specialize (Hlast Hl). apply lock_inv_idle; destruct self; simpl in *; [done..|lia].
    + assert (delete i gs ≠ []) as Hne by (intros Heq; rewrite Heq in Hdel; simpl in *; apply Hmore; intros; lia).
      destruct self; simpl in *; subst. split_and!; try done; [|simpl; lia].
      intros g' Hg'. apply Hgs. by eapply list_elem_of_delete_inv.
  - rewrite decide_True by done.
    assert (delete i gs = []) as -> by (apply nil_length_inv; specialize (Hexcl Hl); lia).
    apply lock_inv_idle; by destruct self.
Qed.

Lemma drop_spec self gs i g send_done now r n :
  lock_inv self gs → counters_ok self gs n → n + 1 < u64_modulus → gs !! i = Some g →
  unlock self (lc_lock_count (g_lock g)) send_done now r ⇓ λ '(self', r', closed),
    lock_inv self' (delete i gs) ∧ counters_ok self' (delete i gs) (n + 1) ∧ tracks self self' ∧
    (∀ k, local_next self' k = local_next self k) ∧
    ∃ S1 S2 ids, unlock_post self send_done now r self' r' closed S1 S2 ids.
Proof.
  intros Hinv (Hc0&Hc&Hlen) Hn Hi.
  pose proof (lock_inv_release _ _ _ _ Hinv Hi) as Hrel.
  pose proof Hinv as (Hnone&Hgs&Hfree&Hexcl&Hread).
  destruct (Hgs g) as (_&_&->); [by eapply list_elem_of_lookup_2|].
  assert (releasable self (lock_count self)) as Hok.
  { split_and!; [|done|lia|]; intros Hl.
    - rewrite (proj1 Hfree Hl) in Hi. done.
    - rewrite Hread, decide_True by done. apply lookup_lt_Some in Hi. lia. }
  eapply wp_mono; [by apply unlock_spec|].
  intros [[self' r'] closed] (S1&S2&ids&Hpost). pose proof Hpost as [Hf Hre _ _ _ _ _ _ _ _ _ _ _].
  destruct (released_fields self) as (Htok&_&Hw&_&Hnext&_). destruct Hf as [Ht Hl Hlc Hrc Hnx Hcn].
  split_and!; [| | | |by eauto].
  - eapply lock_inv_frame; [exact Ht|exact Hl|exact Hlc|exact Hrc|set_solver|done].
  - assert (lock_count (released self) = lock_count self + 1 ∨
            lock_count (released self) = lock_count self) as Hcase.
    { unfold released. repeat case_decide; destruct self; simpl; lia. }
    pose proof (length_delete gs i ltac:(eauto)). unfold counters_ok. rewrite Hlc.
    split_and!; destruct Hcase; lia.
  - split; [congruence|]. by rewrite <-Hw.
  - intros k. congruence.
Qed.

(** Taking an exclusive lock at once grants it on an idle connection only. *)
Lemma lock_exclusive_spec self gs kind n :
  lock_inv self gs → counters_ok self gs n → n + 1 < u64_modulus →
  kind ≠ LocNone → kind ≠ LocReadLock →
  try_lock_prv self kind ⇓ λ '(self', res),
    token self' = token self ∧ wrapped self' = wrapped self ∧
    (∀ k, local_next self' k = local_next self k) ∧
    match res with
    | Ok ctx => locker self = LocNone ∧ gs = [] ∧ reties self' = reties self ∧
        lock_inv self' [MkGuard kind ctx] ∧ counters_ok self' [MkGuard kind ctx] (n + 1)
    | Err e => e = Busy ∧ locker self ≠ LocNone ∧
        reties self' = (if need_retry kind then {[kind]} ∪ reties self else reties self) ∧
        lock_inv self' gs ∧ counters_ok self' gs n
    end.
Proof.
  intros Hinv Hcnt Hn Hk1 Hk2. eapply wp_mono; [by eapply try_lock_spec|].
  intros [self1 res] ([Ht _]&Hlc&Hw&Hnx&Hres). split_and!; [done..|].
  destruct Hcnt as (Hc0&Hc&Hlen), Hinv as (_&_&Hfree&_), res as [ctx|e].
  - destruct Hres as ([Hl|[_ ?]]&_&Hre&_&Hinv1); [|done]. rewrite (proj1 Hfree Hl) in *.
    split_and!; try done; unfold counters_ok; rewrite Hlc; simpl in *; lia.
  - destruct Hres as (->&Hl&_&Hre&Hinv1). unfold counters_ok. rewrite Hlc. by split_and!.
Qed.

(** What every operation keeps. *)
Definition kept self gs n self' : Prop :=
  lock_inv self' gs ∧ counters_ok self' gs (n + 2) ∧ tracks self self'.

Lemma unlock_kept self kind ctx self1 self2 now r n :
  token self1 = token self → conn_steps (wrapped self) (wrapped self2) →
  lock_inv self1 [MkGuard kind ctx] → counters_ok self1 [MkGuard kind ctx] (n + 1) →
  n + 2 < u64_modulus →
  token self2 = token self1 → locker self2 = locker self1 → lock_count self2 = lock_count self1 →
  read_lock_count self2 = read_lock_count self1 → LocNone ∉ reties self2 →
  unlock self2 (lc_lock_count ctx) false now r ⇓ λ '(self', r', closed),
    kept self [] n self' ∧ (∀ k, local_next self' k = local_next self2 k) ∧
    ∃ S1 S2 ids, unlock_post self2 false now r self' r' closed S1 S2 ids.
Proof.
  intros Ht Hc Hinv Hcnt Hn Ht2 Hl2 Hlc2 Hr2 Hnone.
  assert (lock_inv self2 [MkGuard kind ctx]) as Hinv2 by (by eapply lock_inv_frame).
  assert (counters_ok self2 [MkGuard kind ctx] (n + 1)) as Hcnt2
    by (unfold counters_ok in *; by rewrite Hlc2).
  eapply wp_mono; [eapply (drop_spec _ _ 0 (MkGuard kind ctx) _ _ _ _ Hinv2 Hcnt2); [lia|done]|].
  intros [[self' r'] closed] (Hinv'&Hcnt'&[Htr Htc]&Hnx&Hpost). split_and!; [|done..].
  split_and!; [done| |split; [congruence|by eapply rtc_trans]].
  unfold counters_ok in *. simpl in *. lia.
Qed.

Lemma close_spec self gs app err reason now r n :
  lock_inv self gs → counters_ok self gs n → n + 2 < u64_modulus →
  close self app err reason now r ⇓ λ '(self', r', res),
    kept self gs n self' ∧ (∀ k, local_next self' k = local_next self k).
Proof.
  intros Hinv Hcnt Hn. unfold close. wp_step.
  eapply wp_mono; [eapply lock_exclusive_spec; eauto; lia|].
  intros [self1 [ctx|e]] (Ht&Hw&Hnx&Hres).
  - destruct Hres as (Hl&->&Hre&Hinv1&Hcnt1). simpl.
    pose proof (cs_close (wrapped self1) app err reason) as Hstep.
    destruct (q_close (wrapped self1) app err reason) as [c res]. wp_step.
    eapply wp_mono; [eapply (unlock_kept self _ _ self1)|]; try (by destruct self1); try done.
    + rewrite <-Hw. apply rtc_once. by destruct self1.
    + destruct self1; simpl in *. rewrite Hre. apply Hinv.
    + intros [[self' r'] closed] (Hk&Hnx'&_). simpl. split; [done|]. intros k.
      rewrite Hnx', <-Hnx. by destruct self1, k.
  - destruct Hres as (->&_&_&Hinv1&Hc1). simpl. split; [|done].
    split_and!; [done|unfold counters_ok in *; lia|split; [done|by rewrite Hw]].
Qed.

Lemma stream_close_spec self gs id err now r n :
  lock_inv self gs → counters_ok self gs n → n + 2 < u64_modulus →
  stream_close self id err now r ⇓ λ '(self', r', res),
    kept self gs n self' ∧ (∀ k, local_next self' k = local_next self k).
Proof.
  intros Hinv Hcnt Hn. unfold stream_close. wp_step.
  eapply wp_mono; [eapply lock_exclusive_spec; eauto; lia|].
  intros [self1 [ctx|e]] (Ht&Hw&Hnx&Hres).
  - destruct Hres as (Hl&->&Hre&Hinv1&Hcnt1). simpl.
    pose proof (stream_close_prv_steps (wrapped self1) id err) as Hstep.
    destruct (stream_close_prv (wrapped self1) id err) as [c res]. wp_step.
    eapply wp_mono; [eapply (unlock_kept self _ _ self1)|]; try (by destruct self1); try done.
    + rewrite <-Hw. by destruct self1.
    + destruct self1; simpl in *. rewrite Hre. apply Hinv.
    + intros [[self' r'] closed] (Hk&Hnx'&_). simpl. split; [done|]. intros k.
      rewrite Hnx', <-Hnx. by destruct self1, k.
  - destruct Hres as (->&_&_&Hinv1&Hc1). simpl. split; [|done].
    split_and!; [done|unfold counters_ok in *; lia|split; [done|by rewrite Hw]].
Qed.

(** ** Opening streams *)

(** The answers of [stream_open]: refused because the lock is taken, out of stream
    credit, or carried out, with the identifier that was next. *)
Definition open_refused self kind self' (res : result (option Z) (Error QError)) : Prop :=
  locker self ≠ LocNone ∧ res = Err Busy ∧ LocStreamOpen kind ∈ reties self' ∧
  ∀ k, local_next self' k = local_next self k.

Definition open_starved self kind (non_blocking : bool) self' r'
    (res : result (option Z) (Error QError)) : Prop :=
  locker self = LocNone ∧ peer_streams_left (wrapped self) kind = 0 ∧
  res = (if non_blocking then Ok None else Err Retry) ∧
  (LocStreamOpen kind ∈ reties self' ∨
   Readiness.schedule r' !! event self (open_event kind) false 0 = Some None) ∧
  ∀ k, local_next self' k = local_next self k.

Definition open_done self kind self' (res : result (option Z) (Error QError)) : Prop :=
  locker self = LocNone ∧ peer_streams_left (wrapped self) kind ≠ 0 ∧
  res = match (q_stream_priority (wrapped self) (local_next self kind) 255 true).2 with
        | Ok _ => Ok (Some (local_next self kind))
        | Err err => Err (Quiche err)
        end ∧
  ∀ k, local_next self' k = local_next self k + (if decide (k = kind) then 4 else 0).

Lemma stream_open_prv_spec self kind :
  local_next self kind + 4 < u64_modulus →
  stream_open_prv self kind =
  if decide (peer_streams_left (wrapped self) kind = 0) then Ret (self, Err Retry)
  else
    let '(c, r) := q_stream_priority (wrapped self) (local_next self kind) 255 true in
    Ret (set_wrapped (set_next self kind (local_next self kind + 4)) c,
         match r with Ok _ => Ok (local_next self kind) | Err err => Err (Quiche err) end).
Proof.
  intros Hn. unfold stream_open_prv. case_bool_decide.
  - by rewrite decide_True.
  - rewrite decide_False by done. rewrite add_u64_ok by done. simpl.
    assert (wrapped (set_next self kind (local_next self kind + 4)) = wrapped self) as ->
      by (by destruct self, kind). done.
Qed.

Lemma starved_answer self kind gs n self1 ctx now r :
  lock_inv self [] → token self1 = token self → wrapped self1 = wrapped self →
  reties self1 = reties self →
  lock_inv self1 [MkGuard (LocStreamOpen kind) ctx] →
  counters_ok self1 [MkGuard (LocStreamOpen kind) ctx] (n + 1) → n + 2 < u64_modulus → gs = [] →
  unlock (set_reties self1 ({[LocStreamOpen kind]} ∪ reties self1)) (lc_lock_count ctx) false now r
  ⇓ λ '(self', r', closed), kept self gs n self' ∧
    (∀ k, local_next self' k = local_next self1 k) ∧
    (LocStreamOpen kind ∈ reties self' ∨
     Readiness.schedule r' !! event self (open_event kind) false 0 = Some None).
Proof.
  intros Hinv Ht Hw Hre Hinv1 Hcnt1 Hn ->.
  eapply wp_mono; [eapply (unlock_kept self _ _ self1)|]; try (by destruct self1); try done.
  - rewrite <-Hw. by destruct self1.
  - destruct Hinv1 as [Hnone _]. destruct self1; simpl in *. set_solver.
  - intros [[self' r'] closed] (Hk&Hnx&S1&S2&ids&Hpost). split_and!; [done| |].
    { intros k. rewrite Hnx. by destruct self1, k. }
    destruct (up_answered _ _ _ _ _ _ _ _ _ _ Hpost (LocStreamOpen kind)) as (c&_&_&Ha).
    { destruct self1; simpl. set_solver. }
    simpl in Ha. case_bool_decide; [right|by left].
    assert (event self (open_event kind) false 0 ∈ S1) as He.
    { unfold event in *. rewrite <-Ht, <-Hw. by destruct self1. }
    eapply unlock_ready; [done|set_solver].
Qed.

Lemma stream_open_spec self gs kind non_blocking now r n :
  lock_inv self gs → counters_ok self gs n → n + 2 < u64_modulus →
  local_next self kind + 4 < u64_modulus →
  stream_open self kind non_blocking now r ⇓ λ '(self', r', res),
    kept self gs n self' ∧
    (open_refused self kind self' res ∨ open_starved self kind non_blocking self' r' res ∨
     open_done self kind self' res).
Proof.
  intros Hinv Hcnt Hn Hid. unfold stream_open. wp_step.
  eapply wp_mono; [eapply lock_exclusive_spec; eauto; lia|].
  intros [self1 [ctx|e]] (Ht&Hw&Hnx&Hres).
  - destruct Hres as (Hl&->&Hre&Hinv1&Hcnt1). rewrite stream_open_prv_spec by (by rewrite Hnx).
    rewrite Hw, Hnx. case_decide as Hleft.
    + simpl. wp_step. eapply wp_mono; [by eapply (starved_answer self kind [] n self1)|].
      intros [[self' r'] closed] (Hk&Hnx'&Hans). simpl. split; [done|]. right; left.
      split_and!; try done. intros k. by rewrite Hnx', Hnx.
    + pose proof (cs_priority (wrapped self) (local_next self kind) 255 true) as Hstep.
      destruct (q_stream_priority (wrapped self) (local_next self kind) 255 true) as [c res] eqn:Hq.
      simpl in Hstep. simpl.
      set (self2 := set_wrapped (set_next self1 kind (local_next self kind + 4)) c).
      assert (unlock self2 (lc_lock_count ctx) false now r ⇓ λ '(self', r', closed),
        kept self [] n self' ∧ ∀ k, local_next self' k = local_next self2 k) as Hun.
      { eapply wp_mono; [eapply (unlock_kept self _ _ self1)|]; try (by destruct self1, kind); try done.
        - subst self2. destruct self1, kind; by apply rtc_once.
        - subst self2. destruct Hinv1 as [Hnone _]. by destruct self1, kind.
        - by intros [[]] (?&?&_). }
      assert (∀ k, local_next self2 k = local_next self k + (if decide (k = kind) then 4 else 0)) as Hnx2.
      { intros k. subst self2. rewrite <-(Hnx k), <-(Hnx kind). destruct self1, kind, k; simpl; lia. }
      assert (∀ self', (∀ k, local_next self' k = local_next self2 k) → open_done self kind self'
        match res with Ok _ => Ok (Some (local_next self kind)) | Err err => Err (Quiche err) end) as Hdone.
      { intros self' Hnx'. split_and!; try done; [by rewrite Hq|]. intros k. by rewrite Hnx'. }
      destruct res as [u|err]; wp_step; (eapply wp_mono; [exact Hun|]);
        intros [[self' r'] closed] [Hk Hnx']; simpl; auto.
  - destruct Hres as (->&Hl&Hre&Hinv1&Hc1). simpl. split.
    + split_and!; [done|unfold counters_ok in *; lia|split; [done|by rewrite Hw]].
    + left. split_and!; try done. rewrite Hre. simpl. set_solver.
Qed.

(** ** Runs *)

(** The two low bits of the streams of kind [k] that this side opens (RFC 9000, 2.1). *)
Definition id_class (server : bool) (k : StreamKind) : Z :=
  Z.b2z server + 2 * Z.b2z (negb (bool_decide (k = Bidi))).

Definition ids_of (k : StreamKind) (opened : list (StreamKind * Z)) : list Z :=
  omap (λ '(k', id), if decide (k' = k) then Some id else None) opened.

Definition ids_inv (server : bool) self (opened : list (StreamKind * Z)) (m : Z) : Prop :=
  ∀ k, local_next self k `mod` 4 = id_class server k ∧ local_next self k ≤ 3 + 4 * m ∧
    StronglySorted Z.lt (ids_of k opened) ∧
    ∀ id, id ∈ ids_of k opened → id `mod` 4 = id_class server k ∧ id < local_next self k.

(** [m] bounds the operations performed so far. *)
Definition session_inv (server : bool) (m : Z) (s : session) : Prop :=
  lock_inv (se_conn s) (se_guards s) ∧ counters_ok (se_conn s) (se_guards s) (2 * m) ∧
  is_server (wrapped (se_conn s)) = server ∧ ids_inv server (se_conn s) (se_opened s) m.

Lemma ids_inv_mono server self self' opened m m' :
  ids_inv server self opened m → (∀ k, local_next self' k = local_next self k) → m ≤ m' →
  ids_inv server self' opened m'.
Proof. intros Hids Hnx Hm k. rewrite Hnx. destruct (Hids k) as (?&?&?&?). split_and!; auto. lia. Qed.

Lemma ids_inv_open server self self' kind opened m :
  ids_inv server self opened m →
  (∀ k, local_next self' k = local_next self k + (if decide (k = kind) then 4 else 0)) →
  ids_inv server self' opened (m + 1) ∧
  ids_inv server self' (opened ++ [(kind, local_next self kind)]) (m + 1).
Proof.
  intros Hids Hnx.
  assert (ids_inv server self' opened (m + 1)) as Hskip.
  { intros k. destruct (Hids k) as (Hmod&Hub&Hsort&Hin). rewrite Hnx. case_decide; simpl.
    - split_and!; [|lia|done|]. { rewrite <-Z.add_mod_idemp_r by lia. by rewrite Z.add_0_r. }
      intros id Hid. destruct (Hin id Hid). split; [done|lia].
    - rewrite Z.add_0_r. split_and!; [done|lia|done|done]. }
  split; [done|]. intros k. destruct (Hskip k) as (Hmod'&Hub'&Hsort&Hin).
  destruct (Hids k) as (Hmod&_&_&Hold). unfold ids_of. rewrite omap_app. simpl.
  split_and!; [done|done| |]; destruct (decide (kind = k)) as [->|Hne]; rewrite ?app_nil_r; try done.
  - apply StronglySorted_app_2; [|done|repeat constructor].
    intros id x Hid ->%list_elem_of_singleton. by apply Hold.
  - intros id [Hid| ->%list_elem_of_singleton]%elem_of_app; [by apply Hin|].
    rewrite Hnx, decide_True by done. split; [done|lia].
Qed.

Lemma kept_inv server m self gs opened self' r' :
  session_inv server m (MkSession self r' gs opened) → kept self gs (2 * m) self' →
  (∀ k, local_next self' k = local_next self k) →
  session_inv server (m + 1) (MkSession self' r' gs opened).
Proof.
  intros (_&_&Hsrv&Hids) (Hinv&Hcnt&Htr) Hnx. split_and!; simpl in *; [done| | |].
  - unfold counters_ok in *. lia.
  - rewrite <-Hsrv. apply steps_is_server, Htr.
  - eapply ids_inv_mono; [done|done|lia].
Qed.

Lemma idle_inv server m self gs opened r r' :
  session_inv server m (MkSession self r gs opened) →
  session_inv server (m + 1) (MkSession self r' gs opened).
Proof.
  intros (Hinv&Hcnt&Hsrv&Hids). split_and!; simpl in *; [done| |done|].
  - unfold counters_ok in *. lia.
  - eapply ids_inv_mono; [done|done|lia].
Qed.

Lemma lock_inv_send_done self gs i :
  lock_inv self gs → lock_inv self (alter send_done i gs).
Proof.
  intros (Hnone&Hgs&Hfree&Hexcl&Hread). unfold lock_inv. rewrite length_alter. split_and!; try done.
  - intros g (j&Hj)%list_elem_of_lookup. destruct (decide (i = j)) as [->|Hne].
    + rewrite list_lookup_alter_eq in Hj. apply fmap_Some in Hj as (g'&Hg'&->).
      apply (Hgs g'). by eapply list_elem_of_lookup_2.
    + rewrite list_lookup_alter_ne in Hj by done. apply Hgs. by eapply list_elem_of_lookup_2.
  - rewrite Hfree, <-!length_zero_iff_nil, length_alter. done.
Qed.

(** The two operations with several outcomes: a call through a guard, and [stream_open]. *)
Lemma use_spec server m self r gs opened i f :
  session_inv server m (MkSession self r gs opened) → op_ok (OpUse i f) → 0 ≤ m →
  perform (MkSession self r gs opened) (OpUse i f) ⇓ session_inv server (m + 1).
Proof.
  intros Hs Hok Hm. pose proof Hs as (Hinv&Hcnt&_); simpl in *.
  assert (counters_ok self gs (2 * m + 2)) by (unfold counters_ok in *; lia).
  destruct (gs !! i) eqn:Hi; [|by eapply idle_inv].
  apply (kept_inv _ _ self); [done| |by destruct self; intros []].
  split_and!; [|by destruct self|].
  { apply (lock_inv_frame self); [by destruct self..| |done]. destruct self. apply Hinv. }
  apply frame_tracks, frame_wrapped, rtc_once, Hok.
Qed.

Lemma open_spec server m self r gs opened kind nb now :
  session_inv server m (MkSession self r gs opened) → 0 ≤ m → 4 * m + 12 ≤ u64_modulus →
  perform (MkSession self r gs opened) (OpOpen kind nb now) ⇓ session_inv server (m + 1).
Proof.
  intros Hs Hm0 Hm. pose proof Hs as (Hinv&Hcnt&Hsrv&Hids); simpl in *.
  assert (local_next self kind + 4 < u64_modulus) as Hid by (destruct (Hids kind) as (_&?&_); lia).
  wp_step. eapply wp_mono; [apply (stream_open_spec _ gs _ _ _ _ (2 * m)); [done|done|lia|done]|].
  intros [[self' r'] res] [Hk Hcase]. simpl.
  destruct Hcase as [(_&->&_&Hnx)|[(_&_&->&_&Hnx)|(_&_&->&Hnx)]].
  - by eapply kept_inv.
  - destruct nb; by eapply kept_inv.
  - destruct (ids_inv_open server self self' kind opened m Hids Hnx) as [Hskip Htake].
    destruct Hk as (Hinv1&Hcnt1&Htr). split_and!; simpl; [done| | |].
    + unfold counters_ok in *. lia.
    + rewrite <-Hsrv. apply steps_is_server, Htr.
    + by destruct (q_stream_priority _ _ _ _).2.
Qed.

Lemma perform_spec server m s o :
  session_inv server m s → op_ok o → 4 * m + 12 ≤ u64_modulus →
  perform s o ⇓ session_inv server (m + 1).
Proof.
  destruct s as [self r gs opened]. intros Hs Hok Hm.
  pose proof Hs as (Hinv&Hcnt&Hsrv&Hids); simpl in *.
  assert (0 ≤ m) as Hm0 by (unfold counters_ok in *; lia).
  assert (counters_ok self gs (2 * m + 2)) as Hcnt' by (unfold counters_ok in *; lia).
  assert (ids_inv server self opened (m + 1)) as Hids' by (eapply ids_inv_mono; [done|done|lia]).
  destruct o as [kind|i f|i|i now|app err reason now|kind nb now|id err now|f]; simpl.
  - wp_step. eapply wp_mono; [apply (try_lock_spec _ gs _ (2 * m)); [done|done|lia|done]|].
    intros [self' res] (Htr&Hlc&Hw&Hnx&Hres). simpl. split_and!; simpl.
    + destruct res; apply Hres.
    + unfold counters_ok in *. rewrite Hlc. destruct res; rewrite ?length_app; simpl; lia.
    + by rewrite Hw.
    + eapply ids_inv_mono; [done|done|lia].
  - apply (use_spec server m self r gs opened i f Hs Hok Hm0).
  - split_and!; simpl; [by apply lock_inv_send_done| |done|done].
    unfold counters_ok in *. rewrite length_alter. lia.
  - destruct (gs !! i) as [g|] eqn:Hi; [|by eapply idle_inv].
    wp_step. eapply wp_mono; [apply (drop_spec _ gs i _ _ _ _ (2 * m)); [done|done|lia|done]|].
    intros [[self' r'] closed] (Hinv1&Hcnt1&Htr&Hnx&_). simpl. split_and!; simpl; [done| | |].
    + unfold counters_ok in *. lia.
    + rewrite <-Hsrv. apply steps_is_server, Htr.
    + eapply ids_inv_mono; [done|done|lia].
  - wp_step. eapply wp_mono; [apply (close_spec _ gs _ _ _ _ _ (2 * m)); [done|done|lia]|].
    intros [[self' r'] res] [Hk Hnx]. by eapply kept_inv.
  - apply (open_spec server m self r gs opened kind nb now Hs Hm0 Hm).
  - wp_step. eapply wp_mono; [apply (stream_close_spec _ gs _ _ _ _ (2 * m)); [done|done|lia]|].
    intros [[self' r'] res] [Hk Hnx]. by eapply kept_inv.
  - by eapply idle_inv.
Qed.

Lemma perform_all_spec server m s ops :
  session_inv server m s → Forall op_ok ops → 4 * (m + zlen ops) + 8 ≤ u64_modulus →
  perform_all s ops ⇓ session_inv server (m + zlen ops).
Proof.
  revert m s. induction ops as [|o ops IH]; intros m s Hs Hok Hm; simpl.
  { by rewrite Z.add_0_r. }
  apply Forall_cons in Hok as [Ho Hok]. wp_step. simpl length in *.
  eapply wp_mono; [apply perform_spec; [done|done|lia]|].
  intros s' Hs'. replace (m + Z.of_nat (S (length ops))) with (m + 1 + zlen ops) by lia.
  apply IH; [done|done|lia].
Qed.

Lemma start_inv token (c : Connection) r : session_inv (is_server c) 0 (start token c r).
Proof.
  split_and!; simpl; [by apply lock_inv_idle|by split_and!|done|].
  intros k. simpl. unfold new, id_class. split_and!; try by constructor.
  - by destruct (is_server c), k.
  - destruct (is_server c), k; simpl; lia.
  - by intros id ?%elem_of_nil.
Qed.

(** C1.  Lock safety.  Whatever guards are requested, used and dropped, in any order and
    interleaved with [close], [stream_open] and [stream_close], no assertion of the lock
    fails and every operation returns; the connection is unlocked exactly when no guard is
    alive; two guards that are alive together are both read locks; and the reader count
    is the number of those guards. *)
Theorem conn_lock_safe token (c : Connection) r ops :
  Forall op_ok ops → 4 * zlen ops + 8 ≤ u64_modulus →
  perform_all (start token c r) ops ⇓ λ s,
    (locker (se_conn s) = LocNone ↔ se_guards s = []) ∧
    (∀ i g, se_guards s !! i = Some g → g_kind g = locker (se_conn s)) ∧
    (∀ i j g h, se_guards s !! i = Some g → se_guards s !! j = Some h → i ≠ j →
       g_kind g = LocReadLock ∧ g_kind h = LocReadLock) ∧
    (locker (se_conn s) = LocReadLock → read_lock_count (se_conn s) = zlen (se_guards s)).
Proof.
  intros Hok Hlen. eapply wp_mono; [apply (perform_all_spec (is_server c) 0); [apply start_inv|done|lia]|].
  intros s ((_&Hgs&Hfree&Hexcl&Hread)&_).
  assert (∀ i g, se_guards s !! i = Some g → g_kind g = locker (se_conn s)) as Hkind.
  { intros i g Hi. apply Hgs. by eapply list_elem_of_lookup_2. }
  split_and!; [done|done| |intros Hl; by rewrite Hread, decide_True].
  intros i j g h Hi Hj Hij. rewrite (Hkind i g Hi), (Hkind j h Hj).
  destruct (decide (locker (se_conn s) = LocReadLock)) as [|Hne]; [done|].
  specialize (Hexcl Hne). apply lookup_lt_Some in Hi, Hj. lia.
Qed.

(** C27.  Stream identifiers are fresh.  In every run, the streams that [stream_open]
    returned for a direction are strictly increasing, are locally initiated, and have
    that direction. *)
Theorem stream_ids_fresh token (c : Connection) r ops :
  Forall op_ok ops → 4 * zlen ops + 8 ≤ u64_modulus →
  perform_all (start token c r) ops ⇓ λ s, ∀ k,
    StronglySorted Z.lt (ids_of k (se_opened s)) ∧
    ∀ id, id ∈ ids_of k (se_opened s) →
      is_local id (is_server c) = true ∧ is_local id (negb (is_server c)) = false ∧
      stream_kind id = k.
Proof.
  intros Hok Hlen. eapply wp_mono; [apply (perform_all_spec (is_server c) 0); [apply start_inv|done|lia]|].
  intros s (_&_&_&Hids) k. destruct (Hids k) as (_&_&Hsort&Hin). split; [done|].
  intros id Hid. destruct (Hin id Hid) as [Hmod _].
  destruct (stream_id_class id (is_server c) (bool_decide (k = Bidi)) Hmod) as (?&?&Hb).
  split_and!; [done..|]. unfold stream_kind. rewrite Hb. by destruct k.
Qed.
End protocol.

(** ** Witnesses: two readers, refused operations, then streams of both directions *)

Section witnesses.
Import QueueReference QuicheReference.
#[local] Instance checked : OverflowChecks := true.

Definition demo_ops : list op :=
  [OpLock LocReadLock; OpLock LocReadLock; OpUse 1 q_on_timeout; OpLock (LocStreamRecv 4);
   OpOpen Bidi true 10; OpDrop 0 11; OpSendDone 0; OpDrop 0 12;
   OpOpen Bidi true 13; OpOpen Uni false 14; OpOpen Bidi true 15; OpStreamClose 4 0 16].
Definition demo_start : session := start (MkToken 7) toy_server_conn Readiness.default.

Lemma demo_ops_ok : Forall op_ok demo_ops.
Proof. repeat constructor; done. Qed.

(** The run evaluates: the refused [stream_open] is retried by its caller. *)
Example demo_run :
  (s ← perform_all demo_start demo_ops; Ret (se_opened s, se_guards s)) =
  Ret ([(Bidi, 1); (Uni, 3); (Bidi, 5)], []).
Proof. vm_compute. reflexivity. Qed.

Example conn_lock_safe_witness :
  perform_all demo_start demo_ops ⇓ λ s, locker (se_conn s) = LocNone ↔ se_guards s = [].
Proof.
  eapply wp_mono; [apply (conn_lock_safe (MkToken 7) toy_server_conn Readiness.default demo_ops)|].
  - exact demo_ops_ok.
  - vm_compute. discriminate.
  - intros s Hs. exact (proj1 Hs).
Defined.

Example stream_ids_fresh_witness :
  perform_all demo_start demo_ops ⇓ λ s, ∀ k,
    StronglySorted Z.lt (ids_of k (se_opened s)) ∧
    ∀ id, id ∈ ids_of k (se_opened s) →
      is_local id true = true ∧ is_local id false = false ∧ stream_kind id = k.
Proof.
  apply (stream_ids_fresh (MkToken 7) toy_server_conn Readiness.default demo_ops).
  - exact demo_ops_ok.
  - vm_compute. discriminate.
Defined.
End witnesses.
End Session.
