(* ===== verification/ConnEvents.v ===== *)
(** What releasing a connection's lock tells the poller: the readiness events of
    [QuicConn::unlock]. *)
From S2P Require Import Prelude Api EventQueue QuicheApi QuicheReference Utils Connection ConnFacts.
Import QuicConn.

Section events.
Context `{QuicheLaws} `{!PriorityQueue Event} `{!PriorityQueueLaws Event} `{HashIter} `{OverflowChecks}.
Abbreviation Readiness := Readiness.Readiness.
Abbreviation schedule := Readiness.schedule.
Abbreviation send_event self := (event self EvSend false 0).
Implicit Types (self : QuicConn) (r : Readiness).

(** The deadline of a pending event: [Some None] when it is ready at once. *)
Definition pending r (e : Event) : option (option Instant) := schedule r !! e.

(** The deadline for which quiche's timers ask: [t] is one of them. *)
Definition timer (c : Connection) (now : Instant) (t : Instant) : Prop :=
  timeout_instant c = Some t ∨ paced c now = Some t.

Lemma delay_send_timer (c : Connection) now send_done d :
  delay_send c now send_done = Some d → ∀ t, timer c now t → d ≤ t.
Proof.
  unfold delay_send, timer. intros Hd t Ht.
  assert (min_of_some (timeout_instant c) (paced c now) = Some d) as Hmin.
  { destruct send_done; [done|]. by case_bool_decide. }
  apply min_of_some_spec in Hmin as [_ Hmin]. auto.
Qed.

Lemma delay_send_none (c : Connection) now send_done :
  delay_send c now send_done = None ↔
  paced c now = None ∧ (send_done = true → timeout_instant c = None).
Proof.
  unfold delay_send. destruct send_done; [rewrite min_of_some_none; naive_solver|].
  case_bool_decide as Hp.
  - destruct (paced c now) as [t|]; [|by destruct Hp]. rewrite min_of_some_none. naive_solver.
  - rewrite <-eq_None_not_Some in Hp. naive_solver.
Qed.

(** The [Send] event is not an event of the other handlers. *)
Lemma send_not_state self (c : Connection) : send_event self ∉ state_events self c.
Proof.
  unfold state_events, hello_event.
  destruct (negb _ && _), (is_closed c), (is_server (wrapped self)); set_solver.
Qed.

Lemma send_lookup self send_done now r self' r' closed S1 S2 ids :
  unlock_post self send_done now r self' r' closed S1 S2 ids →
  schedule r' !! send_event self =
    if send_done && bool_decide (delay_send (wrapped self') now send_done = None) then None
    else Some (delay_send (wrapped self') now send_done).
Proof.
  intros Hpost. rewrite (up_schedule _ _ _ _ _ _ _ _ _ _ Hpost).
  rewrite decide_False by apply send_not_state. by rewrite decide_True.
Qed.

(** C22.  The send timer.  After [unlock] the connection's [Send] event is absent exactly
    when the caller reported that quiche has nothing more to send and quiche has no timer;
    it is ready at once exactly when there may be data to send and quiche does not pace it;
    and otherwise it is due no later than every timer of quiche, so none is missed. *)
Theorem unlock_send_timer self n send_done now r :
  releasable self n → LocNone ∉ reties self →
  unlock self n send_done now r ⇓ λ '(self', r', _),
    let c := wrapped self' in let at_ := pending r' (send_event self) in
    (at_ = None ↔ send_done = true ∧ ∀ t, ¬ timer c now t) ∧
    (at_ = Some None ↔ send_done = false ∧ paced c now = None) ∧
    (∀ d t, at_ = Some (Some d) → timer c now t → d ≤ t).
Proof.
  unfold pending.
  intros Hrel Hnone. eapply wp_mono; [by apply unlock_spec|].
  intros [[self' r'] closed] (S1&S2&ids&Hpost). cbv zeta.
  rewrite (send_lookup _ _ _ _ _ _ _ _ _ _ Hpost).
  pose proof (delay_send_none (wrapped self') now send_done) as Hn.
  pose proof (delay_send_timer (wrapped self') now send_done) as Ht. unfold timer in *.
  destruct (delay_send (wrapped self') now send_done) as [d|] eqn:Hd.
  - rewrite bool_decide_false, andb_false_r by done. split_and!; [split; [done|]|split; [done|]|naive_solver].
    + intros [-> Hno]. destruct Hn as [_ Hn]. discriminate Hn. split.
      * apply eq_None_ne_Some_2. naive_solver.
      * intros _. apply eq_None_ne_Some_2. naive_solver.
    + intros [-> Hno]. destruct Hn as [_ Hn]. discriminate Hn. naive_solver.
  - rewrite bool_decide_true, andb_true_r by done. destruct Hn as [Hn _]. destruct (Hn eq_refl) as [Hp Hto].
    destruct send_done; split_and!; naive_solver.
Qed.

(** ** Establishment and closure *)

Definition hello_kind (k : EventKind) : Prop := k = EvAccept ∨ k = EvConnected.

(** C23.  State changes.  [unlock] returns whether the connection is closed and then makes
    [Closed] ready; a connection that became established is announced once, as [Accept]
    on a server and as [Connected] on a client; nothing else ever schedules such an event. *)
Theorem unlock_state_events self n send_done now r :
  releasable self n → LocNone ∉ reties self →
  unlock self n send_done now r ⇓ λ '(self', r', closed),
    closed = is_closed (wrapped self') ∧
    (closed = true → pending r' (event self EvClosed false 0) = Some None) ∧
    established self' = established self || is_established (wrapped self') ∧
    (established self = false → established self' = true →
       pending r' (hello_event self) = Some None) ∧
    (∀ e, hello_kind (ev_kind e) → e ≠ hello_event self ∨ established self = established self' →
       pending r' e = pending r e).
Proof.
  unfold pending.
  intros Hrel Hnone. eapply wp_mono; [by apply unlock_spec|].
  intros [[self' r'] closed] (S1&S2&ids&Hpost).
  pose proof (up_closed _ _ _ _ _ _ _ _ _ _ Hpost) as ->.
  pose proof (up_established _ _ _ _ _ _ _ _ _ _ Hpost) as Hes.
  pose proof (up_schedule _ _ _ _ _ _ _ _ _ _ Hpost) as Hsch.
  split_and!; [done| |done| |].
  - intros Hc. rewrite Hsch, decide_True; [done|]. unfold state_events. rewrite Hc. set_solver.
  - intros He He'. rewrite Hsch, decide_True; [done|]. unfold state_events.
    rewrite He, He' in *. simpl in *. rewrite <-Hes. set_solver.
  - intros e Hk Hcase. rewrite Hsch. rewrite !decide_False; [done|..].
    + intros [He|He]%elem_of_union.
      * apply (up_retry_own _ _ _ _ _ _ _ _ _ _ Hpost) in He as [_ (_&?&?&_)]. by destruct Hk.
      * apply (up_stream_own _ _ _ _ _ _ _ _ _ _ Hpost) in He as [_ Hk'].
        unfold stream_event_kind in Hk'. destruct Hk; naive_solver congruence.
    + intros ->. by destruct Hk.
    + unfold state_events. rewrite Hes in Hcase. intros [He|He]%elem_of_union.
      * destruct (established self), (is_established (wrapped self')); simpl in *; set_solver.
      * destruct (is_closed _); [|set_solver]. apply elem_of_singleton in He as ->. by destruct Hk.
Qed.

(** ** Refused operations *)

(** C2.  No refused operation is lost.  Every operation that was queued while the lock was
    held is answered by the release: at some point of it the connection is in a state [c]
    where the operation is carried out ([close], [stream_close]), or its caller is told to
    try again by an event that is ready afterwards, or, when the peer granted no stream,
    it stays queued for the next release; a refused [stream_send] whose stream cannot take
    the data yet is handed to quiche's writability report.  Nothing else stays queued. *)
Theorem no_lost_retry self n send_done now r :
  releasable self n → LocNone ∉ reties self →
  unlock self n send_done now r ⇓ λ '(self', r', _),
    (∀ ev, ev ∈ reties self → ∃ c,
       conn_steps (wrapped self) c ∧ conn_steps (retry_effect ev c) (wrapped self') ∧
       answered self ev c (λ e, pending r' e = Some None) (reties self')) ∧
    (∀ ev, ev ∈ reties self' → ev ∈ reties self ∧ ∃ k, ev = LocStreamOpen k).
Proof.
  unfold pending.
  intros Hrel Hnone. eapply wp_mono; [by apply unlock_spec|].
  intros [[self' r'] closed] (S1&S2&ids&Hpost). split.
  - intros ev Hev. destruct (up_answered _ _ _ _ _ _ _ _ _ _ Hpost ev Hev) as (c&?&?&Ha).
    exists c. split_and!; [done..|]. eapply answered_mono; [reflexivity|exact Ha| |done].
    intros e He. eapply unlock_ready; [done|set_solver].
  - exact (up_reties _ _ _ _ _ _ _ _ _ _ Hpost).
Qed.

(** ** Streams of the peer *)

Lemma accept_lookup self send_done now r self' r' closed S1 S2 ids id :
  unlock_post self send_done now r self' r' closed S1 S2 ids →
  ¬ announced (remote_seen self) (is_server (wrapped self)) ids id →
  schedule r' !! event self EvStreamAccept false id = schedule r !! event self EvStreamAccept false id.
Proof.
  intros Hpost Hann. rewrite (up_schedule _ _ _ _ _ _ _ _ _ _ Hpost). rewrite !decide_False; [done|..].
  - intros [He|He]%elem_of_union; [|by apply Hann, (up_accept _ _ _ _ _ _ _ _ _ _ Hpost)].
    apply (up_retry_own _ _ _ _ _ _ _ _ _ _ Hpost) in He as [_ (_&_&_&?)]. done.
  - done.
  - unfold state_events, hello_event.
    destruct (negb _ && _), (is_closed _), (is_server (wrapped self)); set_solver.
Qed.

(** C21.  Stream announcements.  The streams [ids] that quiche reports as readable during the
    release are each made ready, as [StreamAccept] or as [StreamRecv].  A stream is announced
    by [StreamAccept] exactly when it belongs to the peer and lies above every stream of its
    direction reported before; the watermark then covers it, so no stream is announced twice;
    and no other [StreamAccept] is scheduled. *)
Theorem stream_announcements self n send_done now r :
  releasable self n → LocNone ∉ reties self →
  unlock self n send_done now r ⇓ λ '(self', r', _), ∃ c ids,
    conn_steps (wrapped self) c ∧ drained q_stream_readable_next c ids (wrapped self') ∧
    (∀ id, id ∈ ids →
       pending r' (event self EvStreamAccept false id) = Some None ∨
       pending r' (event self EvStreamRecv false id) = Some None) ∧
    (∀ id, announced (remote_seen self) (is_server (wrapped self)) ids id →
       pending r' (event self EvStreamAccept false id) = Some None ∧
       newer (remote_seen self (stream_kind id)) id ∧
       ¬ newer (remote_seen self' (stream_kind id)) id) ∧
    (∀ id, ¬ announced (remote_seen self) (is_server (wrapped self)) ids id →
       pending r' (event self EvStreamAccept false id) =
       pending r (event self EvStreamAccept false id)) ∧
    (∀ k x, remote_seen self k = Some x → ∃ y, remote_seen self' k = Some y ∧ x ≤ y).
Proof.
  unfold pending.
  intros Hrel Hnone. eapply wp_mono; [by apply unlock_spec|].
  intros [[self' r'] closed] (S1&S2&ids&Hpost).
  destruct (up_drained _ _ _ _ _ _ _ _ _ _ Hpost) as (c&Hc&Hd).
  pose proof (up_accept _ _ _ _ _ _ _ _ _ _ Hpost) as Hacc.
  pose proof (up_seen _ _ _ _ _ _ _ _ _ _ Hpost) as Hseen.
  exists c, ids. split_and!; [done|done| | | |].
  - intros id Hid. destruct (up_reported _ _ _ _ _ _ _ _ _ _ Hpost id Hid); [left|right];
      (eapply unlock_ready; [done|set_solver]).
  - intros id Hann. split_and!.
    + eapply unlock_ready; [done|]. apply elem_of_union_r. by apply Hacc.
    + destruct Hann as (pre&post&_&_&Hnew). by apply newer_bumps in Hnew as [? _].
    + rewrite Hseen, newer_bumps. destruct Hann as (pre&post&->&Hl&_). intros [_ Hlt].
      specialize (Hlt id). destruct (Z.lt_irrefl id). apply Hlt. unfold remote_ids.
      rewrite list_elem_of_filter. split; [done|]. apply elem_of_app. right. by left.
  - intros id. by eapply accept_lookup.
  - intros k x Hx. rewrite Hseen. by apply bumps_mono.
Qed.

(** A stream of the peer that is reported below the watermark of its direction is
    never announced: data that arrives on a higher stream first, which reordering on the
    network can cause, leaves every lower stream that is still unknown without its
    [StreamAccept]. *)
Theorem late_stream_not_announced self n send_done now r id x :
  releasable self n → LocNone ∉ reties self →
  remote_seen self (stream_kind id) = Some x → id ≤ x →
  pending r (event self EvStreamAccept false id) = None →
  unlock self n send_done now r ⇓ λ '(self', r', _),
    pending r' (event self EvStreamAccept false id) = None ∧
    ∃ y, remote_seen self' (stream_kind id) = Some y ∧ id ≤ y.
Proof.
  unfold pending.
  intros Hrel Hnone Hx Hid Hr. eapply wp_mono; [by apply unlock_spec|].
  intros [[self' r'] closed] (S1&S2&ids&Hpost).
  split.
  - rewrite <-Hr. eapply accept_lookup; [done|].
    intros (pre&post&_&_&[Hnew _]%newer_bumps). specialize (Hnew x Hx). lia.
  - rewrite (up_seen _ _ _ _ _ _ _ _ _ _ Hpost).
    destruct (bumps_mono _ (remote_ids (is_server (wrapped self)) (stream_kind id) ids) x Hx) as (y&->&?).
    exists y. split; [done|lia].
Qed.
End events.

(** ** Witnesses: a server connection that [Recv] holds while two operations wait *)

Section witnesses.
Import QueueReference QuicheReference.
#[local] Instance checked : OverflowChecks := true.
Abbreviation lookup_in r e := (pending r e).

Definition demo_conn : QuicConn :=
  MkQuicConn (MkToken 7) 1 (Some 8) 3 None LocRecv {[LocStreamRecv 4; LocStreamOpen Bidi]}
    5 0 false toy_server_conn.

Lemma demo_releasable : releasable demo_conn 5.
Proof. unfold releasable, u64_modulus. split_and!; simpl; (done || lia). Qed.
Lemma demo_no_none : LocNone ∉ reties demo_conn.
Proof. simpl. set_solver. Qed.

Definition demo_unlock (send_done : bool) : exec (QuicConn * Readiness.Readiness * bool) :=
  unlock demo_conn 5 send_done 800 Readiness.default.

Example unlock_send_timer_witness :
  demo_unlock true ⇓ λ '(self', r', _),
    lookup_in r' (event demo_conn EvSend false 0) = None ↔
    true = true ∧ ∀ t, ¬ timer (wrapped self') 800 t.
Proof.
  eapply wp_mono;
    [exact (unlock_send_timer demo_conn 5 true 800 Readiness.default demo_releasable demo_no_none)|].
  intros [[self' r'] closed] Hs. exact (proj1 Hs).
Defined.

Example unlock_state_events_witness :
  demo_unlock false ⇓ λ '(self', r', closed),
    closed = is_closed (wrapped self') ∧
    (established self' = true → lookup_in r' (hello_event demo_conn) = Some None).
Proof.
  eapply wp_mono;
    [exact (unlock_state_events demo_conn 5 false 800 Readiness.default demo_releasable demo_no_none)|].
  intros [[self' r'] closed] (Hc&_&_&Hh&_). split; [exact Hc|exact (Hh eq_refl)].
Defined.

Example no_lost_retry_witness :
  demo_unlock false ⇓ λ '(self', r', _),
    lookup_in r' (event demo_conn EvStreamRecv false 4) = Some None.
Proof.
  eapply wp_mono;
    [exact (no_lost_retry demo_conn 5 false 800 Readiness.default demo_releasable demo_no_none)|].
  intros [[self' r'] closed] [Hs _]. destruct (Hs (LocStreamRecv 4)) as (c&_&_&Ha).
  - simpl. set_solver.
  - exact Ha.
Defined.

Example stream_announcements_witness :
  demo_unlock false ⇓ λ '(self', r', _), ∃ c ids,
    conn_steps (wrapped demo_conn) c ∧ drained q_stream_readable_next c ids (wrapped self').
Proof.
  eapply wp_mono;
    [exact (stream_announcements demo_conn 5 false 800 Readiness.default demo_releasable demo_no_none)|].
  intros [[self' r'] closed] (c&ids&Hc&Hd&_). exists c, ids. split; [exact Hc|exact Hd].
Defined.

(** Stream 4 of the peer becomes readable after stream 8. *)
Example late_stream_not_announced_witness :
  demo_unlock false ⇓ λ '(self', r', _),
    lookup_in r' (event demo_conn EvStreamAccept false 4) = None.
Proof.
  eapply wp_mono;
    [apply (late_stream_not_announced demo_conn 5 false 800 Readiness.default 4 8
              demo_releasable demo_no_none eq_refl)|].
  - lia.
  - vm_compute. reflexivity.
  - intros [[self' r'] closed] [Hs _]. exact Hs.
Defined.

(** The release evaluates: the two waiting operations and the streams are reported. *)
Example demo_unlock_events :
  ('(_, r, closed) ← demo_unlock false;
   Ret (closed, (λ '(k, i), lookup_in r (event demo_conn k false i)) <$>
     [(EvStreamRecv, 4); (EvStreamOpenBidi, 0); (EvStreamSend, 1); (EvStreamAccept, 2);
      (EvStreamAccept, 4); (EvAccept, 0); (EvSend, 0); (EvRecv, 0)])) =
  Ret (false, [Some None; Some None; Some None; Some None; None; Some None; Some None; None]).
Proof. vm_compute. reflexivity. Qed.
End witnesses.
