(* ===== verification/Group.v ===== *)
(** The connection group of [crates/poll/src/group.rs]: its tables, and its methods as
    sequences of the sections that the source runs under the state mutex. *)
From S2P Require Import Prelude Api EventQueue QuicheApi QuicheReference Utils Connection ConnFacts.
From S2P Require Import ConnLock Acceptor.
Import QuicConn Acceptor.

Module Group.

Section model.
Context `{QuicheEndpoint} `{!PriorityQueue Event} `{HashIter} `{OverflowChecks}.
Context {Unparker : Type} (clock : nat → Instant).
Abbreviation Readiness := Readiness.Readiness.
Abbreviation group_result A := (result A (Error QError)).

(** [struct Group] with its [struct State].  The last two fields are not in the source:
    [unparked] records the calls of [Unparker::unpark], and [reads] counts the reads of
    [Instant::now()], the [n]-th of which returns [clock n]. *)
Record Group := MkGroup {
  token_next : Z;
  conns : gmap Token QuicConn;
  readiness : Readiness;
  unparkers : gmap Token Unparker;
  scids : gmap (list byte) Token;
  unparked : list Unparker;
  reads : nat;
}.

Definition new_group : Group := MkGroup 0 ∅ Readiness.default ∅ ∅ [] 0.

Definition DEFAULT_RELEASE_TIMER_THRESHOLD : Duration := 250000.

(** ** Assignments *)

Definition set_token_next (self : Group) (n : Z) : Group :=
  let '(MkGroup _ c r u s l k) := self in MkGroup n c r u s l k.
Definition set_conns (self : Group) (c : gmap Token QuicConn) : Group :=
  let '(MkGroup n _ r u s l k) := self in MkGroup n c r u s l k.
Definition set_readiness (self : Group) (r : Readiness) : Group :=
  let '(MkGroup n c _ u s l k) := self in MkGroup n c r u s l k.
Definition set_scids (self : Group) (s : gmap (list byte) Token) : Group :=
  let '(MkGroup n c r u _ l k) := self in MkGroup n c r u s l k.
Definition set_unparkers (self : Group) (u : gmap Token Unparker) : Group :=
  let '(MkGroup n c r _ s l k) := self in MkGroup n c r u s l k.
Definition unpark (self : Group) (x : Unparker) : Group :=
  let '(MkGroup n c r u s l k) := self in MkGroup n c r u s (l ++ [x]) k.
Definition now (self : Group) : Group * Instant :=
  let '(MkGroup n c r u s l k) := self in (MkGroup n c r u s l (S k), clock k).

Definition set_conn (self : Group) (token : Token) (conn : QuicConn) : Group :=
  set_conns self (<[token := conn]> (conns self)).

(** ** The registry *)

(** The loop of [register] that looks for an unused token. *)
Fixpoint next_token (fuel : nat) (used : gmap Token QuicConn) (token_next : Z) : exec (Token * Z) :=
  let token := MkToken token_next in
  let token_next := (token_next + 1) `mod` u32_modulus in
  if bool_decide (is_Some (used !! token)) then
    match fuel with
    | O => NoFuel
    | S fuel => next_token fuel used token_next
    end
  else Ret (token, token_next).

(** The new connection of [register]: a read lock is taken and dropped at once, which raises
    the first events of the connection. *)
Definition enroll (token : Token) (wrapped : Connection) (now : Instant) (r : Readiness) :
    exec (QuicConn * Readiness * group_result unit) :=
  '(conn, locked) ← try_lock (new token wrapped) LocReadLock;
  match locked with
  | Err e => Ret (conn, r, Err e)
  | Ok context =>
      '(conn, r, _) ← QuicConn.unlock conn (lc_lock_count context) false now r;
      Ret (conn, r, Ok ())
  end.

Definition register (self : Group) (wrapped : Connection) : exec (Group * group_result Token) :=
  '(token, next) ← next_token (size (conns self)) (conns self) (token_next self);
  let self := set_token_next self next in
  let old := scids self !! source_id wrapped in
  let self := set_scids self (<[source_id wrapped := token]> (scids self)) in
  assert (bool_decide (old = None));;
  let '(self, now) := now self in
  '(conn, r, locked) ← enroll token wrapped now (readiness self);
  match locked with
  | Err e => Ret (self, Err e)
  | Ok _ => Ret (set_conn (set_readiness self r) token conn, Ok token)
  end.

(** The two sections of [deregister].  The first holds the state mutex; the second, after the
    mutex was released, holds the lock of [scids]. *)
Definition remove_conn (self : Group) (token : Token) : Group * group_result Connection :=
  match conns self !! token with
  | None => (self, Err NotFound)
  | Some conn => (set_conns self (delete token (conns self)), Ok (into_connection conn))
  end.

Definition forget_scid (self : Group) (scid : ConnectionId) (token : Token) : exec Group :=
  let removed := scids self !! scid in
  let self := set_scids self (delete scid (scids self)) in
  assert (bool_decide (removed = Some token));;
  Ret self.

Definition deregister (self : Group) (token : Token) : exec (Group * group_result Connection) :=
  match remove_conn self token with
  | (self, Err e) => Ret (self, Err e)
  | (self, Ok conn) => self ← forget_scid self (source_id conn) token; Ret (self, Ok conn)
  end.

Definition len (self : Group) : nat := size (conns self).

(** ** Guards *)

(** The macro [lock!]. *)
Definition lock (self : Group) (token : Token) (kind : LocKind) :
    exec (Group * group_result LockContext) :=
  match conns self !! token with
  | None => Ret (self, Err NotFound)
  | Some conn => '(conn, r) ← try_lock conn kind; Ret (set_conn self token conn, r)
  end.

(** A call through a guard: the guard points into the connection of its token. *)
Definition with_guard {A} (self : Group) (ctx : LockContext) (f : Connection → Connection * A) :
    exec (Group * A) :=
  conn ← unwrap (conns self !! lc_token ctx);
  let '(c, a) := f (wrapped conn) in
  Ret (set_conn self (lc_token ctx) (set_wrapped conn c), a).

(** The section of [unlock] under the state mutex; its result says whether the connection
    is closed. *)
Definition unlock_section (self : Group) (ctx : LockContext) : exec (Group * bool) :=
  let self := match unparkers self !! lc_token ctx with
              | Some unparker => unpark (set_unparkers self (delete (lc_token ctx) (unparkers self))) unparker
              | None => self
              end in
  conn ← unwrap (conns self !! lc_token ctx);
  let '(self, now) := now self in
  '(conn, r, closed) ←
    QuicConn.unlock conn (lc_lock_count ctx) (lc_send_done ctx) now (readiness self);
  Ret (set_conn (set_readiness self r) (lc_token ctx) conn, closed).

Definition unlock (self : Group) (ctx : LockContext) : exec Group :=
  '(self, closed) ← unlock_section self ctx;
  if (closed : bool) then '(self, _) ← deregister self (lc_token ctx); Ret self else Ret self.

(** ** Operations on one connection *)

Definition close (self : Group) (token : Token) (app : bool) (err : Z) (reason : list byte) :
    exec (Group * group_result unit) :=
  match conns self !! token with
  | None => Ret (self, Err NotFound)
  | Some conn =>
      let '(self, now) := now self in
      '(conn, r, res) ← QuicConn.close conn app err reason now (readiness self);
      Ret (set_conn (set_readiness self r) token conn, res)
  end.

Definition stream_open (self : Group) (token : Token) (kind : StreamKind) (non_blocking : bool) :
    exec (Group * group_result (option Z)) :=
  match conns self !! token with
  | None => Ret (self, Err NotFound)
  | Some conn =>
      let '(self, now) := now self in
      '(conn, r, res) ← QuicConn.stream_open conn kind non_blocking now (readiness self);
      Ret (set_conn (set_readiness self r) token conn, res)
  end.

Definition stream_shutdown (self : Group) (token : Token) (stream_id err : Z) :
    exec (Group * group_result unit) :=
  match conns self !! token with
  | None => Ret (self, Err NotFound)
  | Some conn =>
      let '(self, now) := now self in
      '(conn, r, res) ← QuicConn.stream_close conn stream_id err now (readiness self);
      Ret (set_conn (set_readiness self r) token conn, res)
  end.

(** [Done] asks the caller to retry; other errors are passed on. *)
Definition retry_on_done {A} (r : result A QError) : group_result A :=
  match r with
  | Ok a => Ok a
  | Err e => if bool_decide (e = QDone) then Err Retry else Err (Quiche e)
  end.

Definition stream_send (self : Group) (token : Token) (stream_id : Z) (buf : list byte) (fin : bool) :
    exec (Group * group_result Z) :=
  '(self, locked) ← lock self token (LocStreamSend stream_id (zlen buf));
  match locked with
  | Err e => Ret (self, Err e)
  | Ok ctx =>
      '(self, r) ← with_guard self ctx (λ c, q_stream_send c stream_id buf fin);
      self ← unlock self ctx;
      Ret (self, retry_on_done r)
  end.

Definition stream_recv (self : Group) (token : Token) (stream_id : Z) (buf : list byte) :
    exec (Group * list byte * group_result (Z * bool)) :=
  '(self, locked) ← lock self token (LocStreamRecv stream_id);
  match locked with
  | Err e => Ret (self, buf, Err e)
  | Ok ctx =>
      '(self, (buf, finished, r)) ← with_guard self ctx (λ c,
         let '(c, buf, r) := q_stream_recv c stream_id buf in
         (c, (buf, stream_finished c stream_id, r)));
      self ← unlock self ctx;
      Ret (self, buf,
           match r with
           | Err e => if bool_decide (e = QDone) && (finished : bool) then Ok (0, true) else retry_on_done r
           | _ => retry_on_done r
           end)
  end.

Definition poll (self : Group) (events : list Event) :
    exec (Group * list Event * option Instant) :=
  let '(self, now) := now self in
  '(r, events, next) ← Readiness.poll (readiness self) events DEFAULT_RELEASE_TIMER_THRESHOLD now;
  Ret (set_readiness self r, events, next).

(** ** Transport *)

(** The section of [recv_with_connection_id] that holds the state mutex: a caller that finds
    the connection locked leaves its unparker behind. *)
Definition recv_lock_at (self : Group) (token : Token) (unparker : option Unparker) :
    exec (Group * group_result (Token * LockContext)) :=
  match conns self !! token with
  | None => Ret (self, Err NotFound)
  | Some conn =>
      '(conn, locked) ← try_lock conn LocRecv;
      let self := set_conn self token conn in
      match locked with
      | Ok ctx => Ret (self, Ok (token, ctx))
      | Err _ =>
          let self := match unparker with
                      | Some u => set_unparkers self (<[token := u]> (unparkers self))
                      | None => self
                      end in
          Ret (self, Err Busy)
      end
  end.

(** Before it the token is read under the lock of [scids]. *)
Definition recv_lock (self : Group) (scid : ConnectionId) (unparker : option Unparker) :
    exec (Group * group_result (Token * LockContext)) :=
  match scids self !! scid with
  | None => Ret (self, Err NotFound)
  | Some token => recv_lock_at self token unparker
  end.

Definition recv_with_connection_id (self : Group) (scid : ConnectionId) (buf : list byte)
    (info : RecvInfo) (unparker : option Unparker) :
    exec (Group * list byte * group_result (Token * Z)) :=
  '(self, locked) ← recv_lock self scid unparker;
  match locked with
  | Err e => Ret (self, buf, Err e)
  | Ok (token, ctx) =>
      '(self, (buf, r)) ← with_guard self ctx (λ c,
         let '(c, buf, r) := q_recv c buf info in (c, (buf, r)));
      self ← unlock self ctx;
      Ret (self, buf, match r with Ok n => Ok (token, n) | Err e => Err (Quiche e) end)
  end.

Definition recv (self : Group) (buf : list byte) (info : RecvInfo) :
    exec (Group * list byte * group_result Z) :=
  let '(buf, header) := header_from_slice buf in
  match header with
  | Err e => Ret (self, buf, Err (Quiche e))
  | Ok header =>
      '(self, buf, r) ← recv_with_connection_id self (hdr_dcid header) buf info None;
      Ret (self, buf, map_ok snd r)
  end.

Definition send (self : Group) (token : Token) (buf : list byte) :
    exec (Group * list byte * group_result (Z * SendInfo)) :=
  '(self, locked) ← lock self token LocRecv;
  match locked with
  | Err e => Ret (self, buf, Err e)
  | Ok ctx =>
      let '(self, now) := now self in
      '(self, (buf, r)) ← with_guard self ctx (λ c,
         match release_time c now DEFAULT_RELEASE_TIMER_THRESHOLD with
         | Some _ => (c, (buf, None))
         | None => let '(c, buf, r) := q_send (q_on_timeout c) buf in (c, (buf, Some r))
         end);
      let send_done := match r with Some (Err e) => bool_decide (e = QDone) | _ => false end in
      self ← unlock self (MkLockContext (lc_token ctx) (lc_lock_count ctx) send_done);
      Ret (self, buf, match r with None => Err Retry | Some r => retry_on_done r end)
  end.

(** The answer when there is nothing to send back. *)
Definition no_reply (self : Group) (buf : list byte) (recv_info : RecvInfo) (n : Z) :
    Group * list byte * group_result (Z * SendInfo) :=
  let '(self, at_) := now self in
  (self, buf, Ok (n, MkSendInfo (recv_to recv_info) (recv_from recv_info) at_)).

(** [send], where [Busy] and [Retry] are not errors. *)
Definition send_reply (self : Group) (token : Token) (buf : list byte) (recv_info : RecvInfo) :
    exec (Group * list byte * group_result (Z * SendInfo)) :=
  '(self, buf, r) ← send self token buf;
  match r with
  | Err Busy | Err Retry => Ret (no_reply self buf recv_info 0)
  | r => Ret (self, buf, r)
  end.

(** The arm of [recv_with_acceptor] that registers an accepted connection and hands it its
    first datagram, the first [recv_size] bytes of [buf]. *)
Definition accept_datagram (self : Group) (conn : Connection) (dcid : ConnectionId)
    (buf : list byte) (recv_size : Z) (recv_info : RecvInfo) :
    exec (Group * list byte * group_result (Z * SendInfo)) :=
  '(self, registered) ← register self conn;
  match registered with
  | Err e => Ret (self, buf, Err e)
  | Ok token =>
      datagram ← slice buf 0 recv_size;
      '(self, datagram, r) ← recv_with_connection_id self dcid datagram recv_info None;
      let buf := datagram ++ drop (Z.to_nat recv_size) buf in
      match r with
      | Ok _ => send_reply self token buf recv_info
      | Err Busy | Err Retry => Panic
      | Err err => Ret (self, buf, Err err)
      end
  end.

(** [rand_bytes] and [sys_now] are the random source and the wall clock of the handshake. *)
Definition recv_with_acceptor (self : Group) (acceptor : Acceptor) (buf : list byte)
    (recv_size : Z) (recv_info : RecvInfo) (unparker : option Unparker)
    (rand_bytes : nat → list byte) (sys_now : Z) :
    exec (Group * Acceptor * list byte * group_result (Z * SendInfo)) :=
  datagram ← slice buf 0 recv_size;
  let tail (b : list byte) := drop (Z.to_nat recv_size) b in
  let '(datagram, header) := header_from_slice datagram in
  let buf := datagram ++ tail buf in
  match header with
  | Err e => Ret (self, acceptor, buf, Err (Quiche e))
  | Ok header =>
      '(self, datagram, r) ←
        recv_with_connection_id self (hdr_dcid header) datagram recv_info unparker;
      let buf := datagram ++ tail buf in
      match r with
      | Ok (token, _) =>
          '(self, buf, r) ← send_reply self token buf recv_info;
          Ret (self, acceptor, buf, r)
      | Err NotFound =>
          '(acceptor, buf, h) ← handshake acceptor header buf recv_info rand_bytes sys_now;
          match h with
          | Ok (HandshakeAccept conn) =>
              '(self, buf, r) ← accept_datagram self conn (hdr_dcid header) buf recv_size recv_info;
              Ret (self, acceptor, buf, r)
          | Ok (HandshakeReply send_size) =>
              let '(self, buf, r) := no_reply self buf recv_info send_size in
              Ret (self, acceptor, buf, r)
          | Err err => Ret (self, acceptor, buf, Err err)
          end
      | Err err => Ret (self, acceptor, buf, Err err)
      end
  end.

Definition connect (self : Group) (config : Config) (server_name : option string)
    (local peer : SocketAddr) (rand_bytes : nat → list byte) :
    exec (Group * Config * group_result Token) :=
  match q_connect config server_name (random_conn_id rand_bytes) local peer with
  | (config, Err e) => Ret (self, config, Err (Quiche e))
  | (config, Ok conn) =>
      '(self, r) ← register self conn;
      Ret (self, config, r)
  end.
End model.
End Group.
