(* ===== verification/GroupSafety.v ===== *)
(** The group under concurrent callers: its methods are interleaved at the granularity of
    the sections that hold the state mutex, with guards that stay alive in between. *)
From stdpp Require Import functions.
From S2P Require Import Prelude Api EventQueue QuicheApi QuicheReference Utils Connection ConnFacts.
From S2P Require Import ConnLock Acceptor Group.
Import QuicConn Session Group.

Module GroupSafety.

Section model.
Context `{QuicheEndpoint} `{!PriorityQueue Event} `{HashIter} `{OverflowChecks}.
Context {Unparker : Type} (clock : nat → Instant).
Abbreviation Group := (@Group _ _ Unparker).

(** A group, the guards that are alive, by connection, and the connections that are leaving:
    those on which [deregister] is between its two sections, by source id. *)
Record world := MkWorld {
  w_group : Group;
  w_guards : Token → list guard;
  w_leaving : gmap ConnectionId Token;
}.

Definition init : world := MkWorld new_group (λ _, []) ∅.

(** The sections of the methods.  [AUnlock] is the section of [Group::unlock];
    [ARemove] and [AForget] are those of [deregister], called by a user or by [Group::unlock]
    after its section found the connection closed.  [ARecvLock] is the section of
    [recv_with_connection_id] under the state mutex; its token was looked up at some earlier
    time, and may be any. *)
Inductive action :=
| ARegister (c : Connection)
| ARemove (t : Token)
| AForget (scid : ConnectionId)
| ALock (t : Token) (kind : LocKind)
| ARecvLock (t : Token) (u : option Unparker)
| AUse (t : Token) (i : nat) (f : Connection → Connection)
| ASendDone (t : Token) (i : nat)
| AUnlock (t : Token) (i : nat)
| AClose (t : Token) (app : bool) (err : Z) (reason : list byte)
| AOpen (t : Token) (kind : StreamKind) (non_blocking : bool)
| AShutdown (t : Token) (id err : Z)
| APoll.

Definition act (w : world) (a : action) : exec world :=
  let '(MkWorld self gs lv) := w in
  match a with
  | ARegister c => '(self, _) ← register clock self c; Ret (MkWorld self gs lv)
  | ARemove t =>
      match remove_conn self t with
      | (self, Ok c) => Ret (MkWorld self gs (<[source_id c := t]> lv))
      | (self, Err _) => Ret (MkWorld self gs lv)
      end
  | AForget scid =>
      match lv !! scid with
      | Some t => self ← forget_scid self scid t; Ret (MkWorld self gs (delete scid lv))
      | None => Ret w
      end
  | ALock t kind =>
      '(self, r) ← lock self t kind;
      Ret (MkWorld self (match r with Ok ctx => <[t := gs t ++ [MkGuard kind ctx]]> gs | Err _ => gs end) lv)
  | ARecvLock t u =>
      '(self, r) ← recv_lock_at self t u;
      Ret (MkWorld self
        (match r with Ok (t, ctx) => <[t := gs t ++ [MkGuard LocRecv ctx]]> gs | Err _ => gs end) lv)
  | AUse t i f =>
      match gs t !! i with
      | Some g => '(self, _) ← with_guard self (g_lock g) (λ c, (f c, ())); Ret (MkWorld self gs lv)
      | None => Ret w
      end
  | ASendDone t i => Ret (MkWorld self (<[t := alter send_done i (gs t)]> gs) lv)
  | AUnlock t i =>
      match gs t !! i with
      | Some g => '(self, _) ← unlock_section clock self (g_lock g);
                  Ret (MkWorld self (<[t := delete i (gs t)]> gs) lv)
      | None => Ret w
      end
  | AClose t app err reason => '(self, _) ← close clock self t app err reason; Ret (MkWorld self gs lv)
  | AOpen t kind nb => '(self, _) ← stream_open clock self t kind nb; Ret (MkWorld self gs lv)
  | AShutdown t id err => '(self, _) ← stream_shutdown clock self t id err; Ret (MkWorld self gs lv)
  | APoll => '(self, _, _) ← poll clock self []; Ret (MkWorld self gs lv)
  end.

(** What callers must respect: a registered connection has a new source id; a connection is
    deregistered when no guard of it is alive; guards are used to call quiche. *)
Definition allowed (w : world) (a : action) : Prop :=
  match a with
  | ARegister c => scids (w_group w) !! source_id c = None
  | ARemove t => w_guards w t = []
  | ALock t kind => kind ≠ LocNone
  | AUse t i f => ∀ c, conn_step c (f c)
  | _ => True
  end.

(** States after [n] sections. *)
Inductive reachable : nat → world → Prop :=
| reachable_init : reachable 0 init
| reachable_step n w a w' :
    reachable n w → allowed w a → act w a = Ret w' → reachable (S n) w'.
End model.

Section safety.
Context `{QuicheEndpoint} `{!QuicheLaws} `{!PriorityQueue Event} `{!PriorityQueueLaws Event} `{HashIter} `{OverflowChecks}.
Context {Unparker : Type} (clock : nat → Instant).
Abbreviation Group := (@Group _ _ Unparker).
Abbreviation World := (@world _ _ Unparker).
Implicit Types (self : Group) (gs : Token → list guard) (lv : gmap ConnectionId Token) (conn : QuicConn).

(** The two tables are inverse to each other, but for the connections that are leaving. *)
Definition registry_ok self lv : Prop :=
  (∀ t conn, conns self !! t = Some conn →
     token conn = t ∧ scids self !! source_id (wrapped conn) = Some t) ∧
  (∀ scid t, scids self !! scid = Some t →
     (∃ conn, conns self !! t = Some conn ∧ source_id (wrapped conn) = scid) ∨ lv !! scid = Some t) ∧
  (∀ scid t, lv !! scid = Some t → scids self !! scid = Some t ∧
     ∀ t' conn, conns self !! t' = Some conn → source_id (wrapped conn) ≠ scid).

(** A connection with the guards [l], after at most [n] sections. *)
Definition conn_ok (n : Z) conn (l : list guard) : Prop :=
  lock_inv conn l ∧ counters_ok conn l (2 * n) ∧ ∀ k, local_next conn k ≤ 3 + 4 * n.

Definition world_ok (n : Z) self gs lv : Prop :=
  registry_ok self lv ∧
  (∀ t conn, conns self !! t = Some conn → conn_ok n conn (gs t)) ∧
  (∀ t, conns self !! t = None → gs t = []) ∧
  (∀ t u, unparkers self !! t = Some u → gs t ≠ []) ∧
  (0 ≤ token_next self < u32_modulus) ∧ Z.of_nat (size (conns self)) ≤ n.

Lemma conn_ok_mono n m conn l : conn_ok n conn l → n ≤ m → conn_ok m conn l.
Proof.
  intros (Hinv&Hcnt&Hids) Hm. split_and!; [done|unfold counters_ok in *; lia|].
  intros k. specialize (Hids k). lia.
Qed.

(** A section that works on the connection [t] only. *)
Lemma world_update n self gs lv t conn self' conn' gs' :
  world_ok n self gs lv → conns self !! t = Some conn →
  conns self' = <[t := conn']> (conns self) → scids self' = scids self →
  token_next self' = token_next self →
  (∀ t', t' ≠ t → unparkers self' !! t' = unparkers self !! t' ∧ gs' t' = gs t') →
  (∀ u, unparkers self' !! t = Some u → gs' t ≠ []) →
  tracks conn conn' → conn_ok (n + 1) conn' (gs' t) →
  world_ok (n + 1) self' gs' lv.
Proof.
  intros ((Hreg1&Hreg2&Hreg3)&Hconns&Hnone&Hunp&Htn&Hsize) Ht Hc Hs Hn Hother Hpark [Htok Hsteps] Hok.
  destruct (Hreg1 t conn Ht) as [Htc Hsc].
  split_and!; rewrite ?Hn; try lia.
  - split_and!; rewrite Hc, Hs.
    + intros t' c' [[<- <-]|[Hne Ht']]%lookup_insert_Some; [|by apply Hreg1].
      by rewrite Htok, (steps_source_id _ _ Hsteps).
    + intros scid t' Hsc'. destruct (Hreg2 scid t' Hsc') as [(c'&Hc'&<-)|?]; [left|by right].
      destruct (decide (t = t')) as [->|Hne].
      * exists conn'. rewrite lookup_insert_eq. split; [done|]. simplify_eq. by apply steps_source_id.
      * exists c'. by rewrite lookup_insert_ne.
    + intros scid t' Hlv. destruct (Hreg3 scid t' Hlv) as [? Hother3]. split; [done|].
      intros t2 c2 [[<- <-]|[Hne Ht2]]%lookup_insert_Some; [|by eapply Hother3].
      rewrite (steps_source_id _ _ Hsteps). by eapply Hother3.
  - rewrite Hc. intros t' c' [[<- <-]|[Hne Ht']]%lookup_insert_Some; [done|].
    destruct (Hother t') as [_ ->]; [done|]. eapply conn_ok_mono; [by apply Hconns|lia].
  - intros t' Ht'. rewrite Hc in Ht'. apply lookup_insert_None in Ht' as [Ht' Hne].
    destruct (Hother t') as [_ ->]; [done|]. by apply Hnone.
  - intros t' u Hu. destruct (decide (t' = t)) as [->|Hne]; [by eapply Hpark|].
    destruct (Hother t') as [Heq ->]; [done|]. rewrite Heq in Hu. by eapply Hunp.
  - rewrite Hc, map_size_insert, Ht. simpl. lia.
Qed.

(** A section that leaves the tables alone. *)
Lemma world_idle n self gs lv self' :
  world_ok n self gs lv → conns self' = conns self → scids self' = scids self →
  token_next self' = token_next self → unparkers self' = unparkers self →
  world_ok (n + 1) self' gs lv.
Proof.
  intros (Hreg&Hconns&Hnone&Hunp&Htn&Hsize) Hc Hs Hn Hu. unfold world_ok, registry_ok.
  rewrite Hc, Hs, Hn, Hu. split_and!; try done; try apply Hreg; try apply Htn; [|lia].
  intros t conn Ht. eapply conn_ok_mono; [by apply Hconns|lia].
Qed.

(** ** Registration *)

Lemma next_token_busy fuel used start :
  0 ≤ start < u32_modulus → next_token fuel used start = NoFuel →
  ∀ i : nat, (i ≤ fuel)%nat →
    is_Some (used !! MkToken ((start + Z.of_nat i) `mod` u32_modulus)).
Proof.
  revert start. induction fuel as [|fuel IH]; intros start Hstart; simpl;
    case_bool_decide as Hused; try done; intros Hno i Hi.
  - replace i with 0%nat by lia. by rewrite Z.add_0_r, Z.mod_small.
  - destruct i as [|i]; [by rewrite Z.add_0_r, Z.mod_small|].
    specialize (IH ((start + 1) `mod` u32_modulus) ltac:(by apply Z.mod_pos_bound) Hno i ltac:(lia)).
    rewrite Z.add_mod_idemp_l in IH by done.
    by replace (start + Z.of_nat (S i)) with (start + 1 + Z.of_nat i) by lia.
Qed.

Lemma next_token_spec used start :
  0 ≤ start < u32_modulus → Z.of_nat (size used) < u32_modulus →
  next_token (size used) used start ⇓ λ '(t, next),
    used !! t = None ∧ 0 ≤ token_id t < u32_modulus ∧ 0 ≤ next < u32_modulus.
Proof.
  intros Hstart Hsize.
  assert (∀ fuel start, 0 ≤ start < u32_modulus → next_token fuel used start ≠ NoFuel →
    next_token fuel used start ⇓ λ '(t, next),
      used !! t = None ∧ 0 ≤ token_id t < u32_modulus ∧ 0 ≤ next < u32_modulus) as Hret.
  { clear start Hstart. induction fuel as [|fuel IH]; intros start Hstart; simpl;
      case_bool_decide as Hused; try done.
    2: apply IH; by apply Z.mod_pos_bound.
    all: intros _; simpl; rewrite <-eq_None_not_Some in Hused; split_and!; try done; try lia;
      by apply Z.mod_pos_bound. }
  apply Hret; [done|]. intros Hno.
  pose proof (next_token_busy _ _ _ Hstart Hno) as Hbusy.
  set (tokens := (λ i : nat, MkToken ((start + Z.of_nat i) `mod` u32_modulus)) <$> seq 0 (S (size used))).
  assert (NoDup tokens) as Hnd.
  { apply NoDup_fmap_2_strong; [|apply NoDup_seq].
    intros i j Hi%elem_of_seq Hj%elem_of_seq [= Heq].
    apply (f_equal (λ x, (x - start) `mod` u32_modulus)) in Heq.
    rewrite !Zminus_mod_idemp_l in Heq.
    replace (start + Z.of_nat i - start) with (Z.of_nat i) in Heq by lia.
    replace (start + Z.of_nat j - start) with (Z.of_nat j) in Heq by lia.
    rewrite !Z.mod_small in Heq by lia. lia. }
  assert (length tokens ≤ size (dom used))%nat as Hle.
  { rewrite <-(size_list_to_set (C := gset Token) tokens) by done. apply subseteq_size.
    intros t. rewrite elem_of_list_to_set, elem_of_dom. unfold tokens.
    intros (i&->&Hi%elem_of_seq)%list_elem_of_fmap. apply Hbusy. lia. }
  unfold tokens in Hle. rewrite length_fmap, length_seq, size_dom in Hle. lia.
Qed.

(** Adding a connection under a new token and a new source id. *)
Lemma world_insert n self gs lv t conn self' :
  world_ok n self gs lv → conns self !! t = None → scids self !! source_id (wrapped conn) = None →
  token conn = t → conn_ok (n + 1) conn [] →
  conns self' = <[t := conn]> (conns self) →
  scids self' = <[source_id (wrapped conn) := t]> (scids self) →
  unparkers self' = unparkers self → 0 ≤ token_next self' < u32_modulus →
  world_ok (n + 1) self' gs lv.
Proof.
  intros ((Hreg1&Hreg2&Hreg3)&Hconns&Hnone&Hunp&_&Hsize) Ht Hsc Htok Hok Hc Hs Hu Htn.
  split_and!; try lia.
  - split_and!; rewrite Hc, Hs.
    + intros t' c' [[<- <-]|[Hne Ht']]%lookup_insert_Some; [by rewrite lookup_insert_eq|].
      destruct (Hreg1 t' c' Ht') as [Heq Hs']. split; [done|].
      rewrite lookup_insert_ne; [done|]. intros Heq'. rewrite Heq' in Hsc. congruence.
    + intros scid t' [[<- <-]|[Hne Hs']]%lookup_insert_Some; [left; exists conn; by rewrite lookup_insert_eq|].
      destruct (Hreg2 scid t' Hs') as [(c'&Hc'&?)|?]; [left|by right]. exists c'. split; [|done].
      rewrite lookup_insert_ne; [done|]. intros ->. congruence.
    + intros scid t' Hlv. destruct (Hreg3 scid t' Hlv) as [Hs' Hother]. split.
      * rewrite lookup_insert_ne; [done|]. intros <-. congruence.
      * intros t2 c2 [[<- <-]|[Hne Ht2]]%lookup_insert_Some; [congruence|by eapply Hother].
  - rewrite Hc. intros t' c' [[<- <-]|[Hne Ht']]%lookup_insert_Some; [by rewrite (Hnone t Ht)|].
    eapply conn_ok_mono; [by apply Hconns|lia].
  - rewrite Hc. intros t' [? _]%lookup_insert_None. by apply Hnone.
  - by rewrite Hu.
  - rewrite Hc, map_size_insert, Ht. lia.
Qed.

(** What [register] does to a group. *)
Record registered self (c : Connection) self' (t : Token) : Prop := Registered {
  rg_fresh : conns self !! t = None;
  rg_range : 0 ≤ token_id t < u32_modulus;
  rg_scids : scids self' = <[source_id c := t]> (scids self);
  rg_conns : ∃ conn, conns self' = <[t := conn]> (conns self) ∧ conn_steps c (wrapped conn) ∧
    locker conn = LocNone;
  rg_unparkers : unparkers self' = unparkers self;
}.

Lemma enroll_spec t (c : Connection) now r :
  enroll t c now r ⇓ λ '(conn, r', res),
    res = Ok () ∧ conn_ok 1 conn [] ∧ token conn = t ∧ conn_steps c (wrapped conn).
Proof.
  unfold enroll. wp_step.
  assert (lock_inv (new t c) []) as Hinv0 by by apply lock_inv_idle.
  eapply wp_mono; [apply (try_lock_spec _ [] _ 0 Hinv0); [by split_and!|done|done]|].
  intros [conn1 [ctx|e]] (Htr1&Hlc1&Hw1&Hnx1&Hres); [|by destruct Hres as (_&[]&_)].
  destruct Hres as (_&_&_&_&Hinv1). wp_step.
  eapply wp_mono; [apply (drop_spec conn1 [MkGuard LocReadLock ctx] 0 (MkGuard LocReadLock ctx) _ _ _ 1 Hinv1);
    [unfold counters_ok; rewrite Hlc1; simpl; lia|done|done]|].
  intros [[conn2 r2] closed] (Hinv2&Hcnt2&Htr2&Hnx2&_). simpl in *.
  assert (tracks (new t c) conn2) as [Htok Hsteps] by by etrans.
  split_and!; [done|split_and!; [done|done|]|done|done].
  intros k'. rewrite Hnx2, Hnx1. unfold new. destruct (is_server c), k'; simpl; lia.
Qed.
#[local] Opaque enroll.

Lemma register_spec n self gs lv (c : Connection) :
  world_ok n self gs lv → n + 1 < u32_modulus → scids self !! source_id c = None →
  register clock self c ⇓ λ '(self', r),
    world_ok (n + 1) self' gs lv ∧ ∃ t, r = Ok t ∧ registered self c self' t.
Proof.
  intros Hok Hn Hsc. pose proof Hok as (_&_&_&_&Htn&Hsize). unfold register, u32_modulus in *.
  wp_step. eapply wp_mono; [apply next_token_spec; [done|unfold u32_modulus; lia]|].
  intros [t next] (Hfresh&Hrange&Hnext).
  destruct self as [tn cs r up sc unp k]; simpl in *. rewrite Hsc. simpl. wp_step.
  eapply wp_mono; [apply enroll_spec|]. intros [[conn r2] res] (->&Hok2&Htok&Hsteps). simpl.
  assert (source_id (wrapped conn) = source_id c) as Hsid by by apply steps_source_id in Hsteps.
  split; [|exists t; split; [done|]].
  - eapply (world_insert n _ gs lv t conn); simpl; try done; rewrite ?Hsid; try done.
    eapply conn_ok_mono; [done|lia].
  - split; simpl; try done. exists conn. split_and!; [done|done|]. by apply Hok2.
Qed.

(** ** Deregistration *)

Lemma remove_conn_spec n self gs lv t :
  world_ok n self gs lv → gs t = [] →
  match remove_conn self t with
  | (self', Ok c) => lv !! source_id c = None ∧ world_ok (n + 1) self' gs (<[source_id c := t]> lv)
  | (self', Err e) => e = NotFound ∧ self' = self ∧ conns self !! t = None
  end.
Proof.
  intros ((Hreg1&Hreg2&Hreg3)&Hconns&Hnone&Hunp&Htn&Hsize) Hgs. unfold remove_conn, into_connection.
  destruct (conns self !! t) as [conn|] eqn:Ht; [|done]. destruct (Hreg1 t conn Ht) as [Htok Hsc].
  split.
  { apply eq_None_not_Some. intros [t' Hlv]. by destruct (Hreg3 _ _ Hlv) as [_ Hne]; eapply Hne. }
  destruct self as [tn cs r up sc unp k]; simpl in *. split_and!; simpl; try done; try lia.
  - split_and!; simpl.
    + intros t' c' [_ Ht']%lookup_delete_Some. by apply Hreg1.
    + intros scid t' Hs'. destruct (Hreg2 scid t' Hs') as [(c'&Hc'&<-)|Hlv].
      * destruct (decide (t = t')) as [<-|Hne]; [right; simplify_eq; by rewrite lookup_insert_eq|].
        left. exists c'. by rewrite lookup_delete_ne.
      * right. destruct (decide (source_id (wrapped conn) = scid)) as [<-|Hne]; [|by rewrite lookup_insert_ne].
        rewrite lookup_insert_eq. congruence.
    + intros scid t' [[<- <-]|[Hne Hlv]]%lookup_insert_Some.
      * split; [done|]. intros t2 c2 [Hne Ht2]%lookup_delete_Some Heq.
        destruct (Hreg1 t2 c2 Ht2) as [_ Hs2]. rewrite Heq in Hs2. congruence.
      * destruct (Hreg3 scid t' Hlv) as [? Hother]. split; [done|].
        intros t2 c2 [_ Ht2]%lookup_delete_Some. by eapply Hother.
  - intros t' c' [_ Ht']%lookup_delete_Some. eapply conn_ok_mono; [by apply Hconns|lia].
  - intros t' [<-|Ht']%lookup_delete_None; [done|by apply Hnone].
  - rewrite map_size_delete, Ht. lia.
Qed.

Lemma forget_scid_spec n self gs lv scid t :
  world_ok n self gs lv → lv !! scid = Some t →
  forget_scid self scid t ⇓ λ self', world_ok n self' gs (delete scid lv) ∧
    conns self' = conns self ∧ unparkers self' = unparkers self.
Proof.
  intros ((Hreg1&Hreg2&Hreg3)&Hconns&Hnone&Hunp&Htn&Hsize) Hlv.
  destruct (Hreg3 scid t Hlv) as [Hsc Hleft]. unfold forget_scid.
  destruct self as [tn cs r up sc unp k]; simpl in *. rewrite Hsc, bool_decide_true by done. simpl.
  split; [|done]. split_and!; simpl; try done; try lia. split_and!; simpl.
  - intros t' c' Ht'. destruct (Hreg1 t' c' Ht') as [? Hs']. split; [done|].
    rewrite lookup_delete_ne; [done|]. intros Heq. by eapply Hleft.
  - intros scid' t' [Hne Hs']%lookup_delete_Some. destruct (Hreg2 scid' t' Hs') as [?|?]; [by left|right].
    by rewrite lookup_delete_ne.
  - intros scid' t' [Hne Hl']%lookup_delete_Some. destruct (Hreg3 scid' t' Hl') as [? ?]. split; [|done].
    by rewrite lookup_delete_ne.
Qed.

(** Both sections, when nothing happens in between. *)
Lemma deregister_spec n self gs lv t :
  world_ok n self gs lv → gs t = [] →
  deregister self t ⇓ λ '(self', r), world_ok (n + 1) self' gs lv.
Proof.
  intros Hok Hgs. pose proof (remove_conn_spec n self gs lv t Hok Hgs) as Hrm. unfold deregister.
  destruct (remove_conn self t) as [self1 [c|e]].
  - destruct Hrm as [Hlv Hok1]. wp_step.
    eapply wp_mono; [apply (forget_scid_spec _ _ _ _ (source_id c) t Hok1); by rewrite lookup_insert_eq|].
    intros self2 (Hok2&_). simpl. by rewrite delete_insert_id in Hok2.
  - destruct Hrm as (->&->&_). by eapply world_idle.
Qed.

(** ** Guards *)

(** The guards after a request for [kind] was answered with [r]. *)
Definition granted gs (t : Token) (kind : LocKind) (r : result LockContext (Error QError)) :
    Token → list guard :=
  match r with Ok ctx => <[t := gs t ++ [MkGuard kind ctx]]> gs | Err _ => gs end.

Lemma granted_other gs t kind r t' : t' ≠ t → granted gs t kind r t' = gs t'.
Proof. intros. destruct r; [by apply fn_lookup_insert_ne|done]. Qed.

Lemma try_lock_ok n conn l kind :
  conn_ok n conn l → 0 ≤ n → 2 * n + 2 < u64_modulus → kind ≠ LocNone →
  try_lock conn kind ⇓ λ '(conn', r), tracks conn conn' ∧
    conn_ok (n + 1) conn' (match r with Ok ctx => l ++ [MkGuard kind ctx] | Err _ => l end) ∧
    (∀ e, r = Err e → e = Busy ∧ l ≠ []) ∧
    (∀ ctx, r = Ok ctx → lc_token ctx = token conn).
Proof.
  intros (Hinv&Hcnt&Hids) Hn0 Hn Hk.
  eapply wp_mono; [apply (try_lock_spec _ _ _ _ Hinv Hcnt); [lia|done]|].
  intros [conn' r] (Htr&Hlc&_&Hnx&Hres).
  assert (∀ k, local_next conn' k ≤ 3 + 4 * (n + 1)) as Hids'.
  { intros k. rewrite Hnx. specialize (Hids k). lia. }
  destruct r as [ctx|e]; (split_and!; [done|split_and!; [|unfold counters_ok in *; rewrite Hlc|done]| |]).
  - apply Hres.
  - rewrite length_app. simpl. lia.
  - done.
  - by destruct Hres as (_&_&_&->&_); intros ? [= <-].
  - apply Hres.
  - lia.
  - intros e' [= <-]. destruct Hres as (->&Hl&_). split; [done|]. destruct Hinv as (_&_&Hfree&_).
    by rewrite <-Hfree.
  - done.
Qed.

Lemma lock_spec n self gs lv t kind :
  world_ok n self gs lv → 0 ≤ n → 2 * n + 2 < u64_modulus → kind ≠ LocNone →
  lock self t kind ⇓ λ '(self', r), world_ok (n + 1) self' (granted gs t kind r) lv ∧
    (∀ e, r = Err e → e = NotFound ∧ conns self !! t = None ∨ e = Busy ∧ gs t ≠ []) ∧
    (∀ ctx, r = Ok ctx → lc_token ctx = t).
Proof.
  intros Hok Hn0 Hn Hk. pose proof Hok as ((Hreg1&_)&Hconns&_&Hunp&_&_). unfold lock.
  destruct (conns self !! t) as [conn|] eqn:Ht.
  2: { simpl. split_and!; [by eapply world_idle|naive_solver|done]. }
  wp_step. eapply wp_mono; [apply (try_lock_ok n _ (gs t)); auto|].
  intros [conn' r] (Htr&Hok'&Herr&Hctx). simpl. destruct (Hreg1 t conn Ht) as [Htok _].
  split_and!; [|naive_solver|intros ctx Hr; rewrite (Hctx ctx Hr); done].
  eapply (world_update n self gs lv t conn _ conn'); try done; try by destruct self.
  - intros t' Hne. split; [by destruct self|by apply granted_other].
  - intros u Hu. assert (unparkers self !! t = Some u) as Hu' by by destruct self.
    specialize (Hunp t u Hu'). destruct r; simpl; [|done]. rewrite fn_lookup_insert. by destruct (gs t).
  - destruct r; simpl; [by rewrite fn_lookup_insert|done].
Qed.

Lemma recv_lock_at_spec n self gs lv t u :
  world_ok n self gs lv → 0 ≤ n → 2 * n + 2 < u64_modulus →
  recv_lock_at self t u ⇓ λ '(self', r),
    match r with
    | Ok (t', ctx) => world_ok (n + 1) self' (<[t := gs t ++ [MkGuard LocRecv ctx]]> gs) lv ∧
        t' = t ∧ lc_token ctx = t
    | Err e => world_ok (n + 1) self' gs lv ∧
        (e = NotFound ∧ conns self !! t = None ∨
         e = Busy ∧ gs t ≠ [] ∧ ∀ x, u = Some x → unparkers self' !! t = Some x)
    end.
Proof.
  intros Hok Hn0 Hn. pose proof Hok as ((Hreg1&Hreg2&_)&Hconns&_&Hunp&_&_). unfold recv_lock_at.
  destruct (conns self !! t) as [conn|] eqn:Ht; [|simpl; split; [by eapply world_idle|by left]].
  wp_step. eapply wp_mono; [apply (try_lock_ok n _ (gs t)); auto|].
  intros [conn' r] (Htr&Hok'&Herr&Hctx). destruct (Hreg1 t conn Ht) as [Htok _].
  destruct r as [ctx|e]; simpl.
  - split_and!; [|done|rewrite (Hctx ctx eq_refl); done].
    eapply (world_update n self gs lv t conn _ conn'); try done; try by destruct self.
    + intros t' Hne. split; [by destruct self|by apply fn_lookup_insert_ne].
    + intros _ _. rewrite fn_lookup_insert. by destruct (gs t).
    + by rewrite fn_lookup_insert.
  - destruct (Herr e eq_refl) as [_ Hbusy]. split.
    + eapply (world_update n self gs lv t conn _ conn'); try done; try (by destruct self, u).
      intros t' Hne. split; [|done]. destruct u, self; simpl; [by rewrite lookup_insert_ne|done].
    + right. split_and!; [done|done|]. intros x ->. destruct self; simpl. apply lookup_insert_eq.
Qed.

(** Both sections, when nothing happens in between. *)
Lemma recv_lock_spec n self gs lv scid u :
  world_ok n self gs lv → 0 ≤ n → 2 * n + 2 < u64_modulus →
  recv_lock self scid u ⇓ λ '(self', r),
    match r with
    | Ok (t, ctx) => world_ok (n + 1) self' (<[t := gs t ++ [MkGuard LocRecv ctx]]> gs) lv ∧
        scids self !! scid = Some t ∧ lc_token ctx = t
    | Err e => world_ok (n + 1) self' gs lv ∧
        (e = NotFound ∧ (scids self !! scid = None ∨ is_Some (lv !! scid)) ∨
         e = Busy ∧ ∃ t, scids self !! scid = Some t ∧ gs t ≠ [])
    end.
Proof.
  intros Hok Hn0 Hn. pose proof Hok as ((_&Hreg2&_)&_). unfold recv_lock.
  destruct (scids self !! scid) as [t|] eqn:Hsc; [|simpl; split; [by eapply world_idle|by auto]].
  eapply wp_mono; [by apply (recv_lock_at_spec n self gs lv)|].
  intros [self' [[t' ctx]|e]]; [by intros (?&->&?)|].
  intros [Hok' [[-> Hnone]|(->&?&_)]]; (split; [done|]); [left|right; eauto].
  split; [done|right]. destruct (Hreg2 scid t Hsc) as [(conn&Hconn&_)|?]; [congruence|eauto].
Qed.

Lemma with_guard_spec {A} n self gs lv ctx (f : Connection → Connection * A) i :
  world_ok n self gs lv → is_Some (gs (lc_token ctx) !! i) → (∀ c, conn_steps c (f c).1) →
  with_guard self ctx f ⇓ λ '(self', a), world_ok (n + 1) self' gs lv ∧
    ∃ conn, conns self !! lc_token ctx = Some conn ∧ a = (f (wrapped conn)).2.
Proof.
  intros Hok [g Hi] Hf. pose proof Hok as ((Hreg1&_)&Hconns&Hnone&Hunp&_&_). unfold with_guard.
  destruct (conns self !! lc_token ctx) as [conn|] eqn:Ht; [|by rewrite Hnone in Hi].
  simpl. specialize (Hf (wrapped conn)). destruct (f (wrapped conn)) as [c a] eqn:Hfc. simpl in *.
  split; [|exists conn; split; [done|by rewrite Hfc]].
  destruct (Hconns _ _ Ht) as (Hinv&Hcnt&Hids).
  eapply (world_update n self gs lv _ conn _ (set_wrapped conn c)); try done; try by destruct self.
  - intros u Hu. apply (Hunp _ u). by destruct self.
  - by apply frame_tracks, frame_wrapped.
  - split_and!.
    + apply (lock_inv_frame conn); [by destruct conn..| |done]. destruct conn. apply Hinv.
    + unfold counters_ok in *. destruct conn; simpl in *. lia.
    + intros k. specialize (Hids k). destruct conn, k; simpl in *; lia.
Qed.

Lemma unlock_section_spec n self gs lv t i g ctx :
  world_ok n self gs lv → 0 ≤ n → 2 * n + 2 < u64_modulus → gs t !! i = Some g →
  lc_token ctx = t → lc_lock_count ctx = lc_lock_count (g_lock g) →
  unlock_section clock self ctx ⇓ λ '(self', closed),
    world_ok (n + 1) self' (<[t := delete i (gs t)]> gs) lv ∧
    unparkers self' = delete t (unparkers self) ∧
    unparked self' = unparked self ++ option_list (unparkers self !! t).
Proof.
  intros Hok Hn0 Hn Hi Htc Hlc. pose proof Hok as ((Hreg1&_)&Hconns&Hnone&Hunp&_&_).
  destruct (conns self !! t) as [conn|] eqn:Ht; [|by rewrite Hnone in Hi].
  destruct (Hconns t conn Ht) as (Hinv&Hcnt&Hids). unfold unlock_section. rewrite Htc, Hlc.
  set (self1 := match unparkers self !! t with Some _ => _ | None => self end).
  assert (conns self1 = conns self ∧ scids self1 = scids self ∧ token_next self1 = token_next self ∧
    unparkers self1 = delete t (unparkers self) ∧
    unparked self1 = unparked self ++ option_list (unparkers self !! t)) as (Hc1&Hs1&Hn1&Hu1&Hl1).
  { subst self1. destruct self as [tn cs r up sc unp k]; simpl in *.
    destruct (up !! t) eqn:Hut; simpl; split_and!; try done; [by rewrite delete_id|by rewrite app_nil_r]. }
  rewrite Hc1, Ht. clearbody self1. destruct self1 as [tn cs r up sc unp k]; simpl in *. wp_step.
  eapply wp_mono; [apply (drop_spec conn (gs t) i g _ _ _ _ Hinv Hcnt); [lia|done]|].
  intros [[conn' r'] closed] (Hinv'&Hcnt'&Htr&Hnx&_). simpl. split_and!; [|done|done].
  eapply (world_update n self gs lv t conn _ conn'); simpl; try done; try (by rewrite Hc1).
  - intros t' Hne. rewrite Hu1. split; [by apply lookup_delete_ne|by apply fn_lookup_insert_ne].
  - intros u Hu. by rewrite Hu1, lookup_delete_eq in Hu.
  - rewrite fn_lookup_insert. split_and!; [done|unfold counters_ok in *; lia|].
    intros k'. rewrite Hnx. specialize (Hids k'). lia.
Qed.

(** ** Operations under one section *)

(** A method that runs [op] on one connection. *)
Definition on_conn {A} self (t : Token)
    (op : QuicConn → Instant → Readiness.Readiness → exec (QuicConn * Readiness.Readiness * result A (Error QError))) :
    exec (Group * result A (Error QError)) :=
  match conns self !! t with
  | None => Ret (self, Err NotFound)
  | Some conn =>
      let '(self, now) := now clock self in
      '(conn, r, res) ← op conn now (readiness self);
      Ret (set_conn (set_readiness self r) t conn, res)
  end.

Lemma on_conn_spec {A} n self gs lv t
    (op : QuicConn → Instant → Readiness.Readiness → exec (QuicConn * Readiness.Readiness * result A (Error QError))) :
  world_ok n self gs lv →
  (∀ conn now r, conn_ok n conn (gs t) → op conn now r ⇓ λ '(conn', _, _),
     tracks conn conn' ∧ conn_ok (n + 1) conn' (gs t)) →
  on_conn self t op ⇓ λ '(self', r), world_ok (n + 1) self' gs lv ∧
    (conns self !! t = None → r = Err NotFound).
Proof.
  intros Hok Hop. pose proof Hok as (_&Hconns&_&Hunp&_&_). unfold on_conn.
  destruct (conns self !! t) as [conn|] eqn:Ht; [|simpl; split; [by eapply world_idle|done]].
  destruct self as [tn cs r up sc unp k] eqn:Hself; simpl in *. wp_step.
  eapply wp_mono; [by apply Hop, Hconns|]. intros [[conn' r'] res] [Htr Hok']. simpl.
  split; [|done]. rewrite <-Hself in *.
  eapply (world_update n self gs lv t conn _ conn'); subst self; simpl; try done; eauto.
Qed.

Lemma kept_ok n conn l conn' d :
  conn_ok n conn l → kept conn l (2 * n) conn' →
  (∀ k, local_next conn' k ≤ local_next conn k + d) → d ≤ 4 →
  tracks conn conn' ∧ conn_ok (n + 1) conn' l.
Proof.
  intros (_&_&Hids) (Hinv&Hcnt&Htr) Hnx Hd. split; [done|]. split_and!; [done|unfold counters_ok in *; lia|].
  intros k. specialize (Hids k). specialize (Hnx k). lia.
Qed.

Lemma close_ok n conn l app err reason now r :
  conn_ok n conn l → 2 * n + 2 < u64_modulus →
  QuicConn.close conn app err reason now r ⇓ λ '(conn', _, _),
    tracks conn conn' ∧ conn_ok (n + 1) conn' l.
Proof.
  intros Hok Hn. pose proof Hok as (Hinv&Hcnt&_).
  eapply wp_mono; [by apply (close_spec _ _ _ _ _ _ _ _ Hinv Hcnt)|].
  intros [[conn' r'] res] (Hk&Hnx). eapply (kept_ok _ _ _ _ 0); [done|done| |done]. intros k. rewrite Hnx. lia.
Qed.

Lemma stream_close_ok n conn l id err now r :
  conn_ok n conn l → 2 * n + 2 < u64_modulus →
  QuicConn.stream_close conn id err now r ⇓ λ '(conn', _, _),
    tracks conn conn' ∧ conn_ok (n + 1) conn' l.
Proof.
  intros Hok Hn. pose proof Hok as (Hinv&Hcnt&_).
  eapply wp_mono; [by apply (stream_close_spec _ _ _ _ _ _ _ Hinv Hcnt)|].
  intros [[conn' r'] res] (Hk&Hnx). eapply (kept_ok _ _ _ _ 0); [done|done| |done]. intros k. rewrite Hnx. lia.
Qed.

Lemma stream_open_ok n conn l kind nb now r :
  conn_ok n conn l → 2 * n + 2 < u64_modulus → 4 * n + 7 < u64_modulus →
  QuicConn.stream_open conn kind nb now r ⇓ λ '(conn', _, _),
    tracks conn conn' ∧ conn_ok (n + 1) conn' l.
Proof.
  intros Hok Hn Hid. pose proof Hok as (Hinv&Hcnt&Hids). specialize (Hids kind).
  eapply wp_mono; [apply (stream_open_spec _ _ kind _ _ _ _ Hinv Hcnt); lia|].
  intros [[conn' r'] res] (Hk&Hcase). eapply (kept_ok _ _ _ _ 4); [done|done| |done]. intros k.
  destruct Hcase as [(_&_&_&Hnx)|[(_&_&_&_&Hnx)|(_&_&_&Hnx)]]; rewrite Hnx; [lia|lia|case_decide; lia].
Qed.

Lemma guard_token n self gs lv t i g :
  world_ok n self gs lv → gs t !! i = Some g → lc_token (g_lock g) = t.
Proof.
  intros ((Hreg1&_)&Hconns&Hnone&_) Hi.
  destruct (conns self !! t) as [conn|] eqn:Ht; [|by rewrite Hnone in Hi].
  destruct (Hconns t conn Ht) as ((_&Hgs&_)&_). destruct (Hreg1 t conn Ht) as [<- _].
  apply Hgs. by eapply list_elem_of_lookup_2.
Qed.

Lemma world_send_done n self gs lv t i :
  world_ok n self gs lv → world_ok n self (<[t := alter send_done i (gs t)]> gs) lv.
Proof.
  intros (Hreg&Hconns&Hnone&Hunp&Htn&Hsize).
  assert (∀ t', <[t := alter send_done i (gs t)]> gs t' = [] ↔ gs t' = []) as Hnil.
  { intros t'. destruct (decide (t = t')) as [<-|Hne]; [|by rewrite fn_lookup_insert_ne].
    rewrite fn_lookup_insert, <-!length_zero_iff_nil, length_alter. done. }
  split_and!; try done; try apply Hreg; try apply Htn.
  - intros t' conn Ht'. destruct (decide (t = t')) as [<-|Hne]; [|rewrite fn_lookup_insert_ne by done; auto].
    rewrite fn_lookup_insert. destruct (Hconns t conn Ht') as (Hinv&Hcnt&?).
    split_and!; [by apply lock_inv_send_done| |done]. unfold counters_ok in *. by rewrite length_alter.
  - intros t' Ht'. rewrite Hnil. auto.
  - intros t' u Hu. rewrite Hnil. eauto.
Qed.

Lemma act_spec n self gs lv a :
  world_ok (Z.of_nat n) self gs lv → Z.of_nat n + 1 < u32_modulus → allowed (MkWorld self gs lv) a →
  act clock (MkWorld self gs lv) a ⇓ λ w',
    world_ok (Z.of_nat (S n)) (w_group w') (w_guards w') (w_leaving w').
Proof.
  intros Hok Hn Hall. replace (Z.of_nat (S n)) with (Z.of_nat n + 1) by lia.
  assert (2 * Z.of_nat n + 2 < u64_modulus) as Hn64 by (unfold u32_modulus, u64_modulus in *; lia).
  assert (4 * Z.of_nat n + 7 < u64_modulus) as Hid64 by (unfold u32_modulus, u64_modulus in *; lia).
  destruct a as [c|t|scid|t kind|t u|t i f|t i|t i|t app err reason|t kind nb|t id err|]; simpl in *.
  - wp_step. eapply wp_mono; [by apply register_spec|]. by intros [self' r] [? _].
  - pose proof (remove_conn_spec _ _ _ _ _ Hok Hall) as Hrm.
    destruct (remove_conn self t) as [self' [c|e]]; [by destruct Hrm|].
    destruct Hrm as (_&->&_). by eapply world_idle.
  - destruct (lv !! scid) as [t|] eqn:Hlv; [|by eapply world_idle].
    wp_step. eapply wp_mono; [by apply (forget_scid_spec _ _ _ _ _ _ Hok)|].
    intros self' (?&_). by eapply world_idle.
  - wp_step. eapply wp_mono; [apply (lock_spec _ _ _ _ _ _ Hok); [lia|done|done]|]. by intros [self' r] [? _].
  - wp_step. eapply wp_mono; [apply (recv_lock_at_spec _ _ _ _ _ _ Hok); [lia|done]|].
    intros [self' [[t' ctx]|e]]; [by intros (?&->&_)|by intros [? _]].
  - destruct (gs t !! i) as [g|] eqn:Hi; [|by eapply world_idle].
    pose proof (guard_token _ _ _ _ _ _ _ Hok Hi) as Htok. wp_step.
    eapply wp_mono; [apply (with_guard_spec _ _ _ _ _ _ i Hok)|by intros [self' r] [? _]].
    + by rewrite Htok, Hi.
    + intros c. by apply rtc_once.
  - eapply world_idle; [by apply world_send_done|done..].
  - destruct (gs t !! i) as [g|] eqn:Hi; [|by eapply world_idle].
    pose proof (guard_token _ _ _ _ _ _ _ Hok Hi) as Htok. wp_step.
    eapply wp_mono; [by apply (unlock_section_spec _ _ _ _ t i g _ Hok); [lia|..]|].
    by intros [self' r] [? _].
  - wp_step. eapply wp_mono;
      [apply (on_conn_spec (Z.of_nat n) self gs lv t (λ conn, QuicConn.close conn app err reason)); [done|intros; by apply close_ok]|by intros [? ?] [? _]].
  - wp_step. eapply wp_mono;
      [apply (on_conn_spec (Z.of_nat n) self gs lv t (λ conn, QuicConn.stream_open conn kind nb)); [done|intros; by apply stream_open_ok]|by intros [? ?] [? _]].
  - wp_step. eapply wp_mono;
      [apply (on_conn_spec (Z.of_nat n) self gs lv t (λ conn, QuicConn.stream_close conn id err)); [done|intros; by apply stream_close_ok]|by intros [? ?] [? _]].
  - wp_step. destruct self as [tn cs r up sc unp k]; simpl. unfold poll. simpl. wp_step.
    eapply wp_mono; [apply Readiness.poll_late|]. intros [[r' evs] nxt] _. simpl.
    by eapply world_idle.
Qed.

Lemma reachable_ok n (w : World) :
  reachable clock n w → Z.of_nat n < u32_modulus →
  world_ok (Z.of_nat n) (w_group w) (w_guards w) (w_leaving w).
Proof.
  induction 1 as [|n [self gs lv] a w' Hreach IH Hall Hact]; intros Hn.
  - split_and!; simpl; try done; try lia.
  - pose proof (act_spec n self gs lv a (IH ltac:(lia)) ltac:(lia) Hall) as Hwp.
    by rewrite Hact in Hwp.
Qed.


(** C11.  No unpark is lost.  Whenever an unparker is stored for a connection, some guard of
    that connection is alive; and the release of any of its guards unparks it. *)
Theorem group_no_lost_unpark n (w : World) t u :
  reachable clock n w → Z.of_nat n + 1 < u32_modulus →
  unparkers (w_group w) !! t = Some u →
  w_guards w t ≠ [] ∧
  ∀ i, is_Some (w_guards w t !! i) → ∃ w', act clock w (AUnlock t i) = Ret w' ∧
    u ∈ unparked (w_group w') ∧ unparkers (w_group w') !! t = None.
Proof.
  intros Hreach Hn Hu. pose proof (reachable_ok n w Hreach ltac:(lia)) as Hok.
  destruct w as [self gs lv]; simpl in *. split; [by eapply Hok|]. intros i [g Hi]. rewrite Hi.
  pose proof (guard_token _ _ _ _ _ _ _ Hok Hi) as Htok.
  assert (2 * Z.of_nat n + 2 < u64_modulus) as Hn64 by (unfold u32_modulus, u64_modulus in *; lia).
  pose proof (unlock_section_spec _ _ _ _ t i g (g_lock g) Hok ltac:(lia) Hn64 Hi Htok eq_refl) as Hwp.
  apply wp_Ret_iff in Hwp as ([self' closed]&->&_&Hup&Hul). simpl.
  eexists. split; [done|]. simpl. rewrite Hup, Hul, Hu, lookup_delete_eq. split; [|done].
  apply elem_of_app. right. by left.
Qed.

(** Registration.  [register] panics exactly when the connection's source id is already
    in the table; otherwise it ends with a token that no registered connection has, a valid
    [u32], files the connection under it in both tables, unlocked, and keeps all the others. *)
Theorem register_fresh n (w : World) (c : Connection) :
  reachable clock n w → Z.of_nat n + 1 < u32_modulus →
  let self := w_group w in
  (register clock self c = Panic ↔ is_Some (scids self !! source_id c)) ∧
  (scids self !! source_id c = None → ∃ self' t conn,
     register clock self c = Ret (self', Ok t) ∧
     conns self !! t = None ∧ 0 ≤ token_id t < u32_modulus ∧
     conns self' = <[t := conn]> (conns self) ∧
     scids self' = <[source_id c := t]> (scids self) ∧
     locker conn = LocNone ∧ conn_steps c (wrapped conn)).
Proof.
  intros Hreach Hn self. pose proof (reachable_ok n w Hreach ltac:(lia)) as Hok. fold self in Hok.
  assert (scids self !! source_id c = None → ∃ self' t, register clock self c = Ret (self', Ok t) ∧
    registered self c self' t) as Hreg.
  { intros Hsc. pose proof (register_spec _ _ _ _ c Hok Hn Hsc) as Hwp.
    apply wp_Ret_iff in Hwp as ([self' r]&->&_&t&->&?). eauto. }
  split.
  - destruct (scids self !! source_id c) as [t|] eqn:Hsc.
    + split; [done|intros _]. unfold register. destruct Hok as (_&_&_&_&Htn&Hsize).
      pose proof (next_token_spec (conns self) (token_next self) Htn ltac:(lia)) as Hwp.
      apply wp_Ret_iff in Hwp as ([t' next]&->&_). cbn [mbind exec_bind].
      assert (scids (set_token_next self next) !! source_id c = Some t) as -> by by destruct self.
      by rewrite bool_decide_false.
    + split; [|by intros []]. by destruct (Hreg eq_refl) as (self'&t&->&_).
  - intros Hsc. destruct (Hreg Hsc) as (self'&t&Heq&[Hf Hr Hs (conn&Hc&?&?) _]).
    exists self', t, conn. split_and!; (done || apply Hr).
Qed.

(** Deregistering a connection whose guard is alive succeeds, and the later release of
    that guard panics.  [Group::unlock] itself deregisters a closed connection after it has
    released the state mutex, when another thread may already hold a new guard. *)
Theorem deregister_under_guard_panics n (w : World) t i :
  reachable clock n w → Z.of_nat n + 1 < u32_modulus →
  is_Some (w_guards w t !! i) →
  ∃ w', act clock w (ARemove t) = Ret w' ∧ w_guards w' = w_guards w ∧
    act clock w' (AUnlock t i) = Panic.
Proof.
  intros Hreach Hn [g Hi]. pose proof (reachable_ok n w Hreach ltac:(lia)) as Hok.
  destruct w as [self gs lv]; simpl in *. pose proof (guard_token _ _ _ _ _ _ _ Hok Hi) as Htok.
  destruct Hok as (_&_&Hnone&_). unfold remove_conn.
  destruct (conns self !! t) as [conn|] eqn:Ht; [|by rewrite Hnone in Hi].
  eexists. split_and!; [done|done|]. simpl. rewrite Hi. unfold unlock_section. rewrite Htok.
  destruct self as [tn cs r up sc unp k]; simpl in *.
  destruct (up !! t); simpl; by rewrite lookup_delete_eq.
Qed.
End safety.

(** * Witnesses: a packet arrives while a guard of its connection is alive *)

Section witnesses.
Import QueueReference QuicheReference.
#[local] Instance checked : OverflowChecks := true.

Definition demo_clock (n : nat) : Instant := 1000 * Z.of_nat n.
Definition step (w : world) (a : action) : @world _ _ nat :=
  match act demo_clock w a with Ret w' => w' | _ => w end.
Definition returns {A} (m : exec A) : bool := match m with Ret _ => true | _ => false end.

Lemma step_ret w a : returns (act demo_clock w a) = true → act demo_clock w a = Ret (step w a).
Proof. unfold step. by destruct (act demo_clock w a). Qed.

Definition demo_w1 : world := step init (ARegister toy_server_conn).
Definition demo_w2 : world := step demo_w1 (ALock (MkToken 0) (LocStreamRecv 4)).
Definition demo_w3 : world := step demo_w2 (ARecvLock (MkToken 0) (Some 77%nat)).

Lemma demo_reachable : reachable demo_clock 3 demo_w3.
Proof.
  apply (reachable_step _ 2 demo_w2 (ARecvLock (MkToken 0) (Some 77%nat)));
    [|exact I|apply step_ret; vm_compute; reflexivity].
  apply (reachable_step _ 1 demo_w1 (ALock (MkToken 0) (LocStreamRecv 4)));
    [|discriminate|apply step_ret; vm_compute; reflexivity].
  apply (reachable_step _ 0 init (ARegister toy_server_conn));
    [apply reachable_init|reflexivity|apply step_ret; vm_compute; reflexivity].
Qed.


Example group_no_lost_unpark_witness :
  ∃ w', act demo_clock demo_w3 (AUnlock (MkToken 0) 0) = Ret w' ∧ 77%nat ∈ unparked (w_group w').
Proof.
  destruct (group_no_lost_unpark demo_clock 3 demo_w3 (MkToken 0) 77%nat demo_reachable eq_refl)
    as [_ Hwake].
  - vm_compute. reflexivity.
  - destruct (Hwake 0%nat) as (w'&Hact&Hin&_).
    + vm_compute. eexists. reflexivity.
    + exists w'. split; [exact Hact|exact Hin].
Defined.

Example register_fresh_witness :
  register demo_clock (w_group demo_w3) toy_server_conn = Panic.
Proof.
  apply (register_fresh demo_clock 3 demo_w3 toy_server_conn demo_reachable eq_refl).
  vm_compute. eexists. reflexivity.
Defined.

Example deregister_under_guard_panics_witness :
  ∃ w', act demo_clock demo_w3 (ARemove (MkToken 0)) = Ret w' ∧ w_guards w' = w_guards demo_w3 ∧
    act demo_clock w' (AUnlock (MkToken 0) 0) = Panic.
Proof.
  apply (deregister_under_guard_panics demo_clock 3 demo_w3 (MkToken 0) 0 demo_reachable eq_refl).
  vm_compute. eexists. reflexivity.
Defined.
End witnesses.
End GroupSafety.
