(* ===== verification/GroupMethods.v ===== *)
(** The methods of the group that take a guard, use it and drop it: compositions of the
    sections of [GroupSafety], up to the server's [recv_with_acceptor]. *)
From stdpp Require Import functions.
From S2P Require Import Prelude Api EventQueue QuicheApi QuicheReference Utils Connection ConnFacts.
From S2P Require Import ConnLock Acceptor Group GroupSafety.
Import QuicConn Session Acceptor Group GroupSafety.

Module GroupMethods.

Section methods.
Context `{QuicheEndpoint} `{!QuicheLaws} `{!QuicheEndpointLaws}.
Context `{!PriorityQueue Event} `{!PriorityQueueLaws Event} `{HashIter} `{OverflowChecks}.
Context {Unparker : Type} (clock : nat → Instant).
Abbreviation Group := (@Group _ _ Unparker).
Abbreviation World := (@world _ _ Unparker).
Implicit Types (self : Group) (gs : Token → list guard) (lv : gmap ConnectionId Token).

Lemma world_ext n self gs gs' lv : world_ok n self gs lv → (∀ t, gs' t = gs t) → world_ok n self gs' lv.
Proof.
  intros (Hreg&Hconns&Hnone&Hunp&Htn&Hsize) Heq.
  split_and!; try done; try apply Hreg; try apply Htn; intros; rewrite Heq; eauto.
Qed.

Lemma world_mono n m self gs lv : world_ok n self gs lv → n ≤ m → world_ok m self gs lv.
Proof.
  intros (Hreg&Hconns&Hnone&Hunp&Htn&Hsize) Hm.
  split_and!; try done; try apply Hreg; try apply Htn; [|lia].
  intros t conn Ht. eapply conn_ok_mono; [by apply Hconns|done].
Qed.

(** A granted exclusive lock is the only guard of its connection. *)
Lemma granted_alone n self gs lv t kind ctx :
  world_ok n self (<[t := gs t ++ [MkGuard kind ctx]]> gs) lv → kind ≠ LocReadLock → gs t = [].
Proof.
  intros (_&Hconns&Hnone&_) Hk.
  destruct (conns self !! t) as [conn|] eqn:Ht.
  - destruct (Hconns t conn Ht) as ((_&Hgs&_&Hexcl&_)&_). rewrite fn_lookup_insert in Hgs, Hexcl.
    destruct (Hgs (MkGuard kind ctx)) as [Hl _]; [apply elem_of_app; right; by left|].
    simpl in Hl. rewrite <-Hl in Hexcl. specialize (Hexcl Hk). rewrite length_app in Hexcl. simpl in Hexcl.
    destruct (gs t); [done|simpl in *; lia].
  - specialize (Hnone t Ht). rewrite fn_lookup_insert in Hnone. by destruct (gs t).
Qed.

(** The sections leave the table of source ids alone, except for deregistration. *)
Lemma unlock_section_scids self ctx :
  unlock_section clock self ctx ⇓ (λ _, True) →
  unlock_section clock self ctx ⇓ λ '(self', _), scids self' = scids self.
Proof.
  intros ([self' closed]&Heq&_)%wp_Ret_iff. rewrite Heq. unfold unlock_section in Heq.
  set (self1 := match unparkers self !! lc_token ctx with Some _ => _ | None => self end) in Heq.
  assert (scids self1 = scids self) as Hs by (subst self1; by destruct (unparkers self !! lc_token ctx), self).
  apply bind_Ret_inv in Heq as (conn&_&Heq). clearbody self1. destruct self1 as [tn cs r up sc unp k].
  cbn [now] in Heq. apply bind_Ret_inv in Heq as ([[conn' r'] closed']&_&Heq). by simplify_eq/=.
Qed.

Lemma deregister_scids self t :
  deregister self t ⇓ (λ _, True) → deregister self t ⇓ λ '(self', _), scids self' ⊆ scids self.
Proof.
  unfold deregister, remove_conn, forget_scid. destruct (conns self !! t) as [conn|]; [|intros _; simpl; reflexivity].
  destruct self; simpl. case_bool_decide; simpl; [|done]. intros _. apply delete_subseteq.
Qed.

Lemma with_guard_scids {A} self ctx (f : Connection → Connection * A) :
  with_guard self ctx f ⇓ (λ _, True) → with_guard self ctx f ⇓ λ '(self', _), scids self' = scids self.
Proof.
  unfold with_guard. destruct (conns self !! lc_token ctx) as [conn|]; [|done]. simpl.
  destruct (f (wrapped conn)). by destruct self.
Qed.

Lemma wp_both {A} (m : exec A) (P Q : A → Prop) :
  m ⇓ P → (m ⇓ (λ _, True) → m ⇓ Q) → m ⇓ λ a, P a ∧ Q a.
Proof. destruct m; simpl; auto. Qed.

(** Releasing the only guard of a connection, with the deregistration of a closed one. *)
Lemma release_alone n self gs lv t ctx g :
  world_ok n self gs lv → 0 ≤ n → 2 * n + 2 < u64_modulus → gs t = [g] →
  lc_token ctx = t → lc_lock_count ctx = lc_lock_count (g_lock g) →
  Group.unlock clock self ctx ⇓ λ self', world_ok (n + 2) self' (<[t := []]> gs) lv ∧
    scids self' ⊆ scids self.
Proof.
  intros Hok Hn0 Hn Hgs Htc Hlc. unfold Group.unlock. wp_step.
  assert (gs t !! 0%nat = Some g) as Hg by by rewrite Hgs.
  pose proof (unlock_section_spec clock n self gs lv t 0 g ctx Hok Hn0 Hn Hg Htc Hlc) as Hsec.
  eapply wp_mono; [exact (wp_both _ _ _ Hsec (unlock_section_scids self ctx))|].
  intros [self1 closed] [(Hok1&_&_) Hs1]. rewrite Hgs in Hok1. simpl in Hok1.
  destruct closed; simpl.
  - wp_step. rewrite Htc.
    pose proof (deregister_spec (n + 1) self1 _ lv t Hok1 ltac:(by rewrite fn_lookup_insert)) as Hde.
    eapply wp_mono; [exact (wp_both _ _ _ Hde (deregister_scids self1 t))|].
    intros [self2 r] [Hok2 Hs2]. simpl. split; [by replace (n + 2) with (n + 1 + 1) by lia|].
    by rewrite <-Hs1.
  - split; [eapply world_mono; [done|lia]|by rewrite Hs1].
Qed.

(** A guard that is the only one of its connection: requested, used, released. *)
Definition holds n self gs lv (t : Token) (ctx : LockContext) : Prop :=
  gs t = [] ∧ lc_token ctx = t ∧
  ∃ kind, world_ok n self (<[t := [MkGuard kind ctx]]> gs) lv.

Lemma lock_holds n self gs lv t kind :
  world_ok n self gs lv → 0 ≤ n → 2 * n + 2 < u64_modulus → kind ≠ LocNone → kind ≠ LocReadLock →
  lock self t kind ⇓ λ '(self', r), scids self' = scids self ∧
    match r with Ok ctx => holds (n + 1) self' gs lv t ctx | Err _ => world_ok (n + 1) self' gs lv end.
Proof.
  intros Hok Hn0 Hn Hk1 Hk2.
  assert (lock self t kind ⇓ (λ _, True) → lock self t kind ⇓ λ '(self', _), scids self' = scids self) as Hs.
  { unfold lock. destruct (conns self !! t); [|done]. destruct (try_lock _ _) as [[]| |]; simpl; try done.
    by destruct self. }
  eapply wp_mono; [exact (wp_both _ _ _ (lock_spec n self gs lv t kind Hok Hn0 Hn Hk1) Hs)|].
  intros [self' [ctx|e]] [(Hok'&_&Hctx) Hs']; (split; [done|]); [|done]. simpl in Hok'.
  pose proof (granted_alone _ _ _ _ _ _ _ Hok' Hk2) as Hgs. rewrite Hgs in Hok'.
  split_and!; [done|by apply Hctx|by exists kind].
Qed.

Lemma recv_lock_holds n self gs lv scid u :
  world_ok n self gs lv → 0 ≤ n → 2 * n + 2 < u64_modulus →
  recv_lock self scid u ⇓ λ '(self', r), scids self' = scids self ∧
    match r with
    | Ok (t, ctx) => holds (n + 1) self' gs lv t ctx
    | Err e => world_ok (n + 1) self' gs lv ∧
        (e = NotFound ∧ (scids self !! scid = None ∨ is_Some (lv !! scid)) ∨
         e = Busy ∧ ∃ t, scids self !! scid = Some t ∧ gs t ≠ [])
    end.
Proof.
  intros Hok Hn0 Hn.
  assert (recv_lock self scid u ⇓ (λ _, True) →
    recv_lock self scid u ⇓ λ '(self', _), scids self' = scids self) as Hs.
  { unfold recv_lock, recv_lock_at. destruct (scids self !! scid); [|done]. destruct (conns self !! _); [|done].
    destruct (try_lock _ _) as [[? []]| |]; simpl; try done; by destruct self, u. }
  eapply wp_mono; [exact (wp_both _ _ _ (recv_lock_spec n self gs lv scid u Hok Hn0 Hn) Hs)|].
  intros [self' [[t ctx]|e]] [Hspec Hs']; (split; [done|]); [|naive_solver].
  destruct Hspec as (Hok'&_&Hctx). pose proof (granted_alone _ _ _ _ _ _ _ Hok' ltac:(done)) as Hgs.
  rewrite Hgs in Hok'. split_and!; [done|done|by exists LocRecv].
Qed.

Lemma use_holds {A} n self gs lv t ctx (f : Connection → Connection * A) :
  holds n self gs lv t ctx → (∀ c, conn_steps c (f c).1) →
  with_guard self ctx f ⇓ λ '(self', _), holds (n + 1) self' gs lv t ctx ∧ scids self' = scids self.
Proof.
  intros (Hgs&Htc&kind&Hok) Hf.
  assert (is_Some (<[t := [MkGuard kind ctx]]> gs (lc_token ctx) !! 0%nat)) as Hg
    by (rewrite Htc, fn_lookup_insert; eauto).
  eapply wp_mono; [exact (wp_both _ _ _ (with_guard_spec n self _ lv ctx f 0 Hok Hg Hf)
    (with_guard_scids self ctx f))|].
  intros [self' a] [[Hok' _] Hs]. split; [|done]. split_and!; [done|done|by exists kind].
Qed.

Lemma drop_holds n self gs lv t ctx ctx' :
  holds n self gs lv t ctx → 0 ≤ n → 2 * n + 2 < u64_modulus →
  lc_token ctx' = lc_token ctx → lc_lock_count ctx' = lc_lock_count ctx →
  Group.unlock clock self ctx' ⇓ λ self', world_ok (n + 2) self' gs lv ∧ scids self' ⊆ scids self.
Proof.
  intros (Hgs&Htc&kind&Hok) Hn0 Hn Ht Hlc.
  eapply wp_mono; [apply (release_alone _ _ _ _ t _ (MkGuard kind ctx) Hok); simpl; try done;
    [by rewrite fn_lookup_insert|congruence]|].
  intros self' [Hok' Hs]. split; [|done]. eapply world_ext; [done|].
  intros t'. destruct (decide (t' = t)) as [->|Hne]; [by rewrite fn_lookup_insert|].
  by rewrite !fn_lookup_insert_ne.
Qed.

(** ** The methods *)

(** The tables stay consistent, and no source id is added. *)
Definition preserved n self gs lv self' : Prop :=
  world_ok (n + 4) self' gs lv ∧ scids self' ⊆ scids self.

Lemma stream_send_spec n self gs lv t id buf fin :
  world_ok n self gs lv → 0 ≤ n → 2 * n + 6 < u64_modulus →
  stream_send clock self t id buf fin ⇓ λ '(self', _), preserved n self gs lv self'.
Proof.
  intros Hok Hn0 Hn. unfold stream_send. wp_step.
  eapply wp_mono; [apply (lock_holds n self gs lv); [done|done|lia|done|done]|].
  intros [self1 [ctx|e]] [Hs1 Hh]; [|split; [eapply world_mono; [done|lia]|by rewrite Hs1]].
  wp_step. eapply wp_mono; [eapply use_holds; [done|intros c; apply rtc_once; constructor]|].
  intros [self2 r] [Hh2 Hs2]. wp_step. eapply wp_mono; [eapply drop_holds; (done || lia)|].
  intros self3 [Hok3 Hs3]. split; [by replace (n + 4) with (n + 1 + 1 + 2) by lia|]. by rewrite <-Hs1, <-Hs2.
Qed.

Lemma stream_recv_spec n self gs lv t id buf :
  world_ok n self gs lv → 0 ≤ n → 2 * n + 6 < u64_modulus →
  stream_recv clock self t id buf ⇓ λ '(self', _, _), preserved n self gs lv self'.
Proof.
  intros Hok Hn0 Hn. unfold stream_recv. wp_step.
  eapply wp_mono; [apply (lock_holds n self gs lv); [done|done|lia|done|done]|].
  intros [self1 [ctx|e]] [Hs1 Hh]; [|split; [eapply world_mono; [done|lia]|by rewrite Hs1]].
  wp_step. eapply wp_mono; [eapply use_holds; [done|]|].
  { intros c. apply rtc_once. pose proof (cs_stream_recv c id buf) as Hstep.
    by destruct (q_stream_recv c id buf) as [[]]. }
  intros [self2 [[b fd] r]] [Hh2 Hs2]. wp_step. eapply wp_mono; [eapply drop_holds; (done || lia)|].
  intros self3 [Hok3 Hs3]. split; [by replace (n + 4) with (n + 1 + 1 + 2) by lia|]. by rewrite <-Hs1, <-Hs2.
Qed.

Lemma send_spec n self gs lv t buf :
  world_ok n self gs lv → 0 ≤ n → 2 * n + 6 < u64_modulus →
  send clock self t buf ⇓ λ '(self', _, _), preserved n self gs lv self'.
Proof.
  intros Hok Hn0 Hn. unfold send. wp_step.
  eapply wp_mono; [apply (lock_holds n self gs lv); [done|done|lia|done|done]|].
  intros [self1 [ctx|e]] [Hs1 Hh]; [|split; [eapply world_mono; [done|lia]|by rewrite Hs1]].
  assert (holds (n + 1) (now clock self1).1 gs lv t ctx ∧ scids (now clock self1).1 = scids self1) as [Hh' Hs'].
  { destruct self1; split; [|done]. exact Hh. }
  destruct (now clock self1) as [self1' instant]. simpl in Hh', Hs'.
  wp_step. eapply wp_mono; [eapply use_holds; [exact Hh'|]|].
  { intros c. destruct (release_time c instant DEFAULT_RELEASE_TIMER_THRESHOLD); [done|].
    eapply rtc_l; [apply cs_on_timeout|]. apply rtc_once.
    pose proof (cs_send (q_on_timeout c) buf) as Hstep.
    by destruct (q_send (q_on_timeout c) buf) as [[]]. }
  intros [self2 [b r]] [Hh2 Hs2]. wp_step. eapply wp_mono; [eapply drop_holds; (done || lia)|].
  intros self3 [Hok3 Hs3]. split; [by replace (n + 4) with (n + 1 + 1 + 2) by lia|].
  by rewrite <-Hs1, <-Hs', <-Hs2.
Qed.

Lemma recv_with_connection_id_spec n self gs lv scid buf info u :
  world_ok n self gs lv → 0 ≤ n → 2 * n + 6 < u64_modulus →
  recv_with_connection_id clock self scid buf info u ⇓ λ '(self', buf', r),
    preserved n self gs lv self' ∧
    (r = Err NotFound → (scids self !! scid = None ∨ is_Some (lv !! scid)) ∧ scids self' = scids self ∧ buf' = buf) ∧
    (∀ t, scids self !! scid = Some t → gs t = [] → r ≠ Err Busy) ∧ r ≠ Err Retry.
Proof.
  intros Hok Hn0 Hn. unfold recv_with_connection_id. wp_step.
  eapply wp_mono; [apply (recv_lock_holds n self gs lv); [done|done|lia]|].
  intros [self1 [[t ctx]|e]] [Hs1 Hh].
  2: { destruct Hh as [Hok1 Hcase]. split_and!.
       - split; [eapply world_mono; [done|lia]|by rewrite Hs1].
       - intros [= ->]. destruct Hcase as [[_ ?]|[[=] _]]. done.
       - intros t Ht Hgs [= ->]. destruct Hcase as [[[=] _]|(_&t'&Ht'&Hne)]. congruence.
       - intros [= ->]. by destruct Hcase as [[[=] _]|[[=] _]]. }
  wp_step. eapply wp_mono; [eapply use_holds; [done|]|].
  { intros c. apply rtc_once. pose proof (cs_recv c buf info) as Hstep.
    by destruct (q_recv c buf info) as [[]]. }
  intros [self2 [b r]] [Hh2 Hs2]. wp_step. eapply wp_mono; [eapply drop_holds; (done || lia)|].
  intros self3 [Hok3 Hs3].
  split_and!; [split; [by replace (n + 4) with (n + 1 + 1 + 2) by lia|by rewrite <-Hs1, <-Hs2]|
    by destruct r..].
Qed.

Lemma recv_spec n self gs lv buf info :
  world_ok n self gs lv → 0 ≤ n → 2 * n + 6 < u64_modulus →
  recv clock self buf info ⇓ λ '(self', _, _), preserved n self gs lv self'.
Proof.
  intros Hok Hn0 Hn. unfold recv. destruct (header_from_slice buf) as [b [header|e]]; simpl.
  - wp_step. eapply wp_mono; [by apply (recv_with_connection_id_spec n self gs lv)|].
    intros [[self' b'] r] [? _]. done.
  - split; [eapply world_mono; [done|lia]|done].
Qed.

Lemma send_reply_spec n self gs lv t buf info :
  world_ok n self gs lv → 0 ≤ n → 2 * n + 6 < u64_modulus →
  send_reply clock self t buf info ⇓ λ '(self', _, _), preserved n self gs lv self'.
Proof.
  intros Hok Hn0 Hn. unfold send_reply. wp_step. eapply wp_mono; [by apply (send_spec n self gs lv)|].
  intros [[self' b] r] Hp.
  assert (preserved n self gs lv (now clock self').1) as Hp' by by destruct self'.
  destruct r as [a|[]]; simpl; try done; unfold no_reply;
    by destruct (now clock self').
Qed.

(** ** The server's entry point *)

(** The handshake writes into its buffer, and an accepted connection has the destination
    id of the packet as its source id. *)
Lemma handshake_result acceptor header buf info rand_bytes sys_now acceptor' buf' r :
  handshake acceptor header buf info rand_bytes sys_now = Ret (acceptor', buf', r) →
  length buf' = length buf ∧ ∀ c, r = Ok (HandshakeAccept c) → source_id c = hdr_dcid header.
Proof.
  unfold handshake, negotiate_version, retry. destruct (version_is_supported _); simpl.
  2: { pose proof (negotiate_length (hdr_scid header) (hdr_dcid header) buf) as Hlen.
       destruct (q_negotiate_version _ _ buf) as [b [n|e]]; intros; simplify_eq/=; done. }
  destruct (hdr_token header) as [token|]; simpl; [|done]. case_bool_decide.
  - intros Hh. apply bind_Ret_inv in Hh as ([b r']&Hh&Hr). simplify_eq.
    apply bind_Ret_inv in Hh as (minted&_&Hh). destruct minted as [tk|e]; [|by simplify_eq].
    pose proof (retry_length (hdr_scid header) (hdr_dcid header) (random_conn_id rand_bytes) tk
      (hdr_version header) buf) as Hlen.
    destruct (q_retry _ _ _ _ _ buf) as [b' [m|e]]; simplify_eq/=; done.
  - intros Hh. apply bind_Ret_inv in Hh as (o&_&Hh). destruct o as [odcid|]; [|by simplify_eq].
    destruct (q_accept _ _ _ _ _) as [cfg [c|e]] eqn:Hacc; simplify_eq; (split; [done|]); [|done].
    intros c' [= <-]. by eapply accept_conn.
Qed.

(** Source ids that a call adds come from connections that the handshake accepted. *)
Definition admitted_ids self acceptor info rand_bytes sys_now self' : Prop :=
  ∀ scid t, scids self' !! scid = Some t → scids self !! scid = Some t ∨
    ∃ header buf acceptor' buf' c,
      handshake acceptor header buf info rand_bytes sys_now =
        Ret (acceptor', buf', Ok (HandshakeAccept c)) ∧ source_id c = scid.

Lemma subset_ids self acceptor info rand_bytes sys_now self' :
  scids self' ⊆ scids self → admitted_ids self acceptor info rand_bytes sys_now self'.
Proof. intros Hs scid t Ht. left. by eapply lookup_weaken. Qed.

Lemma no_reply_group self buf info m :
  scids (no_reply clock self buf info m).1.1 = scids self ∧
  ∀ n gs lv, world_ok n self gs lv → world_ok n (no_reply clock self buf info m).1.1 gs lv.
Proof. unfold no_reply. by destruct self. Qed.

(** A datagram that opens a connection: registration, first packet, first answer. *)
Lemma accepted_spec n self gs lv (c : Connection) dcid buf recv_size info :
  world_ok n self gs lv → 0 ≤ n → n + 10 < u32_modulus →
  source_id c = dcid → scids self !! dcid = None → 0 ≤ recv_size → recv_size ≤ zlen buf →
  accept_datagram clock self c dcid buf recv_size info ⇓ λ '(self', _, _),
    world_ok (n + 9) self' gs lv ∧
    ∀ scid t, scids self' !! scid = Some t → scids self !! scid = Some t ∨ scid = dcid.
Proof.
  intros Hok Hn0 Hn Hsid Hnew Hr0 Hr. unfold accept_datagram, u32_modulus in *. wp_step.
  eapply wp_mono; [apply (register_spec clock n self gs lv c Hok); unfold u32_modulus; [lia|by rewrite Hsid]|].
  intros [self1 r1] [Hok1 (t&->&[Hfresh _ Hsc _ _])].
  assert (gs t = []) as Hgs by by apply Hok.
  assert (∀ scid t', scids self1 !! scid = Some t' → scids self !! scid = Some t' ∨ scid = dcid) as Hadd.
  { rewrite Hsc, Hsid. intros scid t' [[<- _]|[_ ?]]%lookup_insert_Some; auto. }
  wp_step. apply wp_slice; [lia|lia|done|]. wp_step. eapply wp_mono;
    [apply (recv_with_connection_id_spec (n + 1) self1 gs lv); [done|lia|unfold u64_modulus; lia]|].
  intros [[self2 d] r] ([Hok2 Hs2]&_&Hbusy&Hretry).
  specialize (Hbusy t ltac:(by rewrite Hsc, Hsid, lookup_insert_eq) Hgs).
  assert (∀ self' m, world_ok m self' gs lv → m ≤ n + 9 → scids self' ⊆ scids self2 →
    world_ok (n + 9) self' gs lv ∧
    ∀ scid t, scids self' !! scid = Some t → scids self !! scid = Some t ∨ scid = dcid) as Hend.
  { intros self' m Hok' Hm Hs'. split; [by eapply world_mono|]. intros scid t' Ht'.
    apply Hadd. eapply lookup_weaken; [done|by etrans]. }
  destruct r as [a|[]]; try done; try (apply (Hend self2 (n + 1 + 4)); [done|lia|done]).
  eapply wp_mono;
    [apply (send_reply_spec (n + 1 + 4) self2 gs lv); [done|lia|unfold u64_modulus; lia]|].
  intros [[self3 b] r3] [Hok3 Hs3]. apply (Hend self3 (n + 1 + 4 + 4)); [done|lia|done].
Qed.

Lemma recv_with_acceptor_spec n self gs lv acceptor buf recv_size info u rand_bytes sys_now :
  world_ok n self gs lv → 0 ≤ n → n + 20 < u32_modulus → 0 ≤ recv_size → recv_size ≤ zlen buf →
  (∀ header, (header_from_slice (take (Z.to_nat recv_size) buf)).2 = Ok header →
     lv !! hdr_dcid header = None) →
  (∀ header b, (header_from_slice (take (Z.to_nat recv_size) buf)).2 = Ok header →
     handshake acceptor header b info rand_bytes sys_now ⇓ λ _, True) →
  recv_with_acceptor clock self acceptor buf recv_size info u rand_bytes sys_now ⇓
  λ '(self', _, _, _), world_ok (n + 13) self' gs lv ∧
    admitted_ids self acceptor info rand_bytes sys_now self'.
Proof.
  intros Hok Hn0 Hn Hr0 Hr Hlv Hhs. unfold recv_with_acceptor, u32_modulus in *.
  assert (∀ self', preserved n self gs lv self' →
    world_ok (n + 13) self' gs lv ∧ admitted_ids self acceptor info rand_bytes sys_now self') as Hend.
  { intros self' [Hok' Hs']. split; [eapply world_mono; [done|lia]|by apply subset_ids]. }
  wp_step. apply wp_slice; [lia|lia|done|]. rewrite Z.sub_0_r, drop_0. set (dg := take _ _) in *.
  pose proof (header_length dg) as Hlen. destruct (header_from_slice dg) as [dg' [header|e]].
  2: { apply Hend. split; [eapply world_mono; [done|lia]|done]. }
  wp_step. eapply wp_mono;
    [apply (recv_with_connection_id_spec n self gs lv); [done|done|unfold u64_modulus; lia]|].
  intros [[self1 dg1] r] ([Hok1 Hs1]&Hnf&_&_). set (buf1 := dg1 ++ _).
  destruct r as [[t m]|[]]; try (by apply Hend).
  - wp_step. eapply wp_mono;
      [apply (send_reply_spec (n + 4) self1 gs lv); [done|lia|unfold u64_modulus; lia]|].
    intros [[self2 b] r2] [Hok2 Hs2]. simpl.
    split; [eapply world_mono; [done|lia]|apply subset_ids; by etrans].
  - destruct (Hnf eq_refl) as ([Hnone|[? Hsome]]&Hsame&->); [|by rewrite (Hlv header eq_refl) in Hsome].
    assert (recv_size ≤ zlen buf1) as Hbuf1.
    { subst buf1 dg. simpl in Hlen. rewrite !length_app, !length_drop, Hlen, length_take in *. lia. }
    wp_step. specialize (Hhs header buf1 eq_refl).
    destruct (handshake acceptor header buf1 info rand_bytes sys_now) as [[[acceptor' b] h]| |] eqn:Hh;
      try done. simpl. destruct (handshake_result _ _ _ _ _ _ _ _ _ Hh) as [Hb Hsid].
    destruct h as [[m|c]|e]; [| |by apply Hend].
    + destruct (no_reply_group self1 b info m) as [Hs2 Hok2]. specialize (Hok2 _ _ _ Hok1).
      destruct (no_reply clock self1 b info m) as [[self2 b2] r2]. simpl in *.
      split; [eapply world_mono; [done|lia]|]. apply subset_ids. by rewrite Hs2.
    + wp_step. eapply wp_mono; [apply (accepted_spec (n + 4) self1 gs lv c);
        [done|lia|unfold u32_modulus; lia|by apply Hsid|by rewrite Hsame|done|by rewrite Hb]|].
      intros [[self2 b2] r2] [Hok2 Hids]. simpl. split; [eapply world_mono; [done|lia]|].
      intros scid t Ht. apply Hids in Ht as [Ht| ->]; [left; by rewrite <-Hsame|right].
      exists header, buf1, acceptor', b, c. split; [done|]. by apply Hsid.
Qed.


(** C33.  The excepted case is a race that panics.  A connection is leaving: [deregister] has
    taken it out of the table of connections, and has yet to take its source id out of the
    other table.  If a packet with this id arrives now and passes the handshake, as the repeated
    first packet of a client with a fresh token does, the server registers a second connection
    under the id, and the assertion of [register] fails. *)
Theorem leaving_id_panics n (w : World) acceptor buf recv_size info u rand_bytes sys_now
    d header t acceptor' buf' c :
  reachable clock n w → Z.of_nat n + 1 < u32_modulus → 0 ≤ recv_size → recv_size ≤ zlen buf →
  header_from_slice (take (Z.to_nat recv_size) buf) = (d, Ok header) →
  w_leaving w !! hdr_dcid header = Some t → conns (w_group w) !! t = None →
  handshake acceptor header (d ++ drop (Z.to_nat recv_size) (d ++ drop (Z.to_nat recv_size) buf))
    info rand_bytes sys_now = Ret (acceptor', buf', Ok (HandshakeAccept c)) →
  recv_with_acceptor clock (w_group w) acceptor buf recv_size info u rand_bytes sys_now = Panic.
Proof.
  intros Hreach Hn Hr0 Hr Hheader Hlv Hgone Hhs.
  pose proof (reachable_ok clock n w Hreach ltac:(lia)) as ((_&_&Hreg3)&_&_&_&Htn&Hsize).
  destruct (Hreg3 _ _ Hlv) as [Hsc _].
  unfold recv_with_acceptor, slice. rewrite bool_decide_true by lia. rewrite Z.sub_0_r, drop_0. simpl.
  rewrite Hheader. unfold recv_with_connection_id, recv_lock, recv_lock_at. rewrite Hsc, Hgone. simpl.
  rewrite Hhs. simpl. unfold accept_datagram.
  destruct (handshake_result _ _ _ _ _ _ _ _ _ Hhs) as [_ Hsid]. specialize (Hsid c eq_refl).
  unfold register.
  pose proof (next_token_spec (conns (w_group w)) (token_next (w_group w)) Htn ltac:(lia)) as Hwp.
  apply wp_Ret_iff in Hwp as ([t' next]&->&_). cbn [mbind exec_bind].
  assert (scids (set_token_next (w_group w) next) !! source_id c = Some t) as ->
    by (rewrite Hsid; by destruct (w_group w)).
  by rewrite bool_decide_false.
Qed.

(** C28.  The other methods.  From every reachable state [stream_send], [stream_recv],
    [send] and [recv] return, keep the two tables as consistent as they were, and add no
    source id. *)
Theorem group_methods_safe n (w : World) t id buf fin info :
  reachable clock n w → Z.of_nat n + 20 < u32_modulus →
  let kept self' := registry_ok self' (w_leaving w) ∧ scids self' ⊆ scids (w_group w) in
  stream_send clock (w_group w) t id buf fin ⇓ (λ '(self', _), kept self') ∧
  stream_recv clock (w_group w) t id buf ⇓ (λ '(self', _, _), kept self') ∧
  send clock (w_group w) t buf ⇓ (λ '(self', _, _), kept self') ∧
  recv clock (w_group w) buf info ⇓ (λ '(self', _, _), kept self').
Proof.
  intros Hreach Hn kept. pose proof (reachable_ok clock n w Hreach ltac:(lia)) as Hok.
  assert (2 * Z.of_nat n + 6 < u64_modulus) as Hn64 by (unfold u32_modulus, u64_modulus in *; lia).
  assert (∀ self', preserved (Z.of_nat n) (w_group w) (w_guards w) (w_leaving w) self' → kept self') as Hkept
    by by intros self' [[? _] ?].
  split_and!; (eapply wp_mono;
    [first [apply (stream_send_spec _ _ _ _ t id buf fin Hok)|apply (stream_recv_spec _ _ _ _ t id buf Hok)
           |apply (send_spec _ _ _ _ t buf Hok)|apply (recv_spec _ _ _ _ buf info Hok)]; [lia|done]|]).
  - intros [self' r]. apply Hkept.
  - intros [[self' b] r]. apply Hkept.
  - intros [[self' b] r]. apply Hkept.
  - intros [[self' b] r]. apply Hkept.
Qed.
End methods.

(** * Witnesses *)

Section witnesses.
Import QueueReference QuicheReference.
#[local] Instance checked : OverflowChecks := true.

(** A validator that admits every token, with an empty original id. *)
Definition open_acceptor : Acceptor :=
  @MkAcceptor _ toy_endpoint (demo_config 0) (MkAddressValidator
    (λ _ _ _ _ _, Ret (Ok [x2a])) (λ _ _ _ _ _, Ret (Some []))).
Definition demo_from : RecvInfo := MkRecvInfo demo_src demo_src.
Definition demo_datagram : list byte := [x07; x2a; x2b].


(** The connection with the id [x07] was accepted; it leaves when its first datagram is
    repeated. *)
Definition leaving_conn : Connection := MkToy true [x07] true true 0 0 None None [] [] 0.
Definition leaving_w : world :=
  step (step init (ARegister leaving_conn)) (ARemove (MkToken 0)).

Lemma leaving_reachable : reachable demo_clock 2 leaving_w.
Proof.
  apply (reachable_step _ 1 (step init (ARegister leaving_conn)) (ARemove (MkToken 0)));
    [|reflexivity|apply step_ret; vm_compute; reflexivity].
  apply (reachable_step _ 0 init (ARegister leaving_conn));
    [apply reachable_init|reflexivity|apply step_ret; vm_compute; reflexivity].
Qed.

Example leaving_id_panics_witness :
  recv_with_acceptor demo_clock (w_group leaving_w) open_acceptor demo_datagram 3 demo_from
    None demo_rand 0 = Panic.
Proof.
  eapply (leaving_id_panics demo_clock 2 leaving_w open_acceptor demo_datagram 3 demo_from None
    demo_rand 0 _ _ (MkToken 0) _ _ _ leaving_reachable eq_refl);
    [lia|vm_compute; discriminate|reflexivity|vm_compute; reflexivity|vm_compute; reflexivity|reflexivity].
Defined.

Example group_methods_safe_witness :
  stream_send demo_clock (w_group demo_w3) (MkToken 0) 1 [x2a] true ⇓ λ '(self', _),
    registry_ok self' ∅ ∧ scids self' ⊆ scids (w_group demo_w3).
Proof. apply (group_methods_safe demo_clock 3 demo_w3 (MkToken 0) 1 [x2a] true demo_from demo_reachable eq_refl). Defined.

(** The datagram of a new client is accepted, registered and received. *)
Example demo_accept :
  ('(self, _, _, r) ← recv_with_acceptor demo_clock (w_group demo_w3) open_acceptor demo_datagram 3
      demo_from (Some 5%nat) demo_rand 0;
   Ret (scids self !! [x07], len self, match r with Ok (n, _) => Some n | Err _ => None end)) =
  Ret (Some (MkToken 1), 2%nat, Some 0).
Proof. vm_compute. reflexivity. Qed.
End witnesses.
End GroupMethods.
