(* ===== verification/GroupRetry.v ===== *)
(** Operations that a group refuses because the connection is locked: whatever happens until the
    lock is released, the release answers them. *)
From stdpp Require Import functions.
From S2P Require Import Prelude Api EventQueue QuicheApi QuicheReference Utils Connection ConnFacts.
From S2P Require Import ConnLock Acceptor Group GroupSafety.
Import QuicConn Session Group GroupSafety.

Module GroupRetry.

Section retry.
Context `{QuicheEndpoint} `{!QuicheLaws} `{!PriorityQueue Event} `{!PriorityQueueLaws Event} `{HashIter} `{OverflowChecks}.
Context {Unparker : Type} (clock : nat → Instant).
Abbreviation Group := (@Group _ _ Unparker).
Abbreviation World := (@world _ _ Unparker).
Implicit Types (self : Group) (gs : Token → list guard) (lv : gmap ConnectionId Token) (conn : QuicConn).

(** ** Refusals *)

(** A connection that is locked refuses every kind of lock but a further read lock, and queues
    those that are to be tried again. *)
Lemma try_lock_held conn kind :
  locker conn ≠ LocNone → kind ≠ LocReadLock →
  try_lock conn kind =
    Ret (if need_retry kind then set_reties conn ({[kind]} ∪ reties conn) else conn, Err Busy).
Proof.
  intros Hl Hk. unfold try_lock, try_lock_prv.
  destruct (locker conn); try done; by rewrite bool_decide_false by (by intros [_ ?]).
Qed.

Lemma try_lock_prv_held conn kind :
  locker conn ≠ LocNone → kind ≠ LocReadLock →
  try_lock_prv conn kind =
    Ret (if need_retry kind then set_reties conn ({[kind]} ∪ reties conn) else conn, Err Busy).
Proof. apply try_lock_held. Qed.

Lemma try_lock_reties conn kind conn' r : try_lock conn kind = Ret (conn', r) → reties conn ⊆ reties conn'.
Proof.
  unfold try_lock, try_lock_prv. intros Hl. destruct (locker conn), (need_retry kind);
    repeat (case_bool_decide || (apply bind_Ret_inv in Hl as (?&_&Hl)));
    simplify_eq; try done; destruct conn; simpl; set_solver.
Qed.

(** The connection of [t] stays, and so do the operations that wait for it. *)
Definition keeps (t : Token) self self' : Prop :=
  ∀ conn, conns self !! t = Some conn →
    ∃ conn', conns self' !! t = Some conn' ∧ reties conn ⊆ reties conn'.

Lemma keeps_same t self self' : conns self' = conns self → keeps t self self'.
Proof. intros Heq conn Hc. exists conn. by rewrite Heq. Qed.

Lemma keeps_insert t self t' conn conn' r :
  conns self !! t' = Some conn → (t' = t → reties conn ⊆ reties conn') →
  keeps t self (set_conn (set_readiness self r) t' conn').
Proof.
  intros Ht' Hre conn0 Hc. destruct self; simpl in *.
  destruct (decide (t' = t)) as [->|Hne]; [|rewrite lookup_insert_ne by done; by exists conn0].
  rewrite lookup_insert_eq. simplify_eq. eauto.
Qed.

Lemma keeps_insert' t self t' conn conn' :
  conns self !! t' = Some conn → (t' = t → reties conn ⊆ reties conn') →
  keeps t self (set_conn self t' conn').
Proof. intros Ht' Hre. pose proof (keeps_insert t self t' conn conn' (readiness self) Ht' Hre) as Hk. by destruct self. Qed.
(** A method that locks the connection [t'] and finds it held only queues its request. *)
Lemma on_conn_keeps {A} t self t'
    (op : QuicConn → Instant → Readiness.Readiness → exec (QuicConn * Readiness.Readiness * result A (Error QError)))
    self' r :
  (∀ conn now rd conn' rd' res, conns self !! t = Some conn → t' = t →
     op conn now rd = Ret (conn', rd', res) → reties conn ⊆ reties conn') →
  on_conn clock self t' op = Ret (self', r) → keeps t self self'.
Proof.
  intros Hop. unfold on_conn. destruct (conns self !! t') as [conn|] eqn:Ht'; [|by intros; simplify_eq; apply keeps_same].
  destruct (now clock self) as [self1 at_] eqn:Hnow. intros ([[conn' rd] res]&Hr&Hs)%bind_Ret_inv. simplify_eq.
  assert (conns self1 = conns self) as Hc1 by (destruct self; by simplify_eq/=).
  intros conn0 Hc0. destruct (keeps_insert t self1 t' conn conn' rd) with conn0 as (c&Hc&?); [congruence| |congruence|by exists c].
  intros ->. eapply Hop; [|done|exact Hr]. congruence.
Qed.

(** The operations that lock and unlock at once, on a connection that is held. *)
Section held.
Context (conn conn' : QuicConn) (now : Instant) (rd rd' : Readiness.Readiness) (Hheld : locker conn ≠ LocNone).

Lemma close_held app err reason res :
  QuicConn.close conn app err reason now rd = Ret (conn', rd', res) → reties conn ⊆ reties conn'.
Proof.
  unfold QuicConn.close. rewrite (try_lock_prv_held conn (LocClose app err reason)) by done.
  intros; simplify_eq/=. destruct conn; simpl; set_solver.
Qed.
Lemma stream_open_held kind nb res :
  QuicConn.stream_open conn kind nb now rd = Ret (conn', rd', res) → reties conn ⊆ reties conn'.
Proof.
  unfold QuicConn.stream_open. rewrite (try_lock_prv_held conn (LocStreamOpen kind)) by done.
  intros; simplify_eq/=. destruct conn; simpl; set_solver.
Qed.
Lemma stream_close_held id err res :
  QuicConn.stream_close conn id err now rd = Ret (conn', rd', res) → reties conn ⊆ reties conn'.
Proof.
  unfold QuicConn.stream_close. rewrite (try_lock_prv_held conn (LocStreamClose id err)) by done.
  intros; simplify_eq/=. destruct conn; simpl; set_solver.
Qed.
End held.

(** ** Sections that leave a locked connection locked *)

Lemma guarded_held n self gs lv t :
  world_ok n self gs lv → gs t ≠ [] → ∃ conn, conns self !! t = Some conn ∧ locker conn ≠ LocNone.
Proof.
  intros (_&Hconns&Hnone&_) Hgs. destruct (conns self !! t) as [conn|] eqn:Ht; [|by apply Hnone in Ht].
  exists conn. split; [done|]. destruct (Hconns t conn Ht) as ((_&_&Hfree&_)&_). by rewrite Hfree.
Qed.

Lemma other_guards gs t t' l : gs t ≠ [] → (t' = t → l ≠ []) → (<[t' := l]> gs) t ≠ [].
Proof.
  intros Hgs Hl. destruct (decide (t' = t)) as [->|Hne]; [rewrite fn_lookup_insert; auto|by rewrite fn_lookup_insert_ne].
Qed.

Lemma lock_keeps t self t' kind self' r : lock self t' kind = Ret (self', r) → keeps t self self'.
Proof.
  unfold lock. destruct (conns self !! t') as [conn|] eqn:Ht; [|intros; simplify_eq; by apply keeps_same].
  intros ([conn' r']&Hl&Hs)%bind_Ret_inv. simplify_eq.
  eapply keeps_insert'; [exact Ht|]. intros _. by eapply try_lock_reties.
Qed.

Lemma recv_lock_keeps t self t' u self' r : recv_lock_at self t' u = Ret (self', r) → keeps t self self'.
Proof.
  unfold recv_lock_at. destruct (conns self !! t') as [conn|] eqn:Ht; [|intros; simplify_eq; by apply keeps_same].
  intros ([conn' r']&Hl&Hs)%bind_Ret_inv.
  assert (keeps t self (set_conn self t' conn')) as Hk.
  { eapply keeps_insert'; [exact Ht|]. intros _. by eapply try_lock_reties. }
  destruct r' as [ctx|e]; simplify_eq; [done|]. destruct u; [|done].
  intros c Hc. destruct (Hk c Hc) as (c'&?&?). exists c'. by destruct self.
Qed.

Lemma with_guard_keeps {A} t self ctx (f : Connection → Connection * A) self' a :
  with_guard self ctx f = Ret (self', a) → keeps t self self'.
Proof.
  unfold with_guard. destruct (conns self !! lc_token ctx) as [conn|] eqn:Hc; simpl; [|done].
  destruct (f (wrapped conn)) as [c a0]. intros; simplify_eq.
  eapply keeps_insert'; [exact Hc|]. intros _. by destruct conn.
Qed.

Lemma unlock_keeps t self ctx self' closed :
  lc_token ctx ≠ t → unlock_section clock self ctx = Ret (self', closed) → keeps t self self'.
Proof.
  intros Hne. unfold unlock_section.
  set (self1 := match unparkers self !! lc_token ctx with Some _ => _ | None => self end).
  assert (conns self1 = conns self) as Hc1 by (subst self1; destruct self; simpl; by case_match).
  intros (conn&Hc&Hs)%bind_Ret_inv. destruct (now clock self1) as [self2 at_] eqn:Hnow.
  apply bind_Ret_inv in Hs as ([[conn' r] cl]&_&Hs). simplify_eq. intros c Ht. exists c. split; [|done].
  destruct self1; simpl in *. simplify_eq/=. by rewrite lookup_insert_ne.
Qed.

(** The methods that lock and unlock at once, while [t] is held. *)
Section held_methods.
Context (t t' : Token) (self self' : Group).
Context (Hheld : ∀ c, conns self !! t = Some c → locker c ≠ LocNone).

Lemma group_close_keeps app err reason r : close clock self t' app err reason = Ret (self', r) → keeps t self self'.
Proof.
  apply (on_conn_keeps t self t' (λ conn, QuicConn.close conn app err reason)).
  intros c now rd c' rd' res Hc _. by apply close_held, Hheld.
Qed.
Lemma group_open_keeps kind nb r : stream_open clock self t' kind nb = Ret (self', r) → keeps t self self'.
Proof.
  apply (on_conn_keeps t self t' (λ conn, QuicConn.stream_open conn kind nb)).
  intros c now rd c' rd' res Hc _. by apply stream_open_held, Hheld.
Qed.
Lemma group_shutdown_keeps id err r : stream_shutdown clock self t' id err = Ret (self', r) → keeps t self self'.
Proof.
  apply (on_conn_keeps t self t' (λ conn, QuicConn.stream_close conn id err)).
  intros c now rd c' rd' res Hc _. by apply stream_close_held, Hheld.
Qed.
End held_methods.

(** Whatever section runs, other than a release of the connection [t] itself, the guards of
    [t] stay alive, and the operations queued on it stay queued. *)
Lemma act_keeps n self gs lv t a w' :
  world_ok n self gs lv → n + 1 < u32_modulus → allowed (MkWorld self gs lv) a → gs t ≠ [] →
  (∀ i, a ≠ AUnlock t i) → act clock (MkWorld self gs lv) a = Ret w' →
  keeps t self (w_group w') ∧ w_guards w' t ≠ [].
Proof.
  intros Hok Hn Hall Hgs Hrel Hact.
  destruct (guarded_held _ _ _ _ _ Hok Hgs) as (conn&Hconn&Hheld).
  assert (∀ c, conns self !! t = Some c → locker c ≠ LocNone) as Hthis by (intros; congruence).
  destruct a as [c|t'|scid|t' kind|t' u|t' i f|t' i|t' i|t' app err reason|t' kind nb|t' id err|]; simpl in *.
  - apply bind_Ret_inv in Hact as ([self1 r]&Hr&Hs). simplify_eq. split; [|done].
    pose proof (register_spec clock n self gs lv c Hok Hn Hall) as Hwp. rewrite Hr in Hwp.
    destruct Hwp as (_&t1&_&[Hfresh _ _ (conn1&Hc1&_) _]). intros c0 Hc0. exists c0.
    simpl; rewrite Hc1, lookup_insert_ne; [done|congruence].
  - unfold remove_conn in Hact. destruct (conns self !! t') as [c|] eqn:Hc; simplify_eq/=; [|by split; [apply keeps_same|]].
    split; [|done]. intros c0 Hc0. exists c0. destruct self; simpl in *. rewrite lookup_delete_ne; [done|congruence].
  - destruct (lv !! scid) as [t1|]; [|by simplify_eq; split; [apply keeps_same|]].
    apply bind_Ret_inv in Hact as (self1&Hf&Hs). simplify_eq. split; [|done]. apply keeps_same.
    unfold forget_scid in Hf. apply bind_Ret_inv in Hf as ([]&_&Hf). simplify_eq. by destruct self.
  - apply bind_Ret_inv in Hact as ([self1 r]&Hl&Hs). simplify_eq. split; [by eapply lock_keeps|]. simpl.
    destruct r; [apply other_guards; [done|intros ->; by destruct (gs t)]|done].
  - apply bind_Ret_inv in Hact as ([self1 r]&Hl&Hs). simplify_eq. split; [by eapply recv_lock_keeps|]. simpl.
    destruct r as [[t1 ctx]|]; [apply other_guards; [done|intros ->; by destruct (gs t)]|done].
  - destruct (gs t' !! i); [|by simplify_eq; split; [apply keeps_same|]].
    apply bind_Ret_inv in Hact as ([self1 r]&Hl&Hs). simplify_eq. split; [by eapply with_guard_keeps|done].
  - simplify_eq. split; [by apply keeps_same|]. apply other_guards; [done|]. intros ->.
    intros Hnil. apply Hgs, length_zero_iff_nil. by rewrite <-(length_alter send_done (gs t) i), Hnil.
  - destruct (gs t' !! i) as [g|] eqn:Hi; [|by simplify_eq; split; [apply keeps_same|]].
    apply bind_Ret_inv in Hact as ([self1 r]&Hl&Hs). simplify_eq. assert (t' ≠ t) by (intros ->; by eapply Hrel).
    pose proof (guard_token _ _ _ _ _ _ _ Hok Hi). split; [eapply unlock_keeps; [|exact Hl]; congruence|by apply other_guards].
  - apply bind_Ret_inv in Hact as ([self1 r]&Hl&Hs). simplify_eq. split; [by eapply group_close_keeps|done].
  - apply bind_Ret_inv in Hact as ([self1 r]&Hl&Hs). simplify_eq. split; [by eapply group_open_keeps|done].
  - apply bind_Ret_inv in Hact as ([self1 r]&Hl&Hs). simplify_eq. split; [by eapply group_shutdown_keeps|done].
  - apply bind_Ret_inv in Hact as ([[self1 out] nxt]&Hl&Hs). simplify_eq. split; [|done]. apply keeps_same.
    unfold poll in Hl. destruct self; simpl in *. apply bind_Ret_inv in Hl as ([[r' o'] n']&_&Hl). by simplify_eq.
Qed.

(** ** From the refusal to the release *)

Definition w_ok (n : nat) (w : World) : Prop := world_ok (Z.of_nat n) (w_group w) (w_guards w) (w_leaving w).

(** [m] sections from [w] on, none of which releases a guard of [t]. *)
Inductive before_release (t : Token) (w : World) : nat → World → Prop :=
| before_start : before_release t w 0 w
| before_section m w1 a w2 :
    before_release t w m w1 → allowed w1 a → (∀ i, a ≠ AUnlock t i) → act clock w1 a = Ret w2 →
    before_release t w (S m) w2.

Lemma before_release_keeps n t w m w' :
  w_ok n w → w_guards w t ≠ [] → before_release t w m w' → Z.of_nat (n + m) < u32_modulus →
  w_ok (n + m) w' ∧ w_guards w' t ≠ [] ∧ keeps t (w_group w) (w_group w').
Proof.
  intros Hok Hgs Hrun. induction Hrun as [|m w1 a w2 Hrun IH Hall Hrel Hact]; intros Hn.
  - rewrite Nat.add_0_r. split_and!; [done|done|by apply keeps_same].
  - destruct IH as (Hok1&Hgs1&Hk1); [lia|]. destruct w1 as [self1 gs1 lv1].
    pose proof (act_spec clock (n + m) self1 gs1 lv1 a Hok1 ltac:(lia) Hall) as Hok2. rewrite Hact in Hok2.
    destruct (act_keeps (Z.of_nat (n + m)) self1 gs1 lv1 t a w2 Hok1 ltac:(lia) Hall Hgs1 Hrel Hact) as [Hk2 Hgs2].
    split_and!; [by rewrite Nat.add_succ_r|done|].
    intros conn Hc. destruct (Hk1 conn Hc) as (c1&Hc1&?). destruct (Hk2 c1 Hc1) as (c2&?&?).
    exists c2. split; [done|set_solver].
Qed.

Lemma release_answers n w t i w' conn kind :
  w_ok n w → Z.of_nat n + 1 < u32_modulus → is_Some (w_guards w t !! i) →
  act clock w (AUnlock t i) = Ret w' → conns (w_group w) !! t = Some conn → kind ∈ reties conn →
  ∃ c conn', conns (w_group w') !! t = Some conn' ∧ conn_steps (wrapped conn) c ∧
    conn_steps (retry_effect kind c) (wrapped conn') ∧
    answered conn kind c (λ e, Readiness.schedule (readiness (w_group w')) !! e = Some None) (reties conn').
Proof.
  destruct w as [self gs lv]. intros Hok Hn [g Hg] Hact Hc Hk. simpl in *. rewrite Hg in Hact.
  pose proof (guard_token _ _ _ _ _ _ _ Hok Hg) as Htok. pose proof Hok as (_&Hconns&_).
  destruct (Hconns t conn Hc) as (Hinv&Hcnt&_).
  apply bind_Ret_inv in Hact as ([self' closed]&Hu&Hs). simplify_eq/=. unfold unlock_section in Hu.
  set (self1 := match unparkers self !! _ with Some _ => _ | None => self end) in Hu.
  assert (conns self1 = conns self) as Hc1 by (subst self1; destruct self as [? ? ? up]; simpl; by destruct (up !! _)).
  clearbody self1. apply bind_Ret_inv in Hu as (conn0&Hc0&Hu). 
  assert (conn0 = conn) as -> by (rewrite Hc1, Hc in Hc0; by simplify_eq/=).
  destruct (now clock self1) as [self2 at_] eqn:Hnow. apply bind_Ret_inv in Hu as ([[conn' r] cl]&Hu&Hs).
  assert (2 * Z.of_nat n + 1 < u64_modulus) as Hn64 by (unfold u32_modulus, u64_modulus in *; lia).
  pose proof (drop_spec conn (gs (lc_token (g_lock g))) i g (lc_send_done (g_lock g)) at_ (readiness self2) _ Hinv Hcnt Hn64 Hg) as Hwp.
  rewrite Hu in Hwp. destruct Hwp as (_&_&_&_&S1&S2&ids&Hpost). simplify_eq.
  destruct (up_answered _ _ _ _ _ _ _ _ _ _ Hpost kind Hk) as (c&Hst1&Hst2&Ha).
  exists c, conn'. split_and!; [destruct self2; simpl; by rewrite lookup_insert_eq|done|done|].
  assert (readiness (set_conn (set_readiness self2 r) (lc_token (g_lock g)) conn') = r) as -> by by destruct self2.
  eapply answered_mono; [reflexivity|exact Ha| |done]. intros e He. eapply unlock_ready; [done|set_solver].
Qed.

(** The group after the connection [t] refused a lock of this kind. *)
Definition queue_up self (t : Token) (kind : LocKind) : Group :=
  match conns self !! t with
  | Some conn => set_conn self t (set_reties conn ({[kind]} ∪ reties conn))
  | None => self
  end.

Lemma lock_refused n self gs lv t kind :
  world_ok n self gs lv → gs t ≠ [] → need_retry kind = true → kind ≠ LocReadLock →
  lock self t kind = Ret (queue_up self t kind, Err Busy) ∧
  ∃ conn, conns (queue_up self t kind) !! t = Some conn ∧ kind ∈ reties conn.
Proof.
  intros Hok Hgs Hneed Hk. destruct (guarded_held _ _ _ _ _ Hok Hgs) as (conn&Hc&Hheld).
  unfold lock, queue_up. rewrite Hc, try_lock_held, Hneed by done. split; [done|].
  eexists. destruct self; simpl in *. rewrite lookup_insert_eq. split; [reflexivity|]. destruct conn; simpl; set_solver.
Qed.

(** C4.  An operation that the group refuses is answered.  While a thread holds a guard of a
    connection, [stream_send] and [stream_recv] of other threads fail with [Busy], and their
    request is queued.  Whatever sections any threads run afterwards, the next release of a guard of the
    connection, by whoever holds one, answers the request: the data for [stream_recv] is announced by
    a [StreamRecv] event that is ready in the group, and for [stream_send] a [StreamSend]
    event is ready unless quiche has no room, in which case quiche has been asked to report the
    stream when it has.  The other kinds of requests are answered as for a single connection
    ([answered]). *)
Theorem refused_then_answered n w t kind :
  reachable clock n w → Z.of_nat n + 2 < u32_modulus → w_guards w t ≠ [] → need_retry kind = true → kind ≠ LocReadLock →
  let w0 := MkWorld (queue_up (w_group w) t kind) (w_guards w) (w_leaving w) in
  (∀ id buf fin, kind = LocStreamSend id (zlen buf) →
     stream_send clock (w_group w) t id buf fin = Ret (w_group w0, Err Busy)) ∧
  (∀ id buf, kind = LocStreamRecv id →
     stream_recv clock (w_group w) t id buf = Ret (w_group w0, buf, Err Busy)) ∧
  ∀ m w1 i w2,
    before_release t w0 m w1 → Z.of_nat (n + m) + 2 < u32_modulus →
    is_Some (w_guards w1 t !! i) → act clock w1 (AUnlock t i) = Ret w2 →
    ∃ conn c conn', conns (w_group w1) !! t = Some conn ∧ conns (w_group w2) !! t = Some conn' ∧
      conn_steps (wrapped conn) c ∧ conn_steps (retry_effect kind c) (wrapped conn') ∧
      answered conn kind c (λ e, Readiness.schedule (readiness (w_group w2)) !! e = Some None) (reties conn').
Proof.
  intros Hreach Hn Hgs Hneed Hk w0. pose proof (reachable_ok clock n w Hreach ltac:(lia)) as Hok.
  destruct (lock_refused _ _ _ _ _ kind Hok Hgs Hneed Hk) as [Hlock (conn&Hc&Hin)].
  split_and!.
  - intros id buf fin ->. unfold stream_send. by rewrite Hlock.
  - intros id buf ->. unfold stream_recv. by rewrite Hlock.
  - intros m w1 i w2 Hrun Hm Hi Hact.
    pose proof (lock_spec _ _ _ _ t kind Hok ltac:(lia)) as Hwp. rewrite Hlock in Hwp.
    destruct Hwp as [Hok0 _]; [unfold u32_modulus, u64_modulus in *; lia|by destruct kind|].
    assert (w_ok (S n) w0) as Hok0' by (unfold w_ok; by rewrite Nat2Z.inj_succ).
    destruct (before_release_keeps (S n) t w0 m w1 Hok0' Hgs Hrun ltac:(lia)) as (Hok1&_&Hkeep).
    destruct (Hkeep conn Hc) as (conn1&Hc1&Hsub).
    destruct (release_answers (S n + m) w1 t i w2 conn1 kind Hok1 ltac:(lia) Hi Hact Hc1 (Hsub _ Hin))
      as (c&conn2&?&?&?&?). by exists conn1, c, conn2.
Qed.
End retry.

(** * Witness: a reader is refused while another one holds a guard *)

Section witness.
Import QueueReference QuicheReference.
#[local] Instance checked : OverflowChecks := true.

Lemma locked_reachable : reachable demo_clock 2 demo_w2.
Proof.
  apply (reachable_step _ 1 demo_w1 (ALock (MkToken 0) (LocStreamRecv 4)));
    [|discriminate|apply step_ret; vm_compute; reflexivity].
  apply (reachable_step _ 0 init (ARegister toy_server_conn));
    [apply reachable_init|reflexivity|apply step_ret; vm_compute; reflexivity].
Qed.

Definition refused_w : world :=
  MkWorld (queue_up (w_group demo_w2) (MkToken 0) (LocStreamRecv 8)) (w_guards demo_w2) (w_leaving demo_w2).

(** The events are polled, then the guard is dropped: the request is announced. *)
Example refused_then_answered_witness :
  stream_recv demo_clock (w_group demo_w2) (MkToken 0) 8 [x00] = Ret (w_group refused_w, [x00], Err Busy) ∧
  ∃ conn, conns (w_group (step refused_w APoll)) !! MkToken 0 = Some conn ∧
    Readiness.schedule (readiness (w_group (step (step refused_w APoll) (AUnlock (MkToken 0) 0))))
      !! event conn EvStreamRecv false 8 = Some None.
Proof.
  destruct (refused_then_answered demo_clock 2 demo_w2 (MkToken 0) (LocStreamRecv 8) locked_reachable)
    as (_&Hrecv&Hrel); [reflexivity|discriminate|reflexivity|discriminate|].
  split; [by apply Hrecv|].
  destruct (Hrel 1%nat (step refused_w APoll) 0%nat (step (step refused_w APoll) (AUnlock (MkToken 0) 0)))
    as (conn&c&conn'&Hc&_&_&_&Ha).
  - apply (before_section _ _ _ 0 refused_w APoll); [apply before_start|exact I|discriminate|].
    apply step_ret. vm_compute. reflexivity.
  - reflexivity.
  - vm_compute. eexists. reflexivity.
  - apply step_ret. vm_compute. reflexivity.
  - exists conn. split; [exact Hc|exact Ha].
Defined.
End witness.
End GroupRetry.
