(* ===== verification/GroupEvents.v ===== *)
(** The events that a group announces: its methods never make anyone wait for a read lock, so
    no [ReadLock] event is ever announced, whatever the interleaving. *)
From stdpp Require Import functions.
From S2P Require Import Prelude Api EventQueue QuicheApi QuicheReference Utils Connection ConnFacts.
From S2P Require Import ConnLock Acceptor Group GroupSafety.
Import QuicConn Acceptor.

Module GroupEvents.

Section events.
Context `{QuicheEndpoint} `{!PriorityQueue Event} `{!PriorityQueueLaws Event} `{HashIter} `{OverflowChecks}.
Abbreviation Readiness := Readiness.Readiness.
Implicit Types (self : QuicConn) (r : Readiness).

(** No read lock is waited for, none is announced. *)
Definition quiet_conn self : Prop := LocReadLock ∉ reties self.
Definition quiet_queue r : Prop :=
  ∀ e, is_Some (Readiness.schedule r !! e) → ev_kind e ≠ EvReadLock.
Definition quiet self r : Prop := quiet_conn self ∧ quiet_queue r.

(** ** The readiness queue *)

Lemma insert_quiet r e o : quiet_queue r → ev_kind e ≠ EvReadLock → quiet_queue (Readiness.insert r e o).
Proof.
  intros Hr He e'. rewrite Readiness.insert_schedule.
  intros [<-|[_ ?]]%lookup_insert_is_Some; [done|by apply Hr].
Qed.

Lemma remove_quiet r e : quiet_queue r → quiet_queue (Readiness.remove r e).
Proof. intros Hr e'. rewrite Readiness.remove_schedule. intros [_ ?]%lookup_delete_is_Some. by apply Hr. Qed.

Lemma notify_quiet self self' r k b i :
  quiet self' r → k ≠ EvReadLock → quiet self' (notify r (event self k b i)).
Proof. intros [? ?] ?. split; [done|]. by apply insert_quiet. Qed.

Lemma default_quiet : quiet_queue Readiness.default.
Proof. intros e [o Ho]. destruct Readiness.default_schedule as [Hs _]. by rewrite Hs, lookup_empty in Ho. Qed.

Lemma poll_quiet r threshold now :
  quiet_queue r → yields (Readiness.poll r [] threshold now) (λ '(r', out, _),
    quiet_queue r' ∧ Forall (λ e, ev_kind e ≠ EvReadLock) out).
Proof.
  intros Hr. eapply yields_mono; [apply wp_yields, Readiness.poll_late|].
  intros [[r' out] next] (late&->&_&He&Hin&Hm&_).
  assert (∀ e, e ∈ Readiness.events r ∨ is_Some (pq_map (Readiness.delayed r) !! e) → ev_kind e ≠ EvReadLock) as Hq.
  { intros e He'. apply Hr. rewrite Readiness.lookup_schedule. case_decide; [done|].
    destruct He' as [?|[p ->]]; [done|]. done. }
  split.
  - intros e. destruct (Readiness.schedule_late r' _ He Hm) as [-> _]. rewrite lookup_fmap, fmap_is_Some.
    intros [p [Hp _]%map_lookup_filter_Some]. apply Hq. eauto.
  - apply Forall_forall. intros e. rewrite elem_of_app, elem_of_hash_iter, Hin.
    intros [?|(p&?&_)]; apply Hq; eauto.
Qed.

(** ** The handlers of [unlock] *)

Lemma set_wrapped_quiet self r c : quiet (set_wrapped self c) r ↔ quiet self r.
Proof. by destruct self. Qed.

Lemma retry_event_quiet self r ev :
  quiet self r → ev ≠ LocReadLock →
  yields (retry_event self r ev) (λ '(self', r'), quiet self' r').
Proof.
  intros Hq Hne. destruct ev as [| | |app err reason|k|id len|id|id err|]; simpl; try done.
  - by apply notify_quiet.
  - destruct (q_close _ _ _ _) as [c res]. destruct (done_ok res); simpl; [by apply set_wrapped_quiet|].
    apply notify_quiet; [by apply set_wrapped_quiet|done].
  - case_bool_decide; simpl; [by apply notify_quiet; [|destruct k]|].
    destruct Hq as [Hc ?]. split; [|done]. unfold quiet_conn in *. destruct self; simpl in *. set_solver.
  - destruct (q_stream_writable _ _ _) as [c [[]|e]]; simpl;
      rewrite <-?(set_wrapped_quiet self r c) in Hq; [|done|]; by apply notify_quiet.
  - by apply notify_quiet.
  - destruct (stream_close_prv _ _ _) as [c res]. by apply set_wrapped_quiet.
Qed.

Lemma retry_all_quiet l self r :
  quiet self r → LocReadLock ∉ l → yields (retry_all self r l) (λ '(self', r'), quiet self' r').
Proof.
  revert self r. induction l as [|ev l IH]; intros self r Hq Hl; simpl; [done|].
  apply not_elem_of_cons in Hl as [Hev Hl]. apply yields_bind.
  eapply yields_mono; [by apply retry_event_quiet|]. intros [self' r'] Hq'. by apply IH.
Qed.

Lemma handle_retry_events_quiet self r :
  quiet self r → yields (handle_retry_events self r) (λ '(self', r'), quiet self' r').
Proof.
  intros [Hc Hr]. apply retry_all_quiet; [|by rewrite elem_of_hash_iter].
  split; [|done]. unfold quiet_conn. destruct self; simpl. set_solver.
Qed.

Lemma handle_accept_quiet self r id :
  quiet self r → let '(self', r') := handle_accept self id r in quiet self' r'.
Proof.
  intros Hq. assert (∀ k, quiet (set_seen self k id) r) as Hs by (intros []; by destruct self).
  unfold handle_accept. repeat case_match; simplify_eq; try (by apply notify_quiet).
Qed.

Lemma writable_loop_quiet fuel self r :
  quiet self r → yields (writable_loop fuel self r) (λ '(self', r'), quiet self' r').
Proof.
  revert self r. induction fuel as [|fuel IH]; intros self r Hq; simpl;
    destruct (q_stream_writable_next _) as [c [id|]]; simpl; try (by apply set_wrapped_quiet); [done|].
  apply IH. apply notify_quiet; [by apply set_wrapped_quiet|done].
Qed.

Lemma readable_loop_quiet fuel self r :
  quiet self r → yields (readable_loop fuel self r) (λ '(self', r'), quiet self' r').
Proof.
  revert self r. induction fuel as [|fuel IH]; intros self r Hq; simpl;
    destruct (q_stream_readable_next _) as [c [id|]]; simpl; try (by apply set_wrapped_quiet); [done|].
  rewrite <-(set_wrapped_quiet self r c) in Hq. destruct (negb _).
  - pose proof (handle_accept_quiet _ _ id Hq) as Ha. destruct (handle_accept _ _ _). by apply IH.
  - apply IH. by apply notify_quiet.
Qed.

Lemma handle_stream_state_changed_quiet self r :
  quiet self r → yields (handle_stream_state_changed self r) (λ '(self', r'), quiet self' r').
Proof.
  intros Hq. apply yields_bind. eapply yields_mono; [by apply writable_loop_quiet|].
  intros [self' r'] Hq'. by apply readable_loop_quiet.
Qed.

Lemma handle_send_quiet self send_done now r : quiet self r → quiet self (handle_send self send_done now r).
Proof. intros [? ?]. split; [done|]. unfold handle_send. case_match; [by apply remove_quiet|by apply insert_quiet]. Qed.

Lemma handle_state_changed_quiet self r :
  quiet self r → let '(self', r', _) := handle_state_changed self r in quiet self' r'.
Proof.
  intros Hq. assert (quiet (set_established self) r) as He by by destruct self.
  unfold handle_state_changed. repeat case_match; simplify_eq; repeat apply notify_quiet; done.
Qed.

Lemma release_quiet self n r : quiet self r → yields (release self n) (λ self', quiet self' r).
Proof.
  intros Hq. assert (∀ l a b, quiet (set_lock self l a b) r) as Hs by (intros; by destruct self).
  unfold release. do 2 (apply yields_bind, yields_any; intros _).
  case_bool_decide; apply yields_bind, yields_any; intros m; [|apply Hs].
  case_bool_decide; [|apply Hs]. apply yields_bind, yields_any. intros c. apply Hs.
Qed.

Lemma unlock_quiet self n send_done now r :
  quiet self r → yields (unlock self n send_done now r) (λ '(self', r', _), quiet self' r').
Proof.
  intros Hq. apply yields_bind. eapply yields_mono; [by apply release_quiet|].
  intros self1 Hq1. apply yields_bind. eapply yields_mono; [by apply handle_retry_events_quiet|].
  intros [self2 r2] Hq2. apply yields_bind. eapply yields_mono; [by apply handle_stream_state_changed_quiet|].
  intros [self3 r3] Hq3. by apply handle_state_changed_quiet, handle_send_quiet.
Qed.

(** ** The operations of a connection *)

(** A read lock is only asked for when nobody holds the lock. *)
Lemma try_lock_quiet self kind :
  quiet_conn self → kind ≠ LocReadLock ∨ locker self = LocNone →
  yields (try_lock self kind) (λ '(self', _), quiet_conn self').
Proof.
  intros Hq Hk. assert (∀ l a b, quiet_conn (set_lock self l a b)) as Hs by (intros; by destruct self).
  assert (kind ≠ LocReadLock → quiet_conn (set_reties self ({[kind]} ∪ reties self))) as Hre.
  { intros. unfold quiet_conn in *. destruct self; simpl in *. set_solver. }
  unfold try_lock, try_lock_prv. destruct (locker self) eqn:Hl;
    (case_bool_decide; [by do 2 (apply yields_bind, yields_any; intros ?); apply Hs|]);
    simpl; try done; (destruct Hk; [|done]); by destruct (need_retry kind); [apply Hre|].
Qed.

Lemma close_quiet self app err reason now r :
  quiet self r → yields (close self app err reason now r) (λ '(self', r', _), quiet self' r').
Proof.
  intros [Hc Hr]. apply yields_bind. eapply yields_mono; [apply try_lock_quiet; [done|by left]|].
  intros [self1 locked] Hc1. destruct (would_block locked) as [[ctx|e]|]; try by split.
  destruct (q_close _ _ _ _) as [c res]. apply yields_bind.
  eapply yields_mono; [by apply unlock_quiet, set_wrapped_quiet|]. by intros [[self2 r2] b].
Qed.

Lemma stream_open_quiet self kind nb now r :
  quiet self r → yields (stream_open self kind nb now r) (λ '(self', r', _), quiet self' r').
Proof.
  intros [Hc Hr]. apply yields_bind. eapply yields_mono; [apply try_lock_quiet; [done|by left]|].
  intros [self1 [ctx|e]] Hc1; [|by split]. apply yields_bind.
  assert (yields (stream_open_prv self1 kind) (λ '(self2, _), quiet_conn self2)) as Ho.
  { unfold stream_open_prv. case_bool_decide; [done|]. apply yields_bind, yields_any. intros next.
    destruct (q_stream_priority _ _ _ _). destruct self1, kind; done. }
  eapply yields_mono; [exact Ho|]. intros [self2 res] Hc2.
  assert (quiet_conn (set_reties self2 ({[LocStreamOpen kind]} ∪ reties self2))) as Hc3.
  { unfold quiet_conn in *. destruct self2; simpl in *. set_solver. }
  destruct res as [id|[]]; apply yields_bind; (eapply yields_mono; [by apply unlock_quiet|]);
    by intros [[self3 r3] b].
Qed.

Lemma stream_close_quiet self id err now r :
  quiet self r → yields (stream_close self id err now r) (λ '(self', r', _), quiet self' r').
Proof.
  intros [Hc Hr]. apply yields_bind. eapply yields_mono; [apply try_lock_quiet; [done|by left]|].
  intros [self1 locked] Hc1. destruct (would_block locked) as [[ctx|e]|]; try by split.
  destruct (stream_close_prv _ _ _) as [c res]. apply yields_bind.
  eapply yields_mono; [by apply unlock_quiet, set_wrapped_quiet|]. by intros [[self2 r2] b].
Qed.

Lemma enroll_quiet t (c : Connection) now r :
  quiet_queue r → yields (Group.enroll t c now r) (λ '(self', r', _), quiet self' r').
Proof.
  intros Hr. apply yields_bind. eapply yields_mono.
  { apply try_lock_quiet; [|right]; by unfold new, quiet_conn; destruct (is_server c). }
  intros [self1 [ctx|e]] Hc1; [|by split]. apply yields_bind.
  eapply yields_mono; [by apply unlock_quiet|]. by intros [[self2 r2] b].
Qed.
End events.

(** * The group *)

Section group.
Import Group.
Context `{QuicheEndpoint} `{!PriorityQueue Event} `{!PriorityQueueLaws Event} `{HashIter} `{OverflowChecks}.
Context {Unparker : Type} (clock : nat → Instant).
Abbreviation Group := (@Group _ _ Unparker).
Implicit Types (self : Group) (conn : QuicConn).

Definition quiet_conns self : Prop := ∀ t conn, conns self !! t = Some conn → quiet_conn conn.
Definition quiet_group self : Prop := quiet_conns self ∧ quiet_queue (readiness self).

Lemma new_quiet : quiet_group new_group.
Proof. split; [done|apply default_quiet]. Qed.

(** A section that works on one connection. *)
Lemma set_conn_quiet self t conn r :
  quiet_conns self → quiet conn r → quiet_group (set_conn (set_readiness self r) t conn).
Proof.
  intros Hs [Hc Hr]. destruct self; split; [|done].
  intros t' conn'. simpl. intros [[<- <-]|[_ ?]]%lookup_insert_Some; [done|by eapply Hs].
Qed.

Lemma put_conn_quiet self t conn :
  quiet_group self → quiet_conn conn → quiet_group (set_conn self t conn).
Proof.
  intros [Hs Hr] Hc. assert (set_conn self t conn = set_conn (set_readiness self (readiness self)) t conn) as ->
    by by destruct self.
  by apply set_conn_quiet.
Qed.

(** Fields that do not matter. *)
Lemma same_quiet self self' :
  conns self' = conns self → readiness self' = readiness self → quiet_group self → quiet_group self'.
Proof. unfold quiet_group, quiet_conns. by intros -> ->. Qed.

Lemma now_quiet self : quiet_group self → quiet_group (now clock self).1.
Proof. by destruct self. Qed.
Lemma unpark_quiet self u : quiet_group self → quiet_group (unpark self u).
Proof. by destruct self. Qed.
Lemma set_unparkers_quiet self u : quiet_group self → quiet_group (set_unparkers self u).
Proof. by destruct self. Qed.

Lemma register_quiet self c : quiet_group self → yields (register clock self c) (λ '(self', _), quiet_group self').
Proof.
  intros [Hc Hr]. unfold register. apply yields_bind, yields_any. intros [t next].
  apply yields_bind, yields_any. intros _. destruct self as [tn cs r up sc unp k]; simpl in *.
  apply yields_bind. eapply yields_mono; [by apply enroll_quiet|].
  intros [[conn r'] [u|e]] Hq; simpl; [|by split].
  by apply (set_conn_quiet (MkGroup next cs r up _ unp (S k)) t conn r').
Qed.

Lemma remove_conn_quiet self t : quiet_group self → quiet_group (remove_conn self t).1.
Proof.
  intros [Hc Hr]. unfold remove_conn. destruct (conns self !! t) as [conn|]; [|by split].
  destruct self; split; [|done]. intros t' conn'. simpl. intros [_ ?]%lookup_delete_Some. by eapply Hc.
Qed.

Lemma forget_scid_quiet self scid t : quiet_group self → yields (forget_scid self scid t) quiet_group.
Proof. intros Hq. apply yields_bind, yields_any. intros _. by destruct self. Qed.

Lemma deregister_quiet self t : quiet_group self → yields (deregister self t) (λ '(self', _), quiet_group self').
Proof.
  intros Hq%(remove_conn_quiet _ t). unfold deregister. destruct (remove_conn self t) as [self1 [c|e]]; [|done].
  apply yields_bind. by eapply yields_mono; [by apply forget_scid_quiet|].
Qed.

Lemma lock_quiet self t kind :
  quiet_group self → kind ≠ LocReadLock → yields (lock self t kind) (λ '(self', _), quiet_group self').
Proof.
  intros Hq Hk. unfold lock. destruct (conns self !! t) as [conn|] eqn:Ht; [|done].
  apply yields_bind. eapply yields_mono; [apply try_lock_quiet; [by eapply Hq|by left]|].
  intros [conn' r] Hc. by apply put_conn_quiet.
Qed.

Lemma recv_lock_at_quiet self t u :
  quiet_group self → yields (recv_lock_at self t u) (λ '(self', _), quiet_group self').
Proof.
  intros Hq. unfold recv_lock_at. destruct (conns self !! t) as [conn|] eqn:Ht; [|done].
  apply yields_bind. eapply yields_mono; [apply try_lock_quiet; [by eapply Hq|by left]|].
  intros [conn' [ctx|e]] Hc; simpl; [by apply put_conn_quiet|].
  destruct u; [apply set_unparkers_quiet|]; by apply put_conn_quiet.
Qed.

Lemma recv_lock_quiet self scid u :
  quiet_group self → yields (recv_lock self scid u) (λ '(self', _), quiet_group self').
Proof. intros Hq. unfold recv_lock. destruct (scids self !! scid); [by apply recv_lock_at_quiet|done]. Qed.

Lemma with_guard_quiet {A} self ctx (f : Connection → Connection * A) :
  quiet_group self → yields (with_guard self ctx f) (λ '(self', _), quiet_group self').
Proof.
  intros Hq. unfold with_guard. destruct (conns self !! lc_token ctx) as [conn|] eqn:Ht; [|done]. simpl.
  destruct (f (wrapped conn)) as [c a]. simpl. apply put_conn_quiet; [done|].
  apply Hq in Ht. by destruct conn.
Qed.

(** A section that runs [op] on a connection, on the group's queue. *)
Lemma section_quiet {A} self t conn (op : Instant → Readiness.Readiness → exec (QuicConn * Readiness.Readiness * A)) :
  quiet_group self → conns self !! t = Some conn →
  (∀ now r, quiet conn r → yields (op now r) (λ '(conn', r', _), quiet conn' r')) →
  yields (let '(self, now) := now clock self in
          '(conn, r, a) ← op now (readiness self);
          Ret (set_conn (set_readiness self r) t conn, a)) (λ '(self', _), quiet_group self').
Proof.
  intros [Hc Hr] Ht Hop. destruct self as [tn cs r up sc unp k]; simpl in *. apply yields_bind.
  eapply yields_mono; [apply Hop; by split; [eapply Hc|]|].
  intros [[conn' r'] a] Hq. by apply (set_conn_quiet (MkGroup tn cs r up sc unp (S k)) t conn' r').
Qed.

Lemma unlock_section_quiet self ctx :
  quiet_group self → yields (unlock_section clock self ctx) (λ '(self', _), quiet_group self').
Proof.
  intros Hq. unfold unlock_section. set (self1 := match unparkers self !! _ with Some _ => _ | None => self end).
  assert (quiet_group self1) as Hq1.
  { subst self1. case_match; [by apply unpark_quiet, set_unparkers_quiet|done]. }
  clearbody self1. destruct (conns self1 !! lc_token ctx) as [conn|] eqn:Ht; [|done]. cbn [unwrap mbind exec_bind].
  apply (section_quiet self1 (lc_token ctx) conn); [done..|]. intros. by apply unlock_quiet.
Qed.

Lemma group_unlock_quiet self ctx :
  quiet_group self → yields (unlock clock self ctx) quiet_group.
Proof.
  intros Hq. apply yields_bind. eapply yields_mono; [by apply unlock_section_quiet|].
  intros [self1 []] Hq1; [|done]. apply yields_bind.
  eapply yields_mono; [by apply deregister_quiet|]. by intros [self2 r] Hq2.
Qed.

(** ** Operations under one section *)

Lemma group_close_quiet self t app err reason :
  quiet_group self → yields (close clock self t app err reason) (λ '(self', _), quiet_group self').
Proof.
  intros Hq. unfold close. destruct (conns self !! t) as [conn|] eqn:Ht; [|done].
  apply (section_quiet self t conn (QuicConn.close conn app err reason)); [done..|]. intros. by apply close_quiet.
Qed.

Lemma group_open_quiet self t kind nb :
  quiet_group self → yields (stream_open clock self t kind nb) (λ '(self', _), quiet_group self').
Proof.
  intros Hq. unfold stream_open. destruct (conns self !! t) as [conn|] eqn:Ht; [|done].
  apply (section_quiet self t conn (QuicConn.stream_open conn kind nb)); [done..|]. intros. by apply stream_open_quiet.
Qed.

Lemma group_shutdown_quiet self t id err :
  quiet_group self → yields (stream_shutdown clock self t id err) (λ '(self', _), quiet_group self').
Proof.
  intros Hq. unfold stream_shutdown. destruct (conns self !! t) as [conn|] eqn:Ht; [|done].
  apply (section_quiet self t conn (QuicConn.stream_close conn id err)); [done..|]. intros. by apply stream_close_quiet.
Qed.

Lemma group_poll_quiet self :
  quiet_group self → yields (poll clock self []) (λ '(self', out, _),
    quiet_group self' ∧ Forall (λ e, ev_kind e ≠ EvReadLock) out).
Proof.
  intros [Hc Hr]. destruct self as [tn cs r up sc unp k]. apply yields_bind.
  eapply yields_mono; [by apply poll_quiet|]. intros [[r' out] next] [Hr' Hout]. by split; [split|].
Qed.

(** ** Transport: the calls that [poll] of the event loop makes *)

Lemma recv_with_connection_id_quiet self scid buf info u :
  quiet_group self →
  yields (recv_with_connection_id clock self scid buf info u) (λ '(self', _, _), quiet_group self').
Proof.
  intros Hq. apply yields_bind. eapply yields_mono; [by apply recv_lock_quiet|].
  intros [self1 [[t ctx]|e]] Hq1; [|done]. apply yields_bind. eapply yields_mono; [by apply with_guard_quiet|].
  intros [self2 [b r]] Hq2. apply yields_bind. by eapply yields_mono; [by apply group_unlock_quiet|].
Qed.

Lemma send_quiet self t buf :
  quiet_group self → yields (send clock self t buf) (λ '(self', _, _), quiet_group self').
Proof.
  intros Hq. apply yields_bind. eapply yields_mono; [by apply lock_quiet|].
  intros [self1 [ctx|e]] Hq1; [|done]. pose proof (now_quiet self1 Hq1) as Hq2.
  destruct (now clock self1) as [self2 at_]. apply yields_bind. eapply yields_mono; [by apply with_guard_quiet|].
  intros [self3 [b r]] Hq3. apply yields_bind. by eapply yields_mono; [by apply group_unlock_quiet|].
Qed.

Lemma no_reply_quiet self buf info n :
  quiet_group self → let '(self', _, _) := no_reply clock self buf info n in quiet_group self'.
Proof. by destruct self. Qed.

Lemma send_reply_quiet self t buf info :
  quiet_group self → yields (send_reply clock self t buf info) (λ '(self', _, _), quiet_group self').
Proof.
  intros Hq. apply yields_bind. eapply yields_mono; [by apply send_quiet|].
  intros [[self1 b] r] Hq1. pose proof (no_reply_quiet self1 b info 0 Hq1).
  by destruct r as [?|[]].
Qed.

Lemma accept_datagram_quiet self c dcid buf n info :
  quiet_group self →
  yields (accept_datagram clock self c dcid buf n info) (λ '(self', _, _), quiet_group self').
Proof.
  intros Hq. apply yields_bind. eapply yields_mono; [by apply register_quiet|].
  intros [self1 [t|e]] Hq1; [|done]. apply yields_bind, yields_any. intros data.
  apply yields_bind. eapply yields_mono; [by apply recv_with_connection_id_quiet|].
  intros [[self2 b] r] Hq2. destruct r as [?|[]]; try done. by apply send_reply_quiet.
Qed.

Lemma recv_with_acceptor_quiet self a buf n info u rand_bytes sys_now :
  quiet_group self →
  yields (recv_with_acceptor clock self a buf n info u rand_bytes sys_now) (λ '(self', _, _, _), quiet_group self').
Proof.
  intros Hq. unfold recv_with_acceptor. apply yields_bind, yields_any. intros data.
  destruct (header_from_slice data) as [d [h|e]]; [|done]. apply yields_bind.
  eapply yields_mono; [by apply recv_with_connection_id_quiet|]. intros [[self1 b] r] Hq1.
  destruct r as [[t ?]|[]]; try done.
  - apply yields_bind. eapply yields_mono; [by apply send_reply_quiet|]. by intros [[self2 b2] r2].
  - apply yields_bind, yields_any. intros [[a1 b1] [[size|c]|e]]; [| |done].
    + pose proof (no_reply_quiet self1 b1 info size Hq1). by destruct (no_reply _ _ _ _ _) as [[??]?].
    + apply yields_bind. eapply yields_mono; [by apply accept_datagram_quiet|]. by intros [[self2 b2] r2].
Qed.

(** ** Interleavings *)

(** The other threads run sections of the group's methods, none of which locks for reading
    but [register], with whatever guards they hold. *)
Definition method_section (a : @GroupSafety.action _ Unparker) : Prop :=
  match a with GroupSafety.ALock _ kind => kind ≠ LocReadLock | _ => True end.
Definition sections self self' : Prop :=
  ∃ gs lv gs' lv', rtc (λ w w', ∃ a, method_section a ∧ GroupSafety.act clock w a = Ret w')
    (GroupSafety.MkWorld self gs lv) (GroupSafety.MkWorld self' gs' lv').

Lemma act_quiet self gs lv a :
  quiet_group self → method_section a →
  yields (GroupSafety.act clock (GroupSafety.MkWorld self gs lv) a) (λ w, quiet_group (GroupSafety.w_group w)).
Proof.
  intros Hq Ha.
  destruct a as [c|t|scid|t kind|t u|t i f|t i|t i|t app err reason|t kind nb|t id err|]; simpl in *.
  7: done.
  6, 7: destruct (gs t !! i); [|done].
  3: destruct (lv !! scid); [|done].
  2: { pose proof (remove_conn_quiet self t Hq). by destruct (remove_conn self t) as [? [?|?]]. }
  all: apply yields_bind; eapply yields_mono.
  1: by apply register_quiet. 2: by apply forget_scid_quiet. 3: by apply lock_quiet.
  4: by apply recv_lock_at_quiet. 5: by apply with_guard_quiet. 6: by apply unlock_section_quiet.
  7: by apply group_close_quiet. 8: by apply group_open_quiet. 9: by apply group_shutdown_quiet.
  10: by apply group_poll_quiet.
  all: try (by intros [self' r]); try done. by intros [[self' out] next] [? _].
Qed.

Lemma sections_quiet self self' : sections self self' → quiet_group self → quiet_group self'.
Proof.
  intros (gs&lv&gs'&lv'&Hs).
  change (quiet_group (GroupSafety.w_group (GroupSafety.MkWorld self gs lv)) →
    quiet_group (GroupSafety.w_group (GroupSafety.MkWorld self' gs' lv'))).
  induction Hs as [|[g1 gs1 lv1] w2 w3 (a&Ha&Hact) _ IH]; [done|]. intros Hq. apply IH.
  by apply (yields_Ret _ _ _ (act_quiet g1 gs1 lv1 a Hq Ha)).
Qed.
End group.
End GroupEvents.
