(* ===== verification/UdpSocket.v ===== *)
(** The socket of [crates/mio/src/udp.rs]: datagrams that the operating system does not take
    at once wait in a bounded queue.  [mio::net::UdpSocket] is an interface. *)
From S2P Require Import Prelude Api QuicheApi FixedBuf.

(** * The operating system's socket *)

Class UdpOps := {
  UdpSocket : Type;
  udp_local_addr : UdpSocket → io_result SocketAddr;
  udp_send_to : UdpSocket → list byte → SocketAddr → UdpSocket * io_result Z;
  (* the buffer is written from its start *)
  udp_recv_from : UdpSocket → list byte → UdpSocket * list byte * io_result (Z * SocketAddr);
  (* a bound on how many datagrams the socket delivers before it would block; it only
     measures loops *)
  udp_backlog : UdpSocket → nat;
}.

(** The documented behaviour of a datagram socket.  [udp_sent] observes the datagrams that it
    has taken over: a successful [send_to] takes the whole datagram, a failed one none of it. *)
Class UdpLaws `{UdpOps} := {
  udp_sent : UdpSocket → list (list byte * SocketAddr);
  udp_sent_ok s data target s' n :
    udp_send_to s data target = (s', Ok n) → udp_sent s' = udp_sent s ++ [(data, target)];
  udp_sent_err s data target s' e :
    udp_send_to s data target = (s', Err e) → udp_sent s' = udp_sent s;
  udp_sent_recv s buf : udp_sent (udp_recv_from s buf).1.1 = udp_sent s;
  udp_local_send s data target :
    udp_local_addr (udp_send_to s data target).1 = udp_local_addr s;
  udp_local_recv s buf : udp_local_addr (udp_recv_from s buf).1.1 = udp_local_addr s;
  udp_recv_length s buf : length (udp_recv_from s buf).1.2 = length buf;
  udp_recv_bound s buf s' buf' n from :
    udp_recv_from s buf = (s', buf', Ok (n, from)) → 0 ≤ n ≤ zlen buf;
  udp_backlog_send s data target :
    (udp_backlog (udp_send_to s data target).1 ≤ udp_backlog s)%nat;
  udp_backlog_recv s buf :
    (udp_backlog (udp_recv_from s buf).1.1 ≤ udp_backlog s)%nat;
  udp_backlog_recv_ok s buf s' buf' p :
    udp_recv_from s buf = (s', buf', Ok p) → (udp_backlog s' < udp_backlog s)%nat;
}.

Module QuicSocket.
Import ArrayBuf.

(** [type QuicBuf = ArrayBuf<1600>], [crates/mio/src/buf.rs]. *)
Definition QUIC_BUF_LEN : Z := 1600.
Abbreviation QuicBuf := ArrayBuf.ArrayBuf (only parsing).

Section model.
Context `{UdpOps}.

Inductive QuicSocketError :=
| IsFull (buf : QuicBuf)
| IO (error : ErrorKind).

(** [impl From<QuicSocketError> for std::io::Error]. *)
Definition to_io_error (value : QuicSocketError) : ErrorKind :=
  match value with IsFull _ => OtherKind | IO error => error end.

(** [struct QuicSocket] without its two traffic counters. *)
Record QuicSocket := MkQuicSocket {
  sending_buffer_limits : Z;
  sending : list (QuicBuf * SocketAddr);
  socket : UdpSocket;
  local_addr : SocketAddr;
}.

Definition set_queue (self : QuicSocket) (q : list (QuicBuf * SocketAddr)) (s : UdpSocket) :
    QuicSocket := MkQuicSocket (sending_buffer_limits self) q s (local_addr self).

Definition new (socket : UdpSocket) (sending_buffer_limits : Z) :
    result QuicSocket QuicSocketError :=
  match udp_local_addr socket with
  | Err e => Err (IO e)
  | Ok local_addr => Ok (MkQuicSocket sending_buffer_limits [] socket local_addr)
  end.

Definition is_full (self : QuicSocket) : bool :=
  bool_decide (zlen (sending self) = sending_buffer_limits self).

(** The loop of [flush]: a datagram leaves the queue after it was sent. *)
Fixpoint flush_loop (sending : list (QuicBuf * SocketAddr)) (socket : UdpSocket) :
    exec (list (QuicBuf * SocketAddr) * UdpSocket * result unit QuicSocketError) :=
  match sending with
  | [] => Ret ([], socket, Ok ())
  | (buf, target) :: rest =>
      data ← readable_buf buf;
      match udp_send_to socket data target with
      | (socket, Ok _) => flush_loop rest socket
      | (socket, Err e) => Ret (sending, socket, Err (IO e))
      end
  end.

Definition flush (self : QuicSocket) : exec (QuicSocket * result unit QuicSocketError) :=
  '(q, s, r) ← flush_loop (sending self) (socket self);
  Ret (set_queue self q s, r).

(** [_ = self.flush().map_err(std::io::Error::from).would_block()?]: what [?] passes on. *)
Definition flush_error (r : result unit QuicSocketError) : option ErrorKind :=
  match io_would_block (map_err to_io_error r) with
  | Ready (Err e) => Some e
  | _ => None
  end.

Definition enqueue (self : QuicSocket) (buf : QuicBuf) (target : SocketAddr) :
    exec (QuicSocket * result Z QuicSocketError) :=
  if is_full self then Ret (self, Err (IsFull buf)) else
  let self := set_queue self (sending self ++ [(buf, target)]) (socket self) in
  assert (negb (bool_decide (sending_buffer_limits self < zlen (sending self))));;
  '(self, r) ← flush self;
  match flush_error r with
  | Some e => Ret (self, Err (IO e))
  | None => Ret (self, Ok (zlen (sending self)))
  end.

Definition send_to (self : QuicSocket) (buf : QuicBuf) (target : SocketAddr) :
    exec (QuicSocket * result Z QuicSocketError) :=
  if is_full self then
    '(self, r) ← flush self;
    match flush_error r with
    | Some e => Ret (self, Err (IO e))
    | None => enqueue self buf target
    end
  else enqueue self buf target.

Definition recv_from (self : QuicSocket) (buf : QuicBuf) :
    exec (QuicSocket * QuicBuf * result SocketAddr QuicSocketError) :=
  let '(s, b, r) := udp_recv_from (socket self) (writable_buf buf) in
  let self := set_queue self (sending self) s in
  let buf := set_writable_buf buf b in
  match r with
  | Err e => Ret (self, buf, Err (IO e))
  | Ok (read_size, from) =>
      buf ← writable_consume QUIC_BUF_LEN buf read_size;
      Ret (self, buf, Ok from)
  end.
End model.

(** * Sequences of calls *)

Section calls.
Context `{UdpOps}.

Inductive call :=
| CSend (buf : QuicBuf) (target : SocketAddr)
| CFlush
| CRecv (buf : QuicBuf).

Inductive answer :=
| ASend (r : result Z QuicSocketError)
| AFlush (r : result unit QuicSocketError)
| ARecv (buf : QuicBuf) (r : result SocketAddr QuicSocketError).

Definition perform (self : QuicSocket) (c : call) : exec (QuicSocket * answer) :=
  match c with
  | CSend buf target => '(self, r) ← send_to self buf target; Ret (self, ASend r)
  | CFlush => '(self, r) ← flush self; Ret (self, AFlush r)
  | CRecv buf => '(self, buf, r) ← recv_from self buf; Ret (self, ARecv buf r)
  end.

Fixpoint run (self : QuicSocket) (cs : list call) : exec (QuicSocket * list answer) :=
  match cs with
  | [] => Ret (self, [])
  | c :: cs =>
      '(self, a) ← perform self c;
      '(self, l) ← run self cs;
      Ret (self, a :: l)
  end.
End calls.

(** * Facts *)

Section facts.
Context `{UdpLaws}.
Implicit Types (self : QuicSocket) (q : list (QuicBuf * SocketAddr)) (s : UdpSocket).

Definition packet_wf (p : QuicBuf * SocketAddr) : Prop := ArrayBuf.wf QUIC_BUF_LEN p.1.

(** The datagram that a queued buffer stands for. *)
Definition payload (p : QuicBuf * SocketAddr) : list byte * SocketAddr :=
  (take (Z.to_nat (ArrayBuf.len p.1)) (ArrayBuf.buf p.1), p.2).

Definition socket_wf self : Prop :=
  Forall packet_wf (sending self) ∧ zlen (sending self) ≤ sending_buffer_limits self.

(** Everything the socket took over: what it has sent, then what it still holds. *)
Definition taken self : list (list byte * SocketAddr) :=
  udp_sent (socket self) ++ map payload (sending self).

Lemma readable_buf_payload p : packet_wf p → readable_buf p.1 = Ret (payload p).1.
Proof.
  intros [Hb Hl]. unfold readable_buf, slice. rewrite bool_decide_true by lia.
  by rewrite drop_0, Z.sub_0_r.
Qed.

Lemma flush_loop_spec q s :
  Forall packet_wf q →
  flush_loop q s ⇓ λ '(q', s', r), ∃ done,
    q = done ++ q' ∧ udp_sent s' = udp_sent s ++ map payload done ∧
    udp_local_addr s' = udp_local_addr s ∧ (udp_backlog s' ≤ udp_backlog s)%nat ∧
    match r with Ok _ => q' = [] | Err (IO _) => q' ≠ [] | Err (IsFull _) => False end.
Proof.
  intros Hwf. revert s. induction Hwf as [|[b t] q Hp Hq IH]; intros s; simpl.
  - exists []. simpl. by rewrite app_nil_r.
  - pose proof (readable_buf_payload (b, t) Hp) as Hd. simpl in Hd. rewrite Hd. simpl.
    set (d := take _ _). pose proof (udp_local_send s d t) as Hloc.
    pose proof (udp_backlog_send s d t) as Hbl.
    destruct (udp_send_to s d t) as [s' [n|e]] eqn:Hsend; simpl in Hloc, Hbl.
    + eapply wp_mono; [apply IH|]. intros [[q' s''] r] (dn&->&Hs&Hl&Hb&Hr).
      exists ((b, t) :: dn). split_and!; [done| |congruence|lia|done].
      rewrite Hs, (udp_sent_ok _ _ _ _ _ Hsend), <-app_assoc. done.
    + exists []. simpl. rewrite app_nil_r. split_and!; [done|by eapply udp_sent_err|done|done|done].
Qed.

(** One call keeps the limit and the address; [new] is the datagram it took over, if any. *)
Definition kept self self' (new : list (list byte * SocketAddr)) : Prop :=
  socket_wf self' ∧ taken self' = taken self ++ new ∧
  sending_buffer_limits self' = sending_buffer_limits self ∧ local_addr self' = local_addr self ∧
  udp_local_addr (socket self') = udp_local_addr (socket self) ∧
  udp_sent (socket self) `prefix_of` udp_sent (socket self') ∧
  (udp_backlog (socket self') ≤ udp_backlog (socket self))%nat.

Lemma kept_trans self1 self2 self3 l1 l2 :
  kept self1 self2 l1 → kept self2 self3 l2 → kept self1 self3 (l1 ++ l2).
Proof.
  intros (_&Ht1&Hl1&Ha1&Hu1&Hp1&Hb1) (Hwf&Ht2&Hl2&Ha2&Hu2&Hp2&Hb2).
  split_and!; [done|rewrite Ht2, Ht1; by rewrite app_assoc|congruence..|by etrans|lia].
Qed.

Lemma flush_spec self :
  socket_wf self →
  flush self ⇓ λ '(self', r), kept self self' [] ∧
    (zlen (sending self') ≤ zlen (sending self)) ∧
    match r with
    | Ok _ => sending self' = []
    | Err (IO _) => sending self' ≠ []
    | Err (IsFull _) => False
    end.
Proof.
  intros [Hwf Hlen]. unfold flush. wp_step.
  eapply wp_mono; [by apply flush_loop_spec|]. intros [[q' s'] r] (dn&Hq&Hs&Hl&Hb&Hr). simpl.
  destruct self as [lim q s a]; simpl in *. subst q. rewrite length_app in *.
  apply Forall_app in Hwf as [_ Hwf]. split_and!; simpl; [|lia|by destruct r as [|[]]].
  split_and!; simpl; try done; [split; simpl; [done|lia]| |].
  - unfold taken; simpl. by rewrite Hs, map_app, app_nil_r, <-!app_assoc.
  - rewrite Hs. by apply prefix_app_r.
Qed.

Lemma flush_error_spec (r : result unit QuicSocketError) e :
  flush_error r = Some e → r ≠ Ok () ∧ e ≠ WouldBlock.
Proof. destruct r as [[]|[|[]]]; intros [= <-]; done. Qed.

Lemma enqueue_spec self buf target :
  socket_wf self → ArrayBuf.wf QUIC_BUF_LEN buf →
  enqueue self buf target ⇓ λ '(self', r),
    match r with
    | Ok n => kept self self' [payload (buf, target)] ∧ n = zlen (sending self')
    | Err (IO e) => kept self self' [payload (buf, target)] ∧ e ≠ WouldBlock
    | Err (IsFull buf') => self' = self ∧ buf' = buf ∧ zlen (sending self) = sending_buffer_limits self
    end.
Proof.
  intros [Hwf Hlen] Hbuf. unfold enqueue, is_full. case_bool_decide as Hfull; [done|].
  set (self1 := set_queue self _ _).
  assert (kept self self1 [payload (buf, target)]) as Hk.
  { unfold self1. split_and!; try done; simpl.
    - split; simpl; [|rewrite length_app; simpl; lia]. apply Forall_app; split; [done|].
      by apply Forall_singleton.
    - unfold taken; simpl. by rewrite map_app, app_assoc. }
  pose proof Hk as ([Hwf1 Hlen1]&_). wp_step.
  wp_step; [by rewrite bool_decide_false by lia|]. wp_step.
  eapply wp_mono; [by apply flush_spec|]. intros [self2 r] (Hk2&_&_).
  pose proof (kept_trans _ _ _ _ _ Hk Hk2) as Hk3. rewrite app_nil_r in Hk3.
  destruct (flush_error r) as [e|] eqn:He; simpl; [|done]. by apply flush_error_spec in He as [_ ?].
Qed.

(** What [send_to] does: the datagram is taken over, or it is refused because the queue is
    full, or lost to the error of an older datagram. *)
Lemma send_to_spec self buf target :
  socket_wf self → ArrayBuf.wf QUIC_BUF_LEN buf →
  send_to self buf target ⇓ λ '(self', r),
    match r with
    | Ok n => kept self self' [payload (buf, target)] ∧ n = zlen (sending self')
    | Err (IO e) => e ≠ WouldBlock ∧
        (kept self self' [payload (buf, target)] ∨
         kept self self' [] ∧ zlen (sending self) = sending_buffer_limits self)
    | Err (IsFull buf') => kept self self' [] ∧ buf' = buf ∧ zlen (sending self) = sending_buffer_limits self
    end.
Proof.
  intros Hwf Hbuf. unfold send_to. unfold is_full at 1. case_bool_decide as Hfull.
  - wp_step. eapply wp_mono; [by apply flush_spec|]. intros [self1 r] (Hk&Hle&Hr).
    destruct (flush_error r) as [e|] eqn:He; simpl.
    { apply flush_error_spec in He as [_ ?]. split; [done|]. by right. }
    pose proof Hk as (Hwf1&_). eapply wp_mono; [by apply enqueue_spec|].
    intros [self2 [n|[buf'|e]]].
    + intros [Hk2 ->]. split; [|done]. exact (kept_trans _ _ _ _ _ Hk Hk2).
    + intros (->&->&_). by split_and!.
    + intros [Hk2 ?]. split; [done|left]. exact (kept_trans _ _ _ _ _ Hk Hk2).
  - eapply wp_mono; [by apply enqueue_spec|]. intros [self' [n|[buf'|e]]]; [done| |by intuition].
    intros (->&->&?). by split_and!.
Qed.

Lemma recv_from_spec self buf :
  socket_wf self → ArrayBuf.wf QUIC_BUF_LEN buf →
  recv_from self buf ⇓ λ '(self', buf', r), kept self self' [] ∧
    sending self' = sending self ∧ ArrayBuf.wf QUIC_BUF_LEN buf' ∧
    match r with
    | Ok _ => (udp_backlog (socket self') < udp_backlog (socket self))%nat
    | Err (IO _) => readable buf' = readable buf
    | Err (IsFull _) => False
    end.
Proof.
  intros [Hwf Hlim] [Hb Hl]. unfold recv_from, writable_buf.
  pose proof (udp_sent_recv (socket self) (ArrayBuf.buf buf)) as Hs.
  pose proof (udp_local_recv (socket self) (ArrayBuf.buf buf)) as Ha.
  pose proof (udp_recv_length (socket self) (ArrayBuf.buf buf)) as Hlen.
  pose proof (udp_backlog_recv (socket self) (ArrayBuf.buf buf)) as Hbl.
  destruct (udp_recv_from (socket self) (ArrayBuf.buf buf)) as [[s b] r] eqn:Hrecv; simpl in *.
  assert (kept self (set_queue self (sending self) s) []) as Hk.
  { unfold kept, taken; simpl. rewrite Hs, app_nil_r. by split_and!. }
  destruct r as [[n from]|e]; simpl.
  - pose proof (udp_backlog_recv_ok _ _ _ _ _ Hrecv) as Hlt.
    apply udp_recv_bound in Hrecv. wp_step. rewrite writable_consume_ok by lia. simpl.
    split_and!; try done; unfold ArrayBuf.wf; simpl; rewrite ?Hlen; lia.
  - split_and!; try done; unfold ArrayBuf.wf; simpl; rewrite ?Hlen; lia.
Qed.

(** Which datagrams a sequence of calls hands over, given the answers: one that was answered
    with [Ok] is handed over, one that was refused because the queue is full is not; after
    another error it may be either. *)
Inductive deliveries : list call → list answer → list (list byte * SocketAddr) → Prop :=
| deliveries_nil : deliveries [] [] []
| deliveries_sent buf target n cs l ps :
    deliveries cs l ps →
    deliveries (CSend buf target :: cs) (ASend (Ok n) :: l) (payload (buf, target) :: ps)
| deliveries_full buf target cs l ps :
    deliveries cs l ps → deliveries (CSend buf target :: cs) (ASend (Err (IsFull buf)) :: l) ps
| deliveries_kept buf target e cs l ps :
    deliveries cs l ps → e ≠ WouldBlock →
    deliveries (CSend buf target :: cs) (ASend (Err (IO e)) :: l) (payload (buf, target) :: ps)
| deliveries_lost buf target e cs l ps :
    deliveries cs l ps → e ≠ WouldBlock →
    deliveries (CSend buf target :: cs) (ASend (Err (IO e)) :: l) ps
| deliveries_flush r cs l ps :
    deliveries cs l ps → deliveries (CFlush :: cs) (AFlush r :: l) ps
| deliveries_recv buf buf' r cs l ps :
    deliveries cs l ps → deliveries (CRecv buf :: cs) (ARecv buf' r :: l) ps.

Definition call_wf (c : call) : Prop :=
  match c with CSend buf _ | CRecv buf => ArrayBuf.wf QUIC_BUF_LEN buf | CFlush => True end.

Lemma call_spec self c :
  socket_wf self → call_wf c →
  perform self c ⇓ λ '(self', a), ∃ new, kept self self' new ∧
    ∀ cs l ps, deliveries cs l ps → deliveries (c :: cs) (a :: l) (new ++ ps).
Proof.
  intros Hwf Hc. destruct c as [buf target| |buf]; simpl; wp_step.
  - eapply wp_mono; [by apply send_to_spec|]. intros [self' [n|[b|e]]]; simpl.
    + intros [Hk ->]. exists [payload (buf, target)]. split; [done|]. by constructor.
    + intros (Hk&->&_). exists []. split; [done|]. by constructor.
    + intros (?&[Hk|[Hk _]]); eexists; (split; [exact Hk|]); by constructor.
  - eapply wp_mono; [by apply flush_spec|]. intros [self' r] (Hk&_). simpl.
    exists []. split; [done|]. by constructor.
  - eapply wp_mono; [by apply recv_from_spec|]. intros [[self' b] r] (Hk&_). simpl.
    exists []. split; [done|]. by constructor.
Qed.

(** C14.  The queue neither loses, duplicates nor reorders datagrams.  For every sequence of
    calls on a socket, whatever the operating system answers, the calls return (the assertion
    in [send_to] holds and [flush] ends), the queue stays within the limit, and the datagrams
    that were sent, followed by those still queued, are exactly those taken over, in order:
    each one answered with [Ok], none answered with [IsFull]. *)
Theorem outbox_fifo self cs :
  socket_wf self → Forall call_wf cs →
  run self cs ⇓ λ '(self', l), socket_wf self' ∧
    udp_sent (socket self) `prefix_of` udp_sent (socket self') ∧
    ∃ ps, deliveries cs l ps ∧
      udp_sent (socket self') ++ map payload (sending self') =
      udp_sent (socket self) ++ map payload (sending self) ++ ps.
Proof.
  intros Hwf Hcs.
  assert (∀ self, socket_wf self → kept self self []) as Hrefl
    by (intros x Hx; unfold kept; by rewrite app_nil_r).
  cut (run self cs ⇓ λ '(self', l), ∃ ps, kept self self' ps ∧ deliveries cs l ps).
  { intros Hrun. eapply wp_mono; [exact Hrun|]. intros [self' l] (ps&(?&Ht&_&_&_&?&_)&?).
    split_and!; [done|done|]. exists ps. split; [done|]. rewrite app_assoc. exact Ht. }
  revert self Hwf. induction Hcs as [|c cs Hc Hcs IH]; intros self Hwf; simpl.
  - exists []. split; [by apply Hrefl|constructor].
  - wp_step. eapply wp_mono; [by apply call_spec|]. intros [self1 a] (new&Hk&Hd).
    wp_step. pose proof Hk as [Hwf1 _]. eapply wp_mono; [by apply IH|].
    intros [self2 l] (ps&Hk2&Hd2). simpl. exists (new ++ ps).
    split; [by eapply kept_trans|]. by apply Hd.
Qed.

(** ** An unsendable datagram *)

(** The operating system refuses the datagram [p] for a reason of its own (its size, its
    destination), not for lack of room. *)
Definition unsendable (p : QuicBuf * SocketAddr) : Prop :=
  ∀ s, ∃ s' e, udp_send_to s (payload p).1 p.2 = (s', Err e) ∧ e ≠ WouldBlock.

Definition failed (a : answer) : Prop :=
  match a with ASend r => ¬ ∃ n, r = Ok n | AFlush r => r ≠ Ok () | ARecv _ _ => True end.

Lemma flush_blocked self p q :
  socket_wf self → sending self = p :: q → unsendable p →
  flush self ⇓ λ '(self', r), ∃ s e, self' = set_queue self (p :: q) s ∧
    udp_sent s = udp_sent (socket self) ∧ r = Err (IO e) ∧ e ≠ WouldBlock.
Proof.
  intros [Hwf _] Hq Hp. unfold flush. rewrite Hq in *. apply Forall_cons in Hwf as [Hwf _].
  destruct p as [b t]. simpl. pose proof (readable_buf_payload (b, t) Hwf) as Hd. simpl in Hd, Hp.
  rewrite Hd. simpl. destruct (Hp (socket self)) as (s'&e&Hs&He). simpl in Hs. rewrite Hs. simpl.
  exists s', e. split_and!; try done. by eapply udp_sent_err.
Qed.

Lemma perform_blocked self p q c :
  socket_wf self → call_wf c → sending self = p :: q → unsendable p →
  perform self c ⇓ λ '(self', a), failed a ∧ (∃ q', sending self' = p :: q') ∧
    udp_sent (socket self') = udp_sent (socket self).
Proof.
  intros Hwf Hc Hq Hp. destruct c as [buf target| |buf]; simpl; wp_step.
  - assert (∀ e, e ≠ WouldBlock → flush_error (Err (IO e)) = Some e) as Herr by by intros [].
    unfold send_to. destruct (is_full self) eqn:Hfull.
    + wp_step. eapply wp_mono; [by apply (flush_blocked self p q)|].
      intros [self' r] (s&e&->&Hs&->&He). rewrite Herr by done. simpl.
      split_and!; [by intros []|eauto|done].
    + unfold enqueue. rewrite Hfull. unfold is_full in Hfull. apply bool_decide_eq_false in Hfull.
      destruct Hwf as [Hwf Hlen]. wp_step.
      wp_step; [rewrite bool_decide_false; [done|]; simpl; rewrite length_app; simpl; lia|]. wp_step.
      eapply wp_mono; [apply (flush_blocked _ p (q ++ [(buf, target)])); [|simpl; by rewrite Hq|done]|].
      { split; simpl; [|rewrite length_app; simpl; lia]. apply Forall_app; split; [done|].
        by apply Forall_singleton. }
      intros [self' r] (s&e&->&Hs&->&He). rewrite Herr by done. simpl.
      split_and!; [by intros []|eauto|done].
  - eapply wp_mono; [by apply (flush_blocked self p q)|].
    intros [self' r] (s&e&->&Hs&->&He). simpl. split_and!; [done|eauto|done].
  - unfold recv_from, writable_buf. pose proof (udp_sent_recv (socket self) (ArrayBuf.buf buf)) as Hs.
    pose proof (udp_recv_length (socket self) (ArrayBuf.buf buf)) as Hlen.
    destruct (udp_recv_from (socket self) (ArrayBuf.buf buf)) as [[s b] r] eqn:Hrecv; simpl in *.
    destruct r as [[n from]|e]; simpl; [|split_and!; [done|eauto|done]].
    apply udp_recv_bound in Hrecv. destruct Hc as [Hb _]. wp_step.
    rewrite writable_consume_ok by lia. simpl. split_and!; [done|eauto|done].
Qed.

(** C37.  Head-of-line blocking.  A datagram at the head of the queue that the operating system
    refuses for its own sake is never discarded: from then on the socket sends nothing at all,
    and every [send_to] and every [flush] fails. *)
Theorem unsendable_head_blocks self p q cs :
  socket_wf self → Forall call_wf cs → sending self = p :: q → unsendable p →
  run self cs ⇓ λ '(self', l), Forall failed l ∧ head (sending self') = Some p ∧
    udp_sent (socket self') = udp_sent (socket self).
Proof.
  intros Hwf Hcs Hq Hp. revert self q Hwf Hq.
  induction Hcs as [|c cs Hc Hcs IH]; intros self q Hwf Hq; simpl.
  { rewrite Hq. split_and!; [constructor|done|done]. }
  wp_step. pose proof (call_spec self c Hwf Hc) as Hspec.
  pose proof (perform_blocked self p q c Hwf Hc Hq Hp) as Hblk.
  destruct (perform self c) as [[self1 a]| |]; try done. simpl in *.
  destruct Hspec as (new&[Hwf1 _]&_). destruct Hblk as (Ha&[q1 Hq1]&Hs1). wp_step.
  eapply wp_mono; [by apply (IH self1 q1)|]. intros [self2 l] (Hl&Hh&Hs2). simpl.
  split_and!; [by constructor|done|congruence].
Qed.
End facts.
End QuicSocket.

(** * A reference socket, and the witnesses *)

Module UdpReference.
Import QuicSocket.

(** An operating system that takes [ref_room] more datagrams, refuses the port 0, and has the
    datagrams of [ref_inbox] to deliver. *)
Record ref_socket := MkRefSocket {
  ref_addr : SocketAddr;
  ref_room : nat;
  ref_sent : list (list byte * SocketAddr);
  ref_inbox : list (list byte * SocketAddr);
}.

Definition ref_send (s : ref_socket) (data : list byte) (target : SocketAddr) :
    ref_socket * io_result Z :=
  let '(MkRefSocket a room sent inbox) := s in
  if bool_decide (sock_port target = 0) then (s, Err OtherKind) else
  match room with
  | O => (s, Err WouldBlock)
  | S room => (MkRefSocket a room (sent ++ [(data, target)]) inbox, Ok (zlen data))
  end.

Definition ref_recv (s : ref_socket) (buf : list byte) :
    ref_socket * list byte * io_result (Z * SocketAddr) :=
  let '(MkRefSocket a room sent inbox) := s in
  match inbox with
  | [] => (s, buf, Err WouldBlock)
  | (d, from) :: inbox =>
      let d := take (length buf) d in
      (MkRefSocket a room sent inbox, d ++ drop (length d) buf, Ok (zlen d, from))
  end.

#[export] Instance ref_udp : UdpOps := {|
  UdpSocket := ref_socket;
  udp_local_addr s := Ok (ref_addr s);
  udp_send_to := ref_send;
  udp_recv_from := ref_recv;
  udp_backlog s := length (ref_inbox s);
|}.

#[export] Program Instance ref_udp_laws : UdpLaws := {| udp_sent := ref_sent |}.
Next Obligation.
  intros [a room sent inbox] data target s' n. simpl. case_bool_decide; [done|].
  destruct room; [done|]. by intros [= <- _].
Qed.
Next Obligation.
  intros [a room sent inbox] data target s' e. simpl. case_bool_decide; [by intros [= <- _]|].
  destruct room; [by intros [= <- _]|done].
Qed.
Next Obligation. by intros [a room sent [|[]]] buf. Qed.
Next Obligation.
  intros [a room sent inbox] data target. simpl. case_bool_decide; [done|]. by destruct room.
Qed.
Next Obligation. by intros [a room sent [|[]]] buf. Qed.
Next Obligation.
  intros [a room sent [|[d from]]] buf; simpl; [done|].
  rewrite length_app, length_drop, length_take. lia.
Qed.
Next Obligation.
  intros [a room sent [|[d from']]] buf s' buf' n from; simpl; [done|].
  intros [= _ _ <- _]. rewrite length_take. lia.
Qed.

Next Obligation.
  intros [a room sent inbox] data target. simpl. case_bool_decide; [done|]. by destruct room.
Qed.
Next Obligation. intros [a room sent [|[]]] buf; simpl; lia. Qed.
Next Obligation. intros [a room sent [|[]]] buf s' buf' p; simpl; [done|]. intros [= <- _ _]. simpl. lia. Qed.

Definition demo_addr (port : Z) : SocketAddr := MkSocketAddr (V4 [x7f; x00; x00; x01]) port.
Definition demo_buf (b : byte) : ArrayBuf.ArrayBuf :=
  ArrayBuf.MkArrayBuf (replicate (Z.to_nat QUIC_BUF_LEN) b) 3.

Lemma demo_buf_wf b : ArrayBuf.wf QUIC_BUF_LEN (demo_buf b).
Proof. split; [reflexivity|]. unfold QUIC_BUF_LEN. simpl. lia. Qed.

(** A socket with room for one datagram, and a queue of two. *)
Definition demo_socket : QuicSocket :=
  MkQuicSocket 2 [] (MkRefSocket (demo_addr 1) 1 [] []) (demo_addr 1).
Definition demo_calls : list call :=
  [CSend (demo_buf x01) (demo_addr 7); CSend (demo_buf x02) (demo_addr 7); CFlush;
   CSend (demo_buf x03) (demo_addr 7); CSend (demo_buf x04) (demo_addr 7)].

Lemma demo_calls_wf : Forall call_wf demo_calls.
Proof. repeat constructor; apply demo_buf_wf. Qed.

Lemma demo_socket_wf : socket_wf demo_socket.
Proof. split; simpl; [constructor|lia]. Qed.

Example outbox_fifo_witness :
  run demo_socket demo_calls ⇓ λ '(self', l), socket_wf self' ∧
    ∃ ps, deliveries demo_calls l ps ∧
      udp_sent (socket self') ++ map payload (sending self') = ps.
Proof.
  eapply wp_mono; [apply (outbox_fifo demo_socket demo_calls demo_socket_wf demo_calls_wf)|].
  intros [self' l] (Hwf&_&ps&Hd&Heq). split; [exact Hwf|]. exists ps. split; [exact Hd|exact Heq].
Defined.

(** The answers: the first datagram is sent, two more wait, the last one is refused. *)
Example demo_socket_run :
  (* lengths only: the buffers are large *)
  match run demo_socket demo_calls with
  | Ret (self, l) => Some (length (udp_sent (socket self)), length (sending self),
      map (λ a, match a with ASend (Ok n) => Some n | _ => None end) l)
  | _ => None
  end = Some (1%nat, 2%nat, [Some 0; Some 1; None; Some 2; None]).
Proof. vm_compute. reflexivity. Qed.

Definition blocked_socket : QuicSocket :=
  MkQuicSocket 2 [(demo_buf x01, demo_addr 0)] (MkRefSocket (demo_addr 1) 9 [] []) (demo_addr 1).

Example unsendable_head_blocks_witness :
  run blocked_socket demo_calls ⇓ λ '(self', l), Forall failed l ∧
    udp_sent (socket self') = [].
Proof.
  eapply wp_mono.
  - apply (unsendable_head_blocks blocked_socket (demo_buf x01, demo_addr 0) [] demo_calls).
    + split; simpl; [|lia]. repeat constructor; apply demo_buf_wf.
    + exact demo_calls_wf.
    + reflexivity.
    + intros [a room sent inbox]. eexists _, OtherKind. split; [reflexivity|discriminate].
  - intros [self' l] (Hl&_&Hs). split; [exact Hl|exact Hs].
Defined.
End UdpReference.
