(* ===== verification/MioGroup.v ===== *)
(** The event loop of [crates/mio/src/group.rs]: a group of connections on UDP sockets that
    [mio::Poll] watches.  [mio] is an interface. *)
From S2P Require Import Prelude Api EventQueue QuicheApi FixedBuf UdpSocket Connection Acceptor Group.
Import ArrayBuf QuicSocket Acceptor.

(** * mio *)

(** The fields of [mio::event::Event] that the source reads. *)
Record MioEvent := MkMioEvent { me_token : nat; me_readable : bool; me_writable : bool }.

Class MioOps `{UdpOps} := {
  MioPoll : Type;
  MioWaker : Type;
  mio_poll_new : io_result MioPoll;
  mio_poll : MioPoll → option Duration → MioPoll * io_result (list MioEvent);
  mio_register : MioPoll → UdpSocket → nat → MioPoll * io_result unit;
  udp_bind : SocketAddr → io_result UdpSocket;
  waker_new : MioPoll → nat → MioPoll * io_result MioWaker;
  waker_wake : MioWaker → MioWaker * io_result unit;
}.

Module MioGroup.

Section model.
Context `{QuicheEndpoint} `{!PriorityQueue Event} `{HashIter} `{OverflowChecks} `{MioOps}.
Context {Unparker : Type} (clock : nat → Instant).
Abbreviation PollGroup := (@Group.Group _ _ Unparker).
Abbreviation group_result A := (result A (Error QError)).

(** What surrounds the thread that polls.  Other threads share the group: between two of its
    entries into the group they may change it, [others k] being their work before the [k]-th
    entry.  [entropy] gives the random bytes and the wall clock of the [k]-th entry, and
    [new_parker k] the unparker of a parker made then. *)
Context (others : nat → PollGroup → PollGroup) (entropy : nat → (nat → list byte) * Z).
Context (new_parker : nat → Unparker).

(** [struct PollState], which the state mutex protects. *)
Record PollState := MkPollState {
  acceptor : option Acceptor;
  poll_ : MioPoll;
  sockets : list QuicSocket;
}.

(** [struct Group]; [turn] is not in the source: it counts the entries into the group. *)
Record Group := MkGroup {
  waker : MioWaker;
  group : PollGroup;
  laddrs : gmap SocketAddr nat;
  state : PollState;
  turn : nat;
}.

(** ** Assignments *)

Definition set_waker (self : Group) (w : MioWaker) : Group :=
  MkGroup w (group self) (laddrs self) (state self) (turn self).
Definition set_group (self : Group) (g : PollGroup) : Group :=
  MkGroup (waker self) g (laddrs self) (state self) (turn self).
Definition set_state (self : Group) (s : PollState) : Group :=
  MkGroup (waker self) (group self) (laddrs self) s (turn self).
Definition set_acceptor (self : Group) (a : Acceptor) : Group :=
  set_state self (MkPollState (Some a) (poll_ (state self)) (sockets (state self))).
Definition set_poll (self : Group) (p : MioPoll) : Group :=
  set_state self (MkPollState (acceptor (state self)) p (sockets (state self))).
Definition set_socket (self : Group) (i : nat) (s : QuicSocket) : Group :=
  set_state self (MkPollState (acceptor (state self)) (poll_ (state self))
    (<[i := s]> (sockets (state self)))).
Definition enter (self : Group) : Group :=
  MkGroup (waker self) (others (turn self) (group self)) (laddrs self) (state self) (S (turn self)).

(** [poll_state.sockets.get_mut(i).expect("Quic socket")]. *)
Definition socket_at (self : Group) (i : nat) : exec QuicSocket :=
  unwrap (sockets (state self) !! i).

Definition QuicBuf_new : ArrayBuf := ArrayBuf.new QUIC_BUF_LEN.

(** ** Sending *)

(** [quic_socket.send_to] with a full queue tolerated: the datagram is dropped. *)
Definition socket_send (self : Group) (i : nat) (buf : ArrayBuf) (target : SocketAddr) :
    exec (Group * io_result unit) :=
  quic_socket ← socket_at self i;
  '(quic_socket, r) ← QuicSocket.send_to quic_socket buf target;
  let self := set_socket self i quic_socket in
  Ret (self, match r with
             | Ok _ => Ok ()
             | Err (IsFull _) => Ok ()
             | Err err => Err (to_io_error err)
             end).

Definition on_quic_send (self : Group) (token : Token) : exec (Group * io_result unit) :=
  let self := enter self in
  '(g, b, r) ← Group.send clock (group self) token (writable_buf QuicBuf_new);
  let self := set_group self g in
  match would_block r with
  | Ready (Ok (send_size, send_info)) =>
      assert (bool_decide (0 < send_size));;
      buf ← writable_consume QUIC_BUF_LEN (set_writable_buf QuicBuf_new b) send_size;
      index ← unwrap (laddrs self !! QuicheApi.send_from send_info);
      socket_send self index buf (QuicheApi.send_to send_info)
  | _ => Ret (self, Ok ())
  end.

Definition on_quic_recv (self : Group) (token : Token) : exec (Group * io_result unit) :=
  Ret (self, Ok ()).

Definition on_udp_send (self : Group) (token : nat) : exec (Group * io_result unit) :=
  socket ← socket_at self token;
  '(socket, r) ← flush socket;
  let self := set_socket self token socket in
  Ret (self, match flush_error r with Some e => Err e | None => Ok () end).

(** ** Receiving *)

(** The dispatch of a server: [Busy] and [Retry] park the thread, and it tries again when it
    is unparked. *)
Fixpoint server_dispatch (fuel : nat) (self : Group) (acceptor : Acceptor) (token : nat)
    (buf : ArrayBuf) (read_size : Z) (from : SocketAddr) (parker : Unparker) :
    exec (Group * io_result unit) :=
  quic_socket ← socket_at self token;
  let self := enter self in
  let '(rand_bytes, sys_now) := entropy (turn self) in
  '(g, acceptor, b, r) ← Group.recv_with_acceptor clock (group self) acceptor (writable_buf buf)
    read_size (MkRecvInfo from (local_addr quic_socket)) (Some parker) rand_bytes sys_now;
  let self := set_acceptor (set_group self g) acceptor in
  let buf := set_writable_buf buf b in
  match r with
  | Ok (send_size, send_info) =>
      if bool_decide (send_size = 0) then Ret (self, Ok ()) else
      buf ← writable_consume QUIC_BUF_LEN buf send_size;
      socket_send self token buf (QuicheApi.send_to send_info)
  | Err Busy | Err Retry =>
      match fuel with
      | O => NoFuel
      | S fuel => server_dispatch fuel self acceptor token buf read_size from parker
      end
  | Err _ => Ret (self, Ok ())
  end.

Fixpoint client_loop (fuel : nat) (self : Group) (dcid : ConnectionId) (token : nat)
    (buf : ArrayBuf) (from : SocketAddr) (parker : Unparker) : exec (Group * io_result unit) :=
  quic_socket ← socket_at self token;
  let self := enter self in
  data ← readable_buf_mut buf;
  '(g, b, r) ← Group.recv_with_connection_id clock (group self) dcid data
    (MkRecvInfo from (local_addr quic_socket)) (Some parker);
  let self := set_group self g in
  buf ← set_readable_buf buf b;
  match r with
  | Ok _ => Ret (self, Ok ())
  | Err Busy | Err Retry =>
      match fuel with
      | O => NoFuel
      | S fuel => client_loop fuel self dcid token buf from parker
      end
  | Err _ => Ret (self, Ok ())
  end.

Definition client_dispatch (fuel : nat) (self : Group) (token : nat) (buf : ArrayBuf)
    (from : SocketAddr) (parker : Unparker) : exec (Group * io_result unit) :=
  data ← readable_buf_mut buf;
  let '(b, header) := header_from_slice data in
  buf ← set_readable_buf buf b;
  match map_err Quiche header with
  | Err e => Ret (self, Err (io_error_kind e))
  | Ok header => client_loop fuel self (hdr_dcid header) token buf from parker
  end.

(** The loop of [on_udp_recv]; every iteration that continues has received a datagram. *)
Fixpoint recv_loop (fuel : nat) (self : Group) (token : nat) (parker : Unparker) :
    exec (Group * io_result unit) :=
  quic_socket ← socket_at self token;
  '(quic_socket, buf, r) ← QuicSocket.recv_from quic_socket QuicBuf_new;
  let self := set_socket self token quic_socket in
  match io_would_block (map_err to_io_error r) with
  | Ready (Err e) => Ret (self, Err e)
  | Pending => Ret (self, Ok ())
  | Ready (Ok from) =>
      let read_size := readable buf in
      match fuel with
      | O => NoFuel
      | S fuel' =>
          '(self, r) ← match acceptor (state self) with
                       | Some acceptor =>
                           server_dispatch fuel self acceptor token buf read_size from parker
                       | None => client_dispatch fuel self token buf from parker
                       end;
          match r with
          | Err e => Ret (self, Err e)
          | Ok _ => recv_loop fuel' self token parker
          end
      end
  end.

Definition on_udp_recv (fuel : nat) (self : Group) (token : nat) : exec (Group * io_result unit) :=
  _ ← socket_at self token;
  recv_loop fuel self token (new_parker (turn self)).

(** ** Polling *)

(** One readiness event of [mio_poll_once]; the last token is that of the waker. *)
Definition on_mio_event (fuel : nat) (self : Group) (event : MioEvent) :
    exec (Group * io_result unit) :=
  let token := me_token event in
  if bool_decide (token = length (sockets (state self))) then Ret (self, Ok ()) else
  '(self, r) ← if me_readable event then on_udp_recv fuel self token else Ret (self, Ok ());
  match r with
  | Err e => Ret (self, Err e)
  | Ok _ => if me_writable event then on_udp_send self token else Ret (self, Ok ())
  end.

Fixpoint on_mio_events (fuel : nat) (self : Group) (events : list MioEvent) :
    exec (Group * io_result unit) :=
  match events with
  | [] => Ret (self, Ok ())
  | event :: events =>
      '(self, r) ← on_mio_event fuel self event;
      match r with Err e => Ret (self, Err e) | Ok _ => on_mio_events fuel self events end
  end.

(** [deadline.checked_duration_since(now)]: nothing when the deadline has passed. *)
Definition checked_duration_since (deadline now : Instant) : option Duration :=
  if bool_decide (now ≤ deadline) then Some (deadline - now) else None.

Definition mio_poll_once (fuel : nat) (self : Group) (deadline : option Instant) :
    exec (Group * io_result unit) :=
  let '(self, timeout) :=
    match deadline with
    | Some next_release_time =>
        let '(g, now) := Group.now clock (group self) in
        (set_group self g, checked_duration_since next_release_time now)
    | None => (self, None)
    end in
  let '(p, r) := mio_poll (poll_ (state self)) timeout in
  let self := set_poll self p in
  match r with
  | Err e => Ret (self, Err e)
  | Ok events => on_mio_events fuel self events
  end.

(** The events that [poll] keeps for its caller. *)
Definition reported (e : Event) : bool :=
  match ev_kind e with EvSend | EvRecv => false | _ => true end.

(** The inner loop of [poll]: it drains [drained] and pushes what it keeps to [events]. *)
Fixpoint filter_events (self : Group) (drained events : list Event) :
    exec (Group * list Event * io_result unit) :=
  match drained with
  | [] => Ret (self, events, Ok ())
  | event :: drained =>
      match ev_kind event with
      | EvSend =>
          '(self, r) ← on_quic_send self (ev_token event);
          match r with
          | Err e => Ret (self, events, Err e)
          | Ok _ => filter_events self drained events
          end
      | EvRecv =>
          '(self, r) ← on_quic_recv self (ev_token event);
          match r with
          | Err e => Ret (self, events, Err e)
          | Ok _ => filter_events self drained events
          end
      | _ => filter_events self drained (events ++ [event])
      end
  end.

Fixpoint poll (fuel : nat) (self : Group) (events : list Event) :
    exec (Group * list Event * io_result (option Instant)) :=
  let self := enter self in
  '(g, events, next_release_time) ← Group.poll clock (group self) events;
  let self := set_group self g in
  '(self, events, r) ← filter_events self events [];
  match r with
  | Err e => Ret (self, events, Err e)
  | Ok _ =>
      if bool_decide (events = []) then
        match fuel with
        | O => NoFuel
        | S fuel' =>
            '(self, r) ← mio_poll_once fuel self next_release_time;
            match r with
            | Err e => Ret (self, events, Err e)
            | Ok _ => poll fuel' self events
            end
        end
      else Ret (self, events, Ok None)
  end.

(** ** The methods that pass a call on and wake the poller *)

(** [self.waker.wake()?; Ok(r?)]. *)
Definition wake {A} (self : Group) (r : group_result A) : Group * io_result A :=
  let '(w, woken) := waker_wake (waker self) in
  (set_waker self w,
   match woken with Err e => Err e | Ok _ => map_err io_error_kind r end).

Definition len (self : Group) : nat := Group.len (group self).

Definition register (self : Group) (wrapped : Connection) : exec (Group * io_result Token) :=
  '(g, token) ← Group.register clock (group self) wrapped;
  Ret (wake (set_group self g) token).

Definition deregister (self : Group) (token : Token) : exec (Group * io_result Connection) :=
  '(g, conn) ← Group.deregister (group self) token;
  Ret (wake (set_group self g) conn).

Definition close (self : Group) (token : Token) (app : bool) (err : Z) (reason : list byte) :
    exec (Group * io_result unit) :=
  '(g, r) ← Group.close clock (group self) token app err reason;
  Ret (wake (set_group self g) r).

Definition stream_open (self : Group) (token : Token) (kind : StreamKind) (non_blocking : bool) :
    exec (Group * io_result (option Z)) :=
  '(g, r) ← Group.stream_open clock (group self) token kind non_blocking;
  Ret (wake (set_group self g) r).

Definition stream_shutdown (self : Group) (token : Token) (stream_id err : Z) :
    exec (Group * io_result unit) :=
  '(g, r) ← Group.stream_shutdown clock (group self) token stream_id err;
  Ret (wake (set_group self g) r).

Definition stream_send (self : Group) (token : Token) (stream_id : Z) (buf : list byte)
    (fin : bool) : exec (Group * io_result Z) :=
  '(g, send_size) ← Group.stream_send clock (group self) token stream_id buf fin;
  Ret (wake (set_group self g) send_size).

Definition stream_recv (self : Group) (token : Token) (stream_id : Z) (buf : list byte) :
    exec (Group * list byte * io_result (Z * bool)) :=
  '(g, buf, r) ← Group.stream_recv clock (group self) token stream_id buf;
  let '(self, r) := wake (set_group self g) r in
  Ret (self, buf, r).

(** [rand_bytes] is the random source of [connect]. *)
Definition connect (self : Group) (server_name : option string) (local peer : SocketAddr)
    (config : Config) (rand_bytes : nat → list byte) : exec (Group * Config * io_result Token) :=
  assert (bool_decide (is_Some (laddrs self !! local)));;
  '(g, config, token) ← Group.connect clock (group self) config server_name local peer rand_bytes;
  let '(self, r) := wake (set_group self g) token in
  Ret (self, config, r).

(** ** Creation *)

(** The loop of [bind] over the addresses. *)
Fixpoint bind_sockets (p : MioPoll) (l : list SocketAddr) (socks : list QuicSocket)
    (addrs : gmap SocketAddr nat) :
    MioPoll * io_result (list QuicSocket * gmap SocketAddr nat) :=
  match l with
  | [] => (p, Ok (socks, addrs))
  | laddr :: l =>
      match udp_bind laddr with
      | Err e => (p, Err e)
      | Ok sock =>
          match udp_local_addr sock with
          | Err e => (p, Err e)
          | Ok addr =>
              let addrs := <[addr := length socks]> addrs in
              match mio_register p sock (length socks) with
              | (p, Err e) => (p, Err e)
              | (p, Ok _) =>
                  match QuicSocket.new sock 1024 with
                  | Err e => (p, Err (to_io_error e))
                  | Ok s => bind_sockets p l (socks ++ [s]) addrs
                  end
              end
          end
      end
  end.

(** [to_socket_addrs] is the resolution of the addresses by the standard library. *)
Definition bind (to_socket_addrs : io_result (list SocketAddr)) (acceptor : option Acceptor) :
    io_result Group :=
  match mio_poll_new with
  | Err e => Err e
  | Ok p =>
      match to_socket_addrs with
      | Err e => Err e
      | Ok l =>
          match bind_sockets p l [] ∅ with
          | (_, Err e) => Err e
          | (p, Ok (socks, addrs)) =>
              match waker_new p (length socks) with
              | (_, Err e) => Err e
              | (p, Ok w) =>
                  Ok (MkGroup w Group.new_group addrs (MkPollState acceptor p socks) 0)
              end
          end
      end
  end.

Definition local_addrs (self : Group) : list SocketAddr := (map_to_list (laddrs self)).*1.
End model.
End MioGroup.
