(* ===== verification/MioSafety.v ===== *)
(** The event loop is safe: the group, the sockets and the table of addresses stay
    consistent, and each of its parts returns. *)
From stdpp Require Import functions.
From S2P Require Import Prelude Api EventQueue QuicheApi Utils FixedBuf UdpSocket Connection ConnFacts.
From S2P Require Import ConnLock Acceptor Group GroupSafety GroupMethods MioGroup.
Import ArrayBuf QuicSocket QuicConn Acceptor GroupSafety GroupMethods MioGroup.

Module MioSafety.

(** * What the methods of the group do to the buffers of their callers *)

Section buffers.
Context `{QuicheIoLaws} `{!QuicheEndpointLaws} `{!PriorityQueue Event} `{HashIter} `{OverflowChecks}.
Context {Unparker : Type} (clock : nat → Instant).
Abbreviation PollGroup := (@Group.Group _ _ Unparker).
Implicit Types (g : PollGroup) (buf b : list byte).

(** The buffer keeps its length, and a reported size lies within it. *)
Definition fills (lo : Z) buf b (r : result (Z * SendInfo) (Error QError)) : Prop :=
  length b = length buf ∧ ∀ n info, r = Ok (n, info) → lo ≤ n ≤ zlen buf.

(** A sent packet was written by quiche. *)
Lemma send_packet g t buf g' b r :
  Group.send clock g t buf = Ret (g', b, r) →
  length b = length buf ∧
  ∀ n info, r = Ok (n, info) → ∃ c c', q_send c buf = (c', b, Ok (n, info)).
Proof.
  unfold Group.send. intros ([g1 [ctx|e]]&_&Hs)%bind_Ret_inv; [|by simplify_eq].
  destruct (Group.now clock g1) as [g2 instant].
  apply bind_Ret_inv in Hs as ([g3 [b3 r3]]&Hg&Hs).
  apply bind_Ret_inv in Hs as (g4&_&Hs). simplify_eq.
  unfold Group.with_guard in Hg. apply bind_Ret_inv in Hg as (conn&_&Hg).
  destruct (release_time _ _ _); [by simplify_eq/=|].
  pose proof (send_length (q_on_timeout (wrapped conn)) buf) as Hlen.
  destruct (q_send (q_on_timeout (wrapped conn)) buf) as [[c b'] r'] eqn:Hq. simplify_eq/=.
  split; [done|]. intros n info. destruct r' as [a|e]; simpl; [|by case_bool_decide].
  intros [= ->]. eauto.
Qed.

Lemma send_fills g t buf g' b r :
  Group.send clock g t buf = Ret (g', b, r) → fills 1 buf b r.
Proof.
  intros [Hlen Hq]%send_packet. split; [done|].
  intros n info Hr. destruct (Hq n info Hr) as (c&c'&Hs). apply send_bound in Hs. lia.
Qed.

Lemma send_reply_fills g t buf info g' b r :
  Group.send_reply clock g t buf info = Ret (g', b, r) → fills 0 buf b r.
Proof.
  unfold Group.send_reply. intros ([[g1 b1] r1]&Hs&Hr)%bind_Ret_inv.
  apply send_fills in Hs as [Hlen Hn]. destruct r1 as [[n i]|[]]; simplify_eq; try (by split).
  - split; [done|]. intros n' i' [= <- <-]. specialize (Hn _ _ eq_refl). lia.
  - unfold Group.no_reply in Hr. destruct (Group.now clock g1). simplify_eq. split; [done|].
    intros ?? [= <- _]. lia.
  - unfold Group.no_reply in Hr. destruct (Group.now clock g1). simplify_eq. split; [done|].
    intros ?? [= <- _]. lia.
Qed.

Lemma recv_with_connection_id_length g scid buf info u g' b r :
  Group.recv_with_connection_id clock g scid buf info u = Ret (g', b, r) → length b = length buf.
Proof.
  unfold Group.recv_with_connection_id.
  intros ([g1 [[t ctx]|e]]&_&Hs)%bind_Ret_inv; [|by simplify_eq].
  apply bind_Ret_inv in Hs as ([g3 [b3 r3]]&Hg&Hs).
  apply bind_Ret_inv in Hs as (g4&_&Hs). simplify_eq.
  unfold Group.with_guard in Hg. apply bind_Ret_inv in Hg as (conn&_&Hg).
  pose proof (recv_length (wrapped conn) buf info) as Hlen.
  by destruct (q_recv (wrapped conn) buf info) as [[c b'] r']; simplify_eq/=.
Qed.

Lemma accept_datagram_fills g (c : Connection) dcid buf recv_size info g' b r :
  Group.accept_datagram clock g c dcid buf recv_size info = Ret (g', b, r) → fills 0 buf b r.
Proof.
  unfold Group.accept_datagram. intros ([g1 [t|e]]&_&Hs)%bind_Ret_inv; [|by simplify_eq].
  apply bind_Ret_inv in Hs as (d&Hd&Hs). apply slice_Ret_inv in Hd as (Hr0&Hr&Hd).
  apply bind_Ret_inv in Hs as ([[g2 d2] r2]&Hrecv&Hs).
  apply recv_with_connection_id_length in Hrecv.
  assert (length (d2 ++ drop (Z.to_nat recv_size) buf) = length buf) as Hlen.
  { rewrite length_app, Hrecv, Hd, length_take, !length_drop. lia. }
  destruct r2 as [a|[]]; simplify_eq; try by split.
  apply send_reply_fills in Hs as [Hl Hn]. unfold fills. by rewrite <-Hlen.
Qed.

(** [handshake] keeps the validator and the length of its buffer. *)
Lemma handshake_fills (a : Acceptor) header buf info rand_bytes sys_now a' b r :
  handshake a header buf info rand_bytes sys_now = Ret (a', b, r) →
  address_validator a' = address_validator a ∧ length b = length buf ∧
  ∀ n, r = Ok (HandshakeReply n) → 0 ≤ n ≤ zlen buf.
Proof.
  unfold handshake, negotiate_version, retry. destruct (version_is_supported _); simpl.
  2: { pose proof (negotiate_length (hdr_scid header) (hdr_dcid header) buf) as Hlen.
       destruct (q_negotiate_version _ _ buf) as [b' [n|e]] eqn:Hq; intros; simplify_eq/=;
         split_and!; try done. intros ? [= <-]. by eapply negotiate_bound. }
  destruct (hdr_token header) as [token|]; simpl; [|done]. case_bool_decide.
  - intros Hh. apply bind_Ret_inv in Hh as ([b' r']&Hh&Hr). simplify_eq.
    apply bind_Ret_inv in Hh as (minted&_&Hh). destruct minted as [tk|e]; [|by simplify_eq].
    pose proof (retry_length (hdr_scid header) (hdr_dcid header) (random_conn_id rand_bytes) tk
      (hdr_version header) buf) as Hlen.
    destruct (q_retry _ _ _ _ _ buf) as [b2 [m|e]] eqn:Hq; simplify_eq/=; split_and!; try done.
    intros ? [= <-]. by eapply retry_bound.
  - intros Hh. apply bind_Ret_inv in Hh as (o&_&Hh). destruct o as [odcid|]; [|by simplify_eq].
    destruct (q_accept _ _ _ _ _) as [cfg [c|e]]; simplify_eq; by split_and!.
Qed.

Lemma recv_with_acceptor_fills g a buf recv_size info u rand_bytes sys_now g' a' b r :
  Group.recv_with_acceptor clock g a buf recv_size info u rand_bytes sys_now = Ret (g', a', b, r) →
  address_validator a' = address_validator a ∧ fills 0 buf b r.
Proof.
  unfold Group.recv_with_acceptor. intros (d&Hd&Hs)%bind_Ret_inv.
  apply slice_Ret_inv in Hd as (Hr0&Hr&->). set (dg := take _ _) in *.
  pose proof (header_length dg) as Hlen. destruct (header_from_slice dg) as [dg' [header|e]]; simpl in Hlen.
  all: assert (∀ d2, length d2 = length dg' →
      length (d2 ++ drop (Z.to_nat recv_size) (dg' ++ drop (Z.to_nat recv_size) buf)) = length buf) as Hd2
    by (intros d2 Hd2; subst dg; rewrite !length_app, Hd2, !length_drop, length_app, length_drop, Hlen,
          length_take, length_drop; lia).
  all: assert (length (dg' ++ drop (Z.to_nat recv_size) buf) = length buf) as Hd1
    by (subst dg; rewrite length_app, Hlen, length_take, !length_drop; lia).
  2: by simplify_eq.
  apply bind_Ret_inv in Hs as ([[g1 d1] r1]&Hrecv&Hs).
  apply recv_with_connection_id_length, Hd2 in Hrecv. set (buf1 := d1 ++ _) in *.
  unfold fills. rewrite <-Hrecv. destruct r1 as [[t m]|[]]; try by simplify_eq.
  - apply bind_Ret_inv in Hs as ([[g2 b2] r2]&Hsend&Hs). simplify_eq.
    split; [done|by apply send_reply_fills in Hsend].
  - apply bind_Ret_inv in Hs as ([[a2 b2] h]&Hh&Hs).
    apply handshake_fills in Hh as (Hv&Hb2&Hn). destruct h as [[n|c]|e]; [| |by simplify_eq].
    + unfold Group.no_reply in Hs. destruct (Group.now clock g1). simplify_eq. split_and!; [done|done|].
      intros ?? [= <- _]. by apply Hn.
    + apply bind_Ret_inv in Hs as ([[g3 b3] r3]&Hacc&Hs). simplify_eq.
      apply accept_datagram_fills in Hacc as [Hl Hb]. rewrite <-Hb2. by split.
Qed.
End buffers.

(** * When the group does not ask to try again *)

Section idle.
Context `{QuicheEndpoint} `{!QuicheLaws} `{!QuicheEndpointLaws}.
Context `{!PriorityQueue Event} `{!PriorityQueueLaws Event} `{HashIter} `{OverflowChecks}.
Context {Unparker : Type} (clock : nat → Instant).
Abbreviation PollGroup := (@Group.Group _ _ Unparker).
Implicit Types g : PollGroup.

Definition not_busy {A} (r : result A (Error QError)) : Prop := r ≠ Err Busy ∧ r ≠ Err Retry.

Lemma send_reply_not_busy g t buf info g' b r :
  Group.send_reply clock g t buf info = Ret (g', b, r) → not_busy r.
Proof.
  unfold Group.send_reply, Group.no_reply. intros ([[g1 b1] r1]&_&Hr)%bind_Ret_inv.
  destruct (Group.now clock g1), r1 as [?|[]]; by simplify_eq.
Qed.

Lemma register_granted g (c : Connection) g' r :
  Group.register clock g c = Ret (g', r) → ∃ t, r = Ok t.
Proof.
  unfold Group.register. intros ([t next]&_&Hr)%bind_Ret_inv.
  apply bind_Ret_inv in Hr as ([]&_&Hr). destruct (Group.now clock _) as [g2 instant].
  apply bind_Ret_inv in Hr as ([[conn q] locked]&He&Hr).
  pose proof (enroll_spec t c instant (Group.readiness g2)) as Hwp. rewrite He in Hwp.
  destruct Hwp as (->&_). simplify_eq. eauto.
Qed.

Lemma accept_datagram_not_busy g (c : Connection) dcid buf recv_size info g' b r :
  Group.accept_datagram clock g c dcid buf recv_size info = Ret (g', b, r) → not_busy r.
Proof.
  unfold Group.accept_datagram. intros ([g1 r1]&Hreg&Hs)%bind_Ret_inv.
  apply register_granted in Hreg as [t ->].
  apply bind_Ret_inv in Hs as (d&_&Hs). apply bind_Ret_inv in Hs as ([[g2 d2] r2]&_&Hs).
  destruct r2 as [a|[]]; simplify_eq; try done. by eapply send_reply_not_busy.
Qed.

(** No guard is alive. *)
Definition idle (n : Z) g : Prop := world_ok n g (λ _, []) ∅.

Lemma recv_idle n g scid buf info u g' b r :
  idle n g → 0 ≤ n → 2 * n + 6 < u64_modulus →
  Group.recv_with_connection_id clock g scid buf info u = Ret (g', b, r) → not_busy r.
Proof.
  intros Hok Hn0 Hn Hr.
  pose proof (recv_with_connection_id_spec clock n g (λ _, []) ∅ scid buf info u Hok Hn0 Hn) as Hwp.
  rewrite Hr in Hwp. destruct Hwp as (_&_&Hbusy&Hretry). split; [|done].
  destruct (Group.scids g !! scid) as [t|] eqn:Hs; [by eapply Hbusy|].
  unfold Group.recv_with_connection_id, Group.recv_lock in Hr. rewrite Hs in Hr. by simplify_eq/=.
Qed.

(** The handshakes of the validator [v] return, without asking to try again. *)
Definition sane_validator (v : AddressValidator) : Prop :=
  ∀ cfg dg header b info rand_bytes sys_now, (header_from_slice dg).2 = Ok header →
    handshake (MkAcceptor cfg v) header b info rand_bytes sys_now ⇓ λ '(_, _, r), not_busy r.

Lemma recv_with_acceptor_idle n g a buf recv_size info u rand_bytes sys_now g' a' b r :
  idle n g → 0 ≤ n → 2 * n + 6 < u64_modulus → sane_validator (address_validator a) →
  Group.recv_with_acceptor clock g a buf recv_size info u rand_bytes sys_now = Ret (g', a', b, r) →
  not_busy r.
Proof.
  intros Hok Hn0 Hn Hsane. unfold Group.recv_with_acceptor. intros (d&_&Hs)%bind_Ret_inv.
  pose proof (Hsane (config a) d) as Hh. destruct a as [cfg v]; simpl in *.
  destruct (header_from_slice d) as [dg [header|e]]; simpl in Hs; [|by simplify_eq].
  apply bind_Ret_inv in Hs as ([[g1 d1] r1]&Hrecv&Hs).
  pose proof (recv_idle _ _ _ _ _ _ _ _ _ Hok Hn0 Hn Hrecv) as [Hb Hr].
  destruct r1 as [[t m]|[]]; simplify_eq; try done.
  - apply bind_Ret_inv in Hs as ([[g2 b2] r2]&Hsend&Hs). simplify_eq. by eapply send_reply_not_busy.
  - apply bind_Ret_inv in Hs as ([[a2 b2] h]&Hhs&Hs).
    specialize (Hh header (d1 ++ drop (Z.to_nat recv_size) (dg ++ drop (Z.to_nat recv_size) buf))
      info rand_bytes sys_now eq_refl).
    rewrite Hhs in Hh. destruct h as [[m|c]|e].
    + unfold Group.no_reply in Hs. destruct (Group.now clock g1). by simplify_eq.
    + apply bind_Ret_inv in Hs as ([[g2 b3] r2]&Hacc&Hs). simplify_eq.
      by eapply accept_datagram_not_busy.
    + simplify_eq. destruct Hh as [Hh1 Hh2]. split; intros [= ->]; done.
Qed.
End idle.

(** * The event loop *)

Section loop.
Context `{QuicheIoLaws} `{!QuicheLaws} `{!QuicheEndpointLaws}.
Context `{!PriorityQueue Event} `{!PriorityQueueLaws Event} `{HashIter} `{OverflowChecks}.
Context `{MioOps} `{!UdpLaws}.
Context {Unparker : Type} (clock : nat → Instant).
Abbreviation PollGroup := (@Group.Group _ _ Unparker).
Context (others : nat → PollGroup → PollGroup) (entropy : nat → (nat → list byte) * Z).
Context (new_parker : nat → Unparker).
Abbreviation MGroup := (@MioGroup.Group _ _ _ _ _ Unparker).
Implicit Types (g : PollGroup) (self : MGroup) (s : QuicSocket).

(** The other threads run at most [delta] sections between two entries of the poller; when it
    makes its entry [k], they hold the guards [alive (S k)], and at least once in
    [patience + 1] successive entries they hold none. *)
Context (alive : nat → Token → list Session.guard) (delta : Z) (patience : nat).

(** A consistent group after at most [b] sections and [k] entries, in which no connection is
    between the two sections of its deregistration: see [GroupMethods.leaving_id_panics]. *)
Definition group_ok (b : Z) (k : nat) g : Prop := ∃ n, world_ok n g (alive k) ∅ ∧ 0 ≤ n ≤ b.

Definition quiet (k : nat) : Prop := ∀ t, alive (S k) t = [].
Record cooperative : Prop := Cooperative {
  coop_delta : 0 ≤ delta;
  coop_ok k b g : group_ok b k g → group_ok (b + delta) (S k) (others k g);
  coop_fair k : ∃ j, (j ≤ patience)%nat ∧ quiet (k + j);
}.

Lemma group_ok_mono b b' k g : group_ok b k g → b ≤ b' → group_ok b' k g.
Proof. intros (n&?&?) ?. exists n. split; [done|lia]. Qed.

(** The invariant: a consistent group, well-formed queues with the limit of [bind], and a
    table of addresses that leads to the socket with the address. *)
Record mio_ok (b : Z) self : Prop := MioOk {
  mo_group : group_ok b (turn self) (group self);
  mo_sockets : Forall (λ s, socket_wf s ∧ sending_buffer_limits s = 1024) (sockets (state self));
  mo_laddrs a i : laddrs self !! a = Some i →
    ∃ s, sockets (state self) !! i = Some s ∧ local_addr s = a;
}.

(** What a step of the loop leaves as it is: the table, the validator, the number of sockets;
    each socket takes over more datagrams in order. *)
Definition validator self : option AddressValidator := address_validator <$> acceptor (state self).
Record continues self self' : Prop := Continues {
  ct_laddrs : laddrs self' = laddrs self;
  ct_validator : validator self' = validator self;
  ct_length : length (sockets (state self')) = length (sockets (state self));
  ct_sockets i s : sockets (state self) !! i = Some s →
    ∃ s' ps, sockets (state self') !! i = Some s' ∧ kept s s' ps;
}.

Lemma mio_ok_socket b self i s :
  mio_ok b self → sockets (state self) !! i = Some s → socket_wf s ∧ sending_buffer_limits s = 1024.
Proof. intros Hok Hi. by apply (Forall_lookup_1 _ _ _ _ (mo_sockets _ _ Hok) Hi). Qed.

Lemma kept_refl s : socket_wf s → kept s s [].
Proof. intros. unfold kept. by rewrite app_nil_r. Qed.

Lemma continues_refl b self : mio_ok b self → continues self self.
Proof.
  intros Hok. split; try done. intros i s Hi. exists s, [].
  split; [done|]. eapply kept_refl, mio_ok_socket; done.
Qed.

Lemma continues_trans self1 self2 self3 :
  continues self1 self2 → continues self2 self3 → continues self1 self3.
Proof.
  intros [] []. split; try congruence. intros i s Hi.
  destruct (ct_sockets0 i s Hi) as (s2&ps2&Hi2&Hk2).
  destruct (ct_sockets1 i s2 Hi2) as (s3&ps3&Hi3&Hk3).
  exists s3, (ps2 ++ ps3). split; [done|]. by eapply kept_trans.
Qed.

Lemma mio_ok_group b self b' g :
  mio_ok b self → group_ok b' (turn self) g → mio_ok b' (set_group self g).
Proof. intros [] ?. by split. Qed.

Lemma mio_ok_mono b b' self : mio_ok b self → b ≤ b' → mio_ok b' self.
Proof. intros [] ?. split; [by eapply group_ok_mono|done|done]. Qed.

Lemma enter_ok b self :
  cooperative → mio_ok b self → mio_ok (b + delta) (enter others self).
Proof. intros Hco [Hg Hs Hl]. split; [by apply Hco|done..]. Qed.

(** The exchange of one socket for a later state of it. *)
Lemma set_socket_ok b self i s s' ps :
  mio_ok b self → sockets (state self) !! i = Some s → kept s s' ps →
  mio_ok b (set_socket self i s') ∧ continues self (set_socket self i s').
Proof.
  intros Hok Hi Hk. pose proof (mio_ok_socket _ _ _ _ Hok Hi) as [Hwf Hlim].
  pose proof Hk as (Hwf'&_&Hlim'&Ha&_&_). pose proof (lookup_lt_Some _ _ _ Hi) as Hlt.
  split; split; simpl; try apply Hok; try done.
  - apply Forall_insert; [apply Hok|split; [done|congruence]].
  - intros a j Hj. destruct (mo_laddrs _ _ Hok a j Hj) as (t&Ht&Hta).
    destruct (decide (i = j)) as [->|Hne].
    + exists s'. rewrite list_lookup_insert_eq by done. split; [done|]. congruence.
    + exists t. by rewrite list_lookup_insert_ne.
  - by rewrite length_insert.
  - intros j t Hj. destruct (decide (i = j)) as [->|Hne].
    + simplify_eq. exists s', ps. by rewrite list_lookup_insert_eq.
    + exists t, []. rewrite list_lookup_insert_ne by done. split; [done|].
      eapply kept_refl, mio_ok_socket; done.
Qed.

(** A datagram for the socket [i] is queued, or dropped because the queue is full or an older
    datagram failed; nothing else changes. *)
Lemma socket_send_spec b self i buf target :
  mio_ok b self → is_Some (sockets (state self) !! i) → ArrayBuf.wf QUIC_BUF_LEN buf →
  socket_send self i buf target ⇓ λ '(self', r),
    mio_ok b self' ∧ continues self self' ∧ group self' = group self ∧ turn self' = turn self ∧
    ∃ s s' new, sockets (state self) !! i = Some s ∧ self' = set_socket self i s' ∧ kept s s' new ∧
      (new = [payload (buf, target)] ∨ new = [] ∧ zlen (sending s) = sending_buffer_limits s).
Proof.
  intros Hok [s Hi] Hbuf. unfold socket_send, socket_at. rewrite Hi. simpl. wp_step.
  pose proof (mio_ok_socket _ _ _ _ Hok Hi) as [Hwf Hlim].
  eapply wp_mono; [by apply send_to_spec|]. intros [s' r] Hr. simpl.
  assert (∃ new, kept s s' new ∧
    (new = [payload (buf, target)] ∨ new = [] ∧ zlen (sending s) = sending_buffer_limits s)) as (new&Hk&Hnew).
  { destruct r as [n|[b'|e]]; [destruct Hr as [? _]|destruct Hr as (?&_&?)|destruct Hr as (_&[?|[? ?]])];
      eauto 10. }
  destruct (set_socket_ok _ _ _ _ _ _ Hok Hi Hk). split_and!; try done. eauto 10.
Qed.

Lemma on_udp_send_spec b self i :
  mio_ok b self → is_Some (sockets (state self) !! i) →
  on_udp_send self i ⇓ λ '(self', r), mio_ok b self' ∧ continues self self'.
Proof.
  intros Hok [s Hi]. unfold on_udp_send, socket_at. rewrite Hi. simpl. wp_step.
  pose proof (mio_ok_socket _ _ _ _ Hok Hi) as [Hwf Hlim].
  eapply wp_mono; [by apply flush_spec|]. intros [s' r] (Hk&_). simpl.
  by apply (set_socket_ok _ _ _ _ _ _ Hok Hi Hk).
Qed.

(** ** Packets to send *)

(** quiche sends from addresses that are bound to sockets of the group: the local addresses
    of a connection come from [connect], which checks them, and from received datagrams. *)
Definition bound_addresses self : Prop :=
  ∀ (c : Connection) buf c' b n info,
    q_send c buf = (c', b, Ok (n, info)) → is_Some (laddrs self !! QuicheApi.send_from info).

(** Where the packet that quiche wrote goes. *)
Definition routed self self' : Prop :=
  sockets (state self') = sockets (state self) ∨
  ∃ c buf c' b n info i s s' new,
    q_send c buf = (c', b, Ok (n, info)) ∧ laddrs self !! QuicheApi.send_from info = Some i ∧
    sockets (state self) !! i = Some s ∧ local_addr s = QuicheApi.send_from info ∧
    sockets (state self') = <[i := s']> (sockets (state self)) ∧ kept s s' new ∧
    (new = [(take (Z.to_nat n) b, QuicheApi.send_to info)] ∨
     new = [] ∧ zlen (sending s) = sending_buffer_limits s).

Lemma quic_buf_wf : ArrayBuf.wf QUIC_BUF_LEN QuicBuf_new.
Proof. apply ArrayBuf.new_wf. done. Qed.

Lemma filled_wf (buf b : list byte) n :
  zlen buf = QUIC_BUF_LEN → length b = length buf → 0 ≤ n ≤ zlen buf →
  ArrayBuf.wf QUIC_BUF_LEN (MkArrayBuf b n).
Proof. intros Hbuf Hb Hn. split; simpl; [rewrite Hb|]; lia. Qed.

Lemma on_quic_send_spec b self token :
  cooperative → mio_ok b self → 2 * (b + delta) + 6 < u64_modulus → bound_addresses self →
  on_quic_send clock others self token ⇓ λ '(self', r),
    mio_ok (b + delta + 4) self' ∧ continues self self' ∧ turn self' = S (turn self) ∧
    routed self self'.
Proof.
  intros Hco Hok Hb Hbound. unfold on_quic_send.
  pose proof (enter_ok _ _ Hco Hok) as Hok1.
  assert (continues self (enter others self)) as Hct1 by by apply (continues_refl b) in Hok as [].
  set (self1 := enter others self) in *.
  destruct (mo_group _ _ Hok1) as (n&Hw&Hn0&Hn). wp_step.
  pose proof (send_spec clock n (group self1) _ _ token (writable_buf QuicBuf_new) Hw Hn0 ltac:(lia)) as Hwp.
  destruct (Group.send clock (group self1) token (writable_buf QuicBuf_new)) as [[[g b1] r]| |] eqn:Hsend;
    try done. destruct Hwp as [Hw' _]. simpl.
  assert (mio_ok (b + delta + 4) (set_group self1 g)) as Hok2.
  { eapply mio_ok_group; [done|]. exists (n + 4). split; [done|lia]. }
  set (self2 := set_group self1 g) in *.
  assert (continues self self2) as Hct2 by by destruct Hct1.
  assert (would_block r = Pending ∨ (∃ e, would_block r = Ready (Err e)) ∨
    ∃ m info, r = Ok (m, info)) as Hcase by (destruct r as [[]|[]]; eauto 10).
  destruct Hcase as [->|[[e ->]|(m&info&->)]].
  1, 2: split_and!; [done|done|done|by left].
  apply send_packet in Hsend as [Hlen Hq]. destruct (Hq m info eq_refl) as (c&c'&Hpkt).
  simpl. pose proof (send_bound _ _ _ _ _ _ Hpkt) as Hm. destruct quic_buf_wf as [Hnb _].
  wp_step. wp_step; [by apply bool_decide_true; lia|].
  wp_step. unfold writable_buf in *. rewrite writable_consume_ok by lia. simpl.
  destruct (Hbound _ _ _ _ _ _ Hpkt) as [i Hi]. rewrite Hi. simpl.
  destruct (mo_laddrs _ _ Hok _ _ Hi) as (s&Hs&Ha).
  eapply wp_mono; [apply (socket_send_spec (b + delta + 4) self2 i (MkArrayBuf b1 m)); [done|by exists s|]|].
  { by apply (filled_wf (ArrayBuf.buf QuicBuf_new)); lia. }
  intros [self3 r3] (Hok3&Hct3&_&Ht3&s0&s'&new&Hs0&->&Hk&Hnew).
  split_and!; [done|by eapply continues_trans|done|]. right.
  exists c, (ArrayBuf.buf QuicBuf_new), c', b1, m, info, i, s, s', new.
  assert (s0 = s) as -> by (simpl in Hs0; congruence). by split_and!.
Qed.

(** ** Datagrams received *)

Definition cost (entries : nat) : Z := (delta + 13) * Z.of_nat entries.

Lemma cost_le n m : 0 ≤ delta → (n ≤ m)%nat → cost n ≤ cost m.
Proof. intros ? ?. unfold cost. apply Z.mul_le_mono_nonneg_l; lia. Qed.

Lemma wp_known {A} (m : exec A) (P : A → Prop) : m ⇓ P → ∃ a, m = Ret a ∧ P a.
Proof. apply wp_Ret_iff. Qed.

(** One entry of a server into the group. *)
Lemma server_entry b self (a : Acceptor) buf n info p rand_bytes sys_now :
  cooperative → mio_ok b self → sane_validator (address_validator a) →
  zlen buf = QUIC_BUF_LEN → 0 ≤ n ≤ QUIC_BUF_LEN → b + delta + 20 < u32_modulus →
  Group.recv_with_acceptor clock (group (enter others self)) a buf n info (Some p) rand_bytes sys_now ⇓
  λ '(g, a', b', r), group_ok (b + delta + 13) (S (turn self)) g ∧ address_validator a' = address_validator a ∧
    fills 0 buf b' r ∧ (quiet (turn self) → not_busy r).
Proof.
  intros Hco Hok Hsane Hbuf Hn Hb. pose proof (mo_group _ _ (enter_ok _ _ Hco Hok)) as (m&Hw&Hm0&Hm).
  set (g0 := group (enter others self)) in *.
  assert (∀ header d, (header_from_slice (take (Z.to_nat n) buf)).2 = Ok header →
    handshake a header d info rand_bytes sys_now ⇓ λ _, True) as Hhs.
  { intros header d Hh. destruct a as [cfg v].
    eapply wp_mono; [by eapply (Hsane cfg _ header d info rand_bytes sys_now)|done]. }
  pose proof (recv_with_acceptor_spec clock m g0 _ _ a buf n info (Some p) rand_bytes sys_now Hw Hm0
    ltac:(lia) ltac:(lia) ltac:(lia) ltac:(intros; apply lookup_empty) Hhs) as Hwp.
  destruct (wp_known _ _ Hwp) as ([[[g a'] b'] r]&Hrecv&Hw'&_). rewrite Hrecv. simpl.
  pose proof (recv_with_acceptor_fills _ _ _ _ _ _ _ _ _ _ _ _ _ Hrecv) as [Hv Hf].
  split_and!; [exists (m + 13); split; [done|lia]|done|done|].
  intros Hq. assert (idle m g0) as Hidle by by eapply world_ext; [exact Hw|intros t; rewrite Hq].
  eapply (recv_with_acceptor_idle clock m g0); try done. unfold u32_modulus, u64_modulus in *. lia.
Qed.

(** The answer of the server, if any, goes out through the socket of the datagram. *)
Lemma server_reply b self self1 i buf sz (info : SendInfo) :
  mio_ok b self1 → continues self self1 → is_Some (sockets (state self) !! i) →
  zlen (ArrayBuf.buf buf) = QUIC_BUF_LEN → 0 ≤ sz ≤ QUIC_BUF_LEN →
  (if bool_decide (sz = 0) then Ret (self1, Ok ()) else
   buf ← writable_consume QUIC_BUF_LEN buf sz;
   socket_send self1 i buf (QuicheApi.send_to info)) ⇓ λ '(self', r),
    mio_ok b self' ∧ continues self self'.
Proof.
  intros Hok Hct [s Hs] Hbuf Hsz. case_bool_decide; [done|]. wp_step.
  rewrite writable_consume_ok by lia. simpl.
  destruct (ct_sockets _ _ Hct i s Hs) as (s1&ps&Hs1&_).
  eapply wp_mono; [apply (socket_send_spec b self1 i); [done|by exists s1|by apply (filled_wf (ArrayBuf.buf buf)); lia]|].
  intros [self2 r2] (Hok2&Hct2&_). split; [done|]. by eapply continues_trans.
Qed.

Lemma server_dispatch_spec fuel j b self (a : Acceptor) i buf n from p :
  cooperative → mio_ok b self → sane_validator (address_validator a) →
  validator self = Some (address_validator a) → is_Some (sockets (state self) !! i) →
  zlen (ArrayBuf.buf buf) = QUIC_BUF_LEN → 0 ≤ n ≤ QUIC_BUF_LEN →
  (j ≤ fuel)%nat → quiet (turn self + j) → b + cost (S j) + 20 < u32_modulus →
  server_dispatch clock others entropy fuel self a i buf n from p ⇓ λ '(self', r),
    mio_ok (b + cost (S j)) self' ∧ continues self self'.
Proof.
  intros Hco Hok Hsane. pose proof (coop_delta Hco) as Hdelta.
  revert j b self a buf Hok Hsane. induction fuel as [|fuel IH];
    intros j b self a buf Hok Hsane Hval [s Hs] Hbuf Hn Hj Hquiet Hb;
    cbn [server_dispatch]; unfold socket_at; rewrite Hs; simpl.
  all: destruct (entropy _) as [rand_bytes sys_now]; wp_step.
  all: unfold cost in *; eapply wp_mono; [by apply (server_entry b self a (ArrayBuf.buf buf)); try done; lia|].
  all: intros [[[g a'] b'] r] (Hg&Hv&[Hlen Hfill]&Hnb).
  all: assert (mio_ok (b + delta + 13) (set_acceptor (set_group (enter others self) g) a')) as Hok1
    by (split; [done|apply Hok|apply Hok]).
  all: assert (continues self (set_acceptor (set_group (enter others self) g) a')) as Hct1
    by (pose proof (continues_refl _ _ Hok) as []; split; try done;
        unfold validator in *; simpl; by rewrite Hval, Hv).
  all: set (self1 := set_acceptor _ _) in *.
  all: destruct r as [[sz info']|e];
    [specialize (Hfill _ _ eq_refl);
     apply (mio_ok_mono _ (b + (delta + 13) * Z.of_nat (S j))) in Hok1; [|lia];
     apply (server_reply _ self self1 i (set_writable_buf buf b')); simpl; (done || lia || eauto)|].
  - destruct j; [|lia]. rewrite Nat.add_0_r in Hquiet. specialize (Hnb Hquiet) as [? ?].
    destruct e; try done; (split; [eapply mio_ok_mono; [done|lia]|done]).
  - assert (e ≠ Busy ∧ e ≠ Retry ∨ (e = Busy ∨ e = Retry) ∧ j ≠ 0%nat) as [[Hb1 Hb2]|[Hre Hj0]].
    { destruct j; [|destruct e; auto]. rewrite Nat.add_0_r in Hquiet.
      specialize (Hnb Hquiet) as [? ?]. left. split; congruence. }
    { destruct e; try done; (split; [eapply mio_ok_mono; [done|lia]|done]). }
    destruct j as [|j]; [done|].
    assert (server_dispatch clock others entropy fuel self1 a' i (set_writable_buf buf b') n from p
      ⇓ λ '(self', _), mio_ok (b + (delta + 13) * Z.of_nat (S (S j))) self' ∧ continues self self') as Hrec.
    { eapply wp_mono; [apply (IH j (b + delta + 13) self1 a');
        [done|by rewrite Hv|by rewrite (ct_validator _ _ Hct1), Hval, Hv|by exists s|simpl; lia|done
        |lia|by rewrite (Nat.add_succ_r (turn self)) in Hquiet|lia]|].
      intros [self2 r2] [Hok2 Hct2]. split; [eapply mio_ok_mono; [done|lia]|by eapply continues_trans]. }
    by destruct Hre as [-> | ->].
Qed.

(** One entry of a client into the group. *)
Lemma client_entry b self dcid buf info p :
  cooperative → mio_ok b self → b + delta + 20 < u32_modulus →
  Group.recv_with_connection_id clock (group (enter others self)) dcid buf info (Some p) ⇓
  λ '(g, b', r), group_ok (b + delta + 13) (S (turn self)) g ∧ length b' = length buf ∧
    (quiet (turn self) → not_busy r).
Proof.
  intros Hco Hok Hb. pose proof (mo_group _ _ (enter_ok _ _ Hco Hok)) as (m&Hw&Hm0&Hm).
  set (g0 := group (enter others self)) in *. unfold u32_modulus in *.
  pose proof (recv_with_connection_id_spec clock m g0 _ _ dcid buf info (Some p) Hw Hm0
    ltac:(unfold u64_modulus; lia)) as Hwp.
  destruct (wp_known _ _ Hwp) as ([[g b'] r]&Hrecv&[Hw' _]&_). rewrite Hrecv. simpl.
  split_and!; [exists (m + 4); split; [done|lia]|by apply recv_with_connection_id_length in Hrecv|].
  intros Hq. assert (idle m g0) as Hidle by by eapply world_ext; [exact Hw|intros t; rewrite Hq].
  eapply (recv_idle clock m g0); try done. unfold u64_modulus. lia.
Qed.

Lemma client_loop_spec fuel j b self dcid i buf from p :
  cooperative → mio_ok b self → is_Some (sockets (state self) !! i) →
  ArrayBuf.wf QUIC_BUF_LEN buf → (j ≤ fuel)%nat → quiet (turn self + j) →
  b + cost (S j) + 20 < u32_modulus →
  client_loop clock others fuel self dcid i buf from p ⇓ λ '(self', r),
    mio_ok (b + cost (S j)) self' ∧ continues self self'.
Proof.
  intros Hco. pose proof (coop_delta Hco) as Hdelta. unfold cost.
  revert j b self buf. induction fuel as [|fuel IH];
    intros j b self buf Hok [s Hs] Hbuf Hj Hquiet Hb;
    cbn [client_loop]; unfold socket_at; rewrite Hs; simpl;
    destruct (lend_readable _ _ Hbuf) as (d&Hd&_&Hback); rewrite Hd; simpl; wp_step.
  all: eapply wp_mono; [by apply (client_entry b self); try done; lia|].
  all: intros [[g b'] r] (Hg&Hlen&Hnb).
  all: assert (mio_ok (b + delta + 13) (set_group (enter others self) g)) as Hok1
    by (split; [done|apply Hok|apply Hok]).
  all: assert (continues self (set_group (enter others self) g)) as Hct1
    by (by pose proof (continues_refl _ _ Hok) as []).
  all: set (self1 := set_group _ g) in *.
  all: destruct (Hback b' Hlen) as (buf'&->&Hbuf'&_); simpl.
  all: assert (mio_ok (b + (delta + 13) * Z.of_nat (S j)) self1 ∧ continues self self1) as Hend
    by (split; [eapply mio_ok_mono; [done|lia]|done]).
  - destruct j; [|lia]. rewrite Nat.add_0_r in Hquiet. specialize (Hnb Hquiet) as [? ?].
    by destruct r as [|[]].
  - assert (r ≠ Err Busy ∧ r ≠ Err Retry ∨ (r = Err Busy ∨ r = Err Retry) ∧ j ≠ 0%nat) as [[Hb1 Hb2]|[Hre Hj0]].
    { destruct j; [|destruct r as [|[]]; auto]. rewrite Nat.add_0_r in Hquiet. left. by apply Hnb. }
    { by destruct r as [|[]]. }
    destruct j as [|j]; [done|].
    assert (client_loop clock others fuel self1 dcid i buf' from p
      ⇓ λ '(self', _), mio_ok (b + (delta + 13) * Z.of_nat (S (S j))) self' ∧ continues self self') as Hrec.
    { eapply wp_mono; [apply (IH j (b + delta + 13) self1);
        [done|by exists s|done|lia|by rewrite (Nat.add_succ_r (turn self)) in Hquiet|lia]|].
      intros [self2 r2] [Hok2 Hct2]. split; [eapply mio_ok_mono; [done|lia]|by eapply continues_trans]. }
    by destruct Hre as [-> | ->].
Qed.

Lemma client_dispatch_spec fuel j b self i buf from p :
  cooperative → mio_ok b self → is_Some (sockets (state self) !! i) →
  ArrayBuf.wf QUIC_BUF_LEN buf → (j ≤ fuel)%nat → quiet (turn self + j) →
  b + cost (S j) + 20 < u32_modulus →
  client_dispatch clock others fuel self i buf from p ⇓ λ '(self', r),
    mio_ok (b + cost (S j)) self' ∧ continues self self'.
Proof.
  intros Hco Hok Hs Hbuf Hj Hquiet Hb. pose proof (coop_delta Hco) as Hdelta. unfold client_dispatch.
  destruct (lend_readable _ _ Hbuf) as (d&->&_&Hback). simpl.
  pose proof (header_length d) as Hlen. destruct (header_from_slice d) as [b' header]. simpl in Hlen.
  destruct (Hback b' Hlen) as (buf'&->&Hbuf'&_). destruct header as [header|e]; simpl.
  - by apply client_loop_spec.
  - split; [eapply mio_ok_mono; [done|unfold cost; lia]|by eapply continues_refl].
Qed.

(** One received datagram, for a server or a client. *)
Lemma dispatch_spec fuel j b self i buf from p :
  cooperative → mio_ok b self → (∀ v, validator self = Some v → sane_validator v) →
  is_Some (sockets (state self) !! i) → ArrayBuf.wf QUIC_BUF_LEN buf →
  (j ≤ fuel)%nat → quiet (turn self + j) → b + cost (S j) + 20 < u32_modulus →
  match acceptor (state self) with
  | Some a => server_dispatch clock others entropy fuel self a i buf (readable buf) from p
  | None => client_dispatch clock others fuel self i buf from p
  end ⇓ λ '(self', _), mio_ok (b + cost (S j)) self' ∧ continues self self'.
Proof.
  intros Hco Hok Hsane Hi Hbuf Hj Hquiet Hb.
  destruct (acceptor (state self)) as [a|] eqn:Ha; [|by apply client_dispatch_spec].
  assert (validator self = Some (address_validator a)) as Hv by (unfold validator; by rewrite Ha).
  destruct Hbuf as [Hbl Hbn]. apply server_dispatch_spec; try done. by apply Hsane.
Qed.

(** Every datagram that is waiting is handed to the group. *)
Lemma recv_loop_spec fuel b self i s p :
  cooperative → mio_ok b self → (∀ v, validator self = Some v → sane_validator v) →
  sockets (state self) !! i = Some s → (udp_backlog (socket s) + patience ≤ fuel)%nat →
  b + cost (udp_backlog (socket s) * S patience) + 20 < u32_modulus →
  recv_loop clock others entropy fuel self i p ⇓ λ '(self', r),
    mio_ok (b + cost (udp_backlog (socket s) * S patience)) self' ∧ continues self self'.
Proof.
  intros Hco. pose proof (coop_delta Hco) as Hdelta. unfold cost.
  revert b self s. induction fuel as [|fuel IH]; intros b self s Hok Hsane Hs Hfuel Hb;
    cbn [recv_loop]; unfold socket_at; rewrite Hs; cbn [unwrap mbind exec_bind]; wp_step;
    pose proof (mio_ok_socket _ _ _ _ Hok Hs) as [Hwf _];
    (eapply wp_mono; [apply (recv_from_spec s QuicBuf_new Hwf quic_buf_wf)|]);
    intros [[s1 buf] r] (Hk&_&Hbuf&Hr); destruct (set_socket_ok _ _ _ _ _ _ Hok Hs Hk) as [Hok1 Hct1];
    set (self1 := set_socket self i s1) in *.
  all: assert (mio_ok (b + (delta + 13) * Z.of_nat (udp_backlog (socket s) * S patience)) self1) as Hend
    by (eapply mio_ok_mono; [done|lia]).
  all: destruct r as [from|[bf|[]]]; try done; cbn [map_err io_would_block to_io_error]; simpl in Hr.
  { lia. }
  destruct (coop_fair Hco (turn self1)) as (j&Hj&Hquiet).
  pose proof (lookup_lt_Some _ _ _ Hs) as Hlt.
  assert (sockets (state self1) !! i = Some s1) as Hs1 by by apply list_lookup_insert_eq.
  set (b1 := b + (delta + 13) * Z.of_nat (S patience)).
  assert (b + cost (S j) ≤ b1) as Hb1 by (unfold cost, b1; nia).
  assert (b1 + (delta + 13) * Z.of_nat (udp_backlog (socket s1) * S patience) ≤
    b + (delta + 13) * Z.of_nat (udp_backlog (socket s) * S patience)) as Hb2 by (unfold b1; nia).
  wp_step. eapply wp_mono; [apply (dispatch_spec (S fuel) j b self1);
    [done|done| |by exists s1|done|lia|done|lia]|].
  { intros v Hv. apply Hsane. by rewrite <-(ct_validator _ _ Hct1). }
  intros [self2 r2] [Hok2' Hct2]. assert (mio_ok b1 self2) as Hok2 by by eapply mio_ok_mono.
  pose proof (continues_trans _ _ _ Hct1 Hct2) as Hct.
  destruct (ct_sockets _ _ Hct2 i s1 Hs1) as (s2&ps&Hs2&Hk2).
  assert (udp_backlog (socket s2) ≤ udp_backlog (socket s1))%nat as Hbl by apply Hk2.
  assert (b1 + (delta + 13) * Z.of_nat (udp_backlog (socket s2) * S patience) ≤
    b + (delta + 13) * Z.of_nat (udp_backlog (socket s) * S patience)) as Hb3 by nia.
  destruct r2 as [[]|e]; [|split; [eapply mio_ok_mono; [done|lia]|done]].
  eapply wp_mono; [apply (IH b1 self2 s2 Hok2); [|done|lia|lia]|].
  - intros v Hv. apply Hsane. by rewrite <-(ct_validator _ _ Hct).
  - intros [self3 r3] [Hok3 Hct3]. split; [by eapply mio_ok_mono|by eapply continues_trans].
Qed.

(** ** One round of mio *)

(** At most [m] datagrams wait at each socket. *)
Definition backlog_le (m : nat) self : Prop :=
  ∀ i s, sockets (state self) !! i = Some s → (udp_backlog (socket s) ≤ m)%nat.

Lemma backlog_continues m b self self' :
  backlog_le m self → mio_ok b self' → continues self self' → backlog_le m self'.
Proof.
  intros Hm Hok Hct i s' Hs'.
  destruct (lookup_lt_is_Some_2 (sockets (state self)) i) as [s Hs].
  { rewrite <-(ct_length _ _ Hct). by eapply lookup_lt_Some. }
  destruct (ct_sockets _ _ Hct i s Hs) as (s2&ps&Hs2&Hk). simplify_eq.
  specialize (Hm i s Hs). destruct Hk as (_&_&_&_&_&_&?). lia.
Qed.

(** What the parts of the loop rely on: fuel for the datagrams that wait and for the patience
    of the poller, and a server whose handshakes return. *)
Definition ready (fuel m : nat) self : Prop :=
  backlog_le m self ∧ (m + patience ≤ fuel)%nat ∧ ∀ v, validator self = Some v → sane_validator v.

Lemma ready_continues fuel m b self self' :
  ready fuel m self → mio_ok b self' → continues self self' → ready fuel m self'.
Proof.
  intros (Hm&?&Hv) Hok Hct. split_and!; [by eapply backlog_continues|done|].
  by rewrite (ct_validator _ _ Hct).
Qed.

Lemma on_mio_event_spec fuel m b self ev :
  cooperative → mio_ok b self → ready fuel m self →
  (me_token ev ≤ length (sockets (state self)))%nat → b + cost (m * S patience) + 20 < u32_modulus →
  on_mio_event clock others entropy new_parker fuel self ev ⇓ λ '(self', r),
    mio_ok (b + cost (m * S patience)) self' ∧ continues self self'.
Proof.
  intros Hco Hok (Hm&Hf&Hv) Htok Hb. pose proof (coop_delta Hco) as Hdelta. unfold on_mio_event.
  assert (mio_ok (b + cost (m * S patience)) self) as Hok0 by (eapply mio_ok_mono; [done|unfold cost; lia]).
  case_bool_decide as Heq; [split; [done|by eapply continues_refl]|].
  destruct (lookup_lt_is_Some_2 (sockets (state self)) (me_token ev)) as [s Hs]; [lia|].
  assert ((if me_readable ev then on_udp_recv clock others entropy new_parker fuel self (me_token ev)
    else Ret (self, Ok ())) ⇓ λ '(self', _),
      mio_ok (b + cost (m * S patience)) self' ∧ continues self self') as Hrecv.
  { destruct (me_readable ev); [|split; [done|by eapply continues_refl]].
    unfold on_udp_recv, socket_at. rewrite Hs. simpl. pose proof (Hm _ _ Hs) as Hle.
    pose proof (cost_le (udp_backlog (socket s) * S patience) (m * S patience) Hdelta
      (Nat.mul_le_mono_r _ _ _ Hle)) as Hcost.
    eapply wp_mono; [apply (recv_loop_spec fuel b self _ s); [done|done|done|done|lia|lia]|].
    intros [self1 r1] [Hok1 Hct1]. split; [|done]. eapply mio_ok_mono; [done|lia]. }
  wp_step. eapply wp_mono; [exact Hrecv|]. intros [self1 [[]|e]] [Hok1 Hct1]; [|done].
  destruct (me_writable ev); [|done]. destruct (ct_sockets _ _ Hct1 _ s Hs) as (s1&ps&Hs1&_).
  eapply wp_mono; [apply (on_udp_send_spec (b + cost (m * S patience)) self1); [done|by exists s1]|].
  intros [self2 r2] [Hok2 Hct2]. split; [done|by eapply continues_trans].
Qed.

Lemma on_mio_events_spec fuel m b self evs :
  cooperative → mio_ok b self → ready fuel m self →
  Forall (λ ev, (me_token ev ≤ length (sockets (state self)))%nat) evs →
  b + cost (length evs * (m * S patience)) + 20 < u32_modulus →
  on_mio_events clock others entropy new_parker fuel self evs ⇓ λ '(self', r),
    mio_ok (b + cost (length evs * (m * S patience))) self' ∧ continues self self'.
Proof.
  intros Hco Hok Hready Htok. pose proof (coop_delta Hco) as Hdelta.
  revert b self Hok Hready Htok. unfold cost.
  induction evs as [|ev evs IH]; intros b self Hok Hready Htok Hb; cbn [on_mio_events].
  { split; [eapply mio_ok_mono; [done|lia]|by eapply continues_refl]. }
  apply Forall_cons in Htok as [Hev Htok]. simpl length in *.
  wp_step. eapply wp_mono; [apply (on_mio_event_spec fuel m b self ev); [done|done|done|done|unfold cost; lia]|].
  intros [self1 [[]|e]] [Hok1 Hct1]; unfold cost in Hok1.
  2: { split; [eapply mio_ok_mono; [done|lia]|done]. }
  eapply wp_mono; [apply (IH _ self1 Hok1)|].
  - by eapply ready_continues.
  - by rewrite (ct_length _ _ Hct1).
  - lia.
  - intros [self2 r2] [Hok2 Hct2]. split; [eapply mio_ok_mono; [done|lia]|by eapply continues_trans].
Qed.

(** mio reports at most 1024 events at a time (the capacity that the source gives it), and
    only for tokens that [bind] registered. *)
Definition mio_events_ok self : Prop :=
  ∀ timeout p' evs, mio_poll (poll_ (state self)) timeout = (p', Ok evs) →
    (length evs ≤ 1024)%nat ∧ Forall (λ ev, (me_token ev ≤ length (sockets (state self)))%nat) evs.

End loop.
End MioSafety.
