(* ===== verification/MioPoll.v ===== *)
(** What the event loop does for its callers: the creation of a group, the routes of packets,
    the events that [poll] returns; and what can stop it. *)
From stdpp Require Import functions.
From S2P Require Import Prelude Api EventQueue QuicheApi QuicheReference Utils FixedBuf UdpSocket.
From S2P Require Import Connection ConnFacts ConnLock Acceptor Group GroupSafety GroupMethods.
From S2P Require Import MioGroup MioSafety.
Import ArrayBuf QuicSocket QuicConn Acceptor GroupSafety GroupMethods MioGroup MioSafety.

Module MioPoll.

(** * Creation *)

Section creation.
Context `{QuicheEndpoint} `{!PriorityQueue Event} `{MioOps}.
Context {Unparker : Type} (alive : nat → Token → list Session.guard).
Abbreviation MGroup := (@MioGroup.Group _ _ _ _ _ Unparker).
Implicit Types self : MGroup.
Abbreviation mio_ok := (mio_ok alive).
(** A socket as [bind] creates it. *)
Definition fresh_socket (s : QuicSocket) : Prop :=
  sending s = [] ∧ sending_buffer_limits s = 1024 ∧ udp_local_addr (socket s) = Ok (local_addr s).

(** The table of addresses leads to sockets with those addresses. *)
Definition table_ok (socks : list QuicSocket) (addrs : gmap SocketAddr nat) : Prop :=
  ∀ a i, addrs !! a = Some i → ∃ s, socks !! i = Some s ∧ local_addr s = a.

Lemma bind_sockets_spec p l socks addrs p' socks' addrs' :
  table_ok socks addrs → bind_sockets p l socks addrs = (p', Ok (socks', addrs')) →
  table_ok socks' addrs' ∧
  ∃ fresh, socks' = socks ++ fresh ∧ length fresh = length l ∧ Forall fresh_socket fresh ∧
    dom addrs' = dom addrs ∪ list_to_set (local_addr <$> fresh).
Proof.
  revert p socks addrs. induction l as [|laddr l IH]; intros p socks addrs Hl; simpl.
  { intros; simplify_eq. split; [done|]. exists []. rewrite app_nil_r. split_and!; [done..|set_solver]. }
  destruct (udp_bind laddr) as [sock|e]; [|done].
  destruct (udp_local_addr sock) as [addr|e] eqn:Haddr; [|done].
  destruct (mio_register p sock (length socks)) as [p1 [|e]]; [|done].
  unfold QuicSocket.new. rewrite Haddr. set (s0 := MkQuicSocket 1024 [] sock addr). intros Hb.
  apply IH in Hb as (?&fresh&->&Hlen&Hfresh&Hdom).
  - split; [done|]. exists (s0 :: fresh). rewrite <-app_assoc.
    split_and!; [done|simpl; lia|by constructor|]. rewrite Hdom, dom_insert_L. set_solver.
  - intros x j [[<- <-]|[Hne Hj]]%lookup_insert_Some.
    + exists s0. by rewrite list_lookup_middle.
    + destruct (Hl x j Hj) as (s&Hs&?). exists s. split; [|done]. by apply lookup_app_l_Some.
Qed.

(** C26.  A group that [bind] creates is well formed: one socket per address, each with an empty
    queue of at most 1024 datagrams; the table has exactly the local addresses of the sockets,
    and leads from each of them to a socket with that address; the group has no connection.
    (No thread holds a guard before the group exists.) *)
Theorem bind_well_formed (l : io_result (list SocketAddr)) (a : option Acceptor) self :
  (∀ t, alive 0 t = []) → bind l a = Ok self →
  mio_ok 0 self ∧ acceptor (state self) = a ∧ len self = 0%nat ∧
  Forall fresh_socket (sockets (state self)) ∧
  (∃ addrs, l = Ok addrs ∧ length (sockets (state self)) = length addrs) ∧
  dom (laddrs self) = list_to_set (local_addr <$> sockets (state self)) ∧
  ∀ addr, addr ∈ local_addrs self ↔ addr ∈ dom (laddrs self).
Proof.
  intros Hnone. unfold bind. destruct mio_poll_new as [p|e]; [|done]. destruct l as [addrs|e]; [|done].
  destruct (bind_sockets p addrs [] ∅) as [p1 [[socks table]|e]] eqn:Hb; [|done].
  destruct (waker_new p1 (length socks)) as [p2 [w|e]]; [|done]. intros [= <-].
  apply bind_sockets_spec in Hb as (Ht&fresh&->&Hlen&Hfresh&Hdom).
  2: { intros x i Hx. by rewrite lookup_empty in Hx. }
  split_and!; simpl; [|done|done|done|by exists addrs|rewrite Hdom; set_solver|].
  - split; simpl; [|by eapply Forall_impl; [exact Hfresh|];
      intros s (Hq&Hlim&_); split; [split; rewrite ?Hq, ?Hlim; [constructor|done]|done]|exact Ht].
    exists 0. split; [|lia]. apply (world_ext _ _ (λ _, [])); [|done]. split_and!; simpl; try done; lia.
  - intros addr. unfold local_addrs; simpl. rewrite elem_of_dom, list_elem_of_fmap. split.
    + intros ([x i]&->&Hx). apply elem_of_map_to_list in Hx. by exists i.
    + intros [i Hi]. exists (addr, i). split; [done|]. by apply elem_of_map_to_list.
Qed.
End creation.

(** * Polling *)

Section poll.
Context `{QuicheIoLaws} `{!QuicheLaws} `{!QuicheEndpointLaws}.
Context `{!PriorityQueue Event} `{!PriorityQueueLaws Event} `{HashIter} `{OverflowChecks}.
Context `{MioOps} `{!UdpLaws}.
Context {Unparker : Type} (clock : nat → Instant).
Abbreviation PollGroup := (@Group.Group _ _ Unparker).
Context (others : nat → PollGroup → PollGroup) (entropy : nat → (nat → list byte) * Z).
Context (new_parker : nat → Unparker).
Context (alive : nat → Token → list Session.guard) (delta : Z) (patience : nat).
Abbreviation MGroup := (@MioGroup.Group _ _ _ _ _ Unparker).
Implicit Types (self : MGroup) (events drained : list Event).
Abbreviation cooperative := (cooperative others alive delta patience).
Abbreviation mio_ok := (mio_ok alive).
Abbreviation group_ok := (group_ok alive).

(** ** Packets *)


(** A connection with a new source id can be registered; the caller's poller is woken. *)
Lemma register_ok b self (c : Connection) :
  mio_ok b self → Group.scids (group self) !! source_id c = None → b + 1 < u32_modulus →
  register clock self c ⇓ λ '(self', _), mio_ok (b + 1) self'.
Proof.
  intros Hok Hsc Hb. destruct (mo_group _ _ _ Hok) as (n&Hw&Hn). unfold register. wp_step.
  eapply wp_mono; [apply (register_spec clock n _ _ _ c Hw); [lia|done]|].
  intros [g token] [Hw' _]. unfold wake. destruct (waker_wake _) as [w woken]. simpl.
  split; [|apply Hok|apply Hok]. exists (n + 1). split; [done|lia].
Qed.

Lemma bound_continues self self' :
  bound_addresses self → continues self self' → bound_addresses self'.
Proof. intros Hb Hct. unfold bound_addresses. by rewrite (ct_laddrs _ _ Hct). Qed.

(** The events that stay, after the loop over [drained]: all that are not for the loop itself,
    in order; an error leaves those behind the failed [Send] event out. *)
Definition kept_events drained (r : io_result unit) events : Prop :=
  match r with
  | Ok _ => events = filter reported drained
  | Err _ => ∃ l1 e l2, drained = l1 ++ e :: l2 ∧ ev_kind e = EvSend ∧ events = filter reported l1
  end.

Lemma filter_events_spec b self drained acc :
  cooperative → mio_ok b self → bound_addresses self →
  2 * (b + (delta + 4) * zlen drained) + 6 < u64_modulus →
  filter_events clock others self drained acc ⇓ λ '(self', events, r),
    mio_ok (b + (delta + 4) * zlen drained) self' ∧ continues self self' ∧
    ∃ kept, events = acc ++ kept ∧ kept_events drained r kept.
Proof.
  intros Hco Hok Hbound. pose proof (coop_delta _ _ _ _ Hco) as Hdelta.
  revert b self acc Hok Hbound. induction drained as [|e drained IH]; intros b self acc Hok Hbound Hb;
    cbn [filter_events]; simpl length in *.
  { split_and!; [eapply mio_ok_mono; [done|lia]|by eapply continues_refl|].
    exists []. by rewrite app_nil_r. }
  assert (∀ self1 acc1 keep, mio_ok (b + delta + 4) self1 → continues self self1 → acc1 = acc ++ keep →
    filter reported [e] = keep →
    filter_events clock others self1 drained acc1 ⇓ λ '(self', events, r),
      mio_ok (b + (delta + 4) * Z.of_nat (S (length drained))) self' ∧ continues self self' ∧
      ∃ kept, events = acc ++ kept ∧ kept_events (e :: drained) r kept) as Hnext.
  { intros self1 acc1 keep Hok1 Hct1 -> Hkeep.
    eapply wp_mono; [apply (IH (b + delta + 4) self1); [done|by eapply bound_continues|lia]|].
    intros [[self2 events] r] (Hok2&Hct2&kept&->&Hk).
    split_and!; [eapply mio_ok_mono; [done|lia]|by eapply continues_trans|].
    exists (keep ++ kept). rewrite app_assoc. split; [done|].
    assert (∀ l, filter reported (e :: l) = keep ++ filter reported l) as Hf.
    { intros l. rewrite (filter_app _ [e] l : filter reported (e :: l) = _), Hkeep. done. }
    destruct r as [u|err]; simpl in *; [by rewrite Hf, Hk|].
    destruct Hk as (l1&e1&l2&->&?&->). exists (e :: l1), e1, l2. by rewrite Hf. }
  assert (mio_ok (b + delta + 4) self) as Hok0 by (eapply mio_ok_mono; [done|lia]).
  pose proof (continues_refl _ _ _ Hok) as Hct0.
  destruct (ev_kind e) eqn:Hkind;
    try (apply (Hnext self _ [e]); [done|done|done|];
         rewrite filter_cons_True by (by unfold reported; rewrite Hkind); done).
  - wp_step. eapply wp_mono; [apply (on_quic_send_spec clock others alive delta patience b); [done|done|lia|done]|].
    intros [self1 [[]|err]] (Hok1&Hct1&_).
    + apply (Hnext self1 _ []); [done|done|by rewrite app_nil_r|].
      rewrite filter_cons_False by (unfold reported; rewrite Hkind; by intros []). done.
    + split_and!; [eapply mio_ok_mono; [done|lia]|done|]. exists []. rewrite app_nil_r. split; [done|].
      by exists [], e, drained.
  - simpl. apply (Hnext self _ []); [done|done|by rewrite app_nil_r|].
    rewrite filter_cons_False by (unfold reported; rewrite Hkind; by intros []). done.
Qed.

Lemma filter_events_reported self drained acc self' out r :
  filter_events clock others self drained acc = Ret (self', out, r) →
  Forall reported acc → Forall reported out.
Proof.
  revert self acc. induction drained as [|e drained IH]; intros self acc; cbn [filter_events].
  { by intros [= _ <- _]. }
  destruct (ev_kind e) eqn:Hkind;
    try (intros Hf Hacc; eapply IH; [exact Hf|]; apply Forall_app; split; [done|];
         apply Forall_singleton; unfold reported; by rewrite Hkind);
    (intros ([self1 [[]|err]]&_&Hf)%bind_Ret_inv; [by eapply IH|by simplify_eq]).
Qed.

Lemma poll_reported fuel self self' out next :
  poll clock others entropy new_parker fuel self [] = Ret (self', out, Ok next) →
  next = None ∧ out ≠ [] ∧ Forall reported out.
Proof.
  revert self. induction fuel as [|fuel IH]; intros self; cbn [poll];
    intros ([[g events] nxt]&_&Hp)%bind_Ret_inv;
    apply bind_Ret_inv in Hp as ([[self1 out1] [[]|err]]&Hf&Hp); try done;
    (apply filter_events_reported in Hf; [|constructor]);
    case_bool_decide as Hnil; try done; try (by injection Hp as <- <- <-; split_and!).
  apply bind_Ret_inv in Hp as ([self2 [[]|err]]&_&Hp); [|done]. subst out1. by eapply IH.
Qed.

(** The group's own [poll] returns. *)
Lemma group_poll_spec b k (g : PollGroup) :
  group_ok b k g → Group.poll clock g [] ⇓ λ '(g', _, _), group_ok b k g'.
Proof.
  intros (n&Hw&Hn). unfold Group.poll. destruct g as [tn cs r up sc unp reads]; simpl. wp_step.
  eapply wp_mono; [apply Readiness.poll_late|]. intros [[r' evs] nxt] _. simpl.
  exists n. by split.
Qed.

(** The second half of [poll_reports] below: with an event for the caller, one round suffices. *)
Lemma poll_hands_out fuel b self :
  cooperative → mio_ok b self → bound_addresses self →
  ∃ g events next, Group.poll clock (group (enter others self)) [] = Ret (g, events, next) ∧
    (2 * (b + delta + (delta + 4) * zlen events) + 6 < u64_modulus → Exists reported events →
     poll clock others entropy new_parker fuel self [] ⇓ λ '(self', out, r),
       (r = Ok None ∧ out = filter reported events) ∨
       (∃ e, r = Err e ∧ kept_events events (Err e) out)).
Proof.
  intros Hco Hok Hbound. pose proof (enter_ok _ _ _ _ _ _ Hco Hok) as Hok1.
  destruct (wp_known _ _ (group_poll_spec _ _ _ (mo_group _ _ _ Hok1))) as ([[g events] next]&Hpoll&Hg).
  exists g, events, next. split; [exact Hpoll|]. intros Hb Hex.
  destruct fuel as [|fuel]; cbn [poll]; rewrite Hpoll; cbn [mbind exec_bind]; wp_step.
  all: eapply wp_mono; [apply (filter_events_spec (b + delta));
    [done|eapply mio_ok_group; [exact Hok1|exact Hg]|exact Hbound|lia]|].
  all: intros [[self2 out] [[]|e]] (_&_&kept&->&Hk); simpl in Hk |- *; [|right; by exists e].
  all: subst kept; rewrite bool_decide_false; [by left|].
  all: apply Exists_exists in Hex as (e&He&Hr); intros Hnil.
  all: assert (e ∈ filter reported events) as Hin by by apply list_elem_of_filter.
  all: rewrite Hnil in Hin; by apply not_elem_of_nil in Hin.
Qed.


(** ** What a datagram can do to the loop *)

Lemma no_token_panics (g : PollGroup) (a : Acceptor) buf n info u rand_bytes sys_now d h :
  0 ≤ n ≤ zlen buf → header_from_slice (take (Z.to_nat n) buf) = (d, Ok h) →
  Group.scids g !! hdr_dcid h = None → version_is_supported (hdr_version h) = true →
  hdr_token h = None →
  Group.recv_with_acceptor clock g a buf n info u rand_bytes sys_now = Panic.
Proof.
  intros Hn Hh Hsc Hver Htok. unfold Group.recv_with_acceptor, slice.
  rewrite bool_decide_true, drop_0, Z.sub_0_r by lia. cbn [mbind exec_bind]. rewrite Hh.
  unfold Group.recv_with_connection_id, Group.recv_lock. rewrite Hsc. cbn [mbind exec_bind].
  unfold handshake. by rewrite Hver, Htok.
Qed.

(** C35.  One datagram from anyone can end the event loop.  A client whose [poll] receives a
    datagram that is not a QUIC packet fails with an error, and leaves the datagrams behind it
    unread; a server whose [poll] receives a packet of an unknown connection, of a supported
    version and without token field, such as any Handshake packet, panics. *)
Theorem hostile_datagram fuel self p ev evs s u b n from :
  mio_poll (poll_ (state self)) None = (p, Ok (ev :: evs)) → me_readable ev = true →
  sockets (state self) !! me_token ev = Some s →
  udp_recv_from (socket s) (ArrayBuf.buf QuicBuf_new) = (u, b, Ok (n, from)) →
  let '(d, header) := header_from_slice (take (Z.to_nat n) b) in
  let run := mio_poll_once clock others entropy new_parker (S fuel) self None in
  match header, acceptor (state self) with
  | Err _, None => ∃ self', run = Ret (self', Err OtherKind)
  | Ok h, Some a =>
      Group.scids (others (turn self) (group self)) !! hdr_dcid h = None →
      version_is_supported (hdr_version h) = true → hdr_token h = None → run = Panic
  | _, _ => True
  end.
Proof.
  intros Hpoll Hread Hs Hrecv.
  pose proof (udp_recv_bound _ _ _ _ _ _ Hrecv) as Hn.
  pose proof (udp_recv_length (socket s) (ArrayBuf.buf QuicBuf_new)) as Hlen. rewrite Hrecv in Hlen. simpl in Hlen.
  assert (zlen (ArrayBuf.buf QuicBuf_new) = QUIC_BUF_LEN) as Hbuf by apply quic_buf_wf.
  assert (0 ≤ n ≤ zlen b) as Hn2 by (by rewrite Hlen).
  pose proof (header_length (take (Z.to_nat n) b)) as Hh.
  destruct (header_from_slice (take (Z.to_nat n) b)) as [d header] eqn:Hheader. simpl in Hh.
  cut (match header, acceptor (state self) with
    | Err _, None => ∃ self', on_mio_event clock others entropy new_parker (S fuel) (set_poll self p) ev = Ret (self', Err OtherKind)
    | Ok h, Some a =>
        Group.scids (others (turn self) (group self)) !! hdr_dcid h = None →
        version_is_supported (hdr_version h) = true → hdr_token h = None →
        on_mio_event clock others entropy new_parker (S fuel) (set_poll self p) ev = Panic
    | _, _ => True
    end).
  { intros Hcut. unfold mio_poll_once. rewrite Hpoll. cbn [on_mio_events].
    destruct header as [h|e], (acceptor (state self)); try done.
    - intros H1' H2' H3'. by rewrite (Hcut H1' H2' H3').
    - destruct Hcut as [self' ->]. by exists self'. }
  unfold on_mio_event. rewrite bool_decide_false by (apply lookup_lt_Some in Hs; simpl; lia).
  rewrite Hread. unfold on_udp_recv, socket_at. simpl sockets. rewrite Hs. cbn [unwrap mbind exec_bind recv_loop].
  unfold socket_at. simpl sockets. rewrite Hs. cbn [unwrap mbind exec_bind].
  unfold recv_from, writable_buf. rewrite Hrecv. rewrite writable_consume_ok by lia.
  cbn [mbind exec_bind map_err io_would_block]. simpl acceptor.
  destruct header as [h|e], (acceptor (state self)) as [a|] eqn:Ha; try done.
  - intros Hsc Hver Htok. cbn [server_dispatch]. unfold socket_at. simpl sockets.
    rewrite list_lookup_insert_eq by (by eapply lookup_lt_Some). cbn [unwrap mbind exec_bind].
    destruct (entropy _) as [rand_bytes sys_now]. simpl readable.
    rewrite (no_token_panics _ a _ _ _ _ _ _ d h); [done|exact Hn2|done..].
  - intros. unfold client_dispatch, readable_buf_mut, slice. simpl ArrayBuf.len. simpl ArrayBuf.buf.
    rewrite bool_decide_true, drop_0, Z.sub_0_r by lia. cbn [mbind exec_bind].
    rewrite Hheader. destruct (lend_readable QUIC_BUF_LEN (MkArrayBuf b n)) as (d0&Hd0&_&Hback).
    { exact (filled_wf _ _ _ Hbuf Hlen Hn). }
    destruct (Hback d) as (buf'&Hset&_).
    { unfold readable_buf_mut, slice in Hd0. simpl in Hd0.
      rewrite bool_decide_true, drop_0, Z.sub_0_r in Hd0 by lia. by injection Hd0 as <-. }
    unfold set_writable_buf. simpl ArrayBuf.buf. rewrite Hset. eexists. reflexivity.
Qed.
(** A deadline that has passed is no timeout: the round waits as if there were no deadline. *)
Lemma overdue_waits fuel self deadline :
  let '(g, now) := Group.now clock (group self) in
  deadline < now →
  mio_poll_once clock others entropy new_parker fuel self (Some deadline) =
  mio_poll_once clock others entropy new_parker fuel (set_group self g) None.
Proof.
  destruct (Group.now clock (group self)) as [g now] eqn:Hnow. intros Hlate.
  unfold mio_poll_once, checked_duration_since. rewrite Hnow. by rewrite bool_decide_false by lia.
Qed.
End poll.

(** * A reference mio *)

Section reference.
Import QuicheReference UdpReference.

(** A poller that plays a script of rounds and notes for how long it was asked to wait. *)
Record ref_poll := MkRefPoll { rounds : list (list MioEvent); waits : list (option Duration) }.

#[export] Instance ref_mio : MioOps := {|
  MioPoll := ref_poll;
  MioWaker := nat;
  mio_poll_new := Ok (MkRefPoll [] []);
  mio_poll p timeout :=
    match rounds p with
    | [] => (MkRefPoll [] (waits p ++ [timeout]), Err OtherKind)
    | evs :: l => (MkRefPoll l (waits p ++ [timeout]), Ok evs)
    end;
  mio_register p _ _ := (p, Ok ());
  udp_bind a := Ok (MkRefSocket a 4 [] []);
  waker_new p _ := (p, Ok 0%nat);
  waker_wake w := (S w, Ok ());
|}.
End reference.

(** * Witnesses *)

Section witnesses.
Import QueueReference QuicheReference UdpReference.
#[local] Instance checked : OverflowChecks := true.
Abbreviation PollGroup := (@Group.Group _ _ nat).
Abbreviation MGroup := (@MioGroup.Group _ _ _ _ _ nat).

(** Other threads leave the group alone. *)
Definition alone (k : nat) (g : PollGroup) : PollGroup := g.
Definition demo_entropy (k : nat) : (nat → list byte) * Z := (demo_rand, 0).
Definition demo_parker (k : nat) : nat := k.

(** A client connection with one packet to send and a timer at 9,000,000. *)
Definition demo_conn : Connection :=
  MkToy false [x03] false false 0 0 (Some 9000000) None [] [] 1.
Definition no_group : MGroup :=
  MkGroup 0%nat Group.new_group ∅ (MkPollState None (MkRefPoll [] []) []) 0.
Definition demo_bound : MGroup :=
  match bind (Ok [toy_local]) None with Ok g => g | Err _ => no_group end.
Definition demo_mio : MGroup :=
  match register demo_clock demo_bound demo_conn with Ret (g, _) => g | _ => no_group end.

Definition nobody (k : nat) (t : Token) : list Session.guard := [].

Lemma alone_cooperative : cooperative alone nobody 0 0.
Proof.
  split; [done| |intros k; exists 0%nat; by split].
  intros k b g (n&?&?). exists n. split; [done|lia].
Qed.

Example bind_well_formed_witness : mio_ok nobody 0 demo_bound ∧ len demo_bound = 0%nat.
Proof.
  destruct (bind_well_formed nobody (Ok [toy_local]) None demo_bound) as (Hok&_&Hlen&_).
  - reflexivity.
  - reflexivity.
  - split; [exact Hok|exact Hlen].
Defined.

Lemma demo_bound_ok : mio_ok nobody 0 demo_bound.
Proof. apply (bind_well_formed nobody (Ok [toy_local]) None demo_bound); reflexivity. Qed.

Lemma demo_bound_addresses : bound_addresses demo_bound.
Proof.
  intros c buf c' b n info. simpl. destruct (toy_packets c), buf; intros; simplify_eq/=.
  by eexists.
Qed.

(** ** Sleeping through a packet *)

Definition demo_slept : MGroup :=
  match poll demo_clock alone demo_entropy demo_parker 1 demo_mio [] with
  | Ret (g, _, _) => g
  | _ => no_group
  end.

Lemma token_ret (m : exec (MGroup * io_result Token)) t :
  match m with Ret (_, Ok t') => bool_decide (t' = t) | _ => false end = true →
  m = Ret (match m with Ret (g, _) => g | _ => no_group end, Ok t).
Proof. destruct m as [[g [t'|e]]| |]; try done. by intros ->%bool_decide_eq_true. Qed.

Lemma poll_err (m : exec (MGroup * list Event * io_result (option Instant))) :
  match m with Ret (_, [], Err OtherKind) => true | _ => false end = true →
  m = Ret (match m with Ret (g, _, _) => g | _ => no_group end, [], Err OtherKind).
Proof. by destruct m as [[[g []] [|[]]]| |]. Qed.


(** ** The other witnesses *)

Lemma demo_mio_registered : register demo_clock demo_bound demo_conn = Ret (demo_mio, Ok (MkToken 0)).
Proof. apply token_ret. vm_compute. reflexivity. Qed.

Lemma demo_mio_ok : mio_ok nobody 1 demo_mio.
Proof.
  pose proof (register_ok demo_clock nobody 0 demo_bound demo_conn demo_bound_ok eq_refl eq_refl) as Hwp.
  rewrite demo_mio_registered in Hwp. exact Hwp.
Qed.

Lemma demo_mio_addresses : bound_addresses demo_mio.
Proof.
  intros c buf c' b n info Hq. destruct (demo_bound_addresses c buf c' b n info Hq) as [i Hi].
  exists i. rewrite <-Hi. f_equal.
Qed.


(** A server connection that is established and has a writable stream, and a packet to send. *)
Definition busy_conn : Connection := MkToy true [x03] true false 0 0 None None [4] [] 1.
Definition busy_mio : MGroup :=
  match register demo_clock demo_bound busy_conn with Ret (g, _) => g | _ => no_group end.
Definition stream_ready : Event := MkEvent (MkToken 0) EvStreamSend true false 4.

Lemma busy_mio_registered : register demo_clock demo_bound busy_conn = Ret (busy_mio, Ok (MkToken 0)).
Proof. apply token_ret. vm_compute. reflexivity. Qed.

Lemma busy_mio_ok : mio_ok nobody 1 busy_mio.
Proof.
  pose proof (register_ok demo_clock nobody 0 demo_bound busy_conn demo_bound_ok eq_refl eq_refl) as Hwp.
  rewrite busy_mio_registered in Hwp. exact Hwp.
Qed.

Lemma busy_mio_addresses : bound_addresses busy_mio.
Proof.
  intros c buf c' b n info Hq. destruct (demo_bound_addresses c buf c' b n info Hq) as [i Hi].
  exists i. rewrite <-Hi. f_equal.
Qed.

Definition polled (m : exec (PollGroup * list Event * option Instant)) : list Event :=
  match m with Ret (_, events, _) => events | _ => [] end.


(** A client, and a server, with one datagram waiting: an empty one, and one whose connection
    is not known. *)
Definition inbox_mio (a : option Acceptor) (d : list byte) : MGroup :=
  MkGroup 0%nat Group.new_group {[toy_local := 0%nat]}
    (MkPollState a (MkRefPoll [[MkMioEvent 0 true false]] [])
       [MkQuicSocket 1024 [] (MkRefSocket toy_local 4 [] [(d, toy_peer)]) toy_local]) 0.

Lemma inbox_mio_ok a d : mio_ok nobody 0 (inbox_mio a d).
Proof.
  split.
  - exists 0. split; [|lia]. split_and!; simpl; try done; lia.
  - constructor; [|constructor]. split; [split; simpl; [constructor|lia]|done].
  - simpl. intros x i [<- <-]%lookup_singleton_Some. by eexists.
Qed.


Example hostile_datagram_witness :
  ∃ self', mio_poll_once demo_clock alone demo_entropy demo_parker 1 (inbox_mio None []) None =
    Ret (self', Err OtherKind).
Proof.
  exact (hostile_datagram demo_clock alone demo_entropy demo_parker 0 (inbox_mio None []) _
    (MkMioEvent 0 true false) [] _ _ _ 0 toy_peer eq_refl eq_refl eq_refl eq_refl).
Defined.
End witnesses.
End MioPoll.
