(* ===== verification/FuturesGroup.v ===== *)
(** The asynchronous binding of [crates/futures/src/lib.rs]: wakers, queues of incoming
    connections and streams, and the futures that use them.  The binding is generic in the
    group that it drives; the traits it requires of it are the interface [QuicBind]. *)
From S2P Require Import Prelude Api EventQueue QuicheApi Acceptor.
Import Acceptor.

(** * The traits [QuicPoll], [QuicClient] and [QuicBind] of [crates/api/src/lib.rs] *)

(** The methods take a shared reference to an object with interior mutability, here a state
    that they replace.  [to_io] is [std::io::Error: From<Q::Error>]. *)
Class QuicBind `{QuicheEndpoint} := {
  Q : Type;
  QbError : Type;
  to_io : QbError → ErrorKind;
  qb_bind : io_result (list SocketAddr) → option Acceptor → result Q QbError;
  qb_local_addrs : Q → list SocketAddr;
  qb_len : Q → nat;
  qb_register : Q → Connection → exec (Q * result Token QbError);
  qb_deregister : Q → Token → exec (Q * result Connection QbError);
  qb_poll : Q → list Api.Event → exec (Q * list Api.Event * result (option Instant) QbError);
  qb_close : Q → Token → bool → Z → list byte → exec (Q * result unit QbError);
  qb_stream_open : Q → Token → StreamKind → bool → exec (Q * result (option Z) QbError);
  qb_stream_shutdown : Q → Token → Z → Z → exec (Q * result unit QbError);
  qb_stream_send : Q → Token → Z → list byte → bool → exec (Q * result Z QbError);
  qb_stream_recv : Q → Token → Z → list byte → exec (Q * list byte * result (Z * bool) QbError);
  qb_connect : Q → option string → SocketAddr → SocketAddr → Config →
    exec (Q * Config * result Token QbError);
}.

Module AsyncGroup.

(** [enum Event]: what a task can wait for. *)
Inductive Event :=
| Connected
| StreamAccept
| StreamOpenBidi
| StreamOpenUni
| StreamSend (id : Z)
| StreamRecv (id : Z).
#[global] Instance Event_eq_dec : EqDecision Event.
Proof. solve_decision. Defined.
#[global] Program Instance Event_countable : Countable Event :=
  inj_countable'
    (λ e, match e with
          | Connected => (0, 0) | StreamAccept => (1, 0) | StreamOpenBidi => (2, 0)
          | StreamOpenUni => (3, 0) | StreamSend id => (4, id) | StreamRecv id => (5, id)
          end%Z)
    (λ '(k, id), if decide (k = 0) then Connected else if decide (k = 1) then StreamAccept
      else if decide (k = 2) then StreamOpenBidi else if decide (k = 3) then StreamOpenUni
      else if decide (k = 4) then StreamSend id else StreamRecv id)%Z _.
Next Obligation. by intros []. Qed.

Section state.
Context {Waker : Type}.

(** [struct State]; [woken] is not in the source: it records the calls of [Waker::wake]. *)
Record State := MkState {
  stopped : bool;
  accept : option Waker;
  wakers : gmap Token (gmap Event Waker);
  incoming_conns : list Token;
  established_conns : gset Token;
  incoming_streams : gmap Token (list Z);
  woken : list Waker;
}.

Definition default_state : State := MkState false None ∅ [] ∅ ∅ [].

(** ** Assignments *)

Definition set_accept (self : State) (a : option Waker) : State :=
  let '(MkState s _ w c e i l) := self in MkState s a w c e i l.
Definition set_wakers (self : State) (w : gmap Token (gmap Event Waker)) : State :=
  let '(MkState s a _ c e i l) := self in MkState s a w c e i l.
Definition set_incoming_conns (self : State) (c : list Token) : State :=
  let '(MkState s a w _ e i l) := self in MkState s a w c e i l.
Definition set_established (self : State) (e : gset Token) : State :=
  let '(MkState s a w c _ i l) := self in MkState s a w c e i l.
Definition set_incoming_streams (self : State) (i : gmap Token (list Z)) : State :=
  let '(MkState s a w c e _ l) := self in MkState s a w c e i l.
(** [waker.wake()] for each of [ws]; hash maps are iterated in some order. *)
Definition wake_all (self : State) (ws : list Waker) : State :=
  let '(MkState s a w c e i l) := self in MkState s a w c e i (l ++ ws).

(** [wakers.entry(token).or_insert_with(Default::default).insert(event, waker)]. *)
Definition insert_waker (self : State) (token : Token) (event : Event) (w : Waker) : State :=
  set_wakers self (<[token := <[event := w]> (default ∅ (wakers self !! token))]> (wakers self)).

(** [wakers.get_mut(&token).unwrap().remove(&event)]. *)
Definition remove_waker (self : State) (token : Token) (event : Event) : exec State :=
  conn ← unwrap (wakers self !! token);
  Ret (set_wakers self (<[token := delete event conn]> (wakers self))).

(** ** The dispatch of events *)

Definition wake (self : State) (token : Token) (event : Event) : State :=
  match wakers self !! token with
  | Some conn =>
      match conn !! event with
      | Some w => wake_all (set_wakers self (<[token := delete event conn]> (wakers self))) [w]
      | None => self
      end
  | None => self
  end.

Definition on_closed (self : State) (token : Token) : State :=
  let self := match wakers self !! token with
              | Some conn =>
                  wake_all (set_wakers self (delete token (wakers self))) (map_to_list conn).*2
              | None => self
              end in
  set_incoming_streams self (delete token (incoming_streams self)).

Definition on_connected (self : State) (token : Token) : State :=
  wake (set_established self ({[token]} ∪ established_conns self)) token Connected.

(** [if let Some(waker) = state.accept.take() { waker.wake() }]. *)
Definition wake_accept (self : State) : State :=
  match accept self with
  | Some w => wake_all (set_accept self None) [w]
  | None => self
  end.

Definition on_accept (self : State) (token : Token) : State :=
  wake_accept (set_incoming_conns self (incoming_conns self ++ [token])).

Definition open_event (kind : StreamKind) : Event :=
  match kind with Uni => StreamOpenUni | Bidi => StreamOpenBidi end.

Definition on_stream_open (self : State) (token : Token) (kind : StreamKind) : State :=
  wake self token (if bool_decide (kind = Bidi) then StreamOpenBidi else StreamOpenUni).

Definition on_stream_accept (self : State) (token : Token) (stream_id : Z) : State :=
  wake (set_incoming_streams self
    (<[token := default [] (incoming_streams self !! token) ++ [stream_id]]> (incoming_streams self)))
    token StreamAccept.

Definition on_stream_send (self : State) (token : Token) (stream_id : Z) : State :=
  wake self token (StreamSend stream_id).
Definition on_stream_recv (self : State) (token : Token) (stream_id : Z) : State :=
  wake self token (StreamRecv stream_id).

(** The body of the loop of [run_once]. *)
Definition dispatch (self : State) (event : Api.Event) : exec State :=
  let token := ev_token event in
  match ev_kind event with
  | EvConnected => Ret (on_connected self token)
  | EvAccept => Ret (on_accept self token)
  | EvClosed => Ret (on_closed self token)
  | EvStreamOpenBidi => Ret (on_stream_open self token Bidi)
  | EvStreamOpenUni => Ret (on_stream_open self token Uni)
  | EvStreamAccept => Ret (on_stream_accept self token (ev_stream_id event))
  | EvStreamSend => Ret (on_stream_send self token (ev_stream_id event))
  | EvStreamRecv => Ret (on_stream_recv self token (ev_stream_id event))
  | _ => Panic
  end.

Fixpoint dispatch_all (self : State) (events : list Api.Event) : exec State :=
  match events with
  | [] => Ret self
  | event :: events => self ← dispatch self event; dispatch_all self events
  end.

(** [Group::stop]: every waker is woken; [stopped] is not written. *)
Definition stop (self : State) : State :=
  let self := wake_accept self in
  wake_all (set_wakers self ∅) (mjoin ((λ '(_, conn), (map_to_list conn).*2) <$> map_to_list (wakers self))).

(** ** The sections of the futures that hold the state mutex *)

(** [QuicConn::is_established]. *)
Definition is_established (self : State) (token : Token) (w : Waker) :
    State * Poll (io_result unit) :=
  if bool_decide (token ∈ established_conns self)
  then (set_established self (established_conns self ∖ {[token]}), Ready (Ok ()))
  else (insert_waker self token Connected w, Pending).

(** [QuicConn::accept]: the identifier of the accepted stream. *)
Definition accept_stream (self : State) (token : Token) (w : Waker) : State * Poll (io_result Z) :=
  if stopped self then (self, Ready (Err BrokenPipe)) else
  let queue := default [] (incoming_streams self !! token) in
  match queue with
  | stream_id :: queue =>
      (set_incoming_streams self (<[token := queue]> (incoming_streams self)), Ready (Ok stream_id))
  | [] =>
      let self := set_incoming_streams self (<[token := []]> (incoming_streams self)) in
      (insert_waker self token StreamAccept w, Pending)
  end.

(** [QuicListener::accept]: the token of the accepted connection. *)
Definition accept_conn (self : State) (w : Waker) : State * Poll (io_result Token) :=
  if stopped self then (self, Ready (Err BrokenPipe)) else
  match incoming_conns self with
  | token :: l => (set_incoming_conns self l, Ready (Ok token))
  | [] => (set_accept self (Some w), Pending)
  end.

(** The first section of [open_prv], [send] and [recv]: a stopped group is an error; otherwise
    the waker is registered before the group is called. *)
Definition op_begin (self : State) (token : Token) (event : Event) (w : Waker) :
    State * option ErrorKind :=
  if stopped self then (self, Some BrokenPipe) else (insert_waker self token event w, None).

(** Their last section, after the group's answer: only a success takes the waker back. *)
Definition op_end {A} (self : State) (token : Token) (event : Event) (r : io_result A) :
    exec (State * Poll (io_result A)) :=
  match r with
  | Ok a => self ← remove_waker self token event; Ret (self, Ready (Ok a))
  | Err WouldBlock => Ret (self, Pending)
  | Err err => Ret (self, Ready (Err err))
  end.

(** The section of [QuicStream::shutdown]; [stopped] makes it an error. *)
Definition shutdown_begin (self : State) (token : Token) (stream_id : Z) :
    State * option ErrorKind :=
  let self := wake (wake self token (StreamSend stream_id)) token (StreamRecv stream_id) in
  (self, if stopped self then Some BrokenPipe else None).
End state.
Arguments State : clear implicits.

(** * The objects, and one poll of each future *)

Section model.
Context `{QuicBind} {Waker : Type}.

(** [GroupWorker], which every handle shares. *)
Record Group := MkGroup { group : Q; state : State Waker }.
Definition set_state (self : Group) (s : State Waker) : Group := MkGroup (group self) s.
Definition set_group (self : Group) (q : Q) : Group := MkGroup q (state self).

Definition bind (laddrs : io_result (list SocketAddr)) (acceptor : option Acceptor) :
    io_result Group :=
  match qb_bind laddrs acceptor with
  | Ok q => Ok (MkGroup q default_state)
  | Err e => Err (to_io e)
  end.

Definition local_addrs (self : Group) : list SocketAddr := qb_local_addrs (group self).

(** One turn of the background thread; [true] ends it.  Sleeping until the deadline that the
    group may return changes no state and is left out. *)
Definition run_once (self : Group) : exec (Group * io_result bool) :=
  '(q, events, r) ← qb_poll (group self) [];
  let self := set_group self q in
  match r with
  | Err e => Ret (self, Err (to_io e))
  | Ok next_release_time =>
      state ← dispatch_all (state self) events;
      let self := set_state self state in
      if bool_decide (qb_len (group self) = 0%nat) && stopped state then Ret (self, Ok true)
      else Ret (self, Ok false)
  end.

Fixpoint run (fuel : nat) (self : Group) : exec (Group * io_result unit) :=
  '(self, r) ← run_once self;
  match r with
  | Err e => Ret (self, Err e)
  | Ok true => Ret (self, Ok ())
  | Ok false => match fuel with O => NoFuel | S fuel => run fuel self end
  end.

(** ** Connections *)

(** The third field says whether the connection owns its group. *)
Record QuicConn := MkQuicConn { conn_token : Token; conn_owns : bool }.

Record QuicStream := MkQuicStream {
  stream_token : Token;
  stream_id : Z;
  shutdown : bool;
  remote : bool;
}.

Definition drop_conn (self : Group) (conn : QuicConn) : exec Group :=
  '(q, _) ← qb_close (group self) (conn_token conn) false 0 [];
  let self := set_group self q in
  Ret (if conn_owns conn then set_state self (stop (state self)) else self).

Definition accept_poll (self : Group) (conn : QuicConn) (w : Waker) :
    Group * Poll (io_result QuicStream) :=
  let '(s, r) := accept_stream (state self) (conn_token conn) w in
  (set_state self s, poll_map (map_ok (λ id, MkQuicStream (conn_token conn) id false true)) r).

(** [open_prv]: the waker is registered, the group is called, and the waker is taken back. *)
Definition open_poll (self : Group) (conn : QuicConn) (kind : StreamKind) (non_blocking : bool)
    (w : Waker) : exec (Group * Poll (io_result (option QuicStream))) :=
  let token := conn_token conn in
  let event := open_event kind in
  match op_begin (state self) token event w with
  | (s, Some err) => Ret (set_state self s, Ready (Err err))
  | (s, None) =>
      '(q, r) ← qb_stream_open (group self) token kind non_blocking;
      '(s, r) ← op_end s token event (map_err to_io r);
      Ret (MkGroup q s,
           poll_map (map_ok (option_map (λ id, MkQuicStream token id false false))) r)
  end.

(** [open]: its [unwrap] relies on a blocking open returning a stream. *)
Definition open_blocking (self : Group) (conn : QuicConn) (kind : StreamKind) (w : Waker) :
    exec (Group * Poll (io_result QuicStream)) :=
  '(self, r) ← open_poll self conn kind false w;
  match r with
  | Pending => Ret (self, Pending)
  | Ready (Err e) => Ret (self, Ready (Err e))
  | Ready (Ok o) => stream ← unwrap o; Ret (self, Ready (Ok stream))
  end.

(** [open_non_blocking]. *)
Definition open_non_blocking (self : Group) (conn : QuicConn) (kind : StreamKind) (w : Waker) :
    exec (Group * Poll (io_result (option QuicStream))) :=
  open_poll self conn kind true w.

(** ** Streams *)

Definition send (self : Group) (stream : QuicStream) (buf : list byte) (fin : bool) (w : Waker) :
    exec (Group * Poll (io_result Z)) :=
  let token := stream_token stream in
  let event := StreamSend (stream_id stream) in
  if stopped (state self) then Ret (self, Ready (Err BrokenPipe)) else
  if shutdown stream then Ret (self, Ready (Err OtherKind)) else
  let s := insert_waker (state self) token event w in
  '(q, r) ← qb_stream_send (group self) token (stream_id stream) buf fin;
  '(s, r) ← op_end s token event (map_err to_io r);
  Ret (MkGroup q s, r).

Definition recv (self : Group) (stream : QuicStream) (buf : list byte) (w : Waker) :
    exec (Group * list byte * Poll (io_result (Z * bool))) :=
  let token := stream_token stream in
  let event := StreamRecv (stream_id stream) in
  if stopped (state self) then Ret (self, buf, Ready (Err BrokenPipe)) else
  if shutdown stream then Ret (self, buf, Ready (Ok (0, true))) else
  let s := insert_waker (state self) token event w in
  '(q, buf, r) ← qb_stream_recv (group self) token (stream_id stream) buf;
  '(s, r) ← op_end s token event (map_err to_io r);
  Ret (MkGroup q s, buf, r).

Definition set_shutdown (stream : QuicStream) : QuicStream :=
  MkQuicStream (stream_token stream) (stream_id stream) true (remote stream).

(** [QuicStream::shutdown]; the assertion is on the group's answer. *)
Definition shutdown_stream (self : Group) (stream : QuicStream) :
    exec (Group * QuicStream * io_result unit) :=
  let '(s, early) := shutdown_begin (state self) (stream_token stream) (stream_id stream) in
  let stream := set_shutdown stream in
  let self := set_state self s in
  match early with
  | Some err => Ret (self, stream, Err err)
  | None =>
      '(q, r) ← qb_stream_shutdown (group self) (stream_token stream) (stream_id stream) 0;
      let self := set_group self q in
      match io_would_block (map_err to_io r) with
      | Ready (Err e) => Ret (self, stream, Err e)
      | Ready (Ok _) => Ret (self, stream, Ok ())
      | Pending => Panic
      end
  end.

Definition drop_stream (self : Group) (stream : QuicStream) : exec Group :=
  '(self, _, _) ← shutdown_stream self stream; Ret self.

(** The [futures_io] traits.  [poll_read] and [poll_write] poll a new future once. *)
Definition poll_read (self : Group) (stream : QuicStream) (buf : list byte) (w : Waker) :
    exec (Group * list byte * Poll (io_result Z)) :=
  '(self, buf, r) ← recv self stream buf w;
  Ret (self, buf, poll_map (map_ok fst) r).

Definition poll_write (self : Group) (stream : QuicStream) (buf : list byte) (w : Waker) :
    exec (Group * Poll (io_result Z)) :=
  send self stream buf false w.

Definition poll_flush (self : Group) (stream : QuicStream) : Poll (io_result unit) :=
  if stopped (state self) then Ready (Err BrokenPipe) else Ready (Ok ()).

Definition poll_close (self : Group) (stream : QuicStream) :
    exec (Group * QuicStream * Poll (io_result unit)) :=
  '(self, stream, r) ← shutdown_stream self stream;
  Ret (self, stream, Ready r).

(** The same traits for [&QuicStream]. *)
Definition ref_poll_read (self : Group) (stream : QuicStream) (buf : list byte) (w : Waker) :
    exec (Group * list byte * Poll (io_result Z)) :=
  '(self, buf, r) ← recv self stream buf w;
  Ret (self, buf, poll_map (map_ok fst) r).

Definition ref_poll_write (self : Group) (stream : QuicStream) (buf : list byte) (w : Waker) :
    exec (Group * Poll (io_result Z)) :=
  send self stream buf false w.

Definition ref_poll_flush (self : Group) (stream : QuicStream) : Poll (io_result unit) :=
  if stopped (state self) then Ready (Err BrokenPipe) else Ready (Ok ()).

Definition ref_poll_close (self : Group) (stream : QuicStream) :
    exec (Group * QuicStream * Poll (io_result unit)) :=
  '(self, stream, r) ← shutdown_stream self stream;
  Ret (self, stream, match r with Ok _ => Ready (Ok ()) | Err e => Ready (Err e) end).

(** ** Listeners and connectors *)

(** [QuicListener]: the field says whether it owns its group. *)
Record QuicListener := MkQuicListener { listener_owns : bool }.

(** [From<Group> for QuicListener]: the group belongs to someone else. *)
Definition listener_from (self : Group) : Group * QuicListener := (self, MkQuicListener false).

Definition drop_listener (self : Group) (listener : QuicListener) : Group :=
  if listener_owns listener then set_state self (stop (state self)) else self.

(** [QuicListener::bind]; the background thread that it spawns is [run]. *)
Definition listener_bind (laddrs : io_result (list SocketAddr)) (acceptor : Acceptor) :
    io_result (Group * QuicListener) :=
  map_ok (λ group, (group, MkQuicListener true)) (bind laddrs (Some acceptor)).

Definition listener_accept (self : Group) (w : Waker) : Group * Poll (io_result QuicConn) :=
  let '(s, r) := accept_conn (state self) w in
  (set_state self s, poll_map (map_ok (λ token, MkQuicConn token false)) r).

(** [QuicConnector] is a group, and [From<Group>] wraps it. *)
Record QuicConnector := MkQuicConnector { connector_group : Group }.
Definition connector_from (self : Group) : QuicConnector := MkQuicConnector self.

(** [QuicConnector::create]. *)
Definition create (self : Group) (server_name : option string) (local peer : SocketAddr)
    (config : Config) : exec (Group * Config * io_result QuicConn) :=
  '(q, config, r) ← qb_connect (group self) server_name local peer config;
  Ret (set_group self q, config, map_err to_io (map_ok (λ token, MkQuicConn token false) r)).

(** One poll of the second half of [connect], the wait for establishment. *)
Definition is_established_poll (self : Group) (conn : QuicConn) (w : Waker) :
    Group * Poll (io_result QuicConn) :=
  let '(s, r) := is_established (state self) (conn_token conn) w in
  (set_state self s, poll_map (map_ok (λ _, conn)) r).

(** [QuicConn::connect] up to that wait: a private group, from its first local address. *)
Definition connect_private (server_name : option string) (local : io_result (list SocketAddr))
    (peer : SocketAddr) (config : Config) : exec (Config * io_result (Group * QuicConn)) :=
  match bind local None with
  | Err e => Ret (config, Err e)
  | Ok group =>
      local ← unwrap (head (local_addrs group));
      '(group, config, r) ← create (connector_group (connector_from group)) server_name local peer config;
      Ret (config, map_ok (λ conn, (group, MkQuicConn (conn_token conn) true)) r)
  end.
End model.
End AsyncGroup.
