(* ===== verification/FuturesTasks.v ===== *)
(** Tasks and the background thread on one asynchronous group: their sections under the state
    mutex interleave, and no wake-up is lost. *)
From stdpp Require Import functions.
From S2P Require Import Prelude Api EventQueue QuicheApi FuturesGroup.
Import AsyncGroup.

Module Tasks.

Section tasks.
Context {Waker : Type} `{EqDecision Waker}.
Abbreviation State := (State Waker).
Implicit Types (s : State) (t : Waker) (token : Token) (event : Event).

(** What a task waits for: an event of a connection, or a new connection. *)
Inductive key := OnEvent (token : Token) (event : Event) | OnAccept.

Definition registered s (k : key) t : Prop :=
  match k with
  | OnEvent token event => wakers s !! token ≫= (.!! event) = Some t
  | OnAccept => accept s = Some t
  end.

(** A section that drops the registration of a task wakes it. *)
Definition carries (except : key → Prop) s s' : Prop :=
  ∃ l, woken s' = woken s ++ l ∧
    ∀ k t, ¬ except k → registered s k t → registered s' k t ∨ t ∈ l.

Definition nothing (k : key) : Prop := False.

Lemma carries_refl except s : carries except s s.
Proof. exists []. rewrite app_nil_r. split; [done|]. by left. Qed.

Lemma carries_trans except s1 s2 s3 :
  carries except s1 s2 → carries except s2 s3 → carries except s1 s3.
Proof.
  intros (l1&Hl1&H1) (l2&Hl2&H2). exists (l1 ++ l2). rewrite Hl2, Hl1, app_assoc. split; [done|].
  intros k t Hk Hr. rewrite elem_of_app. destruct (H1 k t Hk Hr) as [Hr'|?]; [|by right; left].
  destruct (H2 k t Hk Hr'); auto.
Qed.

(** Sections that do not touch the wakers. *)
Lemma carries_same except s s' :
  wakers s' = wakers s → accept s' = accept s → woken s' = woken s → carries except s s'.
Proof.
  intros Hw Ha Hl. exists []. rewrite app_nil_r. split; [done|].
  intros [token event|] t _; simpl; rewrite ?Hw, ?Ha; by left.
Qed.

Lemma wake_carries s token event : carries nothing s (wake s token event).
Proof.
  unfold wake. destruct (wakers s !! token) as [conn|] eqn:Hc; [|apply carries_refl].
  destruct (conn !! event) as [w|] eqn:He; [|apply carries_refl].
  exists [w]. destruct s as [st a ws ic ec ins l]; simpl in *. split; [done|].
  intros [token' event'|] t _; simpl; [|by left].
  destruct (decide (token = token')) as [<-|Hne]; [|rewrite lookup_insert_ne by done; by left].
  rewrite Hc, lookup_insert_eq. simpl. intros Ht.
  destruct (decide (event = event')) as [<-|Hne]; [|rewrite lookup_delete_ne by done; by left].
  simplify_eq. right. by apply list_elem_of_singleton.
Qed.

Lemma wake_accept_carries s : carries nothing s (wake_accept s).
Proof.
  unfold wake_accept. destruct (accept s) as [w|] eqn:Ha; [|apply carries_refl].
  exists [w]. destruct s as [st a ws ic ec ins l]; simpl in *. split; [done|].
  intros [token event|] t _; simpl; [by left|]. intros ?; simplify_eq. right. by apply list_elem_of_singleton.
Qed.

Lemma on_closed_carries s token : carries nothing s (on_closed s token).
Proof.
  unfold on_closed. destruct (wakers s !! token) as [conn|] eqn:Hc.
  2: { destruct s. by apply carries_same. }
  exists (map_to_list conn).*2. destruct s as [st a ws ic ec ins l]; simpl in *. split; [done|].
  intros [token' event|] t _; simpl; [|by left].
  destruct (decide (token = token')) as [<-|Hne]; [|rewrite lookup_delete_ne by done; by left].
  rewrite Hc. simpl. intros Ht. right. apply list_elem_of_fmap. exists (event, t).
  split; [done|]. by apply elem_of_map_to_list.
Qed.

Lemma stop_carries s : carries nothing s (stop s).
Proof.
  unfold stop. eapply carries_trans; [apply wake_accept_carries|].
  generalize (wake_accept s). intros [st a ws ic ec ins l]. simpl.
  eexists. split; [reflexivity|].
  intros [token event|] t _; simpl; [|by left].
  destruct (ws !! token) as [conn|] eqn:Hc; [|done]. simpl. intros Ht. right.
  apply list_elem_of_join. exists (map_to_list conn).*2. split.
  - apply list_elem_of_fmap. exists (event, t). split; [done|]. by apply elem_of_map_to_list.
  - apply list_elem_of_fmap. exists (token, conn). split; [done|]. by apply elem_of_map_to_list.
Qed.

Lemma dispatch_carries s e s' : dispatch s e = Ret s' → carries nothing s s'.
Proof.
  unfold dispatch, on_connected, on_accept, on_stream_open, on_stream_accept, on_stream_send, on_stream_recv.
  destruct (ev_kind e); intros; simplify_eq; try apply wake_carries; try apply on_closed_carries.
  - eapply carries_trans; [|apply wake_carries]. destruct s. by apply carries_same.
  - eapply carries_trans; [|apply wake_accept_carries]. destruct s. by apply carries_same.
  - eapply carries_trans; [|apply wake_carries]. destruct s. by apply carries_same.
Qed.

Lemma dispatch_all_carries s evs s' : dispatch_all s evs = Ret s' → carries nothing s s'.
Proof.
  revert s. induction evs as [|e evs IH]; intros s; simpl.
  - intros [= <-]. apply carries_refl.
  - intros (s1&He&Hevs)%bind_Ret_inv. eapply carries_trans; [by eapply dispatch_carries|by apply IH].
Qed.

Lemma insert_waker_carries s token event t :
  carries (eq (OnEvent token event)) s (insert_waker s token event t) ∧
  registered (insert_waker s token event t) (OnEvent token event) t ∧
  woken (insert_waker s token event t) = woken s.
Proof.
  unfold insert_waker. destruct s as [st a ws ic ec ins l]; simpl. split_and!; [|by rewrite lookup_insert_eq; simpl; rewrite lookup_insert_eq|done].
  exists []. rewrite app_nil_r. split; [done|]. intros [token' event'|] t' Hk; simpl; [|by left].
  destruct (decide (token = token')) as [<-|Hne]; [|rewrite lookup_insert_ne by done; by left].
  rewrite lookup_insert_eq. simpl. rewrite lookup_insert_ne by congruence.
  destruct (ws !! token) as [conn|]; simpl; [by left|done].
Qed.

Lemma remove_waker_carries s token event s' :
  remove_waker s token event = Ret s' → carries (eq (OnEvent token event)) s s'.
Proof.
  unfold remove_waker. destruct s as [st a ws ic ec ins l]; simpl.
  destruct (ws !! token) as [conn|] eqn:Hc; simpl; [|done]. intros [= <-].
  exists []. rewrite app_nil_r. split; [done|]. intros [token' event'|] t' Hk; simpl; [|by left].
  destruct (decide (token = token')) as [<-|Hne]; [|rewrite lookup_insert_ne by done; by left].
  rewrite Hc, lookup_insert_eq. simpl. rewrite lookup_delete_ne by congruence. by left.
Qed.

(** The sections that make a task wait. *)
Lemma is_established_carries s token t s' r :
  is_established s token t = (s', r) →
  carries (eq (OnEvent token Connected)) s s' ∧
  (r = Pending → registered s' (OnEvent token Connected) t ∧ woken s' = woken s).
Proof.
  unfold is_established. case_bool_decide; intros [= <- <-].
  - split; [destruct s; by apply carries_same|done].
  - split; [apply insert_waker_carries|intros _; apply insert_waker_carries].
Qed.

Lemma accept_stream_carries s token t s' r :
  accept_stream s token t = (s', r) →
  carries (eq (OnEvent token StreamAccept)) s s' ∧
  (r = Pending → registered s' (OnEvent token StreamAccept) t ∧ woken s' = woken s).
Proof.
  unfold accept_stream. destruct (stopped s); [intros [= <- <-]; split; [apply carries_refl|done]|].
  destruct (default [] (incoming_streams s !! token)) as [|id q]; intros [= <- <-].
  - set (s1 := set_incoming_streams s _).
    assert (woken s1 = woken s) as Hl by by destruct s.
    split; [|intros _; rewrite <-Hl; apply insert_waker_carries].
    eapply carries_trans; [|apply insert_waker_carries]. subst s1. destruct s. by apply carries_same.
  - split; [destruct s; by apply carries_same|done].
Qed.

Lemma accept_conn_carries s t s' r :
  accept_conn s t = (s', r) →
  carries (eq OnAccept) s s' ∧ (r = Pending → registered s' OnAccept t ∧ woken s' = woken s).
Proof.
  unfold accept_conn. destruct (stopped s); [intros [= <- <-]; split; [apply carries_refl|done]|].
  destruct (incoming_conns s) as [|token l]; intros [= <- <-].
  - destruct s; simpl; split; [|done]. exists []. rewrite app_nil_r. split; [done|].
    intros [token event|] t' Hk; simpl; [by left|done].
  - split; [destruct s; by apply carries_same|done].
Qed.

Lemma shutdown_carries s token id : carries nothing s (shutdown_begin s token id).1.
Proof. unfold shutdown_begin. simpl. eapply carries_trans; apply wake_carries. Qed.

(** ** Signals *)

(** The events that a waiting task is to be told about. *)
Definition signals (e : Api.Event) (k : key) : Prop :=
  match k with
  | OnEvent token event =>
      ev_token e = token ∧
      match ev_kind e with
      | EvClosed => True
      | EvConnected => event = Connected
      | EvStreamOpenBidi => event = StreamOpenBidi
      | EvStreamOpenUni => event = StreamOpenUni
      | EvStreamAccept => event = StreamAccept
      | EvStreamSend => event = StreamSend (ev_stream_id e)
      | EvStreamRecv => event = StreamRecv (ev_stream_id e)
      | _ => False
      end
  | OnAccept => ev_kind e = EvAccept
  end.

Lemma wake_signal s s' token event t :
  woken s' = woken s → wakers s' = wakers s → registered s (OnEvent token event) t →
  t ∈ drop (length (woken s)) (woken (wake s' token event)).
Proof.
  intros <- Hw. simpl. rewrite <-Hw. clear Hw s. rename s' into s. unfold wake. destruct s as [st a ws ic ec ins l]; simpl.
  destruct (ws !! token) as [conn|]; simpl; [|done]. intros ->. simpl.
  rewrite drop_app_length. by apply list_elem_of_singleton.
Qed.

Lemma dispatch_signal s e s' k t :
  dispatch s e = Ret s' → signals e k → registered s k t →
  t ∈ drop (length (woken s)) (woken s').
Proof.
  unfold dispatch, on_connected, on_accept, on_stream_open, on_stream_accept, on_stream_send, on_stream_recv.
  destruct k as [token event|].
  - intros Hd [<- Hsig] Hr. destruct (ev_kind e); simplify_eq/=; try done;
      try (apply wake_signal; [by destruct s|by destruct s|done]).
    unfold on_closed. destruct s as [st a ws ic ec ins l]; simpl in *.
    destruct (ws !! ev_token e) as [conn|]; simpl in *; [|done].
    rewrite drop_app_length. apply list_elem_of_fmap. exists (event, t).
    split; [done|]. by apply elem_of_map_to_list.
  - simpl. intros Hd Hk Hr. rewrite Hk in Hd. simplify_eq. unfold wake_accept. destruct s; simpl in *. rewrite Hr. simpl.
    rewrite drop_app_length. by apply list_elem_of_singleton.
Qed.

(** ** Interleavings *)

(** A task between two sections of a future: [since] is the number of wake-ups that had
    happened when its waker was registered. *)
Inductive phase :=
| Out
| Calling (k : key) (since : nat)      (* registered; it is calling the group *)
| Finishing (k : key)                  (* the group answered with a success *)
| Parked (k : key) (since : nat).      (* it returned [Pending] *)

Record world := MkWorld { st : State; phase_of : Waker → phase }.

Definition key_of (p : phase) : option key :=
  match p with Out => None | Calling k _ | Finishing k | Parked k _ => Some k end.

(** No other task waits for the same thing: the source keeps one waker for each. *)
Definition exclusive (w : world) (t : Waker) (k : key) : Prop :=
  ∀ t', t' ≠ t → key_of (phase_of w t') ≠ Some k.

(** A task may (re)poll its future when it is outside or parked. *)
Definition polls (w : world) (t : Waker) (k : key) : Prop :=
  exclusive w t k ∧ (phase_of w t = Out ∨ ∃ n, phase_of w t = Parked k n).

(** What a section shows: the events that the background thread dispatches, the connections
    and the streams that are handed out. *)
Inductive label := Tau | Events (evs : list Api.Event) | GotConn (token : Token) | GotStream (token : Token) (id : Z).

Inductive step (w : world) : label → world → Prop :=
| step_begin t token event s :
    polls w t (OnEvent token event) → op_begin (st w) token event t = (s, None) →
    step w Tau (MkWorld s (<[t := Calling (OnEvent token event) (length (woken s))]> (phase_of w)))
| step_begin_stopped t token event s e :
    polls w t (OnEvent token event) → op_begin (st w) token event t = (s, Some e) →
    step w Tau (MkWorld s (<[t := Out]> (phase_of w)))
| step_success t k n :
    phase_of w t = Calling k n → step w Tau (MkWorld (st w) (<[t := Finishing k]> (phase_of w)))
| step_would_block t k n :
    phase_of w t = Calling k n → step w Tau (MkWorld (st w) (<[t := Parked k n]> (phase_of w)))
| step_failure t k n :
    phase_of w t = Calling k n → step w Tau (MkWorld (st w) (<[t := Out]> (phase_of w)))
| step_finish t token event s :
    phase_of w t = Finishing (OnEvent token event) → remove_waker (st w) token event = Ret s →
    step w Tau (MkWorld s (<[t := Out]> (phase_of w)))
| step_established t token s r :
    polls w t (OnEvent token Connected) → is_established (st w) token t = (s, r) →
    step w Tau (MkWorld s (<[t := match r with
                              | Pending => Parked (OnEvent token Connected) (length (woken s))
                              | Ready _ => Out end]> (phase_of w)))
| step_accept_stream t token s r :
    polls w t (OnEvent token StreamAccept) → accept_stream (st w) token t = (s, r) →
    step w (match r with Ready (Ok id) => GotStream token id | _ => Tau end)
      (MkWorld s (<[t := match r with
                              | Pending => Parked (OnEvent token StreamAccept) (length (woken s))
                              | Ready _ => Out end]> (phase_of w)))
| step_accept_conn t s r :
    polls w t OnAccept → accept_conn (st w) t = (s, r) →
    step w (match r with Ready (Ok token) => GotConn token | _ => Tau end)
      (MkWorld s (<[t := match r with
                              | Pending => Parked OnAccept (length (woken s))
                              | Ready _ => Out end]> (phase_of w)))
| step_cancel t k n :
    phase_of w t = Parked k n → step w Tau (MkWorld (st w) (<[t := Out]> (phase_of w)))
| step_shutdown token id : step w Tau (MkWorld (shutdown_begin (st w) token id).1 (phase_of w))
| step_stop : step w Tau (MkWorld (stop (st w)) (phase_of w))
| step_dispatch evs s : dispatch_all (st w) evs = Ret s → step w (Events evs) (MkWorld s (phase_of w)).

Definition init : world := MkWorld default_state (λ _, Out).

(** The worlds that a sequence of sections leads to, with what they showed. *)
Inductive reachable : list label → world → Prop :=
| reachable_init : reachable [] init
| reachable_step tr w l w' : reachable tr w → step w l w' → reachable (tr ++ [l]) w'.

Definition woken_since (n : nat) s t : Prop := t ∈ drop n (woken s).

(** A task that is calling the group or parked has its waker registered, or was woken since. *)
Definition task_ok s (t : Waker) (p : phase) : Prop :=
  match p with
  | Calling k n | Parked k n => (n ≤ length (woken s))%nat ∧ (registered s k t ∨ woken_since n s t)
  | _ => True
  end.

Record world_ok (w : world) : Prop := WorldOk {
  wo_task t : task_ok (st w) t (phase_of w t);
  wo_exclusive t t' k : key_of (phase_of w t) = Some k → key_of (phase_of w t') = Some k → t = t';
}.

Lemma woken_since_app n s s' l t :
  woken s' = woken s ++ l → (n ≤ length (woken s))%nat →
  woken_since n s t ∨ t ∈ l → woken_since n s' t.
Proof.
  intros Hl Hn. unfold woken_since. rewrite Hl, drop_app_le, elem_of_app by done. done.
Qed.

(** The other tasks of a section that respects them. *)
Lemma task_ok_carries s s' except t p :
  carries except s s' → (∀ k, key_of p = Some k → ¬ except k) →
  task_ok s t p → task_ok s' t p.
Proof.
  intros (l&Hl&Hc) Hex.
  assert (∀ k n, ¬ except k → (n ≤ length (woken s))%nat ∧ (registered s k t ∨ woken_since n s t) →
    (n ≤ length (woken s'))%nat ∧ (registered s' k t ∨ woken_since n s' t)) as Hkeep.
  { intros k n Hk [Hn Hr]. split; [rewrite Hl, length_app; lia|].
    destruct Hr as [Hr|Hr]; [|right; by eapply woken_since_app; [..|left]].
    destruct (Hc k t Hk Hr) as [?|?]; [by left|right]. eapply woken_since_app; [done|done|by right]. }
  destruct p; simpl; try done; apply Hkeep; by apply Hex.
Qed.

(** One task moves, by a section that only drops its own registration. *)
Lemma move_ok w t k p s :
  world_ok w → exclusive w t k → (key_of p = None ∨ key_of p = Some k) →
  carries (eq k) (st w) s → task_ok s t p → world_ok (MkWorld s (<[t := p]> (phase_of w))).
Proof.
  intros [Htask Hexcl] Hex Hp Hc Ht. split; simpl.
  - intros t'. destruct (decide (t = t')) as [<-|Hne]; [by rewrite fn_lookup_insert|].
    rewrite fn_lookup_insert_ne by done. eapply task_ok_carries; [exact Hc| |apply Htask].
    intros k' Hk' <-. by apply (Hex t').
  - intros t1 t2 k'. destruct (decide (t = t1)) as [<-|H1], (decide (t = t2)) as [<-|H2];
      rewrite ?fn_lookup_insert, ?fn_lookup_insert_ne by done; try done; [..|apply Hexcl].
    + intros Hk1 Hk2. destruct Hp as [Hp|Hp]; rewrite Hp in Hk1; simplify_eq. by destruct (Hex t2).
    + intros Hk1 Hk2. destruct Hp as [Hp|Hp]; rewrite Hp in Hk2; simplify_eq. by destruct (Hex t1).
Qed.

Lemma exclusive_own w t k : world_ok w → key_of (phase_of w t) = Some k → exclusive w t k.
Proof. intros Hok Hk t' Hne Hk'. apply Hne. by eapply (wo_exclusive _ Hok). Qed.

(** A section of the background thread, or of another handle. *)
Lemma global_ok w s : world_ok w → carries nothing (st w) s → world_ok (MkWorld s (phase_of w)).
Proof.
  intros [Htask Hexcl] Hc. split; simpl; [|done].
  intros t. eapply task_ok_carries; [exact Hc|intros ? _ []|apply Htask].
Qed.

Lemma step_ok w l w' : world_ok w → step w l w' → world_ok w'.
Proof.
  intros Hok Hstep. pose proof (wo_task _ Hok) as Htask.
  destruct Hstep as [t token event s [Hex _] Hb|t token event s e [Hex _] Hb|t k n Ht|t k n Ht|t k n Ht
    |t token event s Ht Hr|t token s r [Hex _] Hr|t token s r [Hex _] Hr|t s r [Hex _] Hr|t k n Ht|token id| |evs s Hd].
  - unfold op_begin in Hb. destruct (stopped (st w)); simplify_eq.
    destruct (insert_waker_carries (st w) token event t) as (Hc&Hreg&_).
    eapply move_ok; [done|exact Hex|by right|done|]. split; [done|by left].
  - unfold op_begin in Hb. destruct (stopped (st w)); simplify_eq.
    eapply move_ok; [done|exact Hex|by left|apply carries_refl|done].
  - eapply (move_ok w t k); [done|by eapply exclusive_own; [|rewrite Ht]|by right|apply carries_refl|done].
  - eapply (move_ok w t k); [done|by eapply exclusive_own; [|rewrite Ht]|by right|apply carries_refl|].
    specialize (Htask t). by rewrite Ht in Htask.
  - eapply (move_ok w t k); [done|by eapply exclusive_own; [|rewrite Ht]|by left|apply carries_refl|done].
  - eapply move_ok; [done|by eapply exclusive_own; [|rewrite Ht]|by left|by eapply remove_waker_carries|done].
  - destruct (is_established_carries _ _ _ _ _ Hr) as [Hc Hp].
    eapply move_ok; [done|exact Hex|destruct r; [by left|by right]|exact Hc|].
    destruct r; [done|]. destruct (Hp eq_refl). split; [done|by left].
  - destruct (accept_stream_carries _ _ _ _ _ Hr) as [Hc Hp].
    eapply move_ok; [done|exact Hex|destruct r; [by left|by right]|exact Hc|].
    destruct r; [done|]. destruct (Hp eq_refl). split; [done|by left].
  - destruct (accept_conn_carries _ _ _ _ Hr) as [Hc Hp].
    eapply move_ok; [done|exact Hex|destruct r; [by left|by right]|exact Hc|].
    destruct r; [done|]. destruct (Hp eq_refl). split; [done|by left].
  - eapply (move_ok w t k); [done|by eapply exclusive_own; [|rewrite Ht]|by left|apply carries_refl|done].
  - apply global_ok; [done|apply shutdown_carries].
  - apply global_ok; [done|apply stop_carries].
  - apply global_ok; [done|by eapply dispatch_all_carries].
Qed.

Lemma tasks_reachable_ok tr w : reachable tr w → world_ok w.
Proof. induction 1; [by split|by eapply step_ok]. Qed.

(** ** Wake-ups *)

Lemma dispatch_all_signal s evs s' t k n :
  dispatch_all s evs = Ret s' → (∃ e, e ∈ evs ∧ signals e k) →
  task_ok s t (Parked k n) → woken_since n s' t.
Proof.
  intros Hd (e&He&Hsig) Hok. apply list_elem_of_split in He as (l1&l2&->).
  revert s Hd Hok. induction l1 as [|e1 l1 IH]; intros s; simpl; intros (s1&He&Hd)%bind_Ret_inv Hok.
  - pose proof (dispatch_carries _ _ _ He) as Hc1. destruct Hc1 as (l&Hl&_).
    destruct Hok as [Hn Hr].
    assert (woken_since n s1 t) as Hw.
    { destruct Hr as [Hr|Hr]; [|by eapply woken_since_app; [..|left]].
      pose proof (dispatch_signal _ _ _ _ _ He Hsig Hr) as Hin.
      rewrite Hl, drop_app_length in Hin. eapply woken_since_app; [done|done|by right]. }
    destruct (dispatch_all_carries _ _ _ Hd) as (l'&Hl'&_).
    eapply woken_since_app; [done|rewrite Hl, length_app; lia|by left].
  - apply (IH s1); [done|]. eapply (task_ok_carries s s1 nothing t (Parked k n));
      [by eapply dispatch_carries|intros ? _ []|done].
Qed.

Lemma stop_signal s t k n : task_ok s t (Parked k n) → woken_since n (stop s) t.
Proof.
  intros [Hn Hr]. pose proof (stop_carries s) as (l&Hl&Hc).
  destruct Hr as [Hr|Hr]; [|by eapply woken_since_app; [..|left]].
  destruct (Hc k t) as [Hs|Hs]; [by intros []|done| |by eapply woken_since_app; [..|right]].
  exfalso. revert Hs. unfold stop, wake_accept. destruct s as [st a ws ic ec ins l0].
  by destruct k, a.
Qed.


(** ** Closing while a task finishes *)

(** The parts of the state that the wakers do not matter to. *)
Definition queues s : bool * list Token * gset Token * gmap Token (list Z) :=
  (stopped s, incoming_conns s, established_conns s, incoming_streams s).

Lemma wake_queues s token event : queues (wake s token event) = queues s.
Proof.
  unfold wake. destruct (wakers s !! token) as [c|]; [|done]. destruct (c !! event); [by destruct s|done].
Qed.
Lemma wake_accept_queues s : queues (wake_accept s) = queues s.
Proof. by destruct s as [? [] ? ? ? ? ?]. Qed.
Lemma insert_waker_queues s token event t : queues (insert_waker s token event t) = queues s.
Proof. by destruct s. Qed.
Lemma stop_queues s : queues (stop s) = queues s.
Proof. rewrite <-(wake_accept_queues s). unfold stop. by destruct (wake_accept s). Qed.
Lemma remove_waker_queues s token event s' : remove_waker s token event = Ret s' → queues s' = queues s.
Proof. unfold remove_waker. intros (c&_&Hr)%bind_Ret_inv. destruct s. by simplify_eq/=. Qed.

(** What an event announces. *)
Definition new_conns (e : Api.Event) : list Token :=
  match ev_kind e with EvAccept => [ev_token e] | _ => [] end.
Definition new_streams (token : Token) (e : Api.Event) : list Z :=
  match ev_kind e with
  | EvStreamAccept => if decide (ev_token e = token) then [ev_stream_id e] else []
  | _ => []
  end.
Definition connects (token : Token) (e : Api.Event) : Prop :=
  ev_kind e = EvConnected ∧ ev_token e = token.
Definition closes (token : Token) (e : Api.Event) : Prop :=
  ev_kind e = EvClosed ∧ ev_token e = token.

Definition stream_queue s token : list Z := default [] (incoming_streams s !! token).

Lemma queues_eq s s' :
  queues s' = queues s → stopped s' = stopped s ∧ incoming_conns s' = incoming_conns s ∧
  established_conns s' = established_conns s ∧ ∀ token, stream_queue s' token = stream_queue s token.
Proof. unfold queues, stream_queue. intros [= -> -> -> ->]. done. Qed.

Lemma dispatch_queues s e s' :
  dispatch s e = Ret s' →
  stopped s' = stopped s ∧ incoming_conns s' = incoming_conns s ++ new_conns e ∧
  (∀ token, token ∈ established_conns s' → token ∈ established_conns s ∨ connects token e) ∧
  ∀ token, ¬ closes token e → stream_queue s' token = stream_queue s token ++ new_streams token e.
Proof.
  unfold dispatch, on_connected, on_accept, on_stream_open, on_stream_accept, on_stream_send,
    on_stream_recv, new_conns, new_streams, connects, closes.
  assert (queues s' = queues s → stopped s' = stopped s ∧ incoming_conns s' = incoming_conns s ++ [] ∧
    (∀ token, token ∈ established_conns s' → token ∈ established_conns s) ∧
    ∀ token, stream_queue s' token = stream_queue s token ++ []) as Hsame.
  { intros (?&?&He&Hq)%queues_eq. split_and!; [done|by rewrite app_nil_r| |].
    - intros token. by rewrite He.
    - intros. by rewrite app_nil_r. }
  destruct (ev_kind e) eqn:Hk; intros Hd; try done; injection Hd as Hd;
    try (destruct Hsame as (?&?&?&?); [by rewrite <-Hd; apply wake_queues|by split_and!; auto]).
  - assert (queues s' = queues (set_established s ({[ev_token e]} ∪ established_conns s)))
      as (?&?&He&Hq)%queues_eq by (rewrite <-Hd; apply wake_queues).
    destruct s; simpl in *. split_and!; [done|by rewrite app_nil_r| |].
    + intros token. rewrite He. set_solver.
    + intros token _. rewrite app_nil_r. apply Hq.
  - assert (queues s' = queues (set_incoming_conns s (incoming_conns s ++ [ev_token e])))
      as (?&?&He&Hq)%queues_eq by (rewrite <-Hd; apply wake_accept_queues).
    destruct s; simpl in *. split_and!; [done|done| |].
    + intros token. rewrite He. by left.
    + intros token _. rewrite app_nil_r. apply Hq.
  - assert (queues s' = queues (set_incoming_streams s (delete (ev_token e) (incoming_streams s))))
      as (?&?&He&Hq)%queues_eq.
    { rewrite <-Hd. unfold on_closed. destruct (wakers s !! ev_token e); by destruct s. }
    destruct s; simpl in *. split_and!; [done|by rewrite app_nil_r| |].
    + intros token. rewrite He. by left.
    + intros token Hne. rewrite app_nil_r, Hq. unfold stream_queue; simpl.
      rewrite lookup_delete_ne; [done|]. intros <-. by destruct Hne.
  - assert (queues s' = queues (set_incoming_streams s
        (<[ev_token e := default [] (incoming_streams s !! ev_token e) ++ [ev_stream_id e]]> (incoming_streams s))))
      as (?&?&He&Hq)%queues_eq by (rewrite <-Hd; apply wake_queues).
    destruct s; simpl in *. split_and!; [done|by rewrite app_nil_r| |].
    + intros token. rewrite He. by left.
    + intros token _. rewrite Hq. unfold stream_queue; simpl. case_decide as Hdec.
      * subst. by rewrite lookup_insert_eq.
      * rewrite lookup_insert_ne by done. by rewrite app_nil_r.
Qed.

Lemma dispatch_all_queues s evs s' :
  dispatch_all s evs = Ret s' →
  stopped s' = stopped s ∧ incoming_conns s' = incoming_conns s ++ (evs ≫= new_conns) ∧
  (∀ token, token ∈ established_conns s' → token ∈ established_conns s ∨ Exists (connects token) evs) ∧
  ∀ token, ¬ Exists (closes token) evs →
    stream_queue s' token = stream_queue s token ++ (evs ≫= new_streams token).
Proof.
  revert s. induction evs as [|e evs IH]; intros s; simpl.
  { intros [= <-]. rewrite app_nil_r. split_and!; [done|done|by left|]. intros. by rewrite app_nil_r. }
  intros (s1&He&Hd)%bind_Ret_inv. destruct (dispatch_queues _ _ _ He) as (Hs1&Hc1&He1&Hq1).
  destruct (IH _ Hd) as (Hs2&Hc2&He2&Hq2). split_and!.
  - congruence.
  - by rewrite Hc2, Hc1, app_assoc.
  - intros token Ht. rewrite Exists_cons. destruct (He2 token Ht) as [Ht'|?]; [|by right; right].
    destruct (He1 token Ht'); auto.
  - intros token Hn. rewrite Exists_cons in Hn. rewrite Hq2, Hq1, app_assoc; naive_solver.
Qed.

(** ** What an interleaving announces and hands out *)

Definition events_of (l : label) : list Api.Event := match l with Events evs => evs | _ => [] end.
Definition got_conns (l : label) : list Token := match l with GotConn token => [token] | _ => [] end.
Definition got_streams (token : Token) (l : label) : list Z :=
  match l with GotStream token' id => if decide (token' = token) then [id] else [] | _ => [] end.

(** A section that shows [l] accounts for its items: what is queued afterwards, behind what was
    handed out, is what was queued before and what was announced. *)
Definition accounted s (l : label) s' : Prop :=
  stopped s' = false ∧
  incoming_conns s ++ (events_of l ≫= new_conns) = got_conns l ++ incoming_conns s' ∧
  (∀ token, token ∈ established_conns s' →
     token ∈ established_conns s ∨ Exists (connects token) (events_of l)) ∧
  ∀ token, ¬ Exists (closes token) (events_of l) →
    stream_queue s token ++ (events_of l ≫= new_streams token) = got_streams token l ++ stream_queue s' token.

Lemma accounted_quiet s s' :
  queues s' = queues s → stopped s = false → accounted s Tau s'.
Proof.
  intros (Hst&Hc&He&Hq)%queues_eq Hs. split_and!; simpl.
  - congruence.
  - by rewrite app_nil_r.
  - intros token. rewrite He. by left.
  - intros. by rewrite Hq, app_nil_r.
Qed.

Lemma accounted_established s token t s' r :
  is_established s token t = (s', r) → stopped s = false → accounted s Tau s'.
Proof.
  unfold is_established. intros Hr Hs. case_bool_decide; simplify_eq.
  - destruct s; simpl in *. split_and!; simpl; [done|by rewrite app_nil_r|set_solver|].
    intros. by rewrite app_nil_r.
  - apply accounted_quiet; [apply insert_waker_queues|done].
Qed.

Lemma accounted_conn s t s' r :
  accept_conn s t = (s', r) → stopped s = false →
  accounted s (match r with Ready (Ok token) => GotConn token | _ => Tau end) s'.
Proof.
  unfold accept_conn. intros Hr Hs. rewrite Hs in Hr.
  destruct (incoming_conns s) as [|token l] eqn:Hq; simplify_eq.
  - apply accounted_quiet; [by destruct s|done].
  - destruct s; simpl in *. subst. split_and!; simpl; [done|by rewrite app_nil_r|by left|].
    intros. by rewrite app_nil_r.
Qed.

(** The queue of one stream is replaced. *)
Lemma stream_queue_set s token q s' :
  queues s' = queues (set_incoming_streams s (<[token := q]> (incoming_streams s))) →
  stopped s' = stopped s ∧ incoming_conns s' = incoming_conns s ∧
  established_conns s' = established_conns s ∧
  ∀ token', stream_queue s' token' = if decide (token = token') then q else stream_queue s token'.
Proof.
  intros (?&?&?&Hq)%queues_eq. destruct s; simpl in *. split_and!; try congruence.
  intros token'. rewrite Hq. unfold stream_queue; simpl. case_decide as Hdec.
  - subst. by rewrite lookup_insert_eq.
  - by rewrite lookup_insert_ne.
Qed.

Lemma accounted_stream s token t s' r :
  accept_stream s token t = (s', r) → stopped s = false →
  accounted s (match r with Ready (Ok id) => GotStream token id | _ => Tau end) s'.
Proof.
  unfold accept_stream. intros Hr Hs. rewrite Hs in Hr.
  destruct (default [] _) as [|id q] eqn:Hq; simplify_eq.
  1: destruct (stream_queue_set s token [] _ (insert_waker_queues _ token StreamAccept t)) as (?&Hc&He&Hqs).
  2: destruct (stream_queue_set s token q _ eq_refl) as (?&Hc&He&Hqs).
  all: split_and!; simpl events_of; simpl got_conns; simpl bind;
    [congruence|by rewrite Hc, app_nil_r|intros token'; rewrite He; by left|].
  all: intros token' _; rewrite Hqs, app_nil_r; simpl;
    case_decide; [subst; unfold stream_queue; by rewrite Hq|done].
Qed.

Lemma accounted_events s evs s' :
  dispatch_all s evs = Ret s' → stopped s = false → accounted s (Events evs) s'.
Proof.
  intros (?&Hc&He&Hq)%dispatch_all_queues Hs. split_and!; [congruence|done|done|].
  intros token Hn. by rewrite Hq.
Qed.

Lemma step_accounted w l w' : step w l w' → stopped (st w) = false → accounted (st w) l (st w').
Proof.
  intros Hstep Hs. destruct Hstep as [t token event s _ Hb|t token event s e _ Hb|t k n Ht|t k n Ht|t k n Ht
    |t token event s Ht Hr|t token s r _ Hr|t token s r _ Hr|t s r _ Hr|t k n Ht|token id| |evs s Hd];
    simpl st; try (by apply accounted_quiet).
  - unfold op_begin in Hb. rewrite Hs in Hb. simplify_eq. apply accounted_quiet; [apply insert_waker_queues|done].
  - unfold op_begin in Hb. by rewrite Hs in Hb.
  - apply accounted_quiet; [by eapply remove_waker_queues|done].
  - by eapply accounted_established.
  - by eapply accounted_stream.
  - by eapply accounted_conn.
  - apply accounted_quiet; [|done]. unfold shutdown_begin. simpl. by rewrite !wake_queues.
  - apply accounted_quiet; [apply stop_queues|done].
  - by apply accounted_events.
Qed.

Lemma reachable_stopped tr w : reachable tr w → stopped (st w) = false.
Proof. induction 1; [done|by eapply step_accounted]. Qed.

(** C24.  Incoming connections and streams are handed out in order and once each.  In every
    interleaving, the connections that listeners accepted, followed by those still queued, are
    exactly those announced by [Accept] events, in their order; and the same holds of the
    streams of each connection, as long as the connection was not closed. *)
Theorem incoming_fifo tr w token :
  reachable tr w →
  (tr ≫= events_of) ≫= new_conns = (tr ≫= got_conns) ++ incoming_conns (st w) ∧
  (¬ Exists (closes token) (tr ≫= events_of) →
   (tr ≫= events_of) ≫= new_streams token = (tr ≫= got_streams token) ++ stream_queue (st w) token).
Proof.
  intros Hr. assert (∀ A B (f : A → list B) (l : list A) x, (l ++ [x]) ≫= f = (l ≫= f) ++ f x) as Hsnoc.
  { intros A B f l x. rewrite bind_app. simpl. by rewrite app_nil_r. }
  induction Hr as [|tr w l w' Hr [IHc IHs] Hstep]; [done|].
  destruct (step_accounted _ _ _ Hstep (reachable_stopped _ _ Hr)) as (_&Hc&_&Hq).
  rewrite !Hsnoc, !bind_app. split.
  - by rewrite IHc, <-!app_assoc, Hc.
  - rewrite Exists_app. intros Hn. rewrite IHs by tauto. rewrite <-!app_assoc, Hq by tauto. done.
Qed.

(** C39.  Waiting for a connection that never gets established does not end.  As long as no
    [Connected] event of the connection was dispatched, [is_established] answers [Pending] to
    every poll of every task, in every interleaving: also when the connection has been closed,
    refused by the peer or timed out, and when the group was stopped. *)
Theorem failed_connect_hangs tr w token t :
  reachable tr w → ¬ Exists (connects token) (tr ≫= events_of) →
  ∃ s, is_established (st w) token t = (s, Pending).
Proof.
  intros Hr Hn. assert (token ∉ established_conns (st w)) as Hest.
  { induction Hr as [|tr w l w' Hr IH Hstep]; [set_solver|].
    rewrite bind_app, Exists_app in Hn. simpl in Hn. rewrite app_nil_r in Hn.
    destruct (step_accounted _ _ _ Hstep (reachable_stopped _ _ Hr)) as (_&_&He&_).
    intros Hin. destruct (He token Hin); tauto. }
  unfold is_established. rewrite bool_decide_false by done. by eexists.
Qed.

(** C40.  A task can panic when it takes its result.  Whenever a task may poll [open], [send] or
    [recv], there is an interleaving in which the group answers with a success, the connection
    is closed (or the group stopped) before the task locks the state again, and the [unwrap]
    on the connection's wakers fails. *)
Theorem finish_races_with_close tr w t token event :
  reachable tr w → polls w t (OnEvent token event) →
  ∃ tr' w', reachable tr' w' ∧ phase_of w' t = Finishing (OnEvent token event) ∧
    (∃ e s, closes token e ∧ dispatch_all (st w') [e] = Ret s ∧ remove_waker s token event = Panic) ∧
    remove_waker (stop (st w')) token event = Panic.
Proof.
  intros Hr Hp. pose proof (reachable_stopped _ _ Hr) as Hs.
  set (s := insert_waker (st w) token event t).
  set (w1 := MkWorld s (<[t := Calling (OnEvent token event) (length (woken s))]> (phase_of w))).
  set (w2 := MkWorld s (<[t := Finishing (OnEvent token event)]> (phase_of w1))).
  exists ((tr ++ [Tau]) ++ [Tau]), w2. split_and!.
  - eapply reachable_step; [eapply reachable_step; [exact Hr|]|].
    + apply step_begin; [exact Hp|]. unfold op_begin. by rewrite Hs.
    + eapply (step_success w1 t). simpl. by rewrite fn_lookup_insert.
  - simpl. by rewrite fn_lookup_insert.
  - exists (MkEvent token EvClosed false false 0). eexists. split_and!; [done|reflexivity|].
    simpl. unfold remove_waker, on_closed, s, insert_waker. destruct (st w); simpl.
    rewrite lookup_insert_eq. simpl. by rewrite lookup_delete_eq.
  - unfold remove_waker, stop. by destruct (wake_accept (st w2)).
Qed.
End tasks.

(** * Witnesses: a task that reads a stream, one that listens, and one that connects *)

Section witnesses.
Definition demo_token : Token := MkToken 3.
Definition demo_key : key := OnEvent demo_token (StreamRecv 4).
Definition demo_events : list Api.Event :=
  [MkEvent demo_token EvAccept true false 0; MkEvent demo_token EvStreamAccept true false 4].

(** Task 1 registers and parks; then events arrive. *)
Definition demo_w1 : @world nat :=
  MkWorld (insert_waker default_state demo_token (StreamRecv 4) 1%nat)
    (<[1%nat := Calling demo_key 0]> (λ _, Out)).
Definition demo_w2 : @world nat :=
  MkWorld (insert_waker default_state demo_token (StreamRecv 4) 1%nat)
    (<[1%nat := Parked demo_key 0]> (phase_of demo_w1)).
Definition demo_w3 : @world nat :=
  MkWorld (on_stream_accept (on_accept (st demo_w2) demo_token) demo_token 4) (phase_of demo_w2).

Lemma demo_reachable2 : reachable [Tau; Tau] demo_w2.
Proof.
  apply (reachable_step [Tau] demo_w1 Tau).
  - apply (reachable_step [] init Tau); [constructor|].
    apply (step_begin init 1%nat demo_token (StreamRecv 4)); [|reflexivity].
    split; [discriminate|left; reflexivity].
  - apply (step_would_block demo_w1 1%nat demo_key 0). reflexivity.
Qed.

Lemma demo_reachable3 : reachable [Tau; Tau; Events demo_events] demo_w3.
Proof.
  apply (reachable_step [Tau; Tau] demo_w2 (Events demo_events)); [exact demo_reachable2|].
  apply (step_dispatch demo_w2 demo_events). reflexivity.
Qed.


Example incoming_fifo_witness : incoming_conns (st demo_w3) = [demo_token].
Proof. symmetry. exact (proj1 (incoming_fifo _ demo_w3 demo_token demo_reachable3)). Defined.

Example failed_connect_hangs_witness :
  ∃ s, is_established (st demo_w3) demo_token 2%nat = (s, Pending).
Proof.
  apply (failed_connect_hangs _ demo_w3 demo_token 2%nat demo_reachable3).
  intros Hex. repeat (apply Exists_cons in Hex as [[Hk _]|Hex]; [discriminate Hk|]). by apply Exists_nil in Hex.
Defined.

Example finish_races_with_close_witness :
  ∃ tr w, reachable tr w ∧ phase_of w 1%nat = Finishing demo_key ∧
    remove_waker (stop (st w)) demo_token (StreamRecv 4) = Panic.
Proof.
  destruct (finish_races_with_close _ demo_w2 1%nat demo_token (StreamRecv 4) demo_reachable2)
    as (tr&w&Hr&Hp&_&Hpanic).
  - split; [|right; exists 0%nat; reflexivity]. intros t' Hne. simpl.
    rewrite !fn_lookup_insert_ne by congruence. discriminate.
  - exists tr, w. split; [exact Hr|]. split; [exact Hp|exact Hpanic].
Defined.
End witnesses.
End Tasks.
