(* ===== verification/FuturesMio.v ===== *)
(** The futures over one group: what a single poll of a future returns, the background thread
    that drives them, and the instance over mio of [crates/mio/src/futures.rs]. *)
From stdpp Require Import functions.
From S2P Require Import Prelude Api EventQueue QuicheApi QuicheReference UdpSocket Acceptor Group.
From S2P Require Import GroupSafety MioGroup MioSafety MioPoll FuturesGroup FuturesTasks.
Import Acceptor.

Module FuturesMio.

(** * mio as the underlying group *)

Section instance.
Context `{QuicheEndpoint} `{!PriorityQueue Event} `{HashIter} `{OverflowChecks} `{MioOps}.
Context {Unparker : Type} (clock : nat → Instant).
Abbreviation PollGroup := (@Group.Group _ _ Unparker).
Context (others : nat → PollGroup → PollGroup) (entropy : nat → (nat → list byte) * Z).
Context (new_parker : nat → Unparker) (fuel : nat).

(** The methods of [MioGroup]; [fuel] bounds its [poll]. *)
Definition mio_quic_bind : QuicBind := {|
  Q := @MioGroup.Group _ _ _ _ _ Unparker;
  QbError := ErrorKind;
  to_io e := e;
  qb_bind l a := MioGroup.bind l a;
  qb_local_addrs := MioGroup.local_addrs;
  qb_len := MioGroup.len;
  qb_register := MioGroup.register clock;
  qb_deregister := MioGroup.deregister;
  qb_poll q events := MioGroup.poll clock others entropy new_parker fuel q events;
  qb_close q := MioGroup.close clock q;
  qb_stream_open q := MioGroup.stream_open clock q;
  qb_stream_shutdown q := MioGroup.stream_shutdown clock q;
  qb_stream_send q := MioGroup.stream_send clock q;
  qb_stream_recv q := MioGroup.stream_recv clock q;
  qb_connect q name local peer config :=
    MioGroup.connect clock q name local peer config (entropy (MioGroup.turn q)).1;
|}.
End instance.

(** * One poll of a future *)

Import AsyncGroup Tasks.

Section futures.
Context `{QuicBind} {Waker : Type} `{EqDecision Waker}.
Abbreviation AGroup := (@AsyncGroup.Group _ _ _ Waker).
Implicit Types (self : AGroup) (s : State Waker) (w : Waker) (stream : QuicStream).

Lemma remove_inserted s token event w :
  ∃ s', remove_waker (insert_waker s token event w) token event = Ret s' ∧
    wakers s' !! token ≫= (.!! event) = None ∧ queues s' = queues s ∧ woken s' = woken s.
Proof.
  unfold remove_waker, insert_waker. destruct s; simpl. rewrite lookup_insert_eq. simpl.
  eexists. split; [reflexivity|]. simpl. rewrite lookup_insert_eq. simpl. by rewrite lookup_delete_eq.
Qed.

(** What the last section makes of the group's answer. *)
Definition answered {A} s token event w (r : io_result A) (s' : State Waker) (p : Poll (io_result A)) : Prop :=
  queues s' = queues s ∧ woken s' = woken s ∧
  match r with
  | Ok a => p = Ready (Ok a) ∧ wakers s' !! token ≫= (.!! event) = None
  | Err WouldBlock => p = Pending ∧ registered s' (OnEvent token event) w
  | Err e => p = Ready (Err e)
  end.

Lemma op_end_spec {A} s token event w (r : io_result A) :
  op_end (insert_waker s token event w) token event r ⇓ λ '(s', p), answered s token event w r s' p.
Proof.
  destruct (insert_waker_carries s token event w) as (_&Hreg&Hl).
  pose proof (insert_waker_queues s token event w) as Hq. unfold op_end, answered.
  destruct r as [a|[]]; simpl; try by split_and!.
  destruct (remove_inserted s token event w) as (s'&->&?&?&?). simpl. by split_and!.
Qed.

(** C25.  One poll of [send], [recv] or [open] with no other thread in between returns whenever
    the group's method does, and maps its answer faithfully: a success is passed on and the
    waker is taken back; [WouldBlock] becomes [Pending], and the waker stays registered;
    another error is passed on.  On a stream that was shut down, [send] fails and [recv] reports
    the end of the stream, and neither calls the group or registers a waker. *)
Theorem future_poll_spec self stream buf fin w conn kind nb :
  stopped (state self) = false →
  (shutdown stream = true →
     send self stream buf fin w = Ret (self, Ready (Err OtherKind)) ∧
     recv self stream buf w = Ret (self, buf, Ready (Ok (0, true)))) ∧
  (shutdown stream = false →
     (∀ q r, qb_stream_send (group self) (stream_token stream) (stream_id stream) buf fin = Ret (q, r) →
        send self stream buf fin w ⇓ λ '(self', p), group self' = q ∧
          answered (state self) (stream_token stream) (StreamSend (stream_id stream)) w
            (map_err to_io r) (state self') p) ∧
     (∀ q b r, qb_stream_recv (group self) (stream_token stream) (stream_id stream) buf = Ret (q, b, r) →
        recv self stream buf w ⇓ λ '(self', b', p), group self' = q ∧ b' = b ∧
          answered (state self) (stream_token stream) (StreamRecv (stream_id stream)) w
            (map_err to_io r) (state self') p)) ∧
  (∀ q r, qb_stream_open (group self) (conn_token conn) kind nb = Ret (q, r) →
     open_poll self conn kind nb w ⇓ λ '(self', p), group self' = q ∧
       ∃ p', answered (state self) (conn_token conn) (open_event kind) w
         (map_err to_io r) (state self') p' ∧
       p = poll_map (map_ok (option_map (λ id, MkQuicStream (conn_token conn) id false false))) p').
Proof.
  intros Hs. unfold send, recv, open_poll, op_begin. rewrite Hs. split_and!.
  - by intros ->.
  - intros ->. split.
    + intros q r ->. simpl. wp_step. eapply wp_mono; [apply op_end_spec|]. by intros [s' p] Ha.
    + intros q b r ->. simpl. wp_step. eapply wp_mono; [apply op_end_spec|]. by intros [s' p] Ha.
  - intros q r ->. simpl. wp_step. eapply wp_mono; [apply op_end_spec|]. intros [s' p] Ha. simpl. eauto.
Qed.

(** * The background thread *)

Lemma run_once_stopped self self' r :
  run_once self = Ret (self', r) → stopped (state self) = false →
  stopped (state self') = false ∧ r ≠ Ok true.
Proof.
  unfold run_once. intros ([[q evs] [next|e]]&_&Hr)%bind_Ret_inv Hs; [|by simplify_eq].
  apply bind_Ret_inv in Hr as (s'&Hd&Hr). apply dispatch_all_queues in Hd as (Hs'&_).
  simpl in Hs'. rewrite Hs', Hs, andb_false_r in Hr.
  injection Hr as <- <-. split; [|done]. simpl. congruence.
Qed.

(** The background thread returns successfully. *)
Definition ends self : Prop := ∃ fuel self', run fuel self = Ret (self', Ok ()).

(** C38.  [stop] does not stop the background thread.  It wakes the waiting tasks and leaves
    [stopped] as it is, which nothing in the source ever sets; so [run] never returns
    successfully, before or after [stop], however many connections are left: it
    ends only by an error of the group's [poll]. *)
Theorem run_never_stops self :
  stopped (state self) = false → ¬ ends self ∧ ¬ ends (set_state self (stop (state self))).
Proof.
  assert (∀ self, stopped (state self) = false → ¬ ends self) as Hrun.
  { intros self1 Hs (fuel&self'&Hr). revert self1 Hs Hr. induction fuel as [|fuel IH];
      intros self1 Hs; cbn [run]; intros ([self2 r]&Ho&Hr)%bind_Ret_inv;
      destruct (run_once_stopped _ _ _ Ho Hs) as [Hs2 Hne]; destruct r as [[]|e]; try done.
    by eapply IH. }
  intros Hs. split; apply Hrun; [done|]. simpl.
  by destruct (queues_eq _ _ (stop_queues (state self))) as [-> _].
Qed.
End futures.

(** * Witnesses, over the reference mio *)

Section witnesses.
Import QueueReference QuicheReference UdpReference GroupSafety MioPoll.
#[local] Instance checked : OverflowChecks := true.
#[local] Instance demo_bind : QuicBind :=
  mio_quic_bind demo_clock alone demo_entropy demo_parker 1.

Definition demo_group : @AsyncGroup.Group _ _ _ nat := AsyncGroup.MkGroup demo_mio default_state.
Definition demo_stream : QuicStream := MkQuicStream (MkToken 0) 4 true false.

Example future_poll_spec_witness :
  send demo_group demo_stream [x01] true 7%nat = Ret (demo_group, Ready (Err OtherKind)).
Proof.
  exact (proj1 (proj1 (future_poll_spec demo_group demo_stream [x01] true 7%nat
    (MkQuicConn (MkToken 0) false) Uni true eq_refl) eq_refl)).
Defined.

Example run_never_stops_witness : ¬ ends (set_state demo_group (stop (state demo_group))).
Proof. exact (proj2 (run_never_stops demo_group eq_refl)). Defined.

(** The first turn of the thread over the demonstration group sends the packet of its
    connection, then fails with the error of the poller. *)
Example demo_turn :
  match run_once demo_group with Ret (_, Err OtherKind) => true | _ => false end = true.
Proof. vm_compute. reflexivity. Qed.
End witnesses.
End FuturesMio.
