(* ===== verification/FuturesPanics.v ===== *)
(** What cannot stop the futures over mio: of the panics in [crates/futures/src/lib.rs], those
    that rely on what the group answers and announces. *)
From stdpp Require Import functions.
From S2P Require Import Prelude Api EventQueue QuicheApi QuicheReference Utils FixedBuf UdpSocket.
From S2P Require Import Connection ConnLock Acceptor Group GroupSafety GroupEvents MioGroup MioSafety MioPoll.
From S2P Require Import FuturesGroup FuturesTasks FuturesMio.
Import GroupEvents Acceptor.

Module FuturesPanics.

(** * The events of the mio loop *)

Section mio.
Import MioGroup.
Context `{QuicheEndpoint} `{!PriorityQueue Event} `{!PriorityQueueLaws Event} `{HashIter} `{OverflowChecks} `{MioOps}.
Context {Unparker : Type} (clock : nat → Instant).
Abbreviation PollGroup := (@Group.Group _ _ Unparker).
Abbreviation MGroup := (@MioGroup.Group _ _ _ _ _ Unparker).
Context (others : nat → PollGroup → PollGroup) (entropy : nat → (nat → list byte) * Z).
Context (new_parker : nat → Unparker).
Implicit Types (self : MGroup) (socket : nat).

(** The other threads run methods of the group. *)
Definition by_methods : Prop := ∀ k g, sections clock g (others k g).
Context (Hothers : by_methods).

Abbreviation quiet_mio self := (quiet_group (group self)).
Abbreviation stays_quiet m := (yields m (λ '(self', _), quiet_mio self')).

Lemma enter_quiet self : quiet_mio self → quiet_mio (enter others self).
Proof. apply sections_quiet with clock, Hothers. Qed.

Lemma socket_send_quiet self socket buf target : quiet_mio self → stays_quiet (socket_send self socket buf target).
Proof.
  intros Hq. unfold socket_send. apply yields_bind, yields_any. intros s.
  by apply yields_bind, yields_any; intros [s' r].
Qed.

Lemma on_quic_send_quiet self token : quiet_mio self → stays_quiet (on_quic_send clock others self token).
Proof.
  intros Hq%enter_quiet. unfold on_quic_send. apply yields_bind. eapply yields_mono; [by apply send_quiet|].
  intros [[g b] r] Hg. destruct (would_block r) as [[[n info]|e]|]; try done.
  apply yields_bind, yields_any; intros _. apply yields_bind, yields_any; intros buf.
  apply yields_bind, yields_any; intros i. by apply socket_send_quiet.
Qed.

Lemma on_udp_send_quiet self token : quiet_mio self → stays_quiet (on_udp_send self token).
Proof.
  intros Hq. unfold on_udp_send. apply yields_bind, yields_any; intros s.
  by apply yields_bind, yields_any; intros [s' r].
Qed.

Lemma server_dispatch_quiet fuel self a token buf n from parker :
  quiet_mio self → stays_quiet (server_dispatch clock others entropy fuel self a token buf n from parker).
Proof.
  revert self a buf. induction fuel as [|fuel IH]; intros self a buf Hq; cbn [server_dispatch];
    apply yields_bind, yields_any; intros s; apply enter_quiet in Hq;
    destruct (entropy _) as [rand_bytes sys_now]; apply yields_bind;
    (eapply yields_mono; [by apply recv_with_acceptor_quiet|]); intros [[[g a'] b] r] Hg;
    destruct r as [[size info]|[]]; try done; try (by apply IH);
    (case_bool_decide; [done|]); apply yields_bind, yields_any; intros buf'; by apply socket_send_quiet.
Qed.

Lemma client_loop_quiet fuel self dcid token buf from parker :
  quiet_mio self → stays_quiet (client_loop clock others fuel self dcid token buf from parker).
Proof.
  revert self buf. induction fuel as [|fuel IH]; intros self buf Hq; cbn [client_loop];
    apply yields_bind, yields_any; intros s; apply enter_quiet in Hq;
    apply yields_bind, yields_any; intros data; apply yields_bind;
    (eapply yields_mono; [by apply recv_with_connection_id_quiet|]); intros [[g b] r] Hg;
    apply yields_bind, yields_any; intros buf'; destruct r as [?|[]]; try done; by apply IH.
Qed.

Lemma client_dispatch_quiet fuel self token buf from parker :
  quiet_mio self → stays_quiet (client_dispatch clock others fuel self token buf from parker).
Proof.
  intros Hq. unfold client_dispatch. apply yields_bind, yields_any; intros data.
  destruct (header_from_slice data) as [b header]. apply yields_bind, yields_any; intros buf'.
  destruct (map_err _ _); [by apply client_loop_quiet|done].
Qed.

Lemma recv_loop_quiet fuel self token parker :
  quiet_mio self → stays_quiet (recv_loop clock others entropy fuel self token parker).
Proof.
  revert self. induction fuel as [|fuel IH]; intros self Hq; cbn [recv_loop];
    apply yields_bind, yields_any; intros s; apply yields_bind, yields_any; intros [[s' buf] r];
    destruct (io_would_block _) as [[from|e]|]; try done; apply yields_bind.
  assert (∀ m : exec (MGroup * io_result unit), stays_quiet m →
    yields m (λ a, yields (let '(self, r) := a in match r with
      | Ok _ => recv_loop clock others entropy fuel self token parker
      | Err e => Ret (self, Err e) end) (λ '(self', _), quiet_mio self'))) as Hloop.
  { intros m Hm. eapply yields_mono; [exact Hm|]. intros [self1 [u|e]] Hq1; [by apply IH|done]. }
  destruct (acceptor _); apply Hloop; [by apply server_dispatch_quiet|by apply client_dispatch_quiet].
Qed.

Lemma on_mio_events_quiet fuel self events :
  quiet_mio self → stays_quiet (on_mio_events clock others entropy new_parker fuel self events).
Proof.
  revert self. induction events as [|ev events IH]; intros self Hq; cbn [on_mio_events]; [done|].
  apply yields_bind. apply (yields_mono _ (λ '(self', _), quiet_mio self')).
  2: { intros [self1 [u|e]] Hq1; [by apply IH|done]. }
  unfold on_mio_event. case_bool_decide; [done|]. apply yields_bind.
  apply (yields_mono _ (λ '(self', _), quiet_mio self')).
  - destruct (me_readable ev); [|done]. apply yields_bind, yields_any. intros _. by apply recv_loop_quiet.
  - intros [self1 [u|e]] Hq1; [|done]. destruct (me_writable ev); [by apply on_udp_send_quiet|done].
Qed.

Lemma mio_poll_once_quiet fuel self deadline :
  quiet_mio self → stays_quiet (mio_poll_once clock others entropy new_parker fuel self deadline).
Proof.
  intros Hq. unfold mio_poll_once.
  set (p := match deadline with Some _ => _ | None => (self, None) end).
  assert (quiet_mio p.1) as Hp.
  { subst p. destruct deadline; [|done]. pose proof (now_quiet clock _ Hq). by destruct (Group.now _ _). }
  destruct p as [self1 timeout]. destruct (mio_poll _ _) as [q [evs|e]]; [|done].
  by apply on_mio_events_quiet.
Qed.

(** What the loop keeps for its caller, of events that are not [ReadLock]. *)
Definition dispatchable (e : Event) : Prop :=
  match ev_kind e with EvSend | EvRecv | EvReadLock => False | _ => True end.

Lemma filter_events_quiet self drained acc :
  quiet_mio self → Forall (λ e, ev_kind e ≠ EvReadLock) drained → Forall dispatchable acc →
  yields (filter_events clock others self drained acc) (λ '(self', out, _),
    quiet_mio self' ∧ Forall dispatchable out).
Proof.
  revert self acc. induction drained as [|e drained IH]; intros self acc Hq Hd Hacc; cbn [filter_events]; [done|].
  apply Forall_cons in Hd as [He Hd].
  destruct (ev_kind e) eqn:Hk; try (apply IH; [done..|apply Forall_app; split; [done|]]; repeat constructor; unfold dispatchable; by rewrite Hk).
  - apply yields_bind. eapply yields_mono; [by apply on_quic_send_quiet|].
    intros [self1 [u|err]] Hq1; [by apply IH|done].
  - apply yields_bind. simpl. by apply IH.
Qed.

Lemma mio_poll_quiet fuel self :
  quiet_mio self → yields (poll clock others entropy new_parker fuel self []) (λ '(self', out, _),
    quiet_mio self' ∧ Forall dispatchable out).
Proof.
  revert self. induction fuel as [|fuel IH]; intros self Hq%enter_quiet; cbn [poll]; apply yields_bind;
    (eapply yields_mono; [by apply group_poll_quiet|]); intros [[g evs] next] [Hg Hevs];
    apply yields_bind; (eapply yields_mono; [by apply filter_events_quiet|]);
    intros [[self2 out] [u|e]] [Hq2 Hout]; try done;
    (destruct (bool_decide_reflect (out = [])) as [->|]; [|done]); [done|].
  apply yields_bind. eapply yields_mono; [by apply mio_poll_once_quiet|].
  intros [self3 [u3|e]] Hq3; [by apply IH|done].
Qed.
End mio.

(** * What the group answers *)

Section answers.
Import QuicConn.
Context `{QuicheEndpoint} `{!PriorityQueue Event} `{HashIter} `{OverflowChecks}.
Context {Unparker : Type} (clock : nat → Instant).
Abbreviation PollGroup := (@Group.Group _ _ Unparker).
Implicit Types (self : QuicConn).

(** An error that [WouldBlock] does not take for [Pending]. *)
Definition final {A} (r : result A (Error QError)) : Prop := r ≠ Err Busy ∧ r ≠ Err Retry.

Lemma stream_close_prv_final c id err : final (stream_close_prv c id err).2.
Proof.
  assert (∀ A (r : result A QError), final (done_ok r)) as Hdone.
  { intros A [a|e]; simpl; [done|]. by case_bool_decide. }
  assert (∀ c, final (let '(c, r) := q_stream_send c id [] true in (c, done_ok r)).2) as Hsend.
  { intros c1. destruct (q_stream_send _ _ _ _). apply Hdone. }
  assert (∀ c, final (if stream_finished c id then (c, Ok ()) else
    let '(c, r) := q_stream_shutdown c id ShutdownRead err in (c, done_ok r)).2) as Hrecv.
  { intros c1. destruct (stream_finished _ _); [done|]. destruct (q_stream_shutdown _ _ _ _). apply Hdone. }
  unfold stream_close_prv. destruct (is_bidi id); [|by destruct (is_local _ _)].
  specialize (Hrecv c). destruct (if stream_finished _ _ then _ else _) as [c1 [u|e]]; [apply Hsend|apply Hrecv].
Qed.

Lemma stream_close_final self id err now r :
  yields (stream_close self id err now r) (λ '(_, _, res), final res).
Proof.
  apply yields_bind, yields_any. intros [self1 locked].
  destruct locked as [ctx|[]]; simpl; try done.
  pose proof (stream_close_prv_final (wrapped self1) id err) as Hf. destruct (stream_close_prv _ _ _) as [c res].
  apply yields_bind, yields_any. by intros [[self2 r2] b].
Qed.

Lemma stream_open_some self kind now r :
  yields (stream_open self kind false now r) (λ '(_, _, res), res ≠ Ok None).
Proof.
  apply yields_bind, yields_any. intros [self1 [ctx|e]]; [|done].
  apply yields_bind, yields_any. intros [self2 [id|[]]]; apply yields_bind, yields_any; by intros [[self3 r3] b].
Qed.

Lemma group_shutdown_final (g : PollGroup) t id err :
  yields (Group.stream_shutdown clock g t id err) (λ '(_, res), final res).
Proof.
  unfold Group.stream_shutdown. destruct (Group.conns g !! t) as [conn|]; [|done].
  destruct (Group.now clock g) as [g1 at_]. apply yields_bind.
  eapply yields_mono; [apply stream_close_final|]. by intros [[conn' r'] res].
Qed.

Lemma group_open_some (g : PollGroup) t kind :
  yields (Group.stream_open clock g t kind false) (λ '(_, res), res ≠ Ok None).
Proof.
  unfold Group.stream_open. destruct (Group.conns g !! t) as [conn|]; [|done].
  destruct (Group.now clock g) as [g1 at_]. apply yields_bind.
  eapply yields_mono; [apply stream_open_some|]. by intros [[conn' r'] res].
Qed.
End answers.

(** * The futures *)

Section futures.
Import AsyncGroup Tasks FuturesMio.
Context `{QuicheEndpoint} `{!PriorityQueue Api.Event} `{!PriorityQueueLaws Api.Event} `{HashIter} `{OverflowChecks} `{MioOps}.
Context {Unparker Waker : Type} `{EqDecision Waker} (clock : nat → Instant).
Abbreviation PollGroup := (@Group.Group _ _ Unparker).
Context (others : nat → PollGroup → PollGroup) (entropy : nat → (nat → list byte) * Z).
Context (new_parker : nat → Unparker) (fuel : nat).
#[local] Instance over_mio : QuicBind := mio_quic_bind clock others entropy new_parker fuel.
Abbreviation AGroup := (@AsyncGroup.Group _ _ _ Waker).
Implicit Types (self : AGroup) (w : Waker).

(** Every event that mio's [poll] reports has a handler. *)
Lemma dispatch_all_dispatchable (s : State Waker) evs :
  Forall dispatchable evs → ∃ s', dispatch_all s evs = Ret s'.
Proof.
  intros Hevs. revert s. induction Hevs as [|e evs He _ IH]; intros s; simpl; [by eexists|].
  unfold dispatchable in He. assert (∃ s1, dispatch s e = Ret s1) as [s1 ->].
  { unfold dispatch. destruct (ev_kind e); done || by eexists. }
  apply IH.
Qed.

(** The turns of the background thread; between them the tasks change the shared state, and
    inside them, as [others] says, the group. *)
Inductive turns (self : AGroup) : AGroup → Prop :=
| turns_start : turns self self
| turns_turn self1 self2 : turns self self1 → run_once self1 = Ret (self2, Ok false) → turns self self2
| turns_tasks self1 s : turns self self1 → turns self (set_state self1 s).

Abbreviation quiet_async self := (quiet_group (MioGroup.group (group self))).

Lemma run_once_yields self :
  by_methods clock others → quiet_async self →
  yields (run_once self) (λ '(self', _), quiet_async self') ∧
  (qb_poll (group self) [] ≠ Panic → run_once self ≠ Panic).
Proof.
  intros Ho Hq. pose proof (mio_poll_quiet clock others entropy new_parker Ho fuel (group self) Hq) as Hp.
  unfold run_once. change (qb_poll (group self) []) with
    (MioGroup.poll clock others entropy new_parker fuel (group self) []).
  destruct (MioGroup.poll _ _ _ _ _ _ _) as [[[q evs] [next|e]]| |]; try by split.
  { destruct Hp as [Hq' Hevs]. simpl. destruct (dispatch_all_dispatchable (state self) evs Hevs) as [s ->].
    simpl. by destruct (_ && _). }
  by destruct Hp.
Qed.

Lemma turns_quiet self self' :
  by_methods clock others → turns self self' → quiet_async self → quiet_async self'.
Proof.
  intros Ho Ht Hq. induction Ht as [|self1 self2 _ IH Hr|self1 s _ IH]; [done| |done].
  apply (yields_Ret _ _ _ (proj1 (run_once_yields self1 Ho IH)) Hr).
Qed.

Lemma bind_quiet l a self : bind l a = Ok self → quiet_async self.
Proof.
  unfold bind. simpl. destruct (MioGroup.bind l a) as [q|e] eqn:Hb; [|done]. intros [= <-]. simpl.
  unfold MioGroup.bind in Hb. repeat case_match; simplify_eq/=. apply new_quiet.
Qed.

(** C10.  Over mio, three of the four panics of the binding are out of reach.  The background
    thread never meets an event without a handler, in any of its turns since the group was
    bound, whatever methods the tasks call meanwhile; a blocking [open] gets a stream or an
    error; and the group's answer to the shutdown of a stream is never [WouldBlock].  So each
    of the three panics only if the group itself does. *)
Theorem futures_panics l a self0 self (conn : QuicConn) kind w (stream : QuicStream) :
  by_methods clock others → (∀ wk, (waker_wake wk).2 ≠ Err WouldBlock) →
  bind l a = Ok self0 → turns self0 self →
  (qb_poll (group self) [] ≠ Panic → run_once self ≠ Panic) ∧
  (qb_stream_open (group self) (conn_token conn) kind false ≠ Panic → open_blocking self conn kind w ≠ Panic) ∧
  (qb_stream_shutdown (group self) (stream_token stream) (stream_id stream) 0 ≠ Panic →
   shutdown_stream self stream ≠ Panic).
Proof.
  intros Ho Hwk Hb Ht. split_and!.
  - apply run_once_yields; [done|]. eapply turns_quiet; [done..|by eapply bind_quiet].
  - unfold open_blocking, open_poll, op_begin. destruct (stopped (state self)); [done|]. simpl.
    unfold MioGroup.stream_open. pose proof (group_open_some clock (MioGroup.group (group self)) (conn_token conn) kind) as Hs.
    destruct (Group.stream_open _ _ _ _ _) as [[g r]| |]; try done. intros _. simpl in *.
    unfold MioGroup.wake. destruct (waker_wake _) as [wk [u|[]]]; simpl; try done.
    destruct r as [[id|]|[]]; try done. simpl.
    by destruct (remove_inserted (state self) (conn_token conn) (open_event kind) w) as (s'&->&_).
  - unfold shutdown_stream, shutdown_begin. simpl. case_match; [done|]. simpl.
    unfold MioGroup.stream_shutdown.
    pose proof (group_shutdown_final clock (MioGroup.group (group self)) (stream_token stream) (stream_id stream) 0) as Hs.
    destruct (Group.stream_shutdown _ _ _ _ _) as [[g r]| |]; try done. intros _. simpl in *.
    unfold MioGroup.wake. specialize (Hwk (MioGroup.waker (MioGroup.set_group (group self) g))).
    destruct (waker_wake _) as [wk [u|[]]]; try done. destruct r as [[]|[]], Hs; done.
Qed.
End futures.

(** * Witness *)

Section witnesses.
Import QueueReference QuicheReference UdpReference GroupSafety MioPoll FuturesMio AsyncGroup.
#[local] Instance checked : OverflowChecks := true.

(** Before the first turn another thread registers a connection. *)
Definition registers (k : nat) (g : @Group.Group _ _ nat) : @Group.Group _ _ nat :=
  match k with
  | O => match Group.register demo_clock g busy_conn with Ret (g', _) => g' | _ => g end
  | S _ => g
  end.

Lemma registers_by_methods : by_methods demo_clock registers.
Proof.
  intros k g. exists (λ _, []), ∅, (λ _, []), ∅. destruct k as [|k]; [|apply rtc_refl]. simpl.
  destruct (Group.register demo_clock g busy_conn) as [[g' r]| |] eqn:Hr; [|apply rtc_refl..].
  apply rtc_once. exists (GroupSafety.ARegister busy_conn). split; [done|]. simpl. by rewrite Hr.
Qed.

#[local] Instance registering : QuicBind := over_mio demo_clock registers demo_entropy demo_parker 1.

Lemma not_panic {A} (m : exec A) : match m with Panic => false | _ => true end = true → m ≠ Panic.
Proof. by destruct m. Qed.

Definition fresh_async : @AsyncGroup.Group _ _ _ nat := AsyncGroup.MkGroup demo_bound default_state.

(** The first turn reports the writable stream of the new connection, and dispatches it. *)
Example futures_panics_witness :
  bind (Ok [toy_local]) None = Ok fresh_async ∧ run_once fresh_async ≠ Panic.
Proof.
  split; [reflexivity|].
  apply (futures_panics demo_clock registers demo_entropy demo_parker 1 (Ok [toy_local]) None
    fresh_async fresh_async (MkQuicConn (MkToken 0) false) Bidi 7%nat (MkQuicStream (MkToken 0) 4 false false)
    registers_by_methods); [done|reflexivity|apply turns_start|].
  apply not_panic. vm_compute. reflexivity.
Defined.
End witnesses.
End FuturesPanics.
