(* ===== verification/Wakeups.v ===== *)
(** From the connections to the tasks: an event that the group holds reaches the task that waits
    for it, and the shutdown of a stream ends the waits on it. *)
From stdpp Require Import functions.
From S2P Require Import Prelude Api EventQueue QuicheApi QuicheReference Utils FixedBuf UdpSocket.
From S2P Require Import Connection ConnLock Acceptor Group GroupSafety GroupEvents MioGroup MioSafety MioPoll.
From S2P Require Import FuturesGroup FuturesTasks FuturesMio FuturesPanics.
Import GroupEvents Acceptor.

Module Wakeups.

(** * The way of an event from the readiness queue to a task *)

Section queue.
Context `{!PriorityQueue Event} `{!PriorityQueueLaws Event} `{HashIter}.
Implicit Types r : Readiness.Readiness.

(** The number of events that a queue holds. *)
Definition backlog r : Z :=
  Z.of_nat (size (Readiness.events r)) + Z.of_nat (size (pq_map (Readiness.delayed r))).

Lemma NoDup_size `{Countable K} {A} (m : gmap K A) (l : list K) :
  NoDup l → (∀ k, k ∈ l → is_Some (m !! k)) → (length l ≤ size m)%nat.
Proof.
  intros Hnd Hin. rewrite <-size_dom, <-(size_list_to_set (C := gset K) l) by done.
  apply subseteq_size. intros k Hk%elem_of_list_to_set. by apply elem_of_dom, Hin.
Qed.

(** [poll] hands out every event that is due, and no more than the queue holds. *)
Lemma poll_due r threshold now :
  Readiness.poll r [] threshold now ⇓ λ '(_, out, _),
    zlen out ≤ backlog r ∧
    ∀ e o, Readiness.schedule r !! e = Some o → Readiness.due threshold now o → e ∈ out.
Proof.
  eapply wp_mono; [apply Readiness.poll_late|]. intros [[r' out] next] (late&->&Hnd&_&Hlate&_).
  split.
  - rewrite length_app, hash_iter_perm. unfold backlog.
    assert (length late ≤ size (pq_map (Readiness.delayed r)))%nat
      by (apply NoDup_size; [done|]; intros k (?&?&_)%Hlate; by eexists).
    unfold size at 1, set_size. simpl. lia.
  - intros e o. rewrite Readiness.lookup_schedule, elem_of_app, elem_of_hash_iter, Hlate.
    case_decide; [by left|]. intros (rv&Hr&->)%fmap_Some Hdue. right. by exists rv.
Qed.
End queue.

Section events.
Import FuturesPanics MioGroup MioSafety MioPoll AsyncGroup Tasks.
Context `{QuicheIoLaws} `{!QuicheLaws} `{!QuicheEndpointLaws}.
Context `{!PriorityQueue Api.Event} `{!PriorityQueueLaws Api.Event} `{HashIter} `{OverflowChecks}.
Context `{MioOps} `{!UdpLaws}.
Context {Unparker Waker : Type} `{EqDecision Waker} (clock : nat → Instant).
Abbreviation PollGroup := (@Group.Group _ _ Unparker).
Context (others : nat → PollGroup → PollGroup) (entropy : nat → (nat → list byte) * Z).
Context (new_parker : nat → Unparker).
Context (alive : nat → Token → list Session.guard) (delta : Z) (patience : nat).
Abbreviation MGroup := (@MioGroup.Group _ _ _ _ _ Unparker).
Implicit Types (q : MGroup) (e : Api.Event) (t : Waker) (w : @world Waker).

(** The events that a task can wait for are those that mio's [poll] reports. *)
Lemma signals_reported e (k : key) : signals e k → reported e.
Proof. unfold signals, reported. destruct k; [intros [_ Hs]|intros Hs]; destruct (ev_kind e); try done; by intros []. Qed.

(** [e] is due in the readiness queue of [g], by the clock that [poll] reads. *)
Definition due_in (g : PollGroup) e : Prop :=
  ∃ o, Readiness.schedule (Group.readiness g) !! e = Some o ∧
    Readiness.due Group.DEFAULT_RELEASE_TIMER_THRESHOLD (clock (Group.reads g)) o.

Lemma group_poll_due (g : PollGroup) g' out next :
  Group.poll clock g [] = Ret (g', out, next) →
  zlen out ≤ backlog (Group.readiness g) ∧ ∀ e, due_in g e → e ∈ out.
Proof.
  unfold Group.poll. destruct g as [tn cs r up sc unp reads]; simpl.
  intros ([[r' out'] next']&Hp&Hr)%bind_Ret_inv. simplify_eq.
  pose proof (poll_due r Group.DEFAULT_RELEASE_TIMER_THRESHOLD (clock reads)) as Hwp.
  rewrite Hp in Hwp. destruct Hwp as [? Hdue]. split; [done|]. intros e (o&?&?). by eapply Hdue.
Qed.

End events.

(** * The shutdown of a stream *)

Section shutdown.
Import AsyncGroup Tasks.
Context `{QuicBind} {Waker : Type} `{EqDecision Waker}.
Abbreviation AGroup := (@AsyncGroup.Group _ _ _ Waker).
Implicit Types (self : AGroup) (s : State Waker) (t wk : Waker) (stream : QuicStream).

Lemma wake_wakes s token event t n :
  task_ok s t (Parked (OnEvent token event) n) → woken_since n (wake s token event) t.
Proof.
  intros [Hn Hr]. destruct (wake_carries s token event) as (l&Hl&_).
  destruct Hr as [Hr|Hr]; [|by eapply woken_since_app; [..|left]].
  pose proof (wake_signal s s token event t eq_refl eq_refl Hr) as Hin.
  rewrite Hl, drop_app_length in Hin. eapply woken_since_app; [done|done|by right].
Qed.

Lemma shutdown_wakes s token id t k n :
  task_ok s t (Parked k n) → k = OnEvent token (StreamSend id) ∨ k = OnEvent token (StreamRecv id) →
  woken_since n (shutdown_begin s token id).1 t.
Proof.
  intros Hok [-> | ->]; simpl.
  - pose proof (wake_wakes _ _ _ _ _ Hok) as Hw. destruct Hok as [Hn _].
    destruct (wake_carries s token (StreamSend id)) as (l1&Hl1&_).
    destruct (wake_carries (wake s token (StreamSend id)) token (StreamRecv id)) as (l2&Hl2&_).
    eapply woken_since_app; [exact Hl2|rewrite Hl1, length_app; lia|by left].
  - apply wake_wakes. eapply (task_ok_carries s _ nothing t (Parked _ n)); [apply wake_carries|intros ? _ []|done].
Qed.

End shutdown.

(** * Witnesses *)

Section witnesses.
Import QueueReference QuicheReference UdpReference GroupSafety MioPoll FuturesMio FuturesPanics AsyncGroup Tasks.
#[local] Instance checked : OverflowChecks := true.

(** A task waits to send on stream 4 of connection 0. *)
Definition writer_key : key := OnEvent (MkToken 0) (StreamSend 4).
Definition writer_waits : @world nat :=
  MkWorld (insert_waker default_state (MkToken 0) (StreamSend 4) 1%nat)
    (<[1%nat := Calling writer_key 0]> (λ _, Out)).

Lemma writer_reachable : reachable [Tau] writer_waits.
Proof.
  apply (reachable_step [] init Tau); [constructor|].
  apply (step_begin init 1%nat (MkToken 0) (StreamSend 4)); [|reflexivity].
  split; [discriminate|left; reflexivity].
Qed.

Lemma alone_by_methods : by_methods demo_clock alone.
Proof. intros k g. exists (λ _, []), ∅, (λ _, []), ∅. apply rtc_refl. Qed.

Lemma busy_quiet : quiet_group (MioGroup.group busy_mio).
Proof.
  pose proof (register_quiet (Unparker := nat) demo_clock Group.new_group busy_conn new_quiet) as Hq.
  unfold busy_mio, MioGroup.register. change (MioGroup.group demo_bound) with (@Group.new_group _ _ nat).
  destruct (Group.register demo_clock Group.new_group busy_conn) as [[g r]| |]; [|apply new_quiet..].
  cbn [mbind exec_bind]. unfold MioGroup.wake. destruct (waker_wake _). by destruct r.
Qed.


#[local] Instance demo_bind : QuicBind := mio_quic_bind demo_clock alone demo_entropy demo_parker 1.
Definition writer_group : @AsyncGroup.Group _ _ _ nat := AsyncGroup.MkGroup busy_mio (st writer_waits).
Definition writer_stream : QuicStream := MkQuicStream (MkToken 0) 4 false false.

(** The group's answer to the shutdown. *)
Definition shut : exec (Q * result unit QbError) :=
  qb_stream_shutdown (AsyncGroup.group writer_group) (MkToken 0) 4 0.

Lemma unit_ret {A E} (m : exec (A * result unit E)) (d : A) :
  match m with Ret (_, Ok _) => true | _ => false end = true →
  m = Ret (match m with Ret (q, _) => q | _ => d end, Ok ()).
Proof. by destruct m as [[q [[]|e]]| |]. Qed.

Lemma shut_ok : shut = Ret (match shut with Ret (q, _) => q | _ => busy_mio end, Ok ()).
Proof. apply unit_ret. vm_compute. reflexivity. Qed.

End witnesses.
End Wakeups.
